(** * Contract knowledge graph: graph construction, embedding backfill,
      retrieval service and tool facade.

    The development follows the Python sources:
    - [schema.py]            the validated extraction record ([Module Schema]);
    - [02_build_graph.py]    [CREATE_GRAPH_QUERY], [generate_embeddings_for_excerpts];
    - [contract_service.py]  [ContractSearchService];
    - [contract_tools.py]    [ContractTools].

    The Cypher statements are embedded as functions on an explicit property
    graph.  A statement is evaluated clause by clause on a table of rows; a
    [MERGE] returns one row per match and creates the whole pattern when
    there is no match. *)

From stdpp Require Import gmap strings list fin_maps pretty sorting.
From Stdlib Require Import ZArith Lia Ascii.

#[local] Set Warnings "-clear-no-such-hyp".

(** ** The extraction record ([schema.py]) *)

Module Schema.

Record Party := {
  role : string;
  name : string;
  incorporation_country : string;
  incorporation_state : string
}.

Record GoverningLaw := {
  country : string;
  state : string;
  most_favored_country : string
}.

(** [clause_type] is the string value of the [ClauseType] enumeration,
    as it appears in the JSON file handed to the statement. *)
Record ContractClause := {
  clause_type : string;
  exists_ : bool;
  excerpts : list string
}.

(** [contract_id] is the field [load_contracts_from_json] adds to the
    record ([enumerate(json_files, start=1)]). *)
Record Agreement := {
  contract_id : Z;
  agreement_name : string;
  agreement_type : string;
  agreement_date : string;
  effective_date : string;
  expiration_date : string;
  renewal_term : string;
  Notice_period_to_Terminate_Renewal : string;
  parties : list Party;
  governing_law : GoverningLaw;
  clauses : list ContractClause
}.

Record ContractExtraction := { agreement : Agreement }.

End Schema.

(** ** Property graph *)

Inductive label :=
  Agreement | Organization | Country | ContractClause | Excerpt | ClauseType.

Inductive rel_type :=
  GOVERNED_BY_LAW | IS_PARTY_TO | INCORPORATED_IN | HAS_CLAUSE | HAS_EXCERPT | HAS_TYPE.

(** Scalar property values the statements store. *)
Inductive value := VInt (z : Z) | VStr (s : string).

#[global] Instance label_eq_dec : EqDecision label.
Proof. solve_decision. Defined.
#[global] Instance rel_type_eq_dec : EqDecision rel_type.
Proof. solve_decision. Defined.
#[global] Instance value_eq_dec : EqDecision value.
Proof. solve_decision. Defined.

(** An embedding vector.  Its components are opaque to the program (they go
    from the embedding endpoint to the store unchanged), so each float is
    kept as its 64-bit pattern. *)
Definition embedding := list Z.

(** A node: one label, its scalar properties, and the vector-valued
    [embedding] property, which is absent ([None], Cypher's [IS NULL]) until
    the backfill sets it.  The node's [elementId] is its position in
    [nodes]. *)
Record node := Node {
  nlabel : label;
  nprops : gmap string value;
  nembedding : option embedding
}.

(** A relationship; its identity is its position in [rels]. *)
Record rel := Rel {
  rtype : rel_type;
  rsrc : nat;
  rdst : nat;
  rprops : gmap string value
}.

Record graph := Graph {
  nodes : list node;
  rels : list rel
}.

Definition empty_graph : graph := Graph [] [].

(** ** Cypher primitives *)

(** Positions of the elements of [l] that satisfy [p], counted from [i]. *)
Fixpoint find_from {A} (p : A → bool) (i : nat) (l : list A) : list nat :=
  match l with
  | [] => []
  | x :: l' => if p x then i :: find_from p (S i) l' else find_from p (S i) l'
  end.

Definition find_all {A} (p : A → bool) (l : list A) : list nat := find_from p 0 l.

(** [(n:L {k: v})] *)
Definition node_matches (L : label) (k : string) (v : value) (n : node) : bool :=
  bool_decide (nlabel n = L) && bool_decide (nprops n !! k = Some v).

Definition match_nodes (L : label) (k : string) (v : value) (g : graph) : list nat :=
  find_all (node_matches L k v) (nodes g).

(** [(s)-[:t]->(d)] with both end points bound. *)
Definition rel_matches (t : rel_type) (s d : nat) (r : rel) : bool :=
  bool_decide (rtype r = t) && bool_decide (rsrc r = s) && bool_decide (rdst r = d).

Definition match_rels (t : rel_type) (s d : nat) (g : graph) : list nat :=
  find_all (rel_matches t s d) (rels g).

(** [(s)-[:t]->(e:L {k: v})] with only [s] bound. *)
Definition path_matches (g : graph) (t : rel_type) (s : nat) (L : label) (k : string)
    (v : value) (r : rel) : bool :=
  bool_decide (rtype r = t) && bool_decide (rsrc r = s) &&
  match nodes g !! rdst r with
  | Some n => node_matches L k v n
  | None => false
  end.

Definition match_paths (t : rel_type) (s : nat) (L : label) (k : string) (v : value)
    (g : graph) : list nat :=
  find_all (path_matches g t s L k v) (rels g).

(** [CREATE (n)]: the new node gets the next element id. *)
Definition create_node (n : node) (g : graph) : graph * nat :=
  (Graph (nodes g ++ [n]) (rels g), length (nodes g)).

Definition create_rel (r : rel) (g : graph) : graph * nat :=
  (Graph (nodes g) (rels g ++ [r]), length (rels g)).

(** [MERGE (n:L {k: v}) ON CREATE SET n += on_create]: every match is a row;
    without a match the node is created. *)
Definition merge_node (L : label) (k : string) (v : value) (on_create : gmap string value)
    (g : graph) : graph * list nat :=
  match match_nodes L k v g with
  | [] => let '(g', i) := create_node (Node L (<[k:=v]> on_create) None) g in (g', [i])
  | ms => (g, ms)
  end.

(** [MERGE (s)-[r:t]->(d)] *)
Definition merge_rel (t : rel_type) (s d : nat) (g : graph) : graph * list nat :=
  match match_rels t s d g with
  | [] => let '(g', i) := create_rel (Rel t s d ∅) g in (g', [i])
  | ms => (g, ms)
  end.

(** [MERGE (s)-[:t]->(e:L {k: v})] with [e] unbound: the pattern is matched
    as a whole from [s]; without a match both the node and the relationship
    are created. *)
Definition merge_path (t : rel_type) (s : nat) (L : label) (k : string) (v : value)
    (g : graph) : graph * list nat :=
  match match_paths t s L k v g with
  | [] =>
      let '(g1, e) := create_node (Node L {[k:=v]} None) g in
      let '(g2, i) := create_rel (Rel t s e ∅) g1 in (g2, [i])
  | ms => (g, ms)
  end.

(** [SET r.k = v] on the relationship [i]. *)
Definition set_rel_prop (i : nat) (k : string) (v : value) (g : graph) : graph :=
  Graph (nodes g)
        (alter (λ r, Rel (rtype r) (rsrc r) (rdst r) (<[k:=v]> (rprops r))) i (rels g)).

(** A clause is run on every row of its input table in turn; the rows it
    yields are concatenated. *)
Fixpoint per_row {A B} (f : A → graph → graph * list B) (rows : list A) (g : graph)
    : graph * list B :=
  match rows with
  | [] => (g, [])
  | r :: rows' =>
      let '(g1, out1) := f r g in
      let '(g2, out2) := per_row f rows' g1 in
      (g2, out1 ++ out2)
  end.

(** [FOREACH (x IN xs | body)], and an updating clause that yields no new
    variable, run on every row. *)
Definition foreach {A} (body : A → graph → graph) (xs : list A) (g : graph) : graph :=
  fold_left (λ g x, body x g) xs g.

(** ** [CREATE_GRAPH_QUERY] ([02_build_graph.py]) *)

(** The properties of [ON CREATE SET] on the Agreement node. *)
Definition agreement_on_create (a : Schema.Agreement) : gmap string value :=
  <["Notice_period_to_Terminate_Renewal" := VStr (Schema.Notice_period_to_Terminate_Renewal a)]>
  (<["most_favored_country" := VStr (Schema.most_favored_country (Schema.governing_law a))]>
  (<["renewal_term" := VStr (Schema.renewal_term a)]>
  (<["agreement_type" := VStr (Schema.agreement_type a)]>
  (<["expiration_date" := VStr (Schema.expiration_date a)]>
  (<["effective_date" := VStr (Schema.effective_date a)]>
  (<["name" := VStr (Schema.agreement_name a)]> ∅)))))).

(** The body of [FOREACH (party IN a.parties | ...)] for the row [agreement]. *)
Definition party_body (agreement : nat) (party : Schema.Party) (g : graph) : graph :=
  (* MERGE (p:Organization {name: party.name}) *)
  let '(g, t) := merge_node Organization "name" (VStr (Schema.name party)) ∅ g in
  (* MERGE (p)-[ipt:IS_PARTY_TO]->(agreement) *)
  let '(g, t) :=
    per_row (λ p g, let '(g, rs) := merge_rel IS_PARTY_TO p agreement g in
                    (g, (λ ipt, (p, ipt)) <$> rs)) t g in
  (* SET ipt.role = party.role *)
  let g := foreach (λ '(p, ipt), set_rel_prop ipt "role" (VStr (Schema.role party))) t g in
  (* MERGE (country_of_incorporation:Country {name: party.incorporation_country}) *)
  let '(g, t) :=
    per_row (λ '(p, ipt) g,
               let '(g, cs) :=
                 merge_node Country "name" (VStr (Schema.incorporation_country party)) ∅ g in
               (g, (λ c, (p, c)) <$> cs)) t g in
  (* MERGE (p)-[incorporated:INCORPORATED_IN]->(country_of_incorporation) *)
  let '(g, t) :=
    per_row (λ '(p, c) g, merge_rel INCORPORATED_IN p c g) t g in
  (* SET incorporated.state = party.incorporation_state *)
  foreach (λ incorporated,
             set_rel_prop incorporated "state" (VStr (Schema.incorporation_state party))) t g.

(** The body of [FOREACH (clause IN valid_clauses | ...)] for the row
    [agreement]. *)
Definition clause_body (agreement : nat) (clause : Schema.ContractClause) (g : graph)
    : graph :=
  let ty := VStr (Schema.clause_type clause) in
  (* CREATE (cl:ContractClause {type: clause.clause_type}) *)
  let '(g, cl) := create_node (Node ContractClause {["type" := ty]} None) g in
  (* MERGE (agreement)-[clt:HAS_CLAUSE]->(cl) *)
  let '(g, t) := merge_rel HAS_CLAUSE agreement cl g in
  (* SET clt.type = clause.clause_type *)
  let g := foreach (λ clt, set_rel_prop clt "type" ty) t g in
  (* FOREACH (excerpt IN clause.excerpts |
       MERGE (cl)-[:HAS_EXCERPT]->(e:Excerpt {text: excerpt})) *)
  let g :=
    foreach (λ _ : nat,
               foreach (λ excerpt g, fst (merge_path HAS_EXCERPT cl Excerpt "text"
                                                     (VStr excerpt) g))
                       (Schema.excerpts clause)) t g in
  (* MERGE (clType:ClauseType {name: clause.clause_type}) *)
  let '(g, t) :=
    per_row (λ _ : nat, merge_node ClauseType "name" ty ∅) t g in
  (* MERGE (cl)-[:HAS_TYPE]->(clType) *)
  fst (per_row (λ clType, merge_rel HAS_TYPE cl clType) t g).

(** [[clause IN a.clauses WHERE clause.exists = true]] *)
Definition valid_clauses (a : Schema.Agreement) : list Schema.ContractClause :=
  filter (λ clause, Schema.exists_ clause = true) (Schema.clauses a).

(** The statement up to the [WITH] that starts the clause part: the upsert
    of the Agreement, its governing-law country and its parties.  It yields
    the graph and the table of [agreement] rows. *)
Definition upsert_agreement (a : Schema.Agreement) (g : graph) : graph * list nat :=
  (* MERGE (agreement:Agreement {contract_id: a.contract_id}) ON CREATE SET ... *)
  let '(g, t) :=
    merge_node Agreement "contract_id" (VInt (Schema.contract_id a))
               (agreement_on_create a) g in
  (* MERGE (gl_country:Country {name: a.governing_law.country}) *)
  let '(g, t) :=
    per_row (λ agreement g,
               let '(g, cs) :=
                 merge_node Country "name"
                            (VStr (Schema.country (Schema.governing_law a))) ∅ g in
               (g, (λ gl_country, (agreement, gl_country)) <$> cs)) t g in
  (* MERGE (agreement)-[gbl:GOVERNED_BY_LAW]->(gl_country) *)
  let '(g, t) :=
    per_row (λ '(agreement, gl_country) g,
               let '(g, rs) := merge_rel GOVERNED_BY_LAW agreement gl_country g in
               (g, (λ gbl, (agreement, gbl)) <$> rs)) t g in
  (* SET gbl.state = a.governing_law.state *)
  let g :=
    foreach (λ '(_, gbl),
               set_rel_prop gbl "state" (VStr (Schema.state (Schema.governing_law a)))) t g in
  (* FOREACH (party IN a.parties | ...) *)
  let g := foreach (λ '(agreement, _), foreach (party_body agreement) (Schema.parties a)) t g in
  (* WITH a, agreement, valid_clauses *)
  (g, fst <$> t).

(** The clause part: [FOREACH (clause IN valid_clauses | ...)] on every row. *)
Definition create_clauses (a : Schema.Agreement) (t : list nat) (g : graph) : graph :=
  foreach (λ agreement, foreach (clause_body agreement) (valid_clauses a)) t g.

Definition CREATE_GRAPH_QUERY (data : Schema.ContractExtraction) (g : graph) : graph :=
  let a := Schema.agreement data in
  let '(g, t) := upsert_agreement a g in
  create_clauses a t g.

(** The ingestion loop of [main]: one execution of the statement per
    loaded contract, in order. *)
Definition build_graph (contracts : list Schema.ContractExtraction) (g : graph) : graph :=
  foreach CREATE_GRAPH_QUERY contracts g.

(** Counting, as in the statistics query of [main]. *)
Definition count_nodes (L : label) (g : graph) : nat :=
  length (filter (λ n, nlabel n = L) (nodes g)).

Definition count_rels (t : rel_type) (g : graph) : nat :=
  length (filter (λ r, rtype r = t) (rels g)).

(** ** Sample records *)

Definition acme : Schema.Party :=
  {| Schema.role := "Vendor"; Schema.name := "Acme Corp";
     Schema.incorporation_country := "USA"; Schema.incorporation_state := "" |}.

Definition insurance : Schema.ContractClause :=
  {| Schema.clause_type := "Insurance"; Schema.exists_ := true;
     Schema.excerpts := ["Vendor shall maintain insurance."] |}.

Definition no_audit : Schema.ContractClause :=
  {| Schema.clause_type := "Audit Rights"; Schema.exists_ := false;
     Schema.excerpts := [] |}.

Definition sample_agreement (id : Z) (nm : string) (ps : list Schema.Party)
    (cs : list Schema.ContractClause) : Schema.ContractExtraction :=
  {| Schema.agreement :=
       {| Schema.contract_id := id; Schema.agreement_name := nm;
          Schema.agreement_type := "Service Agreement"; Schema.agreement_date := "";
          Schema.effective_date := "2024-01-01"; Schema.expiration_date := "";
          Schema.renewal_term := ""; Schema.Notice_period_to_Terminate_Renewal := "";
          Schema.parties := ps;
          Schema.governing_law :=
            {| Schema.country := "USA"; Schema.state := "Delaware";
               Schema.most_favored_country := "USA" |};
          Schema.clauses := cs |} |}.

Definition msa_001 : Schema.ContractExtraction :=
  sample_agreement 1 "MSA-001" [acme] [insurance; no_audit].

Definition msa_002 : Schema.ContractExtraction :=
  sample_agreement 2 "MSA-002" [acme] [insurance].

(** ** Vocabulary of the properties *)

(** What a relationship connects, without its properties. *)
Definition rel_shape (r : rel) : rel_type * nat * nat := (rtype r, rsrc r, rdst r).

Definition shapes (g : graph) : list (rel_type * nat * nat) := rel_shape <$> rels g.

(** The property a label is merged on by [CREATE_GRAPH_QUERY]. *)
Definition key_of (L : label) : option string :=
  match L with
  | Agreement => Some "contract_id"
  | Organization | Country | ClauseType => Some "name"
  | ContractClause | Excerpt => None
  end.

(** The graphs the statement builds: at most one node per merge key, no
    parallel relationships of one type, no dangling relationship.  The empty
    graph is such a graph and the statement keeps the property (see
    [wf_CREATE_GRAPH_QUERY]). *)
Record wf (g : graph) : Prop := {
  wf_keys : ∀ L k v i j n m,
    key_of L = Some k → nodes g !! i = Some n → nodes g !! j = Some m →
    node_matches L k v n = true → node_matches L k v m = true → i = j;
  wf_rels : NoDup (shapes g);
  wf_ends : ∀ t s d, (t, s, d) ∈ shapes g → s < length (nodes g) ∧ d < length (nodes g)
}.

(** [g'] is [g] with the nodes [ns] and relationships of shapes [ss] added
    (properties of old relationships may differ). *)
Definition added (g g' : graph) (ns : list node) (ss : list (rel_type * nat * nat)) : Prop :=
  nodes g' = nodes g ++ ns ∧ shapes g' = shapes g ++ ss.

Definition ext (g g' : graph) : Prop := ∃ ns ss, added g g' ns ss.

(** Only nodes with a label in [Ls] and relationships with a type in [Ts]
    are added. *)
Definition adds_only (Ls : list label) (Ts : list rel_type) (g g' : graph) : Prop :=
  ∃ ns ss, added g g' ns ss ∧
           Forall (λ n, nlabel n ∈ Ls) ns ∧ Forall (λ s, s.1.1 ∈ Ts) ss.

(** The upsert of [party] for the agreement node [ag] has been done. *)
Definition party_done (ag : nat) (party : Schema.Party) (g : graph) : Prop :=
  ∃ p c,
    p ∈ match_nodes Organization "name" (VStr (Schema.name party)) g ∧
    (IS_PARTY_TO, p, ag) ∈ shapes g ∧
    c ∈ match_nodes Country "name" (VStr (Schema.incorporation_country party)) g ∧
    (INCORPORATED_IN, p, c) ∈ shapes g.

(** The upsert of the Agreement, its governing law and its parties has
    been done. *)
Definition header_done (a : Schema.Agreement) (g : graph) : Prop :=
  ∃ ag gl,
    ag ∈ match_nodes Agreement "contract_id" (VInt (Schema.contract_id a)) g ∧
    gl ∈ match_nodes Country "name" (VStr (Schema.country (Schema.governing_law a))) g ∧
    (GOVERNED_BY_LAW, ag, gl) ∈ shapes g ∧
    Forall (λ party, party_done ag party g) (Schema.parties a).

(** The clause node [cl] has an Excerpt with the text [x]: the pattern
    [(cl)-[:HAS_EXCERPT]->(:Excerpt {text: x})] matches. *)
Definition linked (g : graph) (cl : nat) (x : string) : Prop :=
  match_paths HAS_EXCERPT cl Excerpt "text" (VStr x) g ≠ [].

(** The number of distinct excerpt strings, clause by clause. *)
Definition distinct_excerpts (cs : list Schema.ContractClause) : nat :=
  sum_list ((λ c, length (remove_dups (Schema.excerpts c))) <$> cs).

(** Every clause type of [cs] has its ClauseType node. *)
Definition clause_types_done (cs : list Schema.ContractClause) (g : graph) : Prop :=
  Forall (λ c, match_nodes ClauseType "name" (VStr (Schema.clause_type c)) g ≠ []) cs.

(** The number of ContractClause nodes of the agreement node [ag]: its
    outgoing [HAS_CLAUSE] relationships. *)
Definition clause_nodes_of (ag : nat) (g : graph) : nat :=
  length (filter (λ s, s.1.1 = HAS_CLAUSE ∧ s.1.2 = ag) (shapes g)).

(** The record without the clauses that were not found in the contract. *)
Definition drop_absent (data : Schema.ContractExtraction) : Schema.ContractExtraction :=
  let a := Schema.agreement data in
  {| Schema.agreement :=
       {| Schema.contract_id := Schema.contract_id a;
          Schema.agreement_name := Schema.agreement_name a;
          Schema.agreement_type := Schema.agreement_type a;
          Schema.agreement_date := Schema.agreement_date a;
          Schema.effective_date := Schema.effective_date a;
          Schema.expiration_date := Schema.expiration_date a;
          Schema.renewal_term := Schema.renewal_term a;
          Schema.Notice_period_to_Terminate_Renewal :=
            Schema.Notice_period_to_Terminate_Renewal a;
          Schema.parties := Schema.parties a;
          Schema.governing_law := Schema.governing_law a;
          Schema.clauses := valid_clauses a |} |}.

(** ** [generate_embeddings_for_excerpts] ([02_build_graph.py]) *)

(** [MATCH (e:Excerpt) WHERE e.text IS NOT NULL AND e.embedding IS NULL
     RETURN e.text AS text, elementId(e) AS element_id], on the nodes from
    element id [i] on. *)
Fixpoint pending_from (i : nat) (ns : list node) : list (value * nat) :=
  match ns with
  | [] => []
  | n :: ns' =>
      match nlabel n, nprops n !! "text", nembedding n with
      | Excerpt, Some text, None => (text, i) :: pending_from (S i) ns'
      | _, _, _ => pending_from (S i) ns'
      end
  end.

Definition pending_excerpts (g : graph) : list (value * nat) := pending_from 0 (nodes g).

(** [MATCH (e:Excerpt) WHERE elementId(e) = $element_id
     SET e.embedding = $embedding] *)
Definition embedded (v : embedding) (n : node) : node :=
  if decide (nlabel n = Excerpt) then Node (nlabel n) (nprops n) (Some v) else n.

Definition set_embedding (element_id : nat) (v : embedding) (g : graph) : graph :=
  Graph (alter (embedded v) element_id (nodes g)) (rels g).

(** The lines the function prints. *)
Inductive printed :=
  | AllHaveEmbeddings
  | Generating (n : nat)
  | Processed (i n : nat)
  | FailedExcerpt (i : nat) (e : string)
  | Generated (n : nat).

#[global] Instance printed_eq_dec : EqDecision printed.
Proof. solve_decision. Defined.

Section backfill.
(** The embedding endpoint, for the [i]-th item of the run: a vector, or
    the message of the exception raised inside the [try] block. *)
Variable generate_embedding : nat → value → string + embedding.

(** The [for i, (text, element_id) in enumerate(excerpts, 1)] loop, from
    item [i] on. *)
Fixpoint backfill_loop (total i : nat) (excerpts : list (value * nat))
    (g : graph) (out : list printed) : graph * list printed :=
  match excerpts with
  | [] => (g, out)
  | (text, element_id) :: rest =>
      match generate_embedding i text with
      | inr v =>
          backfill_loop total (S i) rest (set_embedding element_id v g)
            (out ++ if bool_decide (i `mod` 10 = 0) || bool_decide (i = total)
                    then [Processed i total] else [])
      | inl e =>
          backfill_loop total (S i) rest g (out ++ [FailedExcerpt i e])
      end
  end.

(** The function returns [None]: the third component is all its caller
    gets. *)
Definition generate_embeddings_for_excerpts (g : graph) : graph * list printed * unit :=
  let excerpts := pending_excerpts g in
  match excerpts with
  | [] => (g, [AllHaveEmbeddings], tt)
  | _ =>
      let total := length excerpts in
      let '(g', out) := backfill_loop total 1 excerpts g [Generating total] in
      (g', out ++ [Generated total], tt)
  end.
End backfill.

(** ** Python values and JSON *)

(** The values the service returns: [None], [int], [str], [list] and
    [dict] with string keys, in insertion order. *)
#[local] Unset Elimination Schemes.
Inductive json :=
  | JNull
  | JInt (z : Z)
  | JStr (s : string)
  | JArr (items : list json)
  | JObj (members : list (string * json)).
#[local] Set Elimination Schemes.

(** Induction on JSON values, through the lists of items and members. *)
Section json_ind.
Variable P : json → Prop.
Hypothesis Hnull : P JNull.
Hypothesis Hint : ∀ z, P (JInt z).
Hypothesis Hstr : ∀ s, P (JStr s).
Hypothesis Harr : ∀ items, Forall P items → P (JArr items).
Hypothesis Hobj : ∀ members, Forall (λ m, P m.2) members → P (JObj members).

Fixpoint json_ind (j : json) : P j :=
  match j with
  | JNull => Hnull
  | JInt z => Hint z
  | JStr s => Hstr s
  | JArr items =>
      Harr items
        ((fix go (l : list json) : Forall P l :=
            match l with
            | [] => @List.Forall_nil _ P
            | x :: l' => @List.Forall_cons _ P x l' (json_ind x) (go l')
            end) items)
  | JObj members =>
      Hobj members
        ((fix go (l : list (string * json)) : Forall (λ m, P m.2) l :=
            match l with
            | [] => @List.Forall_nil _ (λ m, P m.2)
            | (k, v) :: l' => @List.Forall_cons _ (λ m, P m.2) (k, v) l' (json_ind v) (go l')
            end) members)
  end.
End json_ind.

Definition json_of_value (v : option value) : json :=
  match v with
  | None => JNull
  | Some (VInt z) => JInt z
  | Some (VStr s) => JStr s
  end.

(** A function either returns or raises. *)
Inductive result (A : Type) :=
  | Ok (a : A)
  | Raise (e : string).
Arguments Ok {A} a.
Arguments Raise {A} e.

(** ** Read patterns *)

(** Rows of a pattern over a list, by position.  Cypher fixes no order of
    the rows of a [MATCH] without [ORDER BY]: the order below (the one of
    the relationships in the store) is one the store may choose, and what
    is said of a returned list in terms of the ingested record is said up
    to the order of its entries. *)
Fixpoint collect_from {A B} (f : nat → A → list B) (i : nat) (l : list A) : list B :=
  match l with
  | [] => []
  | x :: l' => f i x ++ collect_from f (S i) l'
  end.

Definition collect_all {A B} (f : nat → A → list B) (l : list A) : list B :=
  collect_from f 0 l.

Definition has_label (L : label) (n : node) : bool := bool_decide (nlabel n = L).

Definition node_sat (g : graph) (P : node → bool) (i : nat) : bool :=
  match nodes g !! i with
  | Some n => P n
  | None => false
  end.

(** The property [k] of the node [i], of the relationship [i]: [None] is
    Cypher's null. *)
Definition node_prop (g : graph) (i : nat) (k : string) : option value :=
  n ← nodes g !! i; nprops n !! k.

Definition rel_prop (g : graph) (i : nat) (k : string) : option value :=
  r ← rels g !! i; rprops r !! k.

(** [node.get(k)] and [rel.get(k)] of the driver's objects. *)
Definition node_get (g : graph) (i : nat) (k : string) : json :=
  json_of_value (node_prop g i k).

Definition rel_get (g : graph) (i : nat) (k : string) : json :=
  json_of_value (rel_prop g i k).

(** [(a)-[r:t]->(x)] with [a] bound and [x] satisfying [P]: rows [(r, x)]. *)
Definition expand_out (t : rel_type) (a : nat) (P : node → bool) (g : graph)
    : list (nat * nat) :=
  collect_all (λ j r, if bool_decide (rtype r = t) && bool_decide (rsrc r = a)
                         && node_sat g P (rdst r)
                      then [(j, rdst r)] else []) (rels g).

(** [(x)-[r:t]->(a)] with [a] bound. *)
Definition expand_in (t : rel_type) (a : nat) (P : node → bool) (g : graph)
    : list (nat * nat) :=
  collect_all (λ j r, if bool_decide (rtype r = t) && bool_decide (rdst r = a)
                         && node_sat g P (rsrc r)
                      then [(j, rsrc r)] else []) (rels g).

(** [(x)-[r:t]-(a)], without direction. *)
Definition expand_any (t : rel_type) (a : nat) (P : node → bool) (g : graph)
    : list (nat * nat) :=
  collect_all (λ j r,
      (if bool_decide (rtype r = t) && bool_decide (rsrc r = a) && node_sat g P (rdst r)
       then [(j, rdst r)] else []) ++
      (if bool_decide (rtype r = t) && bool_decide (rdst r = a)
          && bool_decide (rsrc r ≠ a) && node_sat g P (rsrc r)
       then [(j, rsrc r)] else [])) (rels g).

(** [MATCH (country:Country)-[i:INCORPORATED_IN]-(p:Organization)-[r:IS_PARTY_TO]-(a)]
    for the bound [a]: rows [(p, r, country, i)].  ([i] and [r] differ, as
    their types do.) *)
Definition party_rows (a : nat) (g : graph) : list (nat * nat * nat * nat) :=
  '(r, p) ← expand_any IS_PARTY_TO a (has_label Organization) g;
  '(i, country) ← expand_any INCORPORATED_IN p (has_label Country) g;
  [(p, r, country, i)].

(** The [parties] list the service builds from the collected columns. *)
Definition party_dict (g : graph) (row : nat * nat * nat * nat) : json :=
  let '(p, r, country, i) := row in
  JObj [("name", node_get g p "name");
        ("role", rel_get g r "role");
        ("incorporation_country", node_get g country "name");
        ("incorporation_state", rel_get g i "state")].

Definition error_dict (msg : string) : json := JObj [("error", JStr msg)].

(** The statements the service sends to the store. *)
Inductive statement :=
  | GET_CONTRACT (contract_id : Z)
  | BY_ORGANIZATION (organization_name : string)
  | WITH_CLAUSE_TYPE (clause_type : string)
  | WITHOUT_CLAUSE (clause_type : string)
  | SIMILAR_TEXT (clause_text : string)
  | TEXT2CYPHER (user_question : string)
  | CONTRACT_EXCERPTS (contract_id : Z).

(** Aggregation: the rows are grouped by key, in order of first
    appearance, and the values of a group are collected in row order. *)
Fixpoint group_insert {K V} `{EqDecision K} (k : K) (v : V) (acc : list (K * list V))
    : list (K * list V) :=
  match acc with
  | [] => [(k, [v])]
  | (k', vs) :: acc' =>
      if decide (k = k') then (k', vs ++ [v]) :: acc'
      else (k', vs) :: group_insert k v acc'
  end.

Definition group_by {K V} `{EqDecision K} (rows : list (K * V)) : list (K * list V) :=
  fold_left (λ acc row, group_insert row.1 row.2 acc) rows [].

(** ** [ContractSearchService] ([contract_service.py]) *)

(** The query of [get_contract]; a record is
    [(agreement, clauses, [(p, r, country, i)])]. *)
Definition get_contract_query (contract_id : Z) (g : graph)
    : list (nat * list nat * list (nat * nat * nat * nat)) :=
  (* MATCH (a:Agreement {contract_id: $contract_id})-[:HAS_CLAUSE]->(clause:ContractClause) *)
  let t1 :=
    a ← match_nodes Agreement "contract_id" (VInt contract_id) g;
    clause ← (expand_out HAS_CLAUSE a (has_label ContractClause) g).*2;
    [(a, clause)] in
  (* WITH a, collect(clause) as clauses *)
  let t2 := group_by t1 in
  (* MATCH (country:Country)-[i:INCORPORATED_IN]-(p:Organization)-[r:IS_PARTY_TO]-(a) *)
  let t3 := '(a, clauses) ← t2; row ← party_rows a g; [((a, clauses), row)] in
  (* WITH a, clauses, collect(p), collect(country), collect(r), collect(i) *)
  (λ '((a, clauses), rows), (a, clauses, rows)) <$> group_by t3.

(** The dictionary [get_contract] builds from the first record. *)
Definition contract_detail (g : graph)
    (record : nat * list nat * list (nat * nat * nat * nat)) : json :=
  let '(agreement_node, clauses, rows) := record in
  JObj [("contract_id", node_get g agreement_node "contract_id");
        ("name", node_get g agreement_node "name");
        ("agreement_type", node_get g agreement_node "agreement_type");
        ("effective_date", node_get g agreement_node "effective_date");
        ("expiration_date", node_get g agreement_node "expiration_date");
        ("renewal_term", node_get g agreement_node "renewal_term");
        ("parties", JArr (party_dict g <$> rows));
        ("clauses",
         JArr ((λ clause, JObj [("clause_type", node_get g clause "type")]) <$> clauses))].

(** [driver.execute_query(query, contract_id=contract_id)].  The driver
    packs an integer parameter as a 64-bit integer and raises
    [OverflowError] for any other, before anything is sent.  A statement
    that is sent is answered with its records unless the store fails:
    [store_failure] is the exception the driver raises then
    (ServiceUnavailable, ...), if any.  An exception is named by its
    class. *)
Definition OverflowError : string := "OverflowError".

Definition execute_query {A} (store_failure : option string) (parameter : Z)
    (query : statement) (records : A) : result A * list statement :=
  if decide (- 2 ^ 63 ≤ parameter < 2 ^ 63)%Z then
    match store_failure with
    | Some e => (Raise e, [query])
    | None => (Ok records, [query])
    end
  else (Raise OverflowError, []).

(** The service has no handler: what the driver raises reaches the
    caller. *)
Definition get_contract (store_failure : option string) (contract_id : Z) (g : graph)
    : result json * list statement :=
  if decide (contract_id ≤ 0)%Z then (Ok (error_dict "Contract ID must be positive"), [])
  else
    let '(records, sent) :=
      execute_query store_failure contract_id (GET_CONTRACT contract_id)
                    (get_contract_query contract_id g) in
    (match records with
     | Raise e => Raise e
     | Ok [] => Ok (error_dict ("Contract " +:+ pretty contract_id +:+ " not found"))
     | Ok (record :: _) => Ok (contract_detail g record)
     end, sent).

(** The result rows of the three summary queries: [RETURN a as agreement,
    collect(p) as parties, collect(r) as roles, collect(country) as
    countries, collect(i) as states] over the [a] rows of the first part. *)
Definition summary_records (agreements : list nat) (g : graph)
    : list (nat * list (nat * nat * nat * nat)) :=
  group_by (a ← agreements; row ← party_rows a g; [(a, row)]).

Definition summary_dict (g : graph) (record : nat * list (nat * nat * nat * nat)) : json :=
  let '(agreement_node, rows) := record in
  JObj [("contract_id", node_get g agreement_node "contract_id");
        ("name", node_get g agreement_node "name");
        ("agreement_type", node_get g agreement_node "agreement_type");
        ("parties", JArr (party_dict g <$> rows))].

(** The query of [get_contracts_with_clause_type]. *)
Definition with_clause_type_query (clause_type : string) (g : graph)
    : list (nat * list (nat * nat * nat * nat)) :=
  (* MATCH (a:Agreement)-[:HAS_CLAUSE]->(cc:ContractClause {type: $clause_type}) WITH a *)
  let t1 :=
    a ← find_all (has_label Agreement) (nodes g);
    _ ← expand_out HAS_CLAUSE a (node_matches ContractClause "type" (VStr clause_type)) g;
    [a] in
  summary_records t1 g.

Definition get_contracts_with_clause_type (clause_type : string) (g : graph)
    : json * list statement :=
  (JArr (summary_dict g <$> with_clause_type_query clause_type g),
   [WITH_CLAUSE_TYPE clause_type]).

(** The query of [get_contracts_without_clause]. *)
Definition without_clause_query (clause_type : string) (g : graph)
    : list (nat * list (nat * nat * nat * nat)) :=
  (* MATCH (a:Agreement)
     OPTIONAL MATCH (a)-[:HAS_CLAUSE]->(cc:ContractClause {type: $clause_type})
     WITH a, cc WHERE cc IS NULL WITH a *)
  let t1 :=
    a ← find_all (has_label Agreement) (nodes g);
    match expand_out HAS_CLAUSE a (node_matches ContractClause "type" (VStr clause_type)) g with
    | [] => [a]
    | _ :: _ => []
    end in
  summary_records t1 g.

Definition get_contracts_without_clause (clause_type : string) (g : graph)
    : json * list statement :=
  (JArr (summary_dict g <$> without_clause_query clause_type g),
   [WITHOUT_CLAUSE clause_type]).

(** ** Text

    A Python [str] is held as the bytes of its UTF-8 encoding, as the
    string literals of this file are; [code_points] reads its characters
    back.  (A byte that starts no sequence of the encoding is read as the
    character of its value; a [str] has no such byte.) *)
Definition continuation (b : ascii) : option N :=
  let n := N_of_ascii b in
  if decide (128 ≤ n < 192)%N then Some (n - 128)%N else None.

Fixpoint code_points (s : string) : list N :=
  match s with
  | EmptyString => []
  | String b0 s1 =>
      let n0 := N_of_ascii b0 in
      if decide (n0 < 192)%N then n0 :: code_points s1
      else
        match s1 with
        | EmptyString => [n0]
        | String b1 s2 =>
            match continuation b1 with
            | None => n0 :: code_points s1
            | Some c1 =>
                if decide (n0 < 224)%N then ((n0 - 192) * 64 + c1)%N :: code_points s2
                else
                  match s2 with
                  | EmptyString => n0 :: code_points s1
                  | String b2 s3 =>
                      match continuation b2 with
                      | None => n0 :: code_points s1
                      | Some c2 =>
                          if decide (n0 < 240)%N
                          then ((n0 - 224) * 4096 + c1 * 64 + c2)%N :: code_points s3
                          else
                            match s3 with
                            | EmptyString => n0 :: code_points s1
                            | String b3 s4 =>
                                match continuation b3 with
                                | None => n0 :: code_points s1
                                | Some c3 =>
                                    ((n0 - 240) * 262144 + c1 * 4096 + c2 * 64 + c3)%N
                                      :: code_points s4
                                end
                            end
                      end
                  end
            end
        end
  end.

(** [str.isspace]: the characters of the Unicode classes WS, B, S and Zs. *)
Definition isspace (c : N) : bool :=
  bool_decide (9 ≤ c ≤ 13)%N || bool_decide (28 ≤ c ≤ 32)%N
  || bool_decide (c = 133)%N || bool_decide (c = 160)%N
  || bool_decide (c = 5760)%N || bool_decide (8192 ≤ c ≤ 8202)%N
  || bool_decide (c = 8232)%N || bool_decide (c = 8233)%N
  || bool_decide (c = 8239)%N || bool_decide (c = 8287)%N
  || bool_decide (c = 12288)%N.

(** [not s or not s.strip()] *)
Definition is_blank (s : string) : bool := forallb isspace (code_points s).

(** The query of [get_contract_excerpts]; a record is
    [((agreement, contract_clause_type), excerpts)]. *)
Definition contract_excerpts_query (contract_id : Z) (g : graph)
    : list (nat * option value * list value) :=
  (* MATCH (a:Agreement {contract_id: $contract_id})-[:HAS_CLAUSE]->(cc:ContractClause)
           -[:HAS_EXCERPT]->(e:Excerpt) *)
  let t1 : list (nat * option value * option value) :=
    a ← match_nodes Agreement "contract_id" (VInt contract_id) g;
    cc ← (expand_out HAS_CLAUSE a (has_label ContractClause) g).*2;
    e ← (expand_out HAS_EXCERPT cc (has_label Excerpt) g).*2;
    [((a, node_prop g cc "type"), node_prop g e "text")] in
  (* RETURN a as agreement, cc.type as contract_clause_type, collect(e.text) as excerpts;
     [collect] skips nulls *)
  (λ group : nat * option value * list (option value), (group.1, omap id group.2))
    <$> group_by t1.

(** [d[k] = v] on a dict kept in insertion order. *)
Fixpoint dict_set {K V} `{EqDecision K} (k : K) (v : V) (d : list (K * V)) : list (K * V) :=
  match d with
  | [] => [(k, v)]
  | (k', v') :: d' => if decide (k = k') then (k', v) :: d' else (k', v') :: dict_set k v d'
  end.

Definition get_contract_excerpts (store_failure : option string) (contract_id : Z)
    (g : graph) : result json * list statement :=
  if decide (contract_id ≤ 0)%Z then (Ok (error_dict "Contract ID must be positive"), [])
  else
    let '(records, sent) :=
      execute_query store_failure contract_id (CONTRACT_EXCERPTS contract_id)
                    (contract_excerpts_query contract_id g) in
    (match records with
     | Raise e => Raise e
     | Ok [] => Ok (error_dict ("Contract " +:+ pretty contract_id +:+ " not found"))
     | Ok ((((agreement_node, _), _) :: _) as records) =>
         let clause_dict :=
           fold_left (λ d '((_, clause_type), excerpts), dict_set clause_type excerpts d)
                     records [] in
         Ok (JObj [("contract_id", node_get g agreement_node "contract_id");
                   ("name", node_get g agreement_node "name");
                   ("agreement_type", node_get g agreement_node "agreement_type");
                   ("effective_date", node_get g agreement_node "effective_date");
                   ("expiration_date", node_get g agreement_node "expiration_date");
                   ("renewal_term", node_get g agreement_node "renewal_term");
                   ("clauses",
                    JArr ((λ '(clause_type, excerpts),
                             JObj [("clause_type", json_of_value clause_type);
                                   ("excerpts",
                                    JArr ((λ x, json_of_value (Some x)) <$> excerpts))])
                            <$> clause_dict))])
     end, sent).

Definition newline : string := String "010"%char "".

Section capabilities.
(** The capabilities the service calls through library retrievers; each
    may raise.
    - [fulltext_query index q g]: the nodes
      [db.index.fulltext.queryNodes] yields, best score first;
    - [vector_search index text top_k g]: the Excerpt nodes the vector
      index returns for the embedded text;
    - [text2cypher question g]: [str(item.content)] for every item of
      the translated and executed query. *)
Variable fulltext_query : string → string → graph → result (list nat).
Variable vector_search : string → string → nat → graph → result (list nat).
Variable text2cypher : string → graph → result (list string).

Definition get_contracts_by_organization (organization_name : string) (g : graph)
    : result json * list statement :=
  if is_blank organization_name then (Ok (JArr []), [])
  else
    (match fulltext_query "organization_name_index" organization_name g with
     | Raise e => Raise e
     | Ok hits =>
         (* ORDER BY score DESC LIMIT 1
            MATCH (o)-[:IS_PARTY_TO]->(a:Agreement) WITH a *)
         let t1 :=
           o ← take 1 hits;
           a ← (expand_out IS_PARTY_TO o (has_label Agreement) g).*2;
           [a] in
         Ok (JArr (summary_dict g <$> summary_records t1 g))
     end, [BY_ORGANIZATION organization_name]).

Definition get_contracts_similar_text (clause_text : string) (g : graph)
    : result json * list statement :=
  (match vector_search "excerpt_vector_index" clause_text 3 g with
   | Raise e => Raise e
   | Ok hits =>
       (* MATCH (a:Agreement)-[:HAS_CLAUSE]->(cc:ContractClause)-[:HAS_EXCERPT]-(node) *)
       Ok (JArr (node ← hits;
                 cc ← (expand_any HAS_EXCERPT node (has_label ContractClause) g).*2;
                 a ← (expand_in HAS_CLAUSE cc (has_label Agreement) g).*2;
                 [JObj [("contract_id", node_get g a "contract_id");
                        ("agreement_name", node_get g a "name");
                        ("clause_type", node_get g cc "type");
                        ("excerpt", node_get g node "text")]]))
   end, [SIMILAR_TEXT clause_text]).

Definition answer_aggregation_question (user_question : string) (g : graph)
    : result string * list statement :=
  (match text2cypher user_question g with
   | Raise e => Raise e
   | Ok items =>
       let answer :=
         fold_left (λ answer content,
                      if decide (content = "") then answer
                      else answer +:+ content +:+ newline +:+ newline)
                   items "" in
       Ok (if decide (answer = "") then "No results found." else answer)
   end, [TEXT2CYPHER user_question]).
End capabilities.

(** ** Vocabulary of the retrieval properties *)

Definition labelled (g : graph) (i : nat) (L : label) : Prop :=
  ∃ n, nodes g !! i = Some n ∧ nlabel n = L.

(** A relationship of type [t] between [x] and [y], in either direction,
    as the patterns without an arrow match it. *)
Definition adjacent (g : graph) (t : rel_type) (x y : nat) : Prop :=
  (t, x, y) ∈ shapes g ∨ (t, y, x) ∈ shapes g.

(** The agreement node [a] has a party organization that is incorporated
    in a country. *)
Definition has_incorporated_party (g : graph) (a : nat) : Prop :=
  ∃ p c, labelled g p Organization ∧ adjacent g IS_PARTY_TO p a ∧
         labelled g c Country ∧ adjacent g INCORPORATED_IN p c.

(** The agreement node [a] has a clause node. *)
Definition has_clause (g : graph) (a : nat) : Prop :=
  ∃ cl, (HAS_CLAUSE, a, cl) ∈ shapes g ∧ labelled g cl ContractClause.

(** The agreement node [a] has a clause node of type [t]. *)
Definition has_clause_of_type (g : graph) (a : nat) (t : string) : Prop :=
  ∃ cl n, (HAS_CLAUSE, a, cl) ∈ shapes g ∧ nodes g !! cl = Some n ∧
          node_matches ContractClause "type" (VStr t) n = true.

(** ** [json.dumps(result, indent=2)] *)

Definition dquote : ascii := "034"%char.

Definition backslash : ascii := "092"%char.

(** A backslash and the character [c]. *)
Definition escape_with (c : ascii) : string := String backslash (String c "").

Definition hex_digit (n : nat) : ascii :=
  match n with
  | 0 => "0" | 1 => "1" | 2 => "2" | 3 => "3" | 4 => "4" | 5 => "5" | 6 => "6" | 7 => "7"
  | 8 => "8" | 9 => "9" | 10 => "a" | 11 => "b" | 12 => "c" | 13 => "d" | 14 => "e"
  | _ => "f"
  end%char.

(** [\uXXXX] for a UTF-16 unit: ['\\u{0:04x}'.format(n)]. *)
Definition unicode_escape (n : N) : string :=
  escape_with "u"
  +:+ String (hex_digit (N.to_nat ((n / 4096) `mod` 16)%N))
        (String (hex_digit (N.to_nat ((n / 256) `mod` 16)%N))
           (String (hex_digit (N.to_nat ((n / 16) `mod` 16)%N))
              (String (hex_digit (N.to_nat (n `mod` 16)%N)) ""))).

(** The replacement of one character by [py_encode_basestring_ascii]:
    everything outside [' '..'~'], the quote and the backslash are
    escaped; a character without a short form becomes [\uXXXX], one
    above the basic plane the two escapes of its surrogate pair. *)
Definition escape_char (n : N) : string :=
  if decide (n = 34)%N then escape_with dquote
  else if decide (n = 92)%N then escape_with backslash
  else if decide (n = 10)%N then escape_with "n"
  else if decide (n = 13)%N then escape_with "r"
  else if decide (n = 9)%N then escape_with "t"
  else if decide (n = 8)%N then escape_with "b"
  else if decide (n = 12)%N then escape_with "f"
  else if decide (32 ≤ n ≤ 126)%N then String (ascii_of_N n) ""
  else if decide (n < 65536)%N then unicode_escape n
  else
    let m := (n - 65536)%N in
    unicode_escape (55296 + (m / 1024) `mod` 1024)
    +:+ unicode_escape (56320 + m `mod` 1024).

Fixpoint escape_chars (s : list N) : string :=
  match s with
  | [] => ""
  | c :: s' => escape_char c +:+ escape_chars s'
  end.

Definition encode_string (s : string) : string :=
  String dquote (escape_chars (code_points s) +:+ String dquote "").

Fixpoint spaces (n : nat) : string :=
  match n with
  | O => ""
  | S n' => String " " (spaces n')
  end.

(** ['\n' + _indent * _current_indent_level] *)
Definition newline_indent (level : nat) : string := newline +:+ spaces (2 * level).

(** [buf] for the items of a list or dict: the first one as it is, the
    others after the separator. *)
Fixpoint join_items (separator : string) (items : list string) : string :=
  match items with
  | [] => ""
  | [x] => x
  | x :: rest => x +:+ separator +:+ join_items separator rest
  end.

Fixpoint dumps_at (level : nat) (j : json) : string :=
  match j with
  | JNull => "null"
  | JInt z => pretty z
  | JStr s => encode_string s
  | JArr [] => "[]"
  | JArr items =>
      "[" +:+ newline_indent (S level)
          +:+ join_items ("," +:+ newline_indent (S level)) (map (dumps_at (S level)) items)
          +:+ newline_indent level +:+ "]"
  | JObj [] => "{}"
  | JObj members =>
      "{" +:+ newline_indent (S level)
          +:+ join_items ("," +:+ newline_indent (S level))
                (map (λ member, encode_string (fst member) +:+ ": "
                                +:+ dumps_at (S level) (snd member)) members)
          +:+ newline_indent level +:+ "}"
  end.

Definition dumps (j : json) : string := dumps_at 0 j.

(** ** [ContractTools] ([contract_tools.py]) *)

(** A tool returns what the service call returns, encoded, or raises what
    the service raises. *)
Definition dumps_result (r : result json) : result string :=
  match r with
  | Ok j => Ok (dumps j)
  | Raise e => Raise e
  end.

Module ContractTools.
Section tools.
Variable fulltext_query : string → string → graph → result (list nat).
Variable vector_search : string → string → nat → graph → result (list nat).
Variable text2cypher : string → graph → result (list string).

Definition get_contract (store_failure : option string) (contract_id : Z) (g : graph)
    : result string :=
  dumps_result (get_contract store_failure contract_id g).1.

Definition get_contracts_by_organization (organization_name : string) (g : graph)
    : result string :=
  dumps_result (get_contracts_by_organization fulltext_query organization_name g).1.

Definition get_contracts_with_clause_type (clause_type : string) (g : graph)
    : result string :=
  Ok (dumps (get_contracts_with_clause_type clause_type g).1).

Definition get_contracts_without_clause (clause_type : string) (g : graph)
    : result string :=
  Ok (dumps (get_contracts_without_clause clause_type g).1).

Definition get_contracts_similar_text (clause_text : string) (g : graph)
    : result string :=
  dumps_result (get_contracts_similar_text vector_search clause_text g).1.

(** [return result]: the answer text goes out as it is. *)
Definition answer_aggregation_question (user_question : string) (g : graph)
    : result string :=
  (answer_aggregation_question text2cypher user_question g).1.

Definition get_contract_excerpts (store_failure : option string) (contract_id : Z)
    (g : graph) : result string :=
  dumps_result (get_contract_excerpts store_failure contract_id g).1.
End tools.
End ContractTools.

(** ** JSON texts (RFC 8259) *)

Definition is_json_ws (c : ascii) : bool :=
  let n := nat_of_ascii c in
  bool_decide (n = 32) || bool_decide (n = 9) || bool_decide (n = 10) || bool_decide (n = 13).

Definition is_digit (c : ascii) : bool :=
  let n := nat_of_ascii c in bool_decide (48 ≤ n ≤ 57).

Definition is_hex (c : ascii) : bool :=
  let n := nat_of_ascii c in
  bool_decide (48 ≤ n ≤ 57) || bool_decide (65 ≤ n ≤ 70) || bool_decide (97 ≤ n ≤ 102).

Fixpoint all_chars (p : ascii → bool) (s : string) : bool :=
  match s with
  | EmptyString => true
  | String c s' => p c && all_chars p s'
  end.

(** [ws] *)
Definition json_ws (s : string) : Prop := all_chars is_json_ws s = true.

(** [int = zero / ( digit1-9 *DIGIT )], with an optional minus (the
    encoder writes no fraction and no exponent). *)
Inductive json_int : string → Prop :=
  | json_int_zero : json_int "0"
  | json_int_digits c s :
      is_digit c = true → c ≠ "0"%char → all_chars is_digit s = true →
      json_int (String c s).

Inductive json_number : string → Prop :=
  | json_number_pos s : json_int s → json_number s
  | json_number_neg s : json_int s → json_number (String "-" s).

(** [*char]: unescaped characters and escapes. *)
Inductive json_chars : string → Prop :=
  | json_chars_nil : json_chars ""
  | json_chars_plain c s :
      32 ≤ nat_of_ascii c → c ≠ dquote → c ≠ backslash →
      json_chars s → json_chars (String c s)
  | json_chars_escape c s :
      c ∈ [dquote; backslash; "/"; "b"; "f"; "n"; "r"; "t"]%char →
      json_chars s → json_chars (String backslash (String c s))
  | json_chars_unicode h1 h2 h3 h4 s :
      is_hex h1 = true → is_hex h2 = true → is_hex h3 = true → is_hex h4 = true →
      json_chars s →
      json_chars (String backslash
                    (String "u" (String h1 (String h2 (String h3 (String h4 s)))))).

Inductive json_string : string → Prop :=
  | json_string_intro s : json_chars s → json_string (String dquote (s +:+ String dquote "")).

Inductive json_value : string → Prop :=
  | json_value_null : json_value "null"
  | json_value_true : json_value "true"
  | json_value_false : json_value "false"
  | json_value_number s : json_number s → json_value s
  | json_value_string s : json_string s → json_value s
  | json_value_array_empty w : json_ws w → json_value ("[" +:+ w +:+ "]")
  | json_value_array els : json_elements els → json_value ("[" +:+ els +:+ "]")
  | json_value_object_empty w : json_ws w → json_value ("{" +:+ w +:+ "}")
  | json_value_object ms : json_members ms → json_value ("{" +:+ ms +:+ "}")
with json_elements : string → Prop :=
  | json_elements_one w1 v w2 :
      json_ws w1 → json_value v → json_ws w2 → json_elements (w1 +:+ v +:+ w2)
  | json_elements_more w1 v w2 rest :
      json_ws w1 → json_value v → json_ws w2 → json_elements rest →
      json_elements (w1 +:+ v +:+ w2 +:+ "," +:+ rest)
with json_members : string → Prop :=
  | json_members_one w1 k w2 w3 v w4 :
      json_ws w1 → json_string k → json_ws w2 → json_ws w3 → json_value v → json_ws w4 →
      json_members (w1 +:+ k +:+ w2 +:+ ":" +:+ w3 +:+ v +:+ w4)
  | json_members_more w1 k w2 w3 v w4 rest :
      json_ws w1 → json_string k → json_ws w2 → json_ws w3 → json_value v → json_ws w4 →
      json_members rest →
      json_members (w1 +:+ k +:+ w2 +:+ ":" +:+ w3 +:+ v +:+ w4 +:+ "," +:+ rest).

(** [JSON-text = ws value ws]: what [json.loads] accepts. *)
Definition json_text (s : string) : Prop :=
  ∃ w1 v w2, s = w1 +:+ v +:+ w2 ∧ json_ws w1 ∧ json_value v ∧ json_ws w2.

(** The characters a JSON value can start with. *)
Definition value_start (c : ascii) : bool :=
  is_digit c || bool_decide (c ∈ ["n"; "t"; "f"; "-"; dquote; "["; "{"]%char).

(** ** [load_contracts_from_json] ([02_build_graph.py]) *)

(** What opening and parsing one JSON file gives:
    - [InvalidJson e]: [json.load] raises [JSONDecodeError];
    - [MissingAgreement]: the parsed value has no ["agreement"] key;
    - [OtherError e]: any other exception inside the [try] block;
    - [Extraction data]: the record step 1 wrote. *)
Inductive file_content :=
  | InvalidJson (e : string)
  | MissingAgreement
  | OtherError (e : string)
  | Extraction (data : Schema.ContractExtraction).

(** The files the loader keeps. *)
Definition readable (content : file_content) : bool :=
  match content with
  | Extraction _ => true
  | _ => false
  end.

(** The lines the loader prints. *)
Inductive load_line :=
  | NoJsonFiles
  | SkippingMissingKey (name : string)
  | SkippingInvalidJson (name e : string)
  | SkippingError (name e : string).

(** [data["agreement"]["contract_id"] = contract_id] *)
Definition set_contract_id (contract_id : Z) (data : Schema.ContractExtraction)
    : Schema.ContractExtraction :=
  let a := Schema.agreement data in
  {| Schema.agreement :=
       {| Schema.contract_id := contract_id;
          Schema.agreement_name := Schema.agreement_name a;
          Schema.agreement_type := Schema.agreement_type a;
          Schema.agreement_date := Schema.agreement_date a;
          Schema.effective_date := Schema.effective_date a;
          Schema.expiration_date := Schema.expiration_date a;
          Schema.renewal_term := Schema.renewal_term a;
          Schema.Notice_period_to_Terminate_Renewal :=
            Schema.Notice_period_to_Terminate_Renewal a;
          Schema.parties := Schema.parties a;
          Schema.governing_law := Schema.governing_law a;
          Schema.clauses := Schema.clauses a |} |}.

(** [for contract_id, json_path in enumerate(json_files, start=1)], from
    the number [contract_id] on; [json_files] is the sorted listing, each
    file with its name and what reading it gives. *)
Fixpoint load_loop (contract_id : Z) (json_files : list (string * file_content))
    (contracts : list Schema.ContractExtraction) (out : list load_line)
    : list Schema.ContractExtraction * list load_line :=
  match json_files with
  | [] => (contracts, out)
  | (name, content) :: rest =>
      match content with
      | Extraction data =>
          load_loop (contract_id + 1) rest (contracts ++ [set_contract_id contract_id data]) out
      | MissingAgreement =>
          load_loop (contract_id + 1) rest contracts (out ++ [SkippingMissingKey name])
      | InvalidJson e =>
          load_loop (contract_id + 1) rest contracts (out ++ [SkippingInvalidJson name e])
      | OtherError e =>
          load_loop (contract_id + 1) rest contracts (out ++ [SkippingError name e])
      end
  end.

Definition load_contracts_from_json (json_files : list (string * file_content))
    : list Schema.ContractExtraction * list load_line :=
  match json_files with
  | [] => ([], [NoJsonFiles])
  | _ => load_loop 1 json_files [] []
  end.

(** ** [INDICES] and [create_indices] ([02_build_graph.py]) *)

Inductive index_type := VECTOR | FULLTEXT | RANGE.

#[global] Instance index_type_eq_dec : EqDecision index_type.
Proof. solve_decision. Defined.

(** An index of the store: its name and its schema (type, label,
    property). *)
Record index := Index {
  index_name : string;
  index_kind : index_type;
  index_label : label;
  index_property : string
}.

#[global] Instance index_eq_dec : EqDecision index.
Proof. solve_decision. Defined.

(** The six [CREATE ... INDEX name IF NOT EXISTS FOR (x:L) ON ...]
    statements, each with its name. *)
Definition INDICES : list index :=
  [ Index "excerpt_vector_index" VECTOR Excerpt "embedding";
    Index "excerpt_text_index" FULLTEXT Excerpt "text";
    Index "agreement_type_index" FULLTEXT Agreement "agreement_type";
    Index "clause_type_index" FULLTEXT ClauseType "name";
    Index "organization_name_index" FULLTEXT Organization "name";
    Index "agreement_id_index" RANGE Agreement "contract_id" ].

(** [SHOW INDEXES WHERE name = $index_name] *)
Definition show_indexes (name : string) (catalog : list index) : list index :=
  filter (λ j, index_name j = name) catalog.

Definition same_schema (i j : index) : Prop :=
  index_kind i = index_kind j ∧ index_label i = index_label j ∧
  index_property i = index_property j.

#[global] Instance same_schema_dec i j : Decision (same_schema i j).
Proof. unfold same_schema. apply _. Defined.

(** [CREATE ... INDEX ... IF NOT EXISTS]: nothing happens when an index
    with the same name, or with the same schema and type, exists. *)
Definition create_index_if_not_exists (i : index) (catalog : list index) : list index :=
  match filter (λ j, index_name j = index_name i ∨ same_schema i j) catalog with
  | [] => catalog ++ [i]
  | _ :: _ => catalog
  end.

Inductive index_line :=
  | CreatingIndices
  | IndexAlreadyExists (name : string)
  | IndexCreated (name : string).

(** The loop of [create_indices] over the list [indices]. *)
Definition create_indices_loop (indices : list index) (catalog : list index)
    (out : list index_line) : list index * list index_line :=
  fold_left (λ '(catalog, out) i,
               match show_indexes (index_name i) catalog with
               | _ :: _ => (catalog, out ++ [IndexAlreadyExists (index_name i)])
               | [] => (create_index_if_not_exists i catalog,
                        out ++ [IndexCreated (index_name i)])
               end) indices (catalog, out).

Definition create_indices (catalog : list index) : list index * list index_line :=
  create_indices_loop INDICES catalog [CreatingIndices].

(** ** The schema of the graph *)

(** The end points of a relationship type, as the schema handed to the
    text-to-Cypher retriever lists them ([(:Agreement)-[:HAS_CLAUSE]->
    (:ContractClause)] and so on). *)
Definition src_label (t : rel_type) : label :=
  match t with
  | HAS_CLAUSE | GOVERNED_BY_LAW => Agreement
  | HAS_EXCERPT | HAS_TYPE => ContractClause
  | IS_PARTY_TO | INCORPORATED_IN => Organization
  end.

Definition dst_label (t : rel_type) : label :=
  match t with
  | HAS_CLAUSE => ContractClause
  | HAS_EXCERPT => Excerpt
  | HAS_TYPE => ClauseType
  | GOVERNED_BY_LAW | INCORPORATED_IN => Country
  | IS_PARTY_TO => Agreement
  end.

(** Every relationship runs between nodes of the labels of its type. *)
Definition typed (g : graph) : Prop :=
  ∀ t s d, (t, s, d) ∈ shapes g →
           labelled g s (src_label t) ∧ labelled g d (dst_label t).

(** ** More vocabulary of the retrieval properties *)

(** The clause nodes of the agreement node [a], as [get_contract] matches
    them. *)
Definition clauses_of (g : graph) (a : nat) : list nat :=
  (expand_out HAS_CLAUSE a (has_label ContractClause) g).*2.

(** The agreement node [a] has a clause node with an Excerpt node. *)
Definition has_clause_with_excerpt (g : graph) (a : nat) : Prop :=
  ∃ cc e, (HAS_CLAUSE, a, cc) ∈ shapes g ∧ labelled g cc ContractClause ∧
          (HAS_EXCERPT, cc, e) ∈ shapes g ∧ labelled g e Excerpt.

(** [g'] has the relationships of [g] and its nodes, up to their
    [embedding] property. *)
Definition same_data (g g' : graph) : Prop :=
  rels g' = rels g ∧
  Forall2 (λ n n', nlabel n' = nlabel n ∧ nprops n' = nprops n) (nodes g) (nodes g').

(** The predicate [P] on nodes reads the label and the scalar properties
    only. *)
Definition data_only (P : node → bool) : Prop :=
  ∀ n n', nlabel n' = nlabel n → nprops n' = nprops n → P n' = P n.

(** The graph follows the schema and [ag] is an Agreement node: what the
    body of a [FOREACH] of the statement can rely on for its row
    [agreement]. *)
Definition typed_with (ag : nat) (g : graph) : Prop := typed g ∧ labelled g ag Agreement.

(** A printable ASCII character or a line feed. *)
Definition is_ascii_text (c : ascii) : bool :=
  let n := nat_of_ascii c in bool_decide (n = 10) || bool_decide (32 ≤ n ≤ 126).

(** The strings of [xs] that are not in [seen], each at its first
    occurrence: the excerpts for which the [MERGE] of the excerpt loop
    creates a node. *)
Fixpoint first_new (seen : list string) (xs : list string) : list string :=
  match xs with
  | [] => []
  | x :: xs' =>
      if decide (x ∈ seen) then first_new seen xs' else x :: first_new (x :: seen) xs'
  end.

(** The Excerpt nodes of the clause node [cl], as [get_contract_excerpts]
    matches them. *)
Definition excerpts_of (g : graph) (cl : nat) : list nat :=
  (expand_out HAS_EXCERPT cl (has_label Excerpt) g).*2.

(** [s] is the one node with a relationship of type [t] to [d]. *)
Definition sole_source (g : graph) (t : rel_type) (d s : nat) : Prop :=
  ∀ s', (t, s', d) ∈ shapes g ↔ s' = s.

(** Every Excerpt node has exactly one clause node and every
    ContractClause node exactly one agreement node. *)
Definition owned (g : graph) : Prop :=
  (∀ e, labelled g e Excerpt → ∃ cl, sole_source g HAS_EXCERPT e cl) ∧
  (∀ cl, labelled g cl ContractClause → ∃ a, sole_source g HAS_CLAUSE cl a).

Definition confidentiality : Schema.ContractClause :=
  {| Schema.clause_type := "Confidentiality"; Schema.exists_ := true;
     Schema.excerpts := ["Keep it secret."; "No disclosure."; "Keep it secret."] |}.

Definition exclusivity : Schema.ContractClause :=
  {| Schema.clause_type := "Exclusivity"; Schema.exists_ := true; Schema.excerpts := [] |}.

Definition nda_003 : Schema.ContractExtraction :=
  sample_agreement 3 "NDA-003" [acme] [confidentiality; no_audit; exclusivity; insurance].

(** The relationship [i] has the type [t]. *)
Definition rel_at (g : graph) (i : nat) (t : rel_type) : Prop :=
  ∃ s d, shapes g !! i = Some (t, s, d).

(** The relationship [r] is [R], with the properties of [R]. *)
Definition keeps_rel (r : nat) (R : rel) (g : graph) : Prop := rels g !! r = Some R.

(** The first sample record again, now governed by the law of New York. *)
Definition msa_001_new_york : Schema.ContractExtraction :=
  {| Schema.agreement :=
       {| Schema.contract_id := 1; Schema.agreement_name := "MSA-001 (amended)";
          Schema.agreement_type := "Service Agreement"; Schema.agreement_date := "";
          Schema.effective_date := "2025-01-01"; Schema.expiration_date := "";
          Schema.renewal_term := ""; Schema.Notice_period_to_Terminate_Renewal := "";
          Schema.parties := [acme];
          Schema.governing_law :=
            {| Schema.country := "USA"; Schema.state := "New York";
               Schema.most_favored_country := "USA" |};
          Schema.clauses := [] |} |}.

(** * Properties of the graph construction *)

(** ** Positions of matches *)

Section find.
Context {A : Type} (p : A → bool).

Lemma elem_of_find_from (i : nat) (l : list A) (j : nat) :
  j ∈ find_from p i l ↔ ∃ x, i ≤ j ∧ l !! (j - i) = Some x ∧ p x = true.
Proof.
  revert i. induction l as [|y l IH]; intros i; simpl.
  - split; [by intros ?%elem_of_nil | by intros (x & _ & ? & _)].
  - assert (j ∈ find_from p (S i) l ↔
            ∃ x, i ≤ j ∧ j ≠ i ∧ l !! (j - S i) = Some x ∧ p x = true) as IH'.
    { rewrite IH. split; intros (x & ?); exists x; intuition lia. }
    destruct (p y) eqn:Hy; [rewrite elem_of_cons|]; rewrite IH'; split.
    + intros [->|(x & Hle & Hne & Hx & Hp)].
      * exists y. by rewrite Nat.sub_diag.
      * exists x. split; [done|]. split; [|done].
        by replace (j - i) with (S (j - S i)) by lia.
    + intros (x & Hle & Hx & Hp). destruct (decide (j = i)) as [->|Hne]; [by left|].
      right. exists x. replace (j - i) with (S (j - S i)) in Hx by lia. done.
    + intros (x & Hle & Hne & Hx & Hp). exists x. split; [done|]. split; [|done].
      by replace (j - i) with (S (j - S i)) by lia.
    + intros (x & Hle & Hx & Hp). destruct (decide (j = i)) as [->|Hne].
      * rewrite Nat.sub_diag in Hx. simpl in Hx. congruence.
      * exists x. replace (j - i) with (S (j - S i)) in Hx by lia. done.
Qed.

Lemma elem_of_find_all (l : list A) (j : nat) :
  j ∈ find_all p l ↔ ∃ x, l !! j = Some x ∧ p x = true.
Proof.
  unfold find_all. rewrite elem_of_find_from. rewrite Nat.sub_0_r.
  split; intros (x & ?); exists x; intuition lia.
Qed.

Lemma find_from_app (i : nat) (l1 l2 : list A) :
  find_from p i (l1 ++ l2) = find_from p i l1 ++ find_from p (i + length l1) l2.
Proof.
  revert i. induction l1 as [|y l1 IH]; intros i; simpl.
  - by rewrite Nat.add_0_r.
  - rewrite IH. replace (S i + length l1) with (i + S (length l1)) by lia.
    by destruct (p y).
Qed.

Lemma find_all_snoc (l : list A) (x : A) :
  find_all p (l ++ [x]) = find_all p l ++ (if p x then [length l] else []).
Proof. unfold find_all. rewrite find_from_app. simpl. by destruct (p x). Qed.

Lemma NoDup_find_from (i : nat) (l : list A) : NoDup (find_from p i l).
Proof.
  revert i. induction l as [|y l IH]; intros i; simpl; [constructor|].
  destruct (p y); [|done]. constructor; [|done].
  rewrite elem_of_find_from. intros (x & ? & _). lia.
Qed.

Lemma find_all_nil (l : list A) :
  find_all p l = [] ↔ ∀ j x, l !! j = Some x → p x = false.
Proof.
  split.
  - intros Hnil j x Hx. destruct (p x) eqn:Hp; [|done].
    assert (j ∈ find_all p l) as Hin by (apply elem_of_find_all; eauto).
    rewrite Hnil in Hin. by apply elem_of_nil in Hin.
  - intros Hall. destruct (find_all p l) as [|j t] eqn:E; [done|].
    assert (j ∈ find_all p l) as (x & Hx & Hp)%elem_of_find_all
      by (rewrite E; left).
    rewrite (Hall _ _ Hx) in Hp. done.
Qed.

(** When at most one position matches, a non-empty result is a single row. *)
Lemma find_all_unique (l : list A) (i : nat) :
  (∀ j j' x y, l !! j = Some x → l !! j' = Some y → p x = true → p y = true → j = j') →
  i ∈ find_all p l → find_all p l = [i].
Proof.
  intros Huniq Hi.
  assert (∀ j, j ∈ find_all p l → j = i) as Hall.
  { intros j (x & Hx & Hp)%elem_of_find_all.
    apply elem_of_find_all in Hi as (y & Hy & Hq). eauto. }
  pose proof (NoDup_find_from 0 l) as Hnd. fold (find_all p l) in Hnd.
  destruct (find_all p l) as [|a [|b t]].
  - by apply elem_of_nil in Hi.
  - f_equal. apply Hall. left.
  - exfalso. apply NoDup_cons in Hnd as [Hnotin _]. apply Hnotin.
    rewrite (Hall a) by left. rewrite (Hall b) by (right; left). left.
Qed.
End find.

Lemma find_from_ext {A} (p q : A → bool) (i : nat) (l : list A) :
  (∀ x, x ∈ l → p x = q x) → find_from p i l = find_from q i l.
Proof.
  revert i. induction l as [|y l IH]; intros i Hpq; simpl; [done|].
  rewrite (Hpq y) by left. rewrite IH; [done|]. intros x ?. apply Hpq. by right.
Qed.

Lemma find_from_fmap {A B} (f : A → B) (p : B → bool) (i : nat) (l : list A) :
  find_from p i (f <$> l) = find_from (p ∘ f) i l.
Proof. revert i. induction l as [|y l IH]; intros i; simpl; [done|]. by rewrite IH. Qed.

(** ** Growth of the graph *)

Lemma added_refl g : added g g [] [].
Proof. split; by rewrite app_nil_r. Qed.

Lemma added_trans g1 g2 g3 ns ss ns' ss' :
  added g1 g2 ns ss → added g2 g3 ns' ss' → added g1 g3 (ns ++ ns') (ss ++ ss').
Proof. intros [Hn Hs] [Hn' Hs']. split; rewrite ?Hn', ?Hs', ?Hn, ?Hs, <-?app_assoc; done. Qed.

#[global] Instance ext_preorder : PreOrder ext.
Proof.
  split.
  - intros g. exists [], []. apply added_refl.
  - intros g1 g2 g3 (ns & ss & H) (ns' & ss' & H').
    exists (ns ++ ns'), (ss ++ ss'). by eapply added_trans.
Qed.

#[global] Instance adds_only_preorder Ls Ts : PreOrder (adds_only Ls Ts).
Proof.
  split.
  - intros g. exists [], []. split; [apply added_refl | by split].
  - intros g1 g2 g3 (ns & ss & H & Hn & Hs) (ns' & ss' & H' & Hn' & Hs').
    exists (ns ++ ns'), (ss ++ ss'). split; [by eapply added_trans|].
    split; by apply Forall_app.
Qed.

Lemma adds_only_mono Ls Ts Ls' Ts' g g' :
  Ls ⊆ Ls' → Ts ⊆ Ts' → adds_only Ls Ts g g' → adds_only Ls' Ts' g g'.
Proof.
  intros HL HT (ns & ss & H & Hn & Hs). exists ns, ss. split; [done|].
  split; eapply Forall_impl; eauto.
Qed.

Lemma adds_only_ext Ls Ts g g' : adds_only Ls Ts g g' → ext g g'.
Proof. intros (ns & ss & H & _). by exists ns, ss. Qed.

Lemma ext_nodes_lookup g g' i n : ext g g' → nodes g !! i = Some n → nodes g' !! i = Some n.
Proof. intros (ns & ss & Hn & _) Hi. rewrite Hn. by apply lookup_app_l_Some. Qed.

Lemma ext_nodes_length g g' : ext g g' → length (nodes g) ≤ length (nodes g').
Proof. intros (ns & ss & Hn & _). rewrite Hn, length_app. lia. Qed.

Lemma ext_shapes g g' sh : ext g g' → sh ∈ shapes g → sh ∈ shapes g'.
Proof. intros (ns & ss & _ & Hs) Hi. rewrite Hs. apply elem_of_app. by left. Qed.

(** A clause that respects a preorder on graphs respects it on every row,
    and so does a [FOREACH]. *)
Lemma per_row_preorder {A B} (R : relation graph) `{!PreOrder R}
    (f : A → graph → graph * list B) :
  (∀ r g, R g (f r g).1) → ∀ rows g, R g (per_row f rows g).1.
Proof.
  intros Hf rows. induction rows as [|r rows IH]; intros g; simpl; [done|].
  specialize (Hf r g). destruct (f r g) as [g1 out1]. specialize (IH g1).
  destruct (per_row f rows g1) as [g2 out2]. simpl in *. by etrans.
Qed.

Lemma foreach_preorder {A} (R : relation graph) `{!PreOrder R} (body : A → graph → graph) :
  (∀ x g, R g (body x g)) → ∀ xs g, R g (foreach body xs g).
Proof.
  intros Hf xs. induction xs as [|x xs IH]; intros g; simpl; [done|].
  etrans; [apply Hf | apply IH].
Qed.

Lemma foreach_nil {A} (body : A → graph → graph) g : foreach body [] g = g.
Proof. done. Qed.

Lemma foreach_cons {A} (body : A → graph → graph) x xs g :
  foreach body (x :: xs) g = foreach body xs (body x g).
Proof. done. Qed.

Lemma foreach_app {A} (body : A → graph → graph) xs ys g :
  foreach body (xs ++ ys) g = foreach body ys (foreach body xs g).
Proof. apply fold_left_app. Qed.

Lemma per_row_singleton {A B} (f : A → graph → graph * list B) (r : A) (g : graph) :
  per_row f [r] g = f r g.
Proof. simpl. destruct (f r g). by rewrite app_nil_r. Qed.

(** ** The primitives, one by one *)

Lemma rel_matches_shape t s d r :
  rel_matches t s d r = bool_decide (rel_shape r = (t, s, d)).
Proof.
  unfold rel_matches, rel_shape. destruct r as [t' s' d' ps]; simpl.
  repeat case_bool_decide; simplify_eq; done.
Qed.

Lemma elem_of_match_nodes L k v g i :
  i ∈ match_nodes L k v g ↔ ∃ n, nodes g !! i = Some n ∧ node_matches L k v n = true.
Proof. apply elem_of_find_all. Qed.

Lemma match_nodes_lt L k v g i : i ∈ match_nodes L k v g → i < length (nodes g).
Proof. intros (n & Hn & _)%elem_of_match_nodes. by eapply lookup_lt_Some. Qed.

Lemma match_nodes_ext L k v g g' i :
  ext g g' → i ∈ match_nodes L k v g → i ∈ match_nodes L k v g'.
Proof.
  intros Hext (n & Hn & Hm)%elem_of_match_nodes. apply elem_of_match_nodes.
  exists n. eauto using ext_nodes_lookup.
Qed.

Lemma match_nodes_unique L k v g i :
  wf g → key_of L = Some k → i ∈ match_nodes L k v g → match_nodes L k v g = [i].
Proof.
  intros Hwf Hk Hi. apply find_all_unique; [|done].
  intros j j' x y ????. by eapply (wf_keys g Hwf L k v).
Qed.

Lemma match_rels_shapes t s d g :
  match_rels t s d g = find_all (λ sh, bool_decide (sh = (t, s, d))) (shapes g).
Proof.
  unfold match_rels, shapes, find_all. rewrite find_from_fmap.
  apply find_from_ext. intros r _. apply rel_matches_shape.
Qed.

Lemma match_rels_nil t s d g : match_rels t s d g = [] ↔ (t, s, d) ∉ shapes g.
Proof.
  rewrite match_rels_shapes, find_all_nil. split.
  - intros Hall (j & Hj)%list_elem_of_lookup. specialize (Hall _ _ Hj).
    by rewrite bool_decide_eq_false in Hall.
  - intros Hnotin j sh Hj. apply bool_decide_eq_false. intros ->.
    apply Hnotin. by eapply list_elem_of_lookup_2.
Qed.

Lemma match_rels_unique t s d g :
  NoDup (shapes g) → (t, s, d) ∈ shapes g → ∃ i, match_rels t s d g = [i].
Proof.
  intros Hnd (j & Hj)%list_elem_of_lookup. exists j.
  rewrite match_rels_shapes. apply find_all_unique.
  - intros a b x y Ha Hb ->%bool_decide_eq_true ->%bool_decide_eq_true.
    by eapply NoDup_lookup.
  - apply elem_of_find_all. exists (t, s, d). split; [done|]. by apply bool_decide_eq_true.
Qed.

Lemma shapes_set_rel_prop i k v g : shapes (set_rel_prop i k v g) = shapes g.
Proof.
  unfold shapes, set_rel_prop; simpl.
  rewrite (list_fmap_alter _ _ id); [by apply list_alter_id|].
  by apply Forall_forall.
Qed.

Lemma nodes_set_rel_prop i k v g : nodes (set_rel_prop i k v g) = nodes g.
Proof. done. Qed.

Lemma added_set_rel_prop i k v g : added g (set_rel_prop i k v g) [] [].
Proof. split; by rewrite ?shapes_set_rel_prop, app_nil_r. Qed.

Lemma merge_node_inv L k v oc g g' t :
  merge_node L k v oc g = (g', t) →
  (match_nodes L k v g = [] ∧
   g' = Graph (nodes g ++ [Node L (<[k:=v]> oc) None]) (rels g) ∧ t = [length (nodes g)])
  ∨ (match_nodes L k v g ≠ [] ∧ g' = g ∧ t = match_nodes L k v g).
Proof.
  unfold merge_node, create_node. destruct (match_nodes L k v g) eqn:E; intros [= <- <-].
  - by left.
  - by right.
Qed.

Lemma merge_rel_inv t s d g g' rows :
  merge_rel t s d g = (g', rows) →
  (match_rels t s d g = [] ∧
   g' = Graph (nodes g) (rels g ++ [Rel t s d ∅]) ∧ rows = [length (rels g)])
  ∨ (match_rels t s d g ≠ [] ∧ g' = g ∧ rows = match_rels t s d g).
Proof.
  unfold merge_rel, create_rel. destruct (match_rels t s d g) eqn:E; intros [= <- <-].
  - by left.
  - by right.
Qed.

Lemma merge_path_inv t s L k v g g' rows :
  merge_path t s L k v g = (g', rows) →
  (match_paths t s L k v g = [] ∧
   g' = Graph (nodes g ++ [Node L {[k:=v]} None])
              (rels g ++ [Rel t s (length (nodes g)) ∅]) ∧
   rows = [length (rels g)])
  ∨ (match_paths t s L k v g ≠ [] ∧ g' = g ∧ rows = match_paths t s L k v g).
Proof.
  unfold merge_path, create_rel, create_node.
  destruct (match_paths t s L k v g) eqn:E; simpl; intros [= <- <-].
  - by left.
  - by right.
Qed.

(** ** What each primitive may add *)

Lemma added_adds_only Ls Ts g g' ns ss :
  added g g' ns ss → Forall (λ n, nlabel n ∈ Ls) ns → Forall (λ s, s.1.1 ∈ Ts) ss →
  adds_only Ls Ts g g'.
Proof. intros. by exists ns, ss. Qed.

Lemma shapes_snoc ns rs r : shapes (Graph ns (rs ++ [r])) = shapes (Graph ns rs) ++ [rel_shape r].
Proof. unfold shapes; simpl. by rewrite fmap_app. Qed.

Lemma merge_node_adds Ls Ts L k v oc g :
  L ∈ Ls → adds_only Ls Ts g (merge_node L k v oc g).1.
Proof.
  intros HL. destruct (merge_node L k v oc g) as [g' t] eqn:E.
  apply merge_node_inv in E as [(_ & -> & _)|(_ & -> & _)]; simpl; [|done].
  eapply (added_adds_only _ _ _ _ [_] []); [split; simpl; by rewrite ?app_nil_r| |done].
  by repeat constructor.
Qed.

Lemma merge_rel_adds Ls Ts t s d g :
  t ∈ Ts → adds_only Ls Ts g (merge_rel t s d g).1.
Proof.
  intros HT. destruct (merge_rel t s d g) as [g' rows] eqn:E.
  apply merge_rel_inv in E as [(_ & -> & _)|(_ & -> & _)]; simpl; [|done].
  eapply (added_adds_only _ _ _ _ [] [_]).
  - split; simpl; [by rewrite app_nil_r | apply shapes_snoc].
  - done.
  - by repeat constructor.
Qed.

Lemma merge_path_adds Ls Ts t s L k v g :
  L ∈ Ls → t ∈ Ts → adds_only Ls Ts g (merge_path t s L k v g).1.
Proof.
  intros HL HT. destruct (merge_path t s L k v g) as [g' rows] eqn:E.
  apply merge_path_inv in E as [(_ & -> & _)|(_ & -> & _)]; simpl; [|done].
  eapply (added_adds_only _ _ _ _ [_] [_]).
  - split; simpl; [done | apply shapes_snoc].
  - by repeat constructor.
  - by repeat constructor.
Qed.

Lemma create_node_adds Ls Ts n g : nlabel n ∈ Ls → adds_only Ls Ts g (create_node n g).1.
Proof.
  intros HL. eapply (added_adds_only _ _ _ _ [_] []).
  - split; simpl; [done | by rewrite app_nil_r].
  - by repeat constructor.
  - done.
Qed.

Lemma set_rel_prop_adds Ls Ts i k v g : adds_only Ls Ts g (set_rel_prop i k v g).
Proof. eapply added_adds_only; [apply added_set_rel_prop|done|done]. Qed.

(** Walks through a statement clause by clause: each clause respects the
    preorder [R], hence so does the statement. *)
Ltac split_rows :=
  repeat match goal with x : (_ * _)%type |- _ => destruct x end.

Ltac adds_go :=
  lazymatch goal with
  | |- ?R ?g ?g => reflexivity
  | |- ?R ?g (let '(_, _) := ?e in _).1 =>
      let H := fresh "H" in
      assert (R g e.1) as H;
      [adds_go
      | destruct e as [? ?]; simpl in H; (etrans; [exact H|]); clear H; simpl; adds_go]
  | |- ?R ?g (let '(_, _) := ?e in _) =>
      let H := fresh "H" in
      assert (R g e.1) as H;
      [adds_go | destruct e as [? ?]; simpl in H; (etrans; [exact H|]); clear H; adds_go]
  | |- ?R ?g (per_row ?f ?rows ?g0).1 =>
      transitivity g0;
      [adds_go | apply (per_row_preorder R); intros; split_rows; simpl; adds_go]
  | |- ?R ?g (foreach ?f ?xs ?g0) =>
      transitivity g0;
      [adds_go | apply (foreach_preorder R); intros; split_rows; simpl; adds_go]
  | |- ?R ?g (merge_node _ _ _ _ ?g0).1 =>
      transitivity g0; [adds_go | apply merge_node_adds; set_solver]
  | |- ?R ?g (merge_rel _ _ _ ?g0).1 =>
      transitivity g0; [adds_go | apply merge_rel_adds; set_solver]
  | |- ?R ?g (merge_path _ _ _ _ _ ?g0).1 =>
      transitivity g0; [adds_go | apply merge_path_adds; set_solver]
  | |- ?R ?g (create_node _ ?g0).1 =>
      transitivity g0; [adds_go | apply create_node_adds; simpl; set_solver]
  | |- ?R ?g (set_rel_prop _ _ _ ?g0) =>
      transitivity g0; [adds_go | apply set_rel_prop_adds]
  | |- _ => idtac
  end.

Lemma party_body_adds Ls Ts agreement party g :
  Organization ∈ Ls → Country ∈ Ls → IS_PARTY_TO ∈ Ts → INCORPORATED_IN ∈ Ts →
  adds_only Ls Ts g (party_body agreement party g).
Proof. intros. unfold party_body. adds_go. Qed.

Lemma clause_body_adds Ls Ts agreement clause g :
  ContractClause ∈ Ls → Excerpt ∈ Ls → ClauseType ∈ Ls →
  HAS_CLAUSE ∈ Ts → HAS_EXCERPT ∈ Ts → HAS_TYPE ∈ Ts →
  adds_only Ls Ts g (clause_body agreement clause g).
Proof. intros. unfold clause_body. adds_go. Qed.

Lemma upsert_agreement_adds Ls Ts a g :
  Agreement ∈ Ls → Organization ∈ Ls → Country ∈ Ls →
  GOVERNED_BY_LAW ∈ Ts → IS_PARTY_TO ∈ Ts → INCORPORATED_IN ∈ Ts →
  adds_only Ls Ts g (upsert_agreement a g).1.
Proof.
  intros. unfold upsert_agreement. adds_go.
  apply party_body_adds; done.
Qed.

Lemma create_clauses_adds Ls Ts a t g :
  ContractClause ∈ Ls → Excerpt ∈ Ls → ClauseType ∈ Ls →
  HAS_CLAUSE ∈ Ts → HAS_EXCERPT ∈ Ts → HAS_TYPE ∈ Ts →
  adds_only Ls Ts g (create_clauses a t g).
Proof.
  intros. unfold create_clauses.
  apply (foreach_preorder (adds_only Ls Ts)). intros agreement g0.
  apply (foreach_preorder (adds_only Ls Ts)). intros. by apply clause_body_adds.
Qed.

(** The statement only ever adds to the graph. *)
Lemma CREATE_GRAPH_QUERY_ext data g : ext g (CREATE_GRAPH_QUERY data g).
Proof.
  unfold CREATE_GRAPH_QUERY.
  pose proof (upsert_agreement_adds
                [Agreement; Organization; Country]
                [GOVERNED_BY_LAW; IS_PARTY_TO; INCORPORATED_IN]
                (Schema.agreement data) g) as H.
  destruct (upsert_agreement (Schema.agreement data) g) as [g1 t]. simpl in H.
  etrans; [eapply adds_only_ext, H; set_solver|].
  eapply adds_only_ext, (create_clauses_adds [ContractClause; Excerpt; ClauseType]
                           [HAS_CLAUSE; HAS_EXCERPT; HAS_TYPE]); set_solver.
Qed.

(** ** Counting *)

Lemma count_nodes_added L g g' ns ss :
  added g g' ns ss →
  count_nodes L g' = count_nodes L g + length (filter (λ n, nlabel n = L) ns).
Proof. intros [Hn _]. unfold count_nodes. by rewrite Hn, filter_app, length_app. Qed.

Lemma count_rels_shapes t g :
  count_rels t g = length (filter (λ s, s.1.1 = t) (shapes g)).
Proof.
  unfold count_rels, shapes. induction (rels g) as [|r l IH]; [done|].
  rewrite fmap_cons, !filter_cons. simpl.
  destruct (decide (rtype r = t)); simpl; by rewrite IH.
Qed.

Lemma count_rels_added t g g' ns ss :
  added g g' ns ss →
  count_rels t g' = count_rels t g + length (filter (λ s, s.1.1 = t) ss).
Proof. intros [_ Hs]. by rewrite !count_rels_shapes, Hs, filter_app, length_app. Qed.

Lemma filter_nil_Forall {A} (P : A → Prop) `{!∀ x, Decision (P x)} (l : list A) :
  Forall (λ x, ¬ P x) l → filter P l = [].
Proof.
  induction 1 as [|x l Hx _ IH]; [done|]. rewrite filter_cons.
  by destruct (decide (P x)).
Qed.

Lemma count_nodes_adds_only Ls Ts L g g' :
  adds_only Ls Ts g g' → L ∉ Ls → count_nodes L g' = count_nodes L g.
Proof.
  intros (ns & ss & Hadd & Hn & _) HL. rewrite (count_nodes_added _ _ _ _ _ Hadd).
  rewrite filter_nil_Forall; [simpl; lia|].
  eapply Forall_impl; [exact Hn|]. simpl. intros n Hin Heq. by rewrite Heq in Hin.
Qed.

Lemma count_rels_adds_only Ls Ts t g g' :
  adds_only Ls Ts g g' → t ∉ Ts → count_rels t g' = count_rels t g.
Proof.
  intros (ns & ss & Hadd & _ & Hs) HT. rewrite (count_rels_added _ _ _ _ _ Hadd).
  rewrite filter_nil_Forall; [simpl; lia|].
  eapply Forall_impl; [exact Hs|]. simpl. intros n Hin Heq. by rewrite Heq in Hin.
Qed.

(** When the Agreement is found, the first part of the statement adds no
    Agreement node. *)
Lemma upsert_agreement_found a g :
  match_nodes Agreement "contract_id" (VInt (Schema.contract_id a)) g ≠ [] →
  adds_only [Organization; Country] [GOVERNED_BY_LAW; IS_PARTY_TO; INCORPORATED_IN]
            g (upsert_agreement a g).1.
Proof.
  intros Hfound. unfold upsert_agreement.
  destruct (merge_node _ _ _ _ g) as [g1 t] eqn:E.
  apply merge_node_inv in E as [(? & _)|(_ & -> & _)]; [done|].
  adds_go. apply party_body_adds; set_solver.
Qed.

(** ** Well-formed graphs *)

Lemma wf_empty : wf empty_graph.
Proof.
  split; simpl.
  - intros L k v i j n m _ Hi. by rewrite lookup_nil in Hi.
  - constructor.
  - intros t s d Hin. by apply elem_of_nil in Hin.
Qed.

Lemma wf_skel g g' : nodes g' = nodes g → shapes g' = shapes g → wf g → wf g'.
Proof. intros Hn Hs [H1 H2 H3]. split; rewrite ?Hn, ?Hs; done. Qed.

Lemma wf_set_rel_prop i k v g : wf g → wf (set_rel_prop i k v g).
Proof. apply wf_skel; [done | apply shapes_set_rel_prop]. Qed.

Lemma match_nodes_skel L k v g g' :
  nodes g' = nodes g → match_nodes L k v g' = match_nodes L k v g.
Proof. unfold match_nodes. by intros ->. Qed.

Lemma wf_add_node n g :
  wf g →
  (∀ L k v, key_of L = Some k → node_matches L k v n = true → match_nodes L k v g = []) →
  wf (Graph (nodes g ++ [n]) (rels g)).
Proof.
  intros [Hk Hr He] Hfresh. split; simpl.
  - intros L k v i j x y HL Hi Hj Hx Hy.
    apply lookup_app_Some in Hi as [Hi|[Hi Hi']];
      apply lookup_app_Some in Hj as [Hj|[Hj Hj']].
    + eauto.
    + apply list_lookup_singleton_Some in Hj' as [_ <-].
      pose proof (Hfresh L k v HL Hy) as Hnil.
      rewrite (proj1 (find_all_nil _ _) Hnil _ _ Hi) in Hx. done.
    + apply list_lookup_singleton_Some in Hi' as [_ <-].
      pose proof (Hfresh L k v HL Hx) as Hnil.
      rewrite (proj1 (find_all_nil _ _) Hnil _ _ Hj) in Hy. done.
    + apply list_lookup_singleton_Some in Hi' as [Hi' _].
      apply list_lookup_singleton_Some in Hj' as [Hj' _]. lia.
  - done.
  - intros t s d Hin. rewrite length_app. simpl.
    destruct (He t s d Hin). lia.
Qed.

Lemma wf_add_rel t s d g :
  wf g → (t, s, d) ∉ shapes g → s < length (nodes g) → d < length (nodes g) →
  wf (Graph (nodes g) (rels g ++ [Rel t s d ∅])).
Proof.
  intros [Hk Hr He] Hnew Hs Hd. split; simpl.
  - done.
  - rewrite shapes_snoc. apply NoDup_app. split; [done|]. split.
    + intros sh Hin ->%list_elem_of_singleton. done.
    + apply NoDup_singleton.
  - intros t' s' d'. rewrite shapes_snoc.
    intros [Hin|Hin%list_elem_of_singleton]%elem_of_app; [by apply (He t')|].
    unfold rel_shape in Hin. simpl in Hin. simplify_eq. by split.
Qed.

Lemma node_matches_created L k v oc L' k' v' :
  key_of L = Some k → key_of L' = Some k' →
  node_matches L' k' v' (Node L (<[k:=v]> oc) None) = true → L' = L ∧ k' = k ∧ v' = v.
Proof.
  unfold node_matches; simpl. intros HL HL' [HLL Hv]%andb_true_iff.
  apply bool_decide_eq_true in HLL as <-. apply bool_decide_eq_true in Hv.
  assert (k' = k) as -> by congruence. rewrite lookup_insert_eq in Hv. by simplify_eq.
Qed.

Lemma node_matches_insert L k v oc : node_matches L k v (Node L (<[k:=v]> oc) None) = true.
Proof.
  unfold node_matches; simpl. rewrite lookup_insert_eq.
  apply andb_true_iff. split; by apply bool_decide_eq_true.
Qed.

(** [MERGE] of a node on its key: one row, and nothing changes when the
    node is found. *)
Lemma merge_node_wf L k v oc g g' t :
  wf g → key_of L = Some k → merge_node L k v oc g = (g', t) →
  wf g' ∧ ∃ i, t = [i] ∧ i ∈ match_nodes L k v g' ∧
               (match_nodes L k v g ≠ [] → g' = g).
Proof.
  intros Hwf HL [(Hnil & -> & ->)|(Hne & -> & ->)]%merge_node_inv.
  - split.
    + apply wf_add_node; [done|]. intros L' k' v' HL' Hm.
      by apply node_matches_created in Hm as (-> & -> & ->).
    + exists (length (nodes g)). split; [done|]. split; [|done].
      apply elem_of_match_nodes. simpl. eexists. split.
      * by apply list_lookup_middle.
      * apply node_matches_insert.
  - split; [done|]. destruct (match_nodes L k v g) as [|i t] eqn:E; [done|].
    exists i. assert (i ∈ match_nodes L k v g) as Hi by (rewrite E; left).
    rewrite <-E. split; [by apply match_nodes_unique|]. by split.
Qed.

(** [MERGE] of a relationship between two bound nodes. *)
Lemma merge_rel_wf t s d g g' rows :
  wf g → s < length (nodes g) → d < length (nodes g) →
  merge_rel t s d g = (g', rows) →
  wf g' ∧ (∃ i, rows = [i]) ∧ (t, s, d) ∈ shapes g' ∧ nodes g' = nodes g ∧
  ((t, s, d) ∈ shapes g → g' = g) ∧
  ((t, s, d) ∉ shapes g → shapes g' = shapes g ++ [(t, s, d)]).
Proof.
  intros Hwf Hs Hd [(Hnil & -> & ->)|(Hne & -> & ->)]%merge_rel_inv.
  - apply match_rels_nil in Hnil. split; [by apply wf_add_rel|].
    split; [by eexists|]. rewrite shapes_snoc. simpl.
    split; [apply elem_of_app; right; by left|]. by repeat split.
  - assert ((t, s, d) ∈ shapes g) as Hin.
    { destruct (decide ((t, s, d) ∈ shapes g)) as [|Hn]; [done|].
      by apply match_rels_nil in Hn. }
    split; [done|]. split; [apply match_rels_unique; [apply Hwf | done]|].
    by repeat split.
Qed.

(** ** The upsert of the parties *)

Lemma party_done_ext ag party g g' : ext g g' → party_done ag party g → party_done ag party g'.
Proof.
  intros Hext (p & c & Hp & Hs & Hc & Hs'). exists p, c.
  eauto 10 using match_nodes_ext, ext_shapes.
Qed.

Lemma merge_node_ext L k v oc g g' t : merge_node L k v oc g = (g', t) → ext g g'.
Proof.
  intros E. pose proof (merge_node_adds [L] [] L k v oc g ltac:(set_solver)) as H.
  rewrite E in H. by apply adds_only_ext in H.
Qed.

Lemma merge_rel_ext t s d g g' rows : merge_rel t s d g = (g', rows) → ext g g'.
Proof.
  intros E. pose proof (merge_rel_adds [] [t] t s d g ltac:(set_solver)) as H.
  rewrite E in H. by apply adds_only_ext in H.
Qed.

Lemma set_rel_prop_ext i k v g : ext g (set_rel_prop i k v g).
Proof. eapply adds_only_ext, (set_rel_prop_adds [] []). Qed.

Lemma party_body_ext ag party g : ext g (party_body ag party g).
Proof.
  eapply adds_only_ext, (party_body_adds [Organization; Country]
                           [IS_PARTY_TO; INCORPORATED_IN]); solve [repeat constructor].
Qed.

Lemma party_body_wf ag party g g' :
  wf g → ag < length (nodes g) → party_body ag party g = g' →
  wf g' ∧ party_done ag party g' ∧ (party_done ag party g → added g g' [] []).
Proof.
  intros Hwf Hag E. unfold party_body in E.
  destruct (merge_node Organization _ _ _ g) as [g1 t1] eqn:E1.
  pose proof (merge_node_ext _ _ _ _ _ _ _ E1) as X1.
  apply merge_node_wf in E1 as (Hwf1 & p & -> & Hp & Hsame1); [|done..].
  pose proof (ext_nodes_length _ _ X1) as Hlen1.
  pose proof (match_nodes_lt _ _ _ _ _ Hp) as Hplt.
  simpl in E.
  destruct (merge_rel IS_PARTY_TO p ag g1) as [g2 t2] eqn:E2.
  pose proof (merge_rel_ext _ _ _ _ _ _ E2) as X2.
  apply merge_rel_wf in E2 as (Hwf2 & [ipt ->] & Hs2 & Hn2 & Hsame2 & _); [|done|done|lia].
  simpl in E.
  set (g3 := set_rel_prop ipt "role" (VStr (Schema.role party)) g2) in E.
  assert (wf g3) as Hwf3 by by apply wf_set_rel_prop.
  assert (ext g2 g3) as X3 by apply set_rel_prop_ext.
  destruct (merge_node Country _ _ _ g3) as [g4 t4] eqn:E4.
  pose proof (merge_node_ext _ _ _ _ _ _ _ E4) as X4.
  apply merge_node_wf in E4 as (Hwf4 & c & -> & Hc & Hsame4); [|done..].
  pose proof (ext_nodes_length _ _ X4) as Hlen4.
  pose proof (match_nodes_lt _ _ _ _ _ Hc) as Hclt.
  simpl in E.
  destruct (merge_rel INCORPORATED_IN p c g4) as [g5 t5] eqn:E5.
  pose proof (merge_rel_ext _ _ _ _ _ _ E5) as X5.
  apply merge_rel_wf in E5 as (Hwf5 & [inc ->] & Hs5 & Hn5 & Hsame5 & _);
    [|done| |done].
  2:{ assert (nodes g3 = nodes g2) as Hn3 by done. rewrite Hn3, Hn2 in Hlen4. lia. }
  simpl in E. subst g'.
  set (g6 := set_rel_prop inc "state" _ g5).
  assert (ext g5 g6) as X6 by apply set_rel_prop_ext.
  split; [by apply wf_set_rel_prop|]. split.
  - exists p, c. split; [|split; [|split]].
    + eapply match_nodes_ext; [|exact Hp]. do 5 (etrans; [eassumption|]). done.
    + eapply ext_shapes; [|exact Hs2]. do 4 (etrans; [eassumption|]). done.
    + eapply match_nodes_ext; [|exact Hc]. do 2 (etrans; [eassumption|]). done.
    + eapply ext_shapes; [|exact Hs5]. done.
  - intros (p0 & c0 & Hp0 & Hs0 & Hc0 & Hs0').
    assert (g1 = g) as ->.
    { apply Hsame1. intros Hnil. rewrite Hnil in Hp0. by apply elem_of_nil in Hp0. }
    assert (p = p0) as ->.
    { rewrite (match_nodes_unique Organization _ _ _ _ Hwf eq_refl Hp0) in Hp.
      by apply list_elem_of_singleton in Hp. }
    assert (g2 = g) as -> by auto.
    assert (nodes g3 = nodes g) as Hn3 by done.
    assert (shapes g3 = shapes g) as Hs3 by apply shapes_set_rel_prop.
    assert (g4 = g3) as ->.
    { apply Hsame4. rewrite (match_nodes_skel _ _ _ _ _ Hn3).
      intros Hnil. rewrite Hnil in Hc0. by apply elem_of_nil in Hc0. }
    assert (c = c0) as ->.
    { rewrite (match_nodes_skel _ _ _ _ _ Hn3) in Hc.
      rewrite (match_nodes_unique Country _ _ _ _ Hwf eq_refl Hc0) in Hc.
      by apply list_elem_of_singleton in Hc. }
    assert (g5 = g3) as -> by (apply Hsame5; by rewrite Hs3).
    split; rewrite app_nil_r; [done|].
    subst g6. by rewrite shapes_set_rel_prop.
Qed.

(** [FOREACH (party IN a.parties | ...)] *)
Lemma parties_loop_wf ag ps g :
  wf g → ag < length (nodes g) →
  wf (foreach (party_body ag) ps g) ∧
  Forall (λ party, party_done ag party (foreach (party_body ag) ps g)) ps ∧
  (Forall (λ party, party_done ag party g) ps →
   added g (foreach (party_body ag) ps g) [] []).
Proof.
  revert g. induction ps as [|party ps IH]; intros g Hwf Hag; simpl.
  - split; [done|]. split; [done|]. intros _. apply added_refl.
  - destruct (party_body_wf ag party g _ Hwf Hag eq_refl) as (Hwf1 & Hdone1 & Hsame1).
    pose proof (party_body_ext ag party g) as X1.
    pose proof (ext_nodes_length _ _ X1) as Hlen1.
    destruct (IH (party_body ag party g)) as (Hwf2 & Hdone2 & Hsame2); [done|lia|].
    split; [done|]. split.
    + constructor; [|done]. eapply party_done_ext; [|exact Hdone1].
      apply (foreach_preorder ext). intros x g0. apply party_body_ext.
    + intros [Hx Hxs]%Forall_cons. specialize (Hsame1 Hx).
      assert (added (party_body ag party g) (foreach (party_body ag) ps (party_body ag party g)) [] [])
        as Hrest.
      { apply Hsame2. eapply Forall_impl; [exact Hxs|]. intros y. by apply party_done_ext. }
      apply (added_trans _ _ _ _ _ _ _ Hsame1 Hrest).
Qed.

Lemma parties_loop_ext ag ps g : ext g (foreach (party_body ag) ps g).
Proof. apply (foreach_preorder ext). intros. apply party_body_ext. Qed.

Lemma header_done_ext a g g' : ext g g' → header_done a g → header_done a g'.
Proof.
  intros Hext (ag & gl & Hag & Hgl & Hs & Hps). exists ag, gl.
  split; [by eapply match_nodes_ext|]. split; [by eapply match_nodes_ext|].
  split; [by eapply ext_shapes|].
  eapply Forall_impl; [exact Hps|]. intros party. by apply party_done_ext.
Qed.

(** The first part of the statement on a well-formed graph: one [agreement]
    row, and no change of the nodes and relationships when everything
    is found. *)
Lemma upsert_agreement_wf a g g' t :
  wf g → upsert_agreement a g = (g', t) →
  wf g' ∧
  ∃ ag, t = [ag] ∧
        ag ∈ match_nodes Agreement "contract_id" (VInt (Schema.contract_id a)) g' ∧
        header_done a g' ∧ (header_done a g → added g g' [] []).
Proof.
  intros Hwf E. unfold upsert_agreement in E.
  destruct (merge_node Agreement _ _ _ g) as [g1 t1] eqn:E1.
  pose proof (merge_node_ext _ _ _ _ _ _ _ E1) as X1.
  apply merge_node_wf in E1 as (Hwf1 & ag & -> & Hag & Hsame1); [|done..].
  pose proof (match_nodes_lt _ _ _ _ _ Hag) as Haglt.
  simpl in E.
  destruct (merge_node Country _ _ _ g1) as [g2 t2] eqn:E2.
  pose proof (merge_node_ext _ _ _ _ _ _ _ E2) as X2.
  apply merge_node_wf in E2 as (Hwf2 & gl & -> & Hgl & Hsame2); [|done..].
  pose proof (ext_nodes_length _ _ X2) as Hlen2.
  pose proof (match_nodes_lt _ _ _ _ _ Hgl) as Hgllt.
  simpl in E.
  destruct (merge_rel GOVERNED_BY_LAW ag gl g2) as [g3 t3] eqn:E3.
  pose proof (merge_rel_ext _ _ _ _ _ _ E3) as X3.
  apply merge_rel_wf in E3 as (Hwf3 & [gbl ->] & Hs3 & Hn3 & Hsame3 & _); [|done|lia|done].
  simpl in E.
  set (g4 := set_rel_prop gbl "state" _ g3) in E.
  assert (wf g4) as Hwf4 by by apply wf_set_rel_prop.
  assert (ext g3 g4) as X4 by apply set_rel_prop_ext.
  assert (nodes g4 = nodes g3) as Hn4 by done.
  assert (shapes g4 = shapes g3) as Hs4 by apply shapes_set_rel_prop.
  destruct (parties_loop_wf ag (Schema.parties a) g4) as (Hwf5 & Hdone5 & Hsame5);
    [done | rewrite Hn4, Hn3; lia |].
  pose proof (parties_loop_ext ag (Schema.parties a) g4) as X5.
  injection E as <- <-.
  split; [done|]. exists ag. split; [done|].
  assert (ext g1 (foreach (party_body ag) (Schema.parties a) g4)) as X15
    by (do 4 (etrans; [eassumption|]); done).
  split; [by eapply match_nodes_ext|]. split.
  - exists ag, gl. split; [by eapply match_nodes_ext|]. split.
    + eapply match_nodes_ext; [|exact Hgl]. do 3 (etrans; [eassumption|]). done.
    + split; [|done]. eapply ext_shapes; [|exact Hs3]. by etrans.
  - intros (ag0 & gl0 & Hag0 & Hgl0 & Hs0 & Hps0).
    assert (g1 = g) as ->.
    { apply Hsame1. intros Hnil. rewrite Hnil in Hag0. by apply elem_of_nil in Hag0. }
    assert (ag = ag0) as ->.
    { rewrite (match_nodes_unique Agreement _ _ _ _ Hwf eq_refl Hag0) in Hag.
      by apply list_elem_of_singleton in Hag. }
    assert (g2 = g) as ->.
    { apply Hsame2. intros Hnil. rewrite Hnil in Hgl0. by apply elem_of_nil in Hgl0. }
    assert (gl = gl0) as ->.
    { rewrite (match_nodes_unique Country _ _ _ _ Hwf eq_refl Hgl0) in Hgl.
      by apply list_elem_of_singleton in Hgl. }
    assert (g3 = g) as -> by auto.
    assert (added g g4 [] []) as Hadd4 by (split; by rewrite app_nil_r).
    eapply (added_trans _ _ _ [] [] [] [] Hadd4). apply Hsame5.
    eapply Forall_impl; [exact Hps0|]. intros party. by apply party_done_ext.
Qed.

(** ** The clause part *)

Lemma find_all_ne {A} (p : A → bool) (l : list A) :
  find_all p l ≠ [] ↔ ∃ j x, l !! j = Some x ∧ p x = true.
Proof.
  split.
  - intros Hne. destruct (find_all p l) as [|j t] eqn:E; [done|].
    assert (j ∈ find_all p l) as (x & ? & ?)%elem_of_find_all by (rewrite E; left).
    eauto.
  - intros (j & x & Hj & Hp) Hnil.
    rewrite (proj1 (find_all_nil _ _) Hnil _ _ Hj) in Hp. done.
Qed.

Lemma elem_of_shapes t s d g :
  (t, s, d) ∈ shapes g ↔ ∃ j r, rels g !! j = Some r ∧ rel_shape r = (t, s, d).
Proof.
  unfold shapes. rewrite list_elem_of_fmap. split.
  - intros (r & Hr & (j & Hj)%list_elem_of_lookup). eauto.
  - intros (j & r & Hj & Hr). exists r. split; [done|]. by eapply list_elem_of_lookup_2.
Qed.

Lemma linked_iff g cl x :
  linked g cl x ↔
  ∃ d n, (HAS_EXCERPT, cl, d) ∈ shapes g ∧ nodes g !! d = Some n ∧
         node_matches Excerpt "text" (VStr x) n = true.
Proof.
  unfold linked, match_paths. rewrite find_all_ne. split.
  - intros (j & r & Hj & Hp). unfold path_matches in Hp.
    apply andb_true_iff in Hp as [[Ht Hs]%andb_true_iff Hn].
    apply bool_decide_eq_true in Ht. apply bool_decide_eq_true in Hs.
    destruct (nodes g !! rdst r) as [n|] eqn:En; [|done].
    exists (rdst r), n. split; [|done]. apply elem_of_shapes.
    exists j, r. split; [done|]. unfold rel_shape. by rewrite Ht, Hs.
  - intros (d & n & (j & r & Hj & Hr)%elem_of_shapes & Hn & Hm).
    exists j, r. split; [done|]. unfold rel_shape in Hr. simplify_eq.
    unfold path_matches. rewrite Hn, Hm.
    rewrite !bool_decide_eq_true_2; done.
Qed.

Lemma node_matches_excerpt x y :
  node_matches Excerpt "text" (VStr y) (Node Excerpt {["text" := VStr x]} None) = true ↔ y = x.
Proof.
  unfold node_matches; simpl. rewrite bool_decide_eq_true, lookup_singleton_eq.
  split; [by intros [= ->] | by intros ->].
Qed.

(** One [MERGE (cl)-[:HAS_EXCERPT]->(e:Excerpt {text: x})]. *)
Lemma merge_excerpt_wf cl x g :
  wf g → cl < length (nodes g) →
  let g' := (merge_path HAS_EXCERPT cl Excerpt "text" (VStr x) g).1 in
  wf g' ∧ (∀ y, linked g' cl y ↔ linked g cl y ∨ y = x) ∧
  ((linked g cl x ∧ g' = g) ∨
   (¬ linked g cl x ∧
    added g g' [Node Excerpt {["text" := VStr x]} None]
          [(HAS_EXCERPT, cl, length (nodes g))])).
Proof.
  intros Hwf Hcl. simpl.
  destruct (merge_path _ _ _ _ _ g) as [g' rows] eqn:E. simpl.
  apply merge_path_inv in E as [(Hnil & -> & _)|(Hne & -> & _)].
  - assert (¬ linked g cl x) as Hnl by (unfold linked; rewrite Hnil; intros H; by apply H).
    set (e := Node Excerpt {["text" := VStr x]} None).
    set (N := length (nodes g)).
    set (g1 := Graph (nodes g ++ [e]) (rels g)).
    assert (wf g1) as Hwf1.
    { apply wf_add_node; [done|]. intros L k v HL Hm.
      unfold node_matches in Hm. simpl in Hm.
      apply andb_true_iff in Hm as [<-%bool_decide_eq_true _]. done. }
    assert ((HAS_EXCERPT, cl, N) ∉ shapes g) as Hfresh.
    { intros Hin. apply (wf_ends g Hwf) in Hin. unfold N in Hin. lia. }
    assert (wf (Graph (nodes g ++ [e]) (rels g ++ [Rel HAS_EXCERPT cl N ∅]))) as Hwf2.
    { apply (wf_add_rel HAS_EXCERPT cl N g1); [done|done|..];
        simpl; rewrite length_app; simpl; unfold N; lia. }
    split; [done|]. split.
    + intros y. rewrite !linked_iff. simpl. rewrite shapes_snoc. split.
      * intros (d & n & [Hin|Hin%list_elem_of_singleton]%elem_of_app & Hn & Hm).
        -- left. exists d, n. split; [done|]. split; [|done].
           pose proof (wf_ends g Hwf _ _ _ Hin) as [_ Hd].
           by rewrite lookup_app_l in Hn.
        -- right. unfold rel_shape in Hin. simpl in Hin. simplify_eq.
           unfold N in Hn. rewrite list_lookup_middle in Hn by done. simplify_eq.
           by apply node_matches_excerpt.
      * intros [(d & n & Hin & Hn & Hm)| ->].
        -- exists d, n. split; [apply elem_of_app; by left|].
           split; [by apply lookup_app_l_Some | done].
        -- exists N, e. split; [apply elem_of_app; right; by left|].
           split; [by apply list_lookup_middle | by apply node_matches_excerpt].
    + right. split; [done|]. split; simpl; [done|]. by rewrite shapes_snoc.
  - assert (linked g cl x) as Hl by done.
    split; [done|]. split; [|by left].
    intros y. split; [by left | by intros [?| ->]].
Qed.

(** [FOREACH (excerpt IN clause.excerpts | MERGE ...)]: one new Excerpt node
    and one new relationship for every text that [cl] does not have yet. *)
Lemma excerpts_loop_wf cl xs g (S : gset string) :
  wf g → cl < length (nodes g) → (∀ y, linked g cl y ↔ y ∈ S) →
  let g' := foreach (λ excerpt g,
                       (merge_path HAS_EXCERPT cl Excerpt "text" (VStr excerpt) g).1) xs g in
  wf g' ∧
  ∃ ns ss, added g g' ns ss ∧
           Forall (λ n, nlabel n = Excerpt) ns ∧ Forall (λ s, s.1.1 = HAS_EXCERPT) ss ∧
           length ns = size (list_to_set xs ∖ S) ∧ length ss = size (list_to_set xs ∖ S).
Proof.
  revert g S. induction xs as [|x xs IH]; intros g S Hwf Hcl HS; cbv zeta.
  - rewrite foreach_nil.
    split; [done|]. exists [], []. split; [apply added_refl|].
    rewrite list_to_set_nil.
    assert ((∅ : gset string) ∖ S = ∅) as -> by set_solver.
    by rewrite size_empty.
  - rewrite foreach_cons.
    destruct (merge_excerpt_wf cl x g Hwf Hcl) as (Hwf1 & Hl1 & Hcase). cbv zeta in *.
    set (g1 := (merge_path HAS_EXCERPT cl Excerpt "text" (VStr x) g).1) in *.
    destruct Hcase as [[Hl Heq]|[Hnl Hadd]].
    + rewrite Heq. destruct (IH g S Hwf Hcl HS) as (Hwf2 & ns & ss & Hadd & Hn & Hs & Hln & Hls).
      split; [done|]. exists ns, ss. split; [done|]. split; [done|]. split; [done|].
      assert (x ∈ S) as HxS by by apply HS.
      assert (list_to_set (x :: xs) ∖ S = (list_to_set xs : gset string) ∖ S) as ->
        by set_solver.
      done.
    + assert (x ∉ S) as HxS by (intros ?; by apply Hnl, HS).
      assert (cl < length (nodes g1)) as Hcl1.
      { destruct Hadd as [-> _]. rewrite length_app. lia. }
      destruct (IH g1 ({[x]} ∪ S) Hwf1 Hcl1) as (Hwf2 & ns & ss & Hadd2 & Hn & Hs & Hln & Hls).
      { intros y. rewrite Hl1, HS. set_solver. }
      split; [done|].
      eexists (_ :: ns), (_ :: ss). split; [exact (added_trans _ _ _ _ _ _ _ Hadd Hadd2)|].
      split; [by constructor|]. split; [by constructor|].
      assert (list_to_set (x :: xs) ∖ S =
              {[x]} ∪ ((list_to_set xs : gset string) ∖ ({[x]} ∪ S))) as ->.
      { rewrite list_to_set_cons. apply set_eq. intros y.
        destruct (decide (y = x)) as [->|]; set_solver. }
      rewrite size_union by set_solver. rewrite size_singleton. simpl. lia.
Qed.

Lemma size_list_to_set_remove_dups (xs : list string) :
  size (list_to_set xs : gset string) = length (remove_dups xs).
Proof.
  rewrite <-(size_list_to_set (C:=gset string) (remove_dups xs)) by apply NoDup_remove_dups.
  f_equal. apply set_eq. intros y. by rewrite !elem_of_list_to_set, elem_of_remove_dups.
Qed.

Lemma match_nodes_app_other L k v g g' ns :
  nodes g' = nodes g ++ ns → Forall (λ n, nlabel n ≠ L) ns →
  match_nodes L k v g' = match_nodes L k v g.
Proof.
  intros Hn Hns. unfold match_nodes, find_all. rewrite Hn, find_from_app.
  replace (find_from (node_matches L k v) (0 + length (nodes g)) ns) with (@nil nat);
    [by rewrite app_nil_r|].
  symmetry. clear Hn. generalize (0 + length (nodes g)). induction Hns as [|n ns Hn' _ IH]; intros i; [done|].
  simpl.
  assert (node_matches L k v n = false) as ->
    by (unfold node_matches; by rewrite bool_decide_eq_false_2).
  apply IH.
Qed.

Lemma length_filter_label L (ns : list node) L' :
  Forall (λ n, nlabel n = L) ns →
  length (filter (λ n, nlabel n = L') ns) = if decide (L' = L) then length ns else 0.
Proof.
  induction 1 as [|n ns Hn _ IH]; [by destruct (decide _)|].
  rewrite filter_cons. destruct (decide (L' = L)) as [->|Hne].
  - rewrite decide_True by done. simpl. by rewrite IH.
  - rewrite decide_False by congruence. done.
Qed.

Lemma length_filter_type t (ss : list (rel_type * nat * nat)) t' :
  Forall (λ s, s.1.1 = t) ss →
  length (filter (λ s, s.1.1 = t') ss) = if decide (t' = t) then length ss else 0.
Proof.
  induction 1 as [|s ss Hs _ IH]; [by destruct (decide _)|].
  rewrite filter_cons. destruct (decide (t' = t)) as [->|Hne].
  - rewrite decide_True by done. simpl. by rewrite IH.
  - rewrite decide_False by congruence. done.
Qed.

(** The body of the clause loop on a well-formed graph: what it adds. *)
Lemma clause_body_wf ag clause g :
  wf g → ag < length (nodes g) →
  let g' := clause_body ag clause g in
  let n := length (remove_dups (Schema.excerpts clause)) in
  let ty := VStr (Schema.clause_type clause) in
  wf g' ∧
  ∃ ns_e ss_e ns_t,
    added g g'
          ([Node ContractClause {["type" := ty]} None] ++ ns_e ++ ns_t)
          ([(HAS_CLAUSE, ag, length (nodes g))] ++ ss_e ++
           [(HAS_TYPE, length (nodes g),
             default (length (nodes g) + 1 + n) (head (match_nodes ClauseType "name" ty g)))]) ∧
    Forall (λ n, nlabel n = Excerpt) ns_e ∧ length ns_e = n ∧
    Forall (λ s, s.1.1 = HAS_EXCERPT) ss_e ∧ length ss_e = n ∧
    Forall (λ n, nlabel n = ClauseType) ns_t ∧
    length ns_t = (if decide (match_nodes ClauseType "name" ty g = []) then 1 else 0) ∧
    match_nodes ClauseType "name" ty g' ≠ [].
Proof.
  intros Hwf Hag g' n ty. subst g'. unfold clause_body. fold ty.
  set (clnode := Node ContractClause {["type" := ty]} None).
  set (cl := length (nodes g)).
  unfold create_node. fold cl.
  set (g1 := Graph (nodes g ++ [clnode]) (rels g)).
  assert (wf g1) as Hwf1.
  { apply wf_add_node; [done|]. intros L k v HL Hm. unfold node_matches in Hm. simpl in Hm.
    apply andb_true_iff in Hm as [<-%bool_decide_eq_true _]. done. }
  assert (length (nodes g1) = S cl) as Hlen1.
  { simpl. rewrite length_app. simpl. unfold cl. lia. }
  assert (∀ t d, (t, cl, d) ∉ shapes g) as Hnoout.
  { intros t d Hin. apply (wf_ends g Hwf) in Hin. unfold cl in Hin. lia. }
  assert (∀ t s, (t, s, cl) ∉ shapes g) as Hnoin.
  { intros t s Hin. apply (wf_ends g Hwf) in Hin. unfold cl in Hin. lia. }
  destruct (merge_rel HAS_CLAUSE ag cl g1) as [g2 t2] eqn:E2.
  apply merge_rel_wf in E2 as (Hwf2 & [clt ->] & _ & Hn2 & _ & Hs2); [|done|lia|lia].
  specialize (Hs2 (Hnoin _ _)). change (shapes g1) with (shapes g) in Hs2.
  cbn [foreach fold_left].
  set (g3 := set_rel_prop clt "type" ty g2).
  assert (wf g3) as Hwf3 by by apply wf_set_rel_prop.
  assert (nodes g3 = nodes g ++ [clnode]) as Hn3 by done.
  assert (shapes g3 = shapes g ++ [(HAS_CLAUSE, ag, cl)]) as Hs3
    by (unfold g3; by rewrite shapes_set_rel_prop).
  destruct (excerpts_loop_wf cl (Schema.excerpts clause) g3 ∅)
    as (Hwf4 & ns_e & ss_e & [Hn4 Hs4] & Hne & Hse & Hlne & Hlse).
  { done. }
  { rewrite Hn3, length_app. simpl. unfold cl. lia. }
  { intros y. split; [|by intros ?%not_elem_of_empty].
    intros (d & x & Hin & _)%linked_iff. exfalso.
    rewrite Hs3 in Hin. apply elem_of_app in Hin as [Hin|Hin%list_elem_of_singleton].
    - by apply Hnoout in Hin.
    - done. }
  cbv zeta in *.
  set (g4 := foreach _ (Schema.excerpts clause) g3) in *.
  rewrite difference_empty_L, size_list_to_set_remove_dups in Hlne, Hlse. fold n in Hlne, Hlse.
  rewrite per_row_singleton.
  assert (match_nodes ClauseType "name" ty g4 = match_nodes ClauseType "name" ty g) as Hm4.
  { apply (match_nodes_app_other _ _ _ _ _ ([clnode] ++ ns_e)).
    - by rewrite Hn4, Hn3, <-app_assoc.
    - apply Forall_app. split; [by repeat constructor|].
      eapply Forall_impl; [exact Hne|]. simpl. by intros x ->. }
  destruct (merge_node ClauseType "name" ty ∅ g4) as [g5 t5] eqn:E5.
  pose proof E5 as E5'.
  apply merge_node_wf in E5 as (Hwf5 & clType & -> & HclType & _); [|done..].
  rewrite per_row_singleton.
  assert (length (nodes g4) = cl + 1 + n) as Hlen4.
  { rewrite Hn4, Hn3, !length_app, Hlne. simpl. unfold cl. lia. }
  assert (∃ ns_t, added g4 g5 ns_t [] ∧ Forall (λ n, nlabel n = ClauseType) ns_t ∧
                  length ns_t = (if decide (match_nodes ClauseType "name" ty g = [])
                                 then 1 else 0) ∧
                  clType = default (cl + 1 + n) (head (match_nodes ClauseType "name" ty g)))
    as (ns_t & [Hn5 Hs5] & Hnt & Hlnt & HclTypeEq).
  { apply merge_node_inv in E5' as [(Hnil & -> & Ht)|(Hne' & -> & Ht)].
    - eexists [_]. split; [split; simpl; [done | by rewrite app_nil_r]|].
      rewrite <-Hm4, Hnil. split; [by repeat constructor|]. split; [done|].
      simpl. injection Ht as ->. done.
    - exists []. split; [apply added_refl|]. split; [done|].
      rewrite <-Hm4. rewrite decide_False by done. split; [done|].
      destruct (match_nodes ClauseType "name" ty g4); [done|]. simpl. by injection Ht. }
  rewrite app_nil_r in Hs5.
  destruct (merge_rel HAS_TYPE cl clType g5) as [g6 t6] eqn:E6. simpl.
  apply merge_rel_wf in E6 as (Hwf6 & _ & _ & Hn6 & _ & Hs6); [|done| |].
  2:{ rewrite Hn5, length_app. lia. }
  2:{ by eapply match_nodes_lt. }
  split; [done|]. exists ns_e, ss_e, ns_t.
  split; [|repeat (split; [done|]);
           rewrite (match_nodes_skel _ _ _ _ _ Hn6); intros Hnil; rewrite Hnil in HclType;
           by apply elem_of_nil in HclType].
  split.
  - by rewrite Hn6, Hn5, Hn4, Hn3, <-!app_assoc.
  - rewrite Hs6.
    + rewrite Hs5, Hs4, Hs3, <-!app_assoc. simpl. by rewrite HclTypeEq.
    + rewrite Hs5, Hs4, Hs3. intros [[Hin|Hin%list_elem_of_singleton]%elem_of_app|Hin]%elem_of_app.
      * by apply Hnoout in Hin.
      * done.
      * rewrite Forall_forall in Hse. by apply Hse in Hin.
Qed.

Lemma clause_body_ext ag clause g : ext g (clause_body ag clause g).
Proof.
  eapply adds_only_ext, (clause_body_adds [ContractClause; Excerpt; ClauseType]
                           [HAS_CLAUSE; HAS_EXCERPT; HAS_TYPE]); solve [repeat constructor].
Qed.

Lemma match_nodes_ne_ext L k v g g' :
  ext g g' → match_nodes L k v g ≠ [] → match_nodes L k v g' ≠ [].
Proof.
  intros Hext Hne. destruct (match_nodes L k v g) as [|i t] eqn:E; [done|].
  assert (i ∈ match_nodes L k v g') as Hi.
  { eapply match_nodes_ext; [done|]. rewrite E. left. }
  intros Hnil. rewrite Hnil in Hi. by apply elem_of_nil in Hi.
Qed.

(** The counts one clause adds. *)
Lemma clause_body_counts ag clause g :
  wf g → ag < length (nodes g) →
  let g' := clause_body ag clause g in
  let n := length (remove_dups (Schema.excerpts clause)) in
  let ty := VStr (Schema.clause_type clause) in
  wf g' ∧
  count_nodes ContractClause g' = count_nodes ContractClause g + 1 ∧
  count_nodes Excerpt g' = count_nodes Excerpt g + n ∧
  count_nodes ClauseType g' =
    count_nodes ClauseType g + (if decide (match_nodes ClauseType "name" ty g = []) then 1 else 0) ∧
  count_rels HAS_CLAUSE g' = count_rels HAS_CLAUSE g + 1 ∧
  count_rels HAS_EXCERPT g' = count_rels HAS_EXCERPT g + n ∧
  count_rels HAS_TYPE g' = count_rels HAS_TYPE g + 1 ∧
  clause_nodes_of ag g' = clause_nodes_of ag g + 1 ∧
  match_nodes ClauseType "name" ty g' ≠ [].
Proof.
  intros Hwf Hag g' n ty.
  destruct (clause_body_wf ag clause g Hwf Hag)
    as (Hwf' & ns_e & ss_e & ns_t & Hadd & Hne & Hlne & Hse & Hlse & Hnt & Hlnt & Hfound).
  fold g' n ty in Hwf', Hadd, Hlne, Hlse, Hlnt, Hfound.
  split; [done|].
  assert (clause_nodes_of ag g' = clause_nodes_of ag g + 1) as Hof.
  { unfold clause_nodes_of. destruct Hadd as [_ ->].
    rewrite !filter_app, !length_app.
    rewrite (filter_nil_Forall _ ss_e).
    2:{ eapply Forall_impl; [exact Hse|]. simpl. intros s -> [? _]. done. }
    rewrite !filter_cons, !filter_nil.
    rewrite decide_True by done. rewrite decide_False by (by intros [? _]). simpl. lia. }
  rewrite !(count_nodes_added _ _ _ _ _ Hadd), !(count_rels_added _ _ _ _ _ Hadd).
  rewrite !filter_app, !length_app.
  rewrite !(length_filter_label _ _ _ Hne), !(length_filter_label _ _ _ Hnt).
  rewrite !(length_filter_type _ _ _ Hse).
  rewrite !filter_cons, !filter_nil. simpl.
  split; [lia|]. split; [destruct (decide (Excerpt = Excerpt)); [lia|done]|].
  split; [destruct (decide (ClauseType = ClauseType)); [lia|done]|].
  split; [lia|]. split; [destruct (decide (HAS_EXCERPT = HAS_EXCERPT)); [lia|done]|].
  split; [lia|done].
Qed.

(** [FOREACH (clause IN valid_clauses | ...)] on a well-formed graph. *)
Lemma clauses_loop_wf ag cs g :
  wf g → ag < length (nodes g) →
  let g' := foreach (clause_body ag) cs g in
  wf g' ∧
  count_nodes ContractClause g' = count_nodes ContractClause g + length cs ∧
  count_nodes Excerpt g' = count_nodes Excerpt g + distinct_excerpts cs ∧
  count_rels HAS_CLAUSE g' = count_rels HAS_CLAUSE g + length cs ∧
  count_rels HAS_EXCERPT g' = count_rels HAS_EXCERPT g + distinct_excerpts cs ∧
  count_rels HAS_TYPE g' = count_rels HAS_TYPE g + length cs ∧
  clause_nodes_of ag g' = clause_nodes_of ag g + length cs ∧
  clause_types_done cs g' ∧
  (clause_types_done cs g → count_nodes ClauseType g' = count_nodes ClauseType g).
Proof.
  revert g. induction cs as [|c cs IH]; intros g Hwf Hag; cbv zeta.
  - rewrite foreach_nil. unfold distinct_excerpts, clause_types_done. simpl.
    split; [done|]. repeat (split; [lia|]). split; [constructor | done].
  - rewrite foreach_cons.
    destruct (clause_body_counts ag c g Hwf Hag)
      as (Hwf1 & Hc1 & He1 & Ht1 & Hrc1 & Hre1 & Hrt1 & Hof1 & Hfound1).
    pose proof (clause_body_ext ag c g) as X1.
    pose proof (ext_nodes_length _ _ X1) as Hlen1.
    destruct (IH (clause_body ag c g) Hwf1 ltac:(lia))
      as (Hwf2 & Hc2 & He2 & Hrc2 & Hre2 & Hrt2 & Hof2 & Hdone2 & Ht2).
    cbv zeta in *.
    set (g1 := clause_body ag c g) in *.
    assert (ext g1 (foreach (clause_body ag) cs g1)) as X2.
    { apply (foreach_preorder ext). intros. apply clause_body_ext. }
    unfold distinct_excerpts in *. rewrite fmap_cons. simpl.
    split; [done|]. repeat (split; [lia|]). split.
    + constructor; [|done]. by eapply match_nodes_ne_ext.
    + intros [Hc Hcs]%Forall_cons. rewrite Ht2.
      * rewrite Ht1. rewrite decide_False by done. lia.
      * eapply Forall_impl; [exact Hcs|]. intros c'. by apply match_nodes_ne_ext.
Qed.

(** ** The whole statement *)

Lemma create_clauses_ext a t g : ext g (create_clauses a t g).
Proof.
  eapply adds_only_ext, (create_clauses_adds [ContractClause; Excerpt; ClauseType]
                           [HAS_CLAUSE; HAS_EXCERPT; HAS_TYPE]); solve [repeat constructor].
Qed.

Lemma clause_types_done_ext cs g g' : ext g g' → clause_types_done cs g → clause_types_done cs g'.
Proof.
  intros Hext Hcs. eapply Forall_impl; [exact Hcs|]. intros c. by apply match_nodes_ne_ext.
Qed.

Lemma clause_nodes_of_adds_only Ls Ts ag g g' :
  adds_only Ls Ts g g' → HAS_CLAUSE ∉ Ts → clause_nodes_of ag g' = clause_nodes_of ag g.
Proof.
  intros (ns & ss & [_ Hs] & _ & Hss) HT. unfold clause_nodes_of.
  rewrite Hs, filter_app, length_app. rewrite (filter_nil_Forall _ ss); [simpl; lia|].
  eapply Forall_impl; [exact Hss|]. simpl. intros s Hin [Heq _]. by rewrite Heq in Hin.
Qed.

Ltac not_in_list :=
  let H := fresh in
  intros H; repeat (apply elem_of_cons in H as [H|H]; [discriminate H|]);
  by apply elem_of_nil in H.

(** What one execution does to a well-formed graph. *)
Lemma CREATE_GRAPH_QUERY_wf data g :
  wf g →
  let a := Schema.agreement data in
  let g' := CREATE_GRAPH_QUERY data g in
  let vs := valid_clauses a in
  wf g' ∧ header_done a g' ∧ clause_types_done vs g' ∧
  (∃ ag, ag ∈ match_nodes Agreement "contract_id" (VInt (Schema.contract_id a)) g' ∧
         clause_nodes_of ag g' = clause_nodes_of ag g + length vs) ∧
  count_nodes ContractClause g' = count_nodes ContractClause g + length vs ∧
  count_nodes Excerpt g' = count_nodes Excerpt g + distinct_excerpts vs ∧
  count_rels HAS_CLAUSE g' = count_rels HAS_CLAUSE g + length vs ∧
  count_rels HAS_EXCERPT g' = count_rels HAS_EXCERPT g + distinct_excerpts vs ∧
  count_rels HAS_TYPE g' = count_rels HAS_TYPE g + length vs ∧
  (clause_types_done vs g → count_nodes ClauseType g' = count_nodes ClauseType g) ∧
  (header_done a g →
   (∀ L, L ∈ [Agreement; Organization; Country] → count_nodes L g' = count_nodes L g) ∧
   (∀ t, t ∈ [GOVERNED_BY_LAW; IS_PARTY_TO; INCORPORATED_IN] →
         count_rels t g' = count_rels t g)).
Proof.
  intros Hwf a g' vs. subst g'. unfold CREATE_GRAPH_QUERY. fold a.
  pose proof (upsert_agreement_adds
                [Agreement; Organization; Country]
                [GOVERNED_BY_LAW; IS_PARTY_TO; INCORPORATED_IN] a g) as Hh.
  destruct (upsert_agreement a g) as [g1 t] eqn:E. simpl in Hh.
  specialize (Hh ltac:(repeat constructor) ltac:(repeat constructor)
                 ltac:(repeat constructor) ltac:(repeat constructor)
                 ltac:(repeat constructor) ltac:(repeat constructor)).
  apply upsert_agreement_wf in E as (Hwf1 & ag & -> & Hag & Hdone1 & Hsame1); [|done].
  pose proof (create_clauses_adds [ContractClause; Excerpt; ClauseType]
                [HAS_CLAUSE; HAS_EXCERPT; HAS_TYPE] a [ag] g1
                ltac:(repeat constructor) ltac:(repeat constructor)
                ltac:(repeat constructor) ltac:(repeat constructor)
                ltac:(repeat constructor) ltac:(repeat constructor)) as Hc.
  pose proof (adds_only_ext _ _ _ _ Hc) as X2.
  pose proof (adds_only_ext _ _ _ _ Hh) as X1.
  unfold create_clauses in *. rewrite foreach_cons, foreach_nil in *. fold vs in Hc, X2 |- *.
  destruct (clauses_loop_wf ag vs g1 Hwf1 (match_nodes_lt _ _ _ _ _ Hag))
    as (Hwf2 & Hcc & Hce & Hrc & Hre & Hrt & Hof & Hdone2 & Hct).
  cbv zeta in *. set (g2 := foreach (clause_body ag) vs g1) in *.
  split; [done|]. split; [by eapply header_done_ext|]. split; [done|].
  split.
  { exists ag. split; [by eapply match_nodes_ext|].
    rewrite Hof. f_equal. eapply clause_nodes_of_adds_only; [exact Hh|]. not_in_list. }
  rewrite Hcc, Hce, Hrc, Hre, Hrt.
  rewrite (count_nodes_adds_only _ _ ContractClause _ _ Hh) by not_in_list.
  rewrite (count_nodes_adds_only _ _ Excerpt _ _ Hh) by not_in_list.
  rewrite (count_rels_adds_only _ _ HAS_CLAUSE _ _ Hh) by not_in_list.
  rewrite (count_rels_adds_only _ _ HAS_EXCERPT _ _ Hh) by not_in_list.
  rewrite (count_rels_adds_only _ _ HAS_TYPE _ _ Hh) by not_in_list.
  do 5 (split; [done|]). split.
  - intros Hd. rewrite Hct by by eapply clause_types_done_ext.
    apply (count_nodes_adds_only _ _ _ _ _ Hh). not_in_list.
  - intros Hd. specialize (Hsame1 Hd). split.
    + intros L HL. rewrite (count_nodes_adds_only _ _ L _ _ Hc).
      * rewrite (count_nodes_added _ _ _ _ _ Hsame1). simpl. lia.
      * intros HL'. repeat (apply elem_of_cons in HL as [->|HL]; [revert HL'; not_in_list|]).
        by apply elem_of_nil in HL.
    + intros ty HT. rewrite (count_rels_adds_only _ _ ty _ _ Hc).
      * rewrite (count_rels_added _ _ _ _ _ Hsame1). simpl. lia.
      * intros HT'. repeat (apply elem_of_cons in HT as [->|HT]; [revert HT'; not_in_list|]).
        by apply elem_of_nil in HT.
Qed.

(** The statement keeps graphs well-formed, so every graph the ingestion
    loop builds from the empty graph is well-formed. *)
Lemma wf_CREATE_GRAPH_QUERY data g : wf g → wf (CREATE_GRAPH_QUERY data g).
Proof. intros Hwf. by destruct (CREATE_GRAPH_QUERY_wf data g Hwf) as [? _]. Qed.

Lemma wf_build_graph contracts g : wf g → wf (build_graph contracts g).
Proof.
  revert g. induction contracts as [|d ds IH]; intros g Hwf; [done|].
  unfold build_graph. rewrite foreach_cons. apply IH. by apply wf_CREATE_GRAPH_QUERY.
Qed.

Lemma valid_clauses_drop_absent data :
  valid_clauses (Schema.agreement (drop_absent data)) = valid_clauses (Schema.agreement data).
Proof.
  unfold drop_absent, valid_clauses. simpl.
  induction (Schema.clauses (Schema.agreement data)) as [|c cs IH]; [done|].
  rewrite filter_cons. destruct (decide (Schema.exists_ c = true)) as [Hc|Hc]; [|done].
  rewrite filter_cons, decide_True by done. by rewrite IH.
Qed.

Lemma CREATE_GRAPH_QUERY_drop_absent data g :
  CREATE_GRAPH_QUERY (drop_absent data) g = CREATE_GRAPH_QUERY data g.
Proof.
  unfold CREATE_GRAPH_QUERY.
  change (upsert_agreement (Schema.agreement (drop_absent data)) g)
    with (upsert_agreement (Schema.agreement data) g).
  destruct (upsert_agreement (Schema.agreement data) g) as [g1 t].
  unfold create_clauses. by rewrite valid_clauses_drop_absent.
Qed.

(** ** Claims on the graph construction *)

(** After the first [MERGE], the rest of the first part adds Organization
    and Country nodes only. *)
Lemma upsert_agreement_after_merge a g :
  adds_only [Organization; Country] [GOVERNED_BY_LAW; IS_PARTY_TO; INCORPORATED_IN]
            (merge_node Agreement "contract_id" (VInt (Schema.contract_id a))
                        (agreement_on_create a) g).1
            (upsert_agreement a g).1.
Proof.
  unfold upsert_agreement.
  destruct (merge_node _ _ _ _ g) as [g1 t] eqn:E. simpl.
  adds_go. apply party_body_adds; solve [repeat constructor].
Qed.

(** On first creation the Agreement node gets the properties of the
    record. *)
Lemma agreement_created data g :
  let a := Schema.agreement data in
  match_nodes Agreement "contract_id" (VInt (Schema.contract_id a)) g = [] →
  nodes (CREATE_GRAPH_QUERY data g) !! length (nodes g) =
    Some (Node Agreement (<["contract_id" := VInt (Schema.contract_id a)]>
                            (agreement_on_create a)) None).
Proof.
  intros a Hnil. unfold CREATE_GRAPH_QUERY. fold a.
  pose proof (upsert_agreement_after_merge a g) as Hh.
  destruct (upsert_agreement a g) as [g1 t]. simpl in Hh.
  eapply ext_nodes_lookup; [apply create_clauses_ext|].
  eapply ext_nodes_lookup; [eapply adds_only_ext, Hh|].
  unfold merge_node. rewrite Hnil. simpl. by apply list_lookup_middle.
Qed.

(** C4. Re-ingesting a record whose contract_id already has an Agreement
    node leaves that node, with every property it carries, as it was (the
    properties are written [ON CREATE] only), and adds no second Agreement
    node. *)
Theorem reingest_keeps_agreement_properties data g i n :
  nodes g !! i = Some n →
  nlabel n = Agreement →
  nprops n !! "contract_id" = Some (VInt (Schema.contract_id (Schema.agreement data))) →
  nodes (CREATE_GRAPH_QUERY data g) !! i = Some n ∧
  count_nodes Agreement (CREATE_GRAPH_QUERY data g) = count_nodes Agreement g.
Proof.
  intros Hi HL Hid. split.
  - eapply ext_nodes_lookup; [apply CREATE_GRAPH_QUERY_ext | done].
  - assert (match_nodes Agreement "contract_id"
              (VInt (Schema.contract_id (Schema.agreement data))) g ≠ []) as Hfound.
    { intros Hnil. unfold match_nodes in Hnil.
      pose proof (proj1 (find_all_nil _ _) Hnil _ _ Hi) as Hm.
      unfold node_matches in Hm. by rewrite !bool_decide_eq_true_2 in Hm. }
    unfold CREATE_GRAPH_QUERY.
    pose proof (upsert_agreement_found (Schema.agreement data) g Hfound) as Hh.
    destruct (upsert_agreement (Schema.agreement data) g) as [g1 t]. simpl in Hh.
    rewrite (count_nodes_adds_only [ContractClause; Excerpt; ClauseType]
               [HAS_CLAUSE; HAS_EXCERPT; HAS_TYPE] Agreement g1).
    + apply (count_nodes_adds_only _ _ _ _ _ Hh). not_in_list.
    + apply create_clauses_adds; solve [repeat constructor].
    + not_in_list.
Qed.

Lemma reingest_keeps_agreement_properties_witness :
  let g := CREATE_GRAPH_QUERY msa_001 empty_graph in
  let renamed := sample_agreement 1 "Renamed" [] [] in
  let n := Node Agreement
             (<["contract_id" := VInt 1]> (agreement_on_create (Schema.agreement msa_001)))
             None in
  nodes g !! 0 = Some n ∧
  nodes (CREATE_GRAPH_QUERY renamed g) !! 0 = Some n ∧
  count_nodes Agreement (CREATE_GRAPH_QUERY renamed g) = count_nodes Agreement g.
Proof.
  intros g renamed n.
  assert (nodes g !! 0 = Some n) as H0 by reflexivity.
  split; [exact H0|].
  apply (reingest_keeps_agreement_properties renamed g 0 n H0); reflexivity.
Defined.

(** C7. On a well-formed graph (every graph the ingestion builds is one),
    the statement creates one ContractClause node, attached to the record's
    Agreement node, for every clause with [exists == true]; the clauses with
    [exists == false] leave no trace: the resulting graph is the one of the
    record without them. *)
Theorem clause_nodes_equal_existing_clauses data g :
  wf g →
  let a := Schema.agreement data in
  let g' := CREATE_GRAPH_QUERY data g in
  let k := length (filter (λ c, Schema.exists_ c = true) (Schema.clauses a)) in
  count_nodes ContractClause g' = count_nodes ContractClause g + k ∧
  count_rels HAS_CLAUSE g' = count_rels HAS_CLAUSE g + k ∧
  (∃ ag, ag ∈ match_nodes Agreement "contract_id" (VInt (Schema.contract_id a)) g' ∧
         clause_nodes_of ag g' = clause_nodes_of ag g + k) ∧
  CREATE_GRAPH_QUERY (drop_absent data) g = g'.
Proof.
  intros Hwf a g' k.
  destruct (CREATE_GRAPH_QUERY_wf data g Hwf)
    as (_ & _ & _ & Hof & Hcc & _ & Hrc & _).
  split; [exact Hcc|]. split; [exact Hrc|]. split; [exact Hof|].
  apply CREATE_GRAPH_QUERY_drop_absent.
Qed.

Lemma clause_nodes_equal_existing_clauses_witness :
  let g := CREATE_GRAPH_QUERY msa_002 empty_graph in
  let g' := CREATE_GRAPH_QUERY msa_001 g in
  wf g ∧
  count_nodes ContractClause g' = count_nodes ContractClause g + 1 ∧
  count_rels HAS_CLAUSE g' = count_rels HAS_CLAUSE g + 1 ∧
  (∃ ag, ag ∈ match_nodes Agreement "contract_id" (VInt 1) g' ∧
         clause_nodes_of ag g' = clause_nodes_of ag g + 1) ∧
  CREATE_GRAPH_QUERY (drop_absent msa_001) g = g'.
Proof.
  intros g g'.
  assert (wf g) as Hwf by apply wf_CREATE_GRAPH_QUERY, wf_empty.
  split; [exact Hwf|].
  exact (clause_nodes_equal_existing_clauses msa_001 g Hwf).
Defined.

(** C1, as stated, fails: a second execution for MSA-001 creates a second
    ContractClause node, a second Excerpt node and three more
    relationships. *)
Lemma second_execution_duplicates_clauses :
  let g1 := CREATE_GRAPH_QUERY msa_001 empty_graph in
  let g2 := CREATE_GRAPH_QUERY msa_001 g1 in
  (length (nodes g1) = 6 ∧ length (nodes g2) = 8) ∧
  (length (rels g1) = 6 ∧ length (rels g2) = 9) ∧
  (count_nodes ContractClause g1 = 1 ∧ count_nodes ContractClause g2 = 2) ∧
  ¬ (length (nodes g2) = length (nodes g1) ∧ length (rels g2) = length (rels g1)).
Proof.
  vm_compute. repeat split; try reflexivity. intros [H _]. discriminate H.
Qed.

(** C1, amended. On a well-formed graph, a second execution of the
    statement for the same record duplicates no Agreement, Organization,
    Country or ClauseType node and no GOVERNED_BY_LAW, IS_PARTY_TO or
    INCORPORATED_IN relationship.  It does add, for every clause with
    [exists == true], a new ContractClause node with its HAS_CLAUSE and
    HAS_TYPE relationships, and a new Excerpt node with its HAS_EXCERPT
    relationship for every distinct excerpt of the clause.  For a record
    without such a clause all node and relationship counts are unchanged. *)
Theorem second_execution_counts data g :
  wf g →
  let a := Schema.agreement data in
  let vs := valid_clauses a in
  let g1 := CREATE_GRAPH_QUERY data g in
  let g2 := CREATE_GRAPH_QUERY data g1 in
  (∀ L, L ∈ [Agreement; Organization; Country; ClauseType] →
        count_nodes L g2 = count_nodes L g1) ∧
  (∀ t, t ∈ [GOVERNED_BY_LAW; IS_PARTY_TO; INCORPORATED_IN] →
        count_rels t g2 = count_rels t g1) ∧
  count_nodes ContractClause g2 = count_nodes ContractClause g1 + length vs ∧
  count_rels HAS_CLAUSE g2 = count_rels HAS_CLAUSE g1 + length vs ∧
  count_rels HAS_TYPE g2 = count_rels HAS_TYPE g1 + length vs ∧
  count_nodes Excerpt g2 = count_nodes Excerpt g1 + distinct_excerpts vs ∧
  count_rels HAS_EXCERPT g2 = count_rels HAS_EXCERPT g1 + distinct_excerpts vs ∧
  (vs = [] → ∀ L t, count_nodes L g2 = count_nodes L g1 ∧ count_rels t g2 = count_rels t g1).
Proof.
  intros Hwf a vs g1 g2.
  destruct (CREATE_GRAPH_QUERY_wf data g Hwf) as (Hwf1 & Hdone1 & Htypes1 & _).
  destruct (CREATE_GRAPH_QUERY_wf data g1 Hwf1)
    as (_ & _ & _ & _ & Hcc & Hce & Hrc & Hre & Hrt & Hct & Hhead).
  fold a vs g1 in Hdone1, Htypes1, Hcc, Hce, Hrc, Hre, Hrt, Hct, Hhead.
  fold g2 in Hcc, Hce, Hrc, Hre, Hrt, Hct, Hhead.
  destruct (Hhead Hdone1) as [HLs HTs]. specialize (Hct Htypes1).
  assert (∀ L, L ∈ [Agreement; Organization; Country; ClauseType] →
               count_nodes L g2 = count_nodes L g1) as HLs'.
  { intros L HL. apply elem_of_cons in HL as [->|HL]; [apply HLs; repeat constructor|].
    apply elem_of_cons in HL as [->|HL]; [apply HLs; repeat constructor|].
    apply elem_of_cons in HL as [->|HL]; [apply HLs; repeat constructor|].
    apply elem_of_cons in HL as [->|HL]; [exact Hct|]. by apply elem_of_nil in HL. }
  do 7 (split; [done|]).
  intros Hvs L t. rewrite Hvs in *. unfold distinct_excerpts in *. simpl in *. split.
  - destruct L; first [apply HLs'; solve [repeat constructor] | lia].
  - destruct t; first [apply HTs; solve [repeat constructor] | lia].
Qed.

Lemma second_execution_counts_witness :
  let g := CREATE_GRAPH_QUERY msa_002 empty_graph in
  let g1 := CREATE_GRAPH_QUERY msa_001 g in
  let g2 := CREATE_GRAPH_QUERY msa_001 g1 in
  wf g ∧
  count_nodes Agreement g2 = count_nodes Agreement g1 ∧
  count_rels IS_PARTY_TO g2 = count_rels IS_PARTY_TO g1 ∧
  count_nodes ContractClause g2 = count_nodes ContractClause g1 + 1 ∧
  count_nodes Excerpt g2 = count_nodes Excerpt g1 + 1.
Proof.
  intros g g1 g2.
  assert (wf g) as Hwf by apply wf_CREATE_GRAPH_QUERY, wf_empty.
  destruct (second_execution_counts msa_001 g Hwf) as (HL & HT & Hc & _ & _ & He & _).
  split; [exact Hwf|].
  split; [apply HL; repeat constructor|].
  split; [apply HT; repeat constructor|].
  split; [exact Hc | exact He].
Defined.

(** C2, as stated, fails: MSA-001 and MSA-002 quote the same sentence and
    the graph holds two Excerpt nodes with that text, each with one
    incoming HAS_EXCERPT relationship, from its own ContractClause node. *)
Lemma shared_excerpt_is_duplicated :
  let g := build_graph [msa_001; msa_002] empty_graph in
  let x := "Vendor shall maintain insurance." in
  match_nodes Excerpt "text" (VStr x) g = [4; 8] ∧
  filter (λ s, s.1.1 = HAS_EXCERPT) (shapes g) = [(HAS_EXCERPT, 3, 4); (HAS_EXCERPT, 7, 8)] ∧
  length (match_nodes Excerpt "text" (VStr x) g) ≠ 1.
Proof. vm_compute. repeat split; try reflexivity. discriminate. Qed.

(** C2, amended. On a well-formed graph every execution of the statement
    creates, for each clause with [exists == true], one new Excerpt node
    and one new HAS_EXCERPT relationship per distinct excerpt string of
    that clause, whatever Excerpt nodes the graph already holds: excerpts
    are deduplicated by exact text within one ContractClause node only. *)
Theorem excerpt_nodes_per_clause data g :
  wf g →
  let vs := valid_clauses (Schema.agreement data) in
  let g' := CREATE_GRAPH_QUERY data g in
  count_nodes Excerpt g' = count_nodes Excerpt g + distinct_excerpts vs ∧
  count_rels HAS_EXCERPT g' = count_rels HAS_EXCERPT g + distinct_excerpts vs.
Proof.
  intros Hwf vs g'.
  destruct (CREATE_GRAPH_QUERY_wf data g Hwf) as (_ & _ & _ & _ & _ & He & _ & Hre & _).
  by split.
Qed.

Lemma excerpt_nodes_per_clause_witness :
  let g := CREATE_GRAPH_QUERY msa_001 empty_graph in
  let g' := CREATE_GRAPH_QUERY msa_002 g in
  wf g ∧
  count_nodes Excerpt g' = count_nodes Excerpt g + 1 ∧
  count_rels HAS_EXCERPT g' = count_rels HAS_EXCERPT g + 1.
Proof.
  intros g g'.
  assert (wf g) as Hwf by apply wf_CREATE_GRAPH_QUERY, wf_empty.
  split; [exact Hwf|].
  exact (excerpt_nodes_per_clause msa_002 g Hwf).
Defined.

(** * Properties of the embedding backfill *)

Lemma elem_of_pending_from (i : nat) (ns : list node) (text : value) (id : nat) :
  (text, id) ∈ pending_from i ns ↔
  i ≤ id ∧ ∃ n, ns !! (id - i) = Some n ∧ nlabel n = Excerpt ∧
                nprops n !! "text" = Some text ∧ nembedding n = None.
Proof.
  revert i. induction ns as [|n ns IH]; intros i.
  - simpl. split; [by intros ?%elem_of_nil | by intros (_ & ? & ? & _)].
  - assert ((text, id) ∈ pending_from (S i) ns ↔
            i ≤ id ∧ id ≠ i ∧
            ∃ n, ns !! (id - S i) = Some n ∧ nlabel n = Excerpt ∧
                 nprops n !! "text" = Some text ∧ nembedding n = None) as IH'.
    { rewrite IH. intuition lia. }
    assert (∀ P : Prop,
              ((n = n ∧ nlabel n = Excerpt ∧ nprops n !! "text" = Some text ∧
                nembedding n = None) ∧ id = i ∨ (text, id) ∈ pending_from (S i) ns ↔ P) →
              (i ≤ id ∧ ∃ m, (n :: ns) !! (id - i) = Some m ∧ nlabel m = Excerpt ∧
                             nprops m !! "text" = Some text ∧ nembedding m = None) ↔ P)
      as Hshape.
    { intros P <-. rewrite IH'. split.
      - intros (Hle & m & Hm & HL & Ht & He). destruct (decide (id = i)) as [->|Hne].
        + rewrite Nat.sub_diag in Hm. simpl in Hm. simplify_eq. by left.
        + right. split; [done|]. split; [done|]. exists m.
          replace (id - i) with (S (id - S i)) in Hm by lia. done.
      - intros [[(_ & HL & Ht & He) ->]|(Hle & Hne & m & Hm & HL & Ht & He)].
        + split; [done|]. exists n. by rewrite Nat.sub_diag.
        + split; [done|]. exists m. by replace (id - i) with (S (id - S i)) by lia. }
    symmetry. apply Hshape. simpl.
    destruct (nlabel n) eqn:HL, (nprops n !! "text") as [t|] eqn:Ht,
             (nembedding n) as [e|] eqn:He;
      rewrite ?elem_of_cons; split; try (intros [[(_ & ? & ? & ?) _]|?]; by simplify_eq);
      try (intros ?; by right).
    + intros [[(_ & _ & ? & _) ->]|?]; [left; by simplify_eq | by right].
    + intros [?|?]; [left; simplify_eq; done | by right].
Qed.

Lemma elem_of_pending_excerpts g text id :
  (text, id) ∈ pending_excerpts g ↔
  ∃ n, nodes g !! id = Some n ∧ nlabel n = Excerpt ∧
       nprops n !! "text" = Some text ∧ nembedding n = None.
Proof.
  unfold pending_excerpts. rewrite elem_of_pending_from, Nat.sub_0_r.
  split; [by intros [_ ?] | intros ?; split; [lia | done]].
Qed.

Lemma pending_from_ids_ge i ns id : id ∈ (pending_from i ns).*2 → i ≤ id.
Proof.
  intros ([text id'] & -> & Hin)%list_elem_of_fmap.
  by apply elem_of_pending_from in Hin as [? _].
Qed.

Lemma NoDup_pending_from i ns : NoDup (pending_from i ns).*2.
Proof.
  revert i. induction ns as [|n ns IH]; intros i; simpl; [constructor|].
  destruct (nlabel n), (nprops n !! "text"), (nembedding n); try apply IH.
  simpl. constructor; [|apply IH]. intros ?%pending_from_ids_ge. lia.
Qed.

Section backfill_properties.
Variable generate_embedding : nat → value → string + embedding.

Lemma nodes_set_embedding id v g j :
  nodes (set_embedding id v g) !! j =
    if decide (id = j) then embedded v <$> nodes g !! j else nodes g !! j.
Proof.
  unfold set_embedding. simpl. destruct (decide (id = j)) as [->|Hne].
  - by rewrite list_lookup_alter_eq.
  - by rewrite list_lookup_alter_ne.
Qed.

(** The loop: items are handled one by one, whatever happened to the
    items before. *)
Lemma backfill_loop_spec total excerpts i g out g' out' :
  NoDup excerpts.*2 →
  backfill_loop generate_embedding total i excerpts g out = (g', out') →
  rels g' = rels g ∧
  (∀ id, id ∉ excerpts.*2 → nodes g' !! id = nodes g !! id) ∧
  (∀ j text id, excerpts !! j = Some (text, id) →
     match generate_embedding (i + j) text with
     | inl e => nodes g' !! id = nodes g !! id ∧ FailedExcerpt (i + j) e ∈ out'
     | inr v => nodes g' !! id = embedded v <$> nodes g !! id
     end) ∧
  out `prefix_of` out'.
Proof.
  revert i g out. induction excerpts as [|[text id] rest IH]; intros i g out Hnd E.
  - simpl in E. simplify_eq. split; [done|]. split; [done|]. split; [|done].
    intros j ?? Hj. by rewrite lookup_nil in Hj.
  - simpl in Hnd. apply NoDup_cons in Hnd as [Hid Hnd]. simpl in E.
    destruct (generate_embedding i text) as [e|v] eqn:Hg.
    + apply IH in E as (Hr & Hframe & Hitems & Hout); [|done].
      split; [done|]. split.
      { intros id' Hid'. apply Hframe. intros ?. apply Hid'. simpl. by right. }
      split.
      * intros [|j] text' id' Hj; simpl in Hj.
        -- simplify_eq. rewrite Nat.add_0_r, Hg. split; [by apply Hframe|].
           eapply elem_of_prefix; [|exact Hout]. apply elem_of_app. right. left.
        -- specialize (Hitems j text' id' Hj).
           by replace (i + S j) with (S i + j) by lia.
      * etrans; [|exact Hout]. by apply prefix_app_r.
    + apply IH in E as (Hr & Hframe & Hitems & Hout); [|done].
      split; [done|]. split.
      { intros id' Hid'. rewrite Hframe by (intros ?; apply Hid'; simpl; by right).
        rewrite nodes_set_embedding. rewrite decide_False; [done|].
        intros ->. apply Hid'. simpl. left. }
      split.
      * intros [|j] text' id' Hj; simpl in Hj.
        -- simplify_eq. rewrite Nat.add_0_r, Hg. rewrite (Hframe _ Hid).
           rewrite nodes_set_embedding. by rewrite decide_True.
        -- specialize (Hitems j text' id' Hj).
           replace (i + S j) with (S i + j) by lia.
           assert (id ≠ id') as Hne.
           { intros ->. apply Hid. apply list_elem_of_fmap. exists (text', id').
             split; [done|]. by eapply list_elem_of_lookup_2. }
           rewrite nodes_set_embedding, decide_False in Hitems by done. done.
      * etrans; [|exact Hout]. by apply prefix_app_r.
Qed.

(** C6, amended. The backfill handles every selected excerpt, whatever
    happened to the others: an excerpt whose embedding fails keeps its
    node as it was, is selected again by the next run and gets one
    warning line; an excerpt whose embedding succeeds carries the vector
    afterwards and is not selected again; nothing else in the graph
    changes.  The function returns nothing to its caller, and its last
    line prints the number of selected excerpts, not a count of
    successes or failures. *)
Theorem backfill_continues_past_failures g :
  let excerpts := pending_excerpts g in
  let '(g', out, returned) := generate_embeddings_for_excerpts generate_embedding g in
  returned = tt ∧
  rels g' = rels g ∧
  (∀ id, id ∉ excerpts.*2 → nodes g' !! id = nodes g !! id) ∧
  (∀ j text id, excerpts !! j = Some (text, id) →
     match generate_embedding (S j) text with
     | inl e =>
         nodes g' !! id = nodes g !! id ∧ (text, id) ∈ pending_excerpts g' ∧
         FailedExcerpt (S j) e ∈ out
     | inr v =>
         (∃ n, nodes g !! id = Some n ∧
               nodes g' !! id = Some (Node Excerpt (nprops n) (Some v))) ∧
         (text, id) ∉ pending_excerpts g'
     end) ∧
  (excerpts ≠ [] → last out = Some (Generated (length excerpts))).
Proof.
  intros excerpts. unfold generate_embeddings_for_excerpts. fold excerpts.
  destruct excerpts as [|x xs] eqn:Hex.
  { split; [done|]. split; [done|]. split; [done|]. split; [|done].
    intros j ?? Hj. by rewrite lookup_nil in Hj. }
  rewrite <-Hex.
  destruct (backfill_loop generate_embedding (length excerpts) 1 excerpts g
              [Generating (length excerpts)]) as [g' out] eqn:E.
  apply backfill_loop_spec in E as (Hr & Hframe & Hitems & _);
    [|apply NoDup_pending_from].
  split; [done|]. split; [done|]. split; [done|]. split.
  - intros j text id Hj. specialize (Hitems j text id Hj). simpl in Hitems.
    assert ((text, id) ∈ pending_excerpts g) as Hin by by eapply list_elem_of_lookup_2.
    apply elem_of_pending_excerpts in Hin as (n & Hn & HL & Ht & He).
    destruct (generate_embedding (S j) text) as [e|v].
    + destruct Hitems as [Hsame Hfail]. split; [done|]. split.
      * apply elem_of_pending_excerpts. exists n. by rewrite Hsame.
      * apply elem_of_app. by left.
    + rewrite Hn in Hitems. simpl in Hitems. unfold embedded in Hitems.
      rewrite decide_True, HL in Hitems by done. split; [by exists n|].
      intros (m & Hm & _ & _ & Hnone)%elem_of_pending_excerpts.
      rewrite Hitems in Hm. by simplify_eq.
  - intros _. by rewrite last_snoc.
Qed.
End backfill_properties.

(** C6, as stated, fails: with two pending excerpts, a run in which every
    embedding succeeds and a run in which every embedding fails give their
    caller the same value and end with the same line; the two failures
    show only in the two warning lines. *)
Lemma backfill_reports_no_counts :
  let g := build_graph [msa_001; msa_002] empty_graph in
  let ok := generate_embeddings_for_excerpts (λ _ _, inr [0%Z]) g in
  let ko := generate_embeddings_for_excerpts (λ _ _, inl "timeout") g in
  ok.2 = ko.2 ∧
  last ok.1.2 = Some (Generated 2) ∧ last ko.1.2 = Some (Generated 2) ∧
  length (pending_excerpts ok.1.1) = 0 ∧ length (pending_excerpts ko.1.1) = 2 ∧
  ko.1.2 = [Generating 2; FailedExcerpt 1 "timeout"; FailedExcerpt 2 "timeout"; Generated 2].
Proof. vm_compute. repeat split; reflexivity. Qed.


Lemma backfill_continues_past_failures_witness :
  let g := build_graph [msa_001; msa_002] empty_graph in
  let text := VStr "Vendor shall maintain insurance." in
  let flaky : nat → value → string + embedding :=
    λ i _, if decide (i = 1) then inl "timeout" else inr [0%Z] in
  let run := generate_embeddings_for_excerpts flaky g in
  pending_excerpts g = [(text, 4); (text, 8)] ∧
  ((text, 4) ∈ pending_excerpts run.1.1 ∧ FailedExcerpt 1 "timeout" ∈ run.1.2) ∧
  (text, 8) ∉ pending_excerpts run.1.1.
Proof.
  intros g text flaky run.
  pose proof (backfill_continues_past_failures flaky g) as H.
  fold run in H. destruct run as [[g' out] returned]. simpl.
  destruct H as (_ & _ & _ & Hitems & _).
  split; [reflexivity|]. split.
  - destruct (Hitems 0 text 4 eq_refl) as (_ & Hp & Hf). by split.
  - destruct (Hitems 1 text 8 eq_refl) as [_ Hn]. exact Hn.
Defined.

(** * Properties of the retrieval service *)

(** ** Aggregation *)

Section group_by.
Context {K V : Type} `{EqDecision K}.

Lemma group_insert_keys (k : K) (v : V) acc :
  (group_insert k v acc).*1 = if decide (k ∈ acc.*1) then acc.*1 else acc.*1 ++ [k].
Proof.
  induction acc as [|[k' vs] acc IH]; [done|]. cbn [group_insert].
  destruct (decide (k = k')) as [->|Hne]; rewrite !fmap_cons; cbn [fst].
  - rewrite decide_True by left. done.
  - rewrite IH. destruct (decide (k ∈ acc.*1)) as [Hin|Hnin].
    + rewrite decide_True by by right. done.
    + rewrite decide_False; [done|]. intros [?|?]%elem_of_cons; done.
Qed.

Lemma group_insert_nonempty (k : K) (v : V) acc :
  Forall (λ kv, kv.2 ≠ []) acc → Forall (λ kv, kv.2 ≠ []) (group_insert k v acc).
Proof.
  induction 1 as [|[k' vs] acc Hx Hacc IH]; cbn [group_insert].
  - by repeat constructor.
  - destruct (decide (k = k')); constructor; simpl; try done.
    intros [_ ?]%app_nil. done.
Qed.

Lemma fold_group_keys (rows : list (K * V)) acc k :
  k ∈ (fold_left (λ acc row, group_insert row.1 row.2 acc) rows acc).*1 ↔
  k ∈ acc.*1 ∨ k ∈ rows.*1.
Proof.
  revert acc. induction rows as [|[k' v] rows IH]; intros acc.
  - simpl. split; [by left | intros [?|?%elem_of_nil]; done].
  - cbn [fold_left]. rewrite IH, group_insert_keys, fmap_cons. cbn [fst snd].
    destruct (decide (k' ∈ acc.*1)) as [Hin|Hnin].
    + rewrite elem_of_cons. split; [intros [?|?]; auto|].
      intros [?|[->|?]]; auto.
    + rewrite elem_of_app, list_elem_of_singleton, elem_of_cons. tauto.
Qed.

Lemma elem_of_group_by_keys (rows : list (K * V)) k :
  k ∈ (group_by rows).*1 ↔ k ∈ rows.*1.
Proof.
  unfold group_by. rewrite fold_group_keys. simpl.
  split; [intros [?%elem_of_nil|?]; done | by right].
Qed.

Lemma group_by_nonempty (rows : list (K * V)) : Forall (λ kv, kv.2 ≠ []) (group_by rows).
Proof.
  unfold group_by. generalize (Forall_nil_2 (λ kv : K * list V, kv.2 ≠ [])).
  generalize (@nil (K * list V)). induction rows as [|row rows IH]; intros acc Hacc; [done|].
  simpl. apply IH. by apply group_insert_nonempty.
Qed.

Lemma group_by_nil (rows : list (K * V)) : group_by rows = [] ↔ rows = [].
Proof.
  split; [|by intros ->]. intros Hnil. destruct rows as [|[k v] rows]; [done|].
  assert (k ∈ (group_by ((k, v) :: rows)).*1) as Hin
    by (apply elem_of_group_by_keys; simpl; left).
  rewrite Hnil in Hin. by apply elem_of_nil in Hin.
Qed.
End group_by.

(** ** Patterns *)

Lemma elem_of_collect_from {A B} (f : nat → A → list B) (i : nat) (l : list A) (y : B) :
  y ∈ collect_from f i l ↔ ∃ j x, l !! j = Some x ∧ y ∈ f (i + j) x.
Proof.
  revert i. induction l as [|x l IH]; intros i; simpl.
  - split; [by intros ?%elem_of_nil | by intros (j & x & Hj & _)].
  - rewrite elem_of_app, IH. split.
    + intros [Hy|(j & x' & Hj & Hy)].
      * exists 0, x. by rewrite Nat.add_0_r.
      * exists (S j), x'. by replace (i + S j) with (S i + j) by lia.
    + intros ([|j] & x' & Hj & Hy); simpl in Hj.
      * left. simplify_eq. by rewrite Nat.add_0_r in Hy.
      * right. exists j, x'. by replace (S i + j) with (i + S j) by lia.
Qed.

Lemma elem_of_collect_all {A B} (f : nat → A → list B) (l : list A) (y : B) :
  y ∈ collect_all f l ↔ ∃ j x, l !! j = Some x ∧ y ∈ f j x.
Proof. unfold collect_all. by rewrite elem_of_collect_from. Qed.

Lemma elem_of_if_singleton {B} (b : bool) (y z : B) :
  y ∈ (if b then [z] else []) ↔ b = true ∧ y = z.
Proof.
  destruct b; [rewrite list_elem_of_singleton | rewrite elem_of_nil]; naive_solver.
Qed.

Lemma elem_of_expand_out t a P g j x :
  (j, x) ∈ expand_out t a P g ↔
  ∃ r, rels g !! j = Some r ∧ rel_shape r = (t, a, x) ∧ node_sat g P x = true.
Proof.
  unfold expand_out. rewrite elem_of_collect_all. split.
  - intros (j' & r & Hr & Hin). apply elem_of_if_singleton in Hin as [Hb [= -> ->]].
    apply andb_true_iff in Hb as [[Ht Hs]%andb_true_iff Hp].
    apply bool_decide_eq_true in Ht, Hs. exists r. unfold rel_shape. by rewrite Ht, Hs.
  - intros (r & Hr & Hsh & Hp). exists j, r. split; [done|].
    unfold rel_shape in Hsh. simplify_eq. apply elem_of_if_singleton.
    by rewrite !bool_decide_eq_true_2, Hp.
Qed.

Lemma expand_out_exists t a P g x :
  (∃ j, (j, x) ∈ expand_out t a P g) ↔ (t, a, x) ∈ shapes g ∧ node_sat g P x = true.
Proof.
  split.
  - intros (j & (r & Hr & Hsh & Hp)%elem_of_expand_out). split; [|done].
    apply elem_of_shapes. eauto.
  - intros [(j & r & Hr & Hsh)%elem_of_shapes Hp]. exists j.
    apply elem_of_expand_out. eauto.
Qed.

Lemma expand_any_exists t a P g x :
  (∃ j, (j, x) ∈ expand_any t a P g) ↔ adjacent g t x a ∧ node_sat g P x = true.
Proof.
  unfold expand_any, adjacent. split.
  - intros (j & (j' & r & Hr & Hin)%elem_of_collect_all).
    apply elem_of_app in Hin as [Hin|Hin];
      apply elem_of_if_singleton in Hin as [Hb [= -> ->]].
    + apply andb_true_iff in Hb as [[Ht Hs]%andb_true_iff Hp].
      apply bool_decide_eq_true in Ht, Hs. split; [|done]. right.
      apply elem_of_shapes. exists j', r. unfold rel_shape. by rewrite Ht, Hs.
    + apply andb_true_iff in Hb as [[[Ht Hs]%andb_true_iff _]%andb_true_iff Hp].
      apply bool_decide_eq_true in Ht, Hs. split; [|done]. left.
      apply elem_of_shapes. exists j', r. unfold rel_shape. by rewrite Ht, Hs.
  - intros [[(j & r & Hr & Hsh)%elem_of_shapes|(j & r & Hr & Hsh)%elem_of_shapes] Hp];
      exists j; apply elem_of_collect_all; exists j, r; (split; [done|]);
      unfold rel_shape in Hsh; simplify_eq; apply elem_of_app.
    + destruct (decide (rsrc r = rdst r)) as [Heq|Hne].
      * left. apply elem_of_if_singleton. rewrite <-Heq in *.
        by rewrite !bool_decide_eq_true_2, Hp.
      * right. apply elem_of_if_singleton. by rewrite !bool_decide_eq_true_2, Hp.
    + left. apply elem_of_if_singleton. by rewrite !bool_decide_eq_true_2, Hp.
Qed.

Lemma node_sat_has_label g L i : node_sat g (has_label L) i = true ↔ labelled g i L.
Proof.
  unfold node_sat, labelled, has_label. destruct (nodes g !! i) as [n|]; split.
  - intros ?%bool_decide_eq_true. eauto.
  - intros (m & [= <-] & ?). by apply bool_decide_eq_true.
  - done.
  - by intros (m & ? & _).
Qed.

Lemma list_ne_nil_elem {A} (l : list A) : l ≠ [] ↔ ∃ x, x ∈ l.
Proof.
  destruct l as [|x l]; split; try done.
  - by intros (x & ?%elem_of_nil).
  - intros _. exists x. left.
  Qed.

(** The party pattern has a row exactly when the agreement has an
    incorporated party. *)
Lemma party_rows_ne a g : party_rows a g ≠ [] ↔ has_incorporated_party g a.
Proof.
  rewrite list_ne_nil_elem. unfold party_rows, has_incorporated_party. split.
  - intros (row & ([r p] & Hrow & Hrp)%list_elem_of_bind).
    apply list_elem_of_bind in Hrow as ([i c] & Hrow & Hic).
    destruct (proj1 (expand_any_exists _ _ _ _ _) (ex_intro _ r Hrp)) as [Hadj1 HL1].
    destruct (proj1 (expand_any_exists _ _ _ _ _) (ex_intro _ i Hic)) as [Hadj2 HL2].
    exists p, c. rewrite <-!node_sat_has_label. split; [done|]. split; [done|].
    split; [done|]. destruct Hadj2; [by right | by left].
  - intros (p & c & HLp & Hadj1 & HLc & Hadj2).
    destruct (proj2 (expand_any_exists IS_PARTY_TO a (has_label Organization) g p))
      as [r Hr]; [by rewrite node_sat_has_label|].
    destruct (proj2 (expand_any_exists INCORPORATED_IN p (has_label Country) g c))
      as [i Hi].
    { rewrite node_sat_has_label. split; [|done]. destruct Hadj2; [by right | by left]. }
    exists (p, r, c, i). apply list_elem_of_bind. exists (r, p). split; [|done].
    apply list_elem_of_bind. exists (i, c). split; [|done]. left.
Qed.

Lemma expand_out_ne t a P g :
  expand_out t a P g ≠ [] ↔ ∃ x, (t, a, x) ∈ shapes g ∧ node_sat g P x = true.
Proof.
  rewrite list_ne_nil_elem. split.
  - intros ([j x] & Hin). exists x. apply expand_out_exists. eauto.
  - intros (x & Hx). apply expand_out_exists in Hx as [j Hj]. eauto.
Qed.

Lemma has_clause_of_type_iff g a t :
  expand_out HAS_CLAUSE a (node_matches ContractClause "type" (VStr t)) g ≠ [] ↔
  has_clause_of_type g a t.
Proof.
  rewrite expand_out_ne. unfold has_clause_of_type, node_sat. split.
  - intros (x & Hsh & Hp). destruct (nodes g !! x) as [n|] eqn:Hn; [|done]. eauto.
  - intros (x & n & Hsh & Hn & Hp). exists x. by rewrite Hn.
Qed.

Lemma has_clause_iff g a :
  expand_out HAS_CLAUSE a (has_label ContractClause) g ≠ [] ↔ has_clause g a.
Proof.
  rewrite expand_out_ne. unfold has_clause. by setoid_rewrite node_sat_has_label.
Qed.

Lemma elem_of_find_label g L a :
  a ∈ find_all (has_label L) (nodes g) ↔ labelled g a L.
Proof.
  rewrite elem_of_find_all. unfold labelled, has_label.
  by setoid_rewrite bool_decide_eq_true.
Qed.

(** ** The summary queries *)

Lemma summary_records_keys agreements g a :
  a ∈ (summary_records agreements g).*1 ↔ a ∈ agreements ∧ has_incorporated_party g a.
Proof.
  unfold summary_records. rewrite elem_of_group_by_keys, <-party_rows_ne.
  rewrite list_elem_of_fmap. split.
  - intros ([a' row] & -> & (a'' & Hrow & Ha)%list_elem_of_bind).
    apply list_elem_of_bind in Hrow as (row' & Heq & Hrow).
    apply list_elem_of_singleton in Heq. simplify_eq. simpl. split; [done|].
    apply list_ne_nil_elem. eauto.
  - intros [Ha (row & Hrow)%list_ne_nil_elem]. exists (a, row). split; [done|].
    apply list_elem_of_bind. exists a. split; [|done].
    apply list_elem_of_bind. exists row. split; [left | done].
Qed.

Lemma elem_of_bind_guard {A B} (l : list A) (f : A → list B) (a : A) :
  a ∈ (l ≫= λ a, f a ≫= λ _, [a]) ↔ a ∈ l ∧ f a ≠ [].
Proof.
  rewrite list_elem_of_bind. split.
  - intros (a' & (c & Heq & Hc)%list_elem_of_bind & Ha).
    apply list_elem_of_singleton in Heq as ->. split; [done|].
    apply list_ne_nil_elem. eauto.
  - intros [Ha (c & Hc)%list_ne_nil_elem]. exists a. split; [|done].
    apply list_elem_of_bind. exists c. split; [left | done].
Qed.

Lemma elem_of_bind_unless {A B} (l : list A) (f : A → list B) (a : A) :
  a ∈ (l ≫= λ a, match f a with [] => [a] | _ :: _ => [] end) ↔ a ∈ l ∧ f a = [].
Proof.
  rewrite list_elem_of_bind. split.
  - intros (a' & Hin & Ha). destruct (f a') eqn:E; [|by apply elem_of_nil in Hin].
    apply list_elem_of_singleton in Hin as ->. done.
  - intros [Ha Hf]. exists a. split; [|done]. rewrite Hf. left.
Qed.

Lemma with_clause_type_query_keys t g a :
  a ∈ (with_clause_type_query t g).*1 ↔
  labelled g a Agreement ∧ has_clause_of_type g a t ∧ has_incorporated_party g a.
Proof.
  unfold with_clause_type_query. rewrite summary_records_keys.
  rewrite <-has_clause_of_type_iff, <-elem_of_find_label.
  rewrite (elem_of_bind_guard _
             (λ a, expand_out HAS_CLAUSE a (node_matches ContractClause "type" (VStr t)) g)).
  tauto.
Qed.

Lemma without_clause_query_keys t g a :
  a ∈ (without_clause_query t g).*1 ↔
  labelled g a Agreement ∧ ¬ has_clause_of_type g a t ∧ has_incorporated_party g a.
Proof.
  unfold without_clause_query. rewrite summary_records_keys.
  rewrite <-has_clause_of_type_iff, <-elem_of_find_label.
  rewrite (elem_of_bind_unless _
             (λ a, expand_out HAS_CLAUSE a (node_matches ContractClause "type" (VStr t)) g)).
  destruct (expand_out HAS_CLAUSE a (node_matches ContractClause "type" (VStr t)) g);
    [tauto|]. split; [by intros [[_ ?] _] | intros (_ & Hn & _); by destruct Hn].
Qed.

Lemma has_clause_of_type_dec g a t : has_clause_of_type g a t ∨ ¬ has_clause_of_type g a t.
Proof.
  rewrite <-has_clause_of_type_iff.
  destruct (expand_out HAS_CLAUSE a (node_matches ContractClause "type" (VStr t)) g);
    [right; tauto | by left].
Qed.

(** C5, as stated, fails: an agreement without parties is returned neither
    with nor without the clause type. *)
Lemma agreement_without_party_in_neither :
  let g := CREATE_GRAPH_QUERY (sample_agreement 1 "Solo" [] [insurance]) empty_graph in
  labelled g 0 Agreement ∧
  (get_contracts_with_clause_type "Insurance" g).1 = JArr [] ∧
  (get_contracts_without_clause "Insurance" g).1 = JArr [] ∧
  0 ∉ (with_clause_type_query "Insurance" g).*1 ++ (without_clause_query "Insurance" g).*1.
Proof.
  intros g. split; [|split; [|split]].
  - eexists. split; reflexivity.
  - reflexivity.
  - reflexivity.
  - vm_compute. by intros ?%elem_of_nil.
Qed.

(** C5, amended. The agreements returned with a clause type and those
    returned without it are disjoint, and together they are the Agreement
    nodes that have a party organization incorporated in a country: both
    queries end with the party pattern, so an agreement without such a
    party is in neither result.  The service functions return the
    summaries of exactly these records. *)
Theorem with_and_without_clause_partition clause_type g :
  let with_ := (with_clause_type_query clause_type g).*1 in
  let without := (without_clause_query clause_type g).*1 in
  (get_contracts_with_clause_type clause_type g).1
    = JArr (summary_dict g <$> with_clause_type_query clause_type g) ∧
  (get_contracts_without_clause clause_type g).1
    = JArr (summary_dict g <$> without_clause_query clause_type g) ∧
  (∀ a, a ∈ with_ → a ∉ without) ∧
  (∀ a, a ∈ with_ ∨ a ∈ without ↔ labelled g a Agreement ∧ has_incorporated_party g a).
Proof.
  intros with_ without. split; [done|]. split; [done|]. split.
  - intros a (_ & Hc & _)%with_clause_type_query_keys (_ & Hnc & _)%without_clause_query_keys.
    done.
  - intros a. unfold with_, without.
    rewrite with_clause_type_query_keys, without_clause_query_keys.
    destruct (has_clause_of_type_dec g a clause_type); tauto.
Qed.

Lemma with_and_without_clause_partition_witness :
  let g := build_graph [msa_001; sample_agreement 2 "NDA" [acme] []] empty_graph in
  (with_clause_type_query "Insurance" g).*1 = [0] ∧
  (without_clause_query "Insurance" g).*1 = [6] ∧
  (0 ∈ (with_clause_type_query "Insurance" g).*1 →
   0 ∉ (without_clause_query "Insurance" g).*1) ∧
  (6 ∈ (with_clause_type_query "Insurance" g).*1 ∨
   6 ∈ (without_clause_query "Insurance" g).*1 ↔
   labelled g 6 Agreement ∧ has_incorporated_party g 6).
Proof.
  intros g.
  destruct (with_and_without_clause_partition "Insurance" g) as (_ & _ & Hdisj & Hunion).
  split; [reflexivity|]. split; [reflexivity|].
  split; [exact (Hdisj 0) | exact (Hunion 6)].
Defined.

(** ** [get_contract] and [get_contract_excerpts] *)

Lemma elem_of_group_by {K V} `{EqDecision K} (rows : list (K * V)) k vs :
  (k, vs) ∈ group_by rows → k ∈ rows.*1 ∧ vs ≠ [].
Proof.
  intros Hin. split.
  - apply elem_of_group_by_keys, list_elem_of_fmap. by exists (k, vs).
  - pose proof (group_by_nonempty rows) as Hne. rewrite Forall_forall in Hne.
    by apply Hne in Hin.
Qed.

Lemma get_contract_clause_rows id g a :
  a ∈ (match_nodes Agreement "contract_id" (VInt id) g
       ≫= λ a, (expand_out HAS_CLAUSE a (has_label ContractClause) g).*2
       ≫= λ clause, [(a, clause)]).*1 ↔
  a ∈ match_nodes Agreement "contract_id" (VInt id) g ∧ has_clause g a.
Proof.
  rewrite <-has_clause_iff, list_elem_of_fmap. split.
  - intros ([a' cl] & -> & (a'' & Hin & Ha)%list_elem_of_bind).
    apply list_elem_of_bind in Hin as (cl' & Heq & Hcl).
    apply list_elem_of_singleton in Heq. simplify_eq. simpl. split; [done|].
    apply list_elem_of_fmap in Hcl as (jc & _ & Hjc). apply list_ne_nil_elem. eauto.
  - intros [Ha ([j cl] & Hcl)%list_ne_nil_elem]. exists (a, cl). split; [done|].
    apply list_elem_of_bind. exists a. split; [|done].
    apply list_elem_of_bind. exists cl. split; [left|].
    apply list_elem_of_fmap. by exists (j, cl).
Qed.

Lemma elem_of_get_contract_query id g a clauses rows :
  (a, clauses, rows) ∈ get_contract_query id g →
  a ∈ match_nodes Agreement "contract_id" (VInt id) g ∧ has_clause g a ∧
  has_incorporated_party g a.
Proof.
  unfold get_contract_query. intros ([[a' cs] rs] & Heq & Hin)%list_elem_of_fmap.
  simplify_eq. apply elem_of_group_by in Hin as [Hin _].
  apply list_elem_of_fmap in Hin as ([k row] & Hk & Hin). simpl in Hk. subst k.
  apply list_elem_of_bind in Hin as ([a2 cs2] & Hin & Ht2).
  apply list_elem_of_bind in Hin as (row' & Heq & Hrow).
  apply list_elem_of_singleton in Heq. simplify_eq.
  apply elem_of_group_by in Ht2 as [Ha _].
  apply get_contract_clause_rows in Ha as [Ha Hc].
  split; [done|]. split; [done|]. apply party_rows_ne, list_ne_nil_elem. eauto.
Qed.

Lemma get_contract_query_ne id g :
  get_contract_query id g ≠ [] ↔
  ∃ a, a ∈ match_nodes Agreement "contract_id" (VInt id) g ∧ has_clause g a ∧
       has_incorporated_party g a.
Proof.
  split.
  - intros ([[a clauses] rows] & Hin)%list_ne_nil_elem. exists a.
    by eapply elem_of_get_contract_query.
  - intros (a & Ha & Hc & Hp). unfold get_contract_query.
    intros Hnil. apply fmap_nil_inv in Hnil. apply (proj1 (group_by_nil _)) in Hnil.
    assert (a ∈ (group_by (match_nodes Agreement "contract_id" (VInt id) g
                   ≫= λ a, (expand_out HAS_CLAUSE a (has_label ContractClause) g).*2
                   ≫= λ clause, [(a, clause)])).*1) as Hk.
    { apply elem_of_group_by_keys, get_contract_clause_rows. done. }
    apply list_elem_of_fmap in Hk as ([a' clauses] & -> & Hk). simpl in *.
    apply party_rows_ne, list_ne_nil_elem in Hp as [row Hrow].
    match type of Hnil with
    | ?e = [] => assert (((a', clauses), row) ∈ e) as Hin
    end.
    { apply list_elem_of_bind. exists (a', clauses). split; [|done].
      apply list_elem_of_bind. exists row. split; [left | done]. }
    rewrite Hnil in Hin. by apply elem_of_nil in Hin.
Qed.

(** The driver sends a statement with an id of 64 bits, and the store
    answers it when it does not fail. *)
Lemma execute_query_answered {A} parameter query (records : A) :
  (- 2 ^ 63 ≤ parameter < 2 ^ 63)%Z →
  execute_query None parameter query records = (Ok records, [query]).
Proof. intros Hp. unfold execute_query. by rewrite decide_True. Qed.

Lemma get_contract_answered contract_id g :
  (0 < contract_id < 2 ^ 63)%Z →
  get_contract None contract_id g =
    (Ok match get_contract_query contract_id g with
        | [] => error_dict ("Contract " +:+ pretty contract_id +:+ " not found")
        | record :: _ => contract_detail g record
        end,
     [GET_CONTRACT contract_id]).
Proof.
  intros Hid. unfold get_contract. rewrite decide_False by lia.
  rewrite execute_query_answered by lia. by destruct (get_contract_query contract_id g).
Qed.

Lemma get_contract_excerpts_answered contract_id g :
  (0 < contract_id < 2 ^ 63)%Z →
  get_contract_excerpts None contract_id g =
    (Ok match contract_excerpts_query contract_id g with
        | [] => error_dict ("Contract " +:+ pretty contract_id +:+ " not found")
        | ((agreement_node, _), _) :: _ =>
            let clause_dict :=
              fold_left (λ d '((_, clause_type), excerpts), dict_set clause_type excerpts d)
                        (contract_excerpts_query contract_id g) [] in
            JObj [("contract_id", node_get g agreement_node "contract_id");
                  ("name", node_get g agreement_node "name");
                  ("agreement_type", node_get g agreement_node "agreement_type");
                  ("effective_date", node_get g agreement_node "effective_date");
                  ("expiration_date", node_get g agreement_node "expiration_date");
                  ("renewal_term", node_get g agreement_node "renewal_term");
                  ("clauses",
                   JArr ((λ '(clause_type, excerpts),
                            JObj [("clause_type", json_of_value clause_type);
                                  ("excerpts",
                                   JArr ((λ x, json_of_value (Some x)) <$> excerpts))])
                           <$> clause_dict))]
        end,
     [CONTRACT_EXCERPTS contract_id]).
Proof.
  intros Hid. unfold get_contract_excerpts. rewrite decide_False by lia.
  rewrite execute_query_answered by lia.
  by destruct (contract_excerpts_query contract_id g) as [|[[? ?] ?] ?].
Qed.

(** C10. For a positive id the driver can send, and a store that answers,
    [get_contract] returns the contract detail of an Agreement node with
    that contract_id exactly when such a node has a clause node (a
    HAS_CLAUSE relationship) and a party organization incorporated in a
    country; otherwise, also when the Agreement node exists, it returns
    the not-found error of an id without Agreement node. *)
Theorem get_contract_needs_clause_and_party contract_id g :
  (0 < contract_id < 2 ^ 63)%Z →
  let eligible a :=
    a ∈ match_nodes Agreement "contract_id" (VInt contract_id) g ∧ has_clause g a ∧
    has_incorporated_party g a in
  let not_found := error_dict ("Contract " +:+ pretty contract_id +:+ " not found") in
  ((∃ a, eligible a) →
   ∃ a clauses rows,
     eligible a ∧
     (get_contract None contract_id g).1 = Ok (contract_detail g (a, clauses, rows))) ∧
  (¬ (∃ a, eligible a) → (get_contract None contract_id g).1 = Ok not_found) ∧
  (match_nodes Agreement "contract_id" (VInt contract_id) g = [] →
   (get_contract None contract_id g).1 = Ok not_found).
Proof.
  intros Hpos eligible not_found. rewrite get_contract_answered by done. cbn [fst].
  pose proof (get_contract_query_ne contract_id g) as Hne.
  destruct (get_contract_query contract_id g) as [|[[a clauses] rows] records] eqn:E.
  - split; [|split; [done|done]]. intros Hex. apply Hne in Hex. done.
  - assert (eligible a) as Ha.
    { apply (elem_of_get_contract_query contract_id g a clauses rows). rewrite E. left. }
    split; [intros _; by exists a, clauses, rows|]. split.
    + intros Hno. destruct Hno. by exists a.
    + intros Hnil. destruct Ha as [Ha _]. rewrite Hnil in Ha. by apply elem_of_nil in Ha.
Qed.

Lemma get_contract_needs_clause_and_party_witness :
  let g := build_graph [msa_001; sample_agreement 2 "Solo" [] [insurance]] empty_graph in
  (0 < 2 < 2 ^ 63)%Z ∧
  6 ∈ match_nodes Agreement "contract_id" (VInt 2) g ∧
  ¬ (∃ a, a ∈ match_nodes Agreement "contract_id" (VInt 2) g ∧ has_clause g a ∧
          has_incorporated_party g a) ∧
  (get_contract None 2 g).1 = Ok (error_dict "Contract 2 not found").
Proof.
  intros g.
  assert (¬ (∃ a, a ∈ match_nodes Agreement "contract_id" (VInt 2) g ∧ has_clause g a ∧
                  has_incorporated_party g a)) as Hno.
  { intros Hex%get_contract_query_ne. by apply Hex. }
  split; [lia|]. split; [vm_compute; left|]. split; [exact Hno|].
  destruct (get_contract_needs_clause_and_party 2 g ltac:(lia)) as (_ & Hnf & _).
  exact (Hnf Hno).
Defined.

(** C8. With a non-positive id, [get_contract] and [get_contract_excerpts]
    return the validation error and send no statement to the store.  With
    a positive id below 2^63 that no Agreement node carries they send
    their query and, when the store answers, return the not-found error.
    They handle no failure: for an id of 2^63 or more the driver raises
    [OverflowError] before anything is sent, and a failure of the store
    reaches the caller. *)
Theorem invalid_and_unknown_ids store_failure contract_id g :
  let invalid := JObj [("error", JStr "Contract ID must be positive")] in
  let not_found :=
    JObj [("error", JStr ("Contract " +:+ pretty contract_id +:+ " not found"))] in
  ((contract_id ≤ 0)%Z →
   get_contract store_failure contract_id g = (Ok invalid, []) ∧
   get_contract_excerpts store_failure contract_id g = (Ok invalid, [])) ∧
  ((0 < contract_id < 2 ^ 63)%Z →
   store_failure = None →
   match_nodes Agreement "contract_id" (VInt contract_id) g = [] →
   get_contract store_failure contract_id g = (Ok not_found, [GET_CONTRACT contract_id]) ∧
   get_contract_excerpts store_failure contract_id g
     = (Ok not_found, [CONTRACT_EXCERPTS contract_id])) ∧
  ((0 < contract_id < 2 ^ 63)%Z →
   ∀ e, store_failure = Some e →
        get_contract store_failure contract_id g = (Raise e, [GET_CONTRACT contract_id]) ∧
        get_contract_excerpts store_failure contract_id g
          = (Raise e, [CONTRACT_EXCERPTS contract_id])) ∧
  ((2 ^ 63 ≤ contract_id)%Z →
   get_contract store_failure contract_id g = (Raise OverflowError, []) ∧
   get_contract_excerpts store_failure contract_id g = (Raise OverflowError, [])).
Proof.
  intros invalid not_found. split; [|split; [|split]].
  - intros Hle. unfold get_contract, get_contract_excerpts. by rewrite !decide_True.
  - intros Hid -> Hnil.
    rewrite get_contract_answered, get_contract_excerpts_answered by done.
    unfold get_contract_query, contract_excerpts_query. by rewrite Hnil.
  - intros Hid e ->. unfold get_contract, get_contract_excerpts, execute_query.
    repeat case_decide; (done || lia).
  - intros Hid. unfold get_contract, get_contract_excerpts, execute_query.
    repeat case_decide; (done || lia).
Qed.

Lemma invalid_and_unknown_ids_witness :
  let g := build_graph [msa_001; msa_002] empty_graph in
  (get_contract None 0 g = (Ok (JObj [("error", JStr "Contract ID must be positive")]), []) ∧
   get_contract_excerpts None 0 g
     = (Ok (JObj [("error", JStr "Contract ID must be positive")]), [])) ∧
  (get_contract None 7 g
     = (Ok (JObj [("error", JStr "Contract 7 not found")]), [GET_CONTRACT 7]) ∧
   get_contract_excerpts None 7 g
     = (Ok (JObj [("error", JStr "Contract 7 not found")]), [CONTRACT_EXCERPTS 7])) ∧
  (get_contract (Some "ServiceUnavailable") 7 g
     = (Raise "ServiceUnavailable", [GET_CONTRACT 7]) ∧
   get_contract_excerpts (Some "ServiceUnavailable") 7 g
     = (Raise "ServiceUnavailable", [CONTRACT_EXCERPTS 7])).
Proof.
  intros g. split; [|split].
  - apply (invalid_and_unknown_ids None 0 g). lia.
  - apply (invalid_and_unknown_ids None 7 g); [lia | reflexivity | reflexivity].
  - apply (invalid_and_unknown_ids (Some "ServiceUnavailable") 7 g); [lia | reflexivity].
Defined.

(** C8, as stated, fails: 2^63 is a positive id that no Agreement node
    carries, and the functions return no structured result for it: the
    driver cannot pack the id, and its [OverflowError] reaches the
    caller. *)
Lemma huge_id_raises :
  let g := build_graph [msa_001; msa_002] empty_graph in
  (0 < 2 ^ 63)%Z ∧
  match_nodes Agreement "contract_id" (VInt (2 ^ 63)) g = [] ∧
  get_contract None (2 ^ 63) g = (Raise OverflowError, []) ∧
  get_contract_excerpts None (2 ^ 63) g = (Raise OverflowError, []).
Proof. intros g. split; [lia|]. split; [reflexivity|]. split; reflexivity. Qed.

(** * Properties of the tool facade *)

(** ** Strings *)

Lemma append_cons (c : ascii) (s1 s2 : string) : String c s1 +:+ s2 = String c (s1 +:+ s2).
Proof. reflexivity. Qed.

Lemma append_nil_l (s : string) : "" +:+ s = s.
Proof. reflexivity. Qed.

Lemma append_assoc (s1 s2 s3 : string) : (s1 +:+ s2) +:+ s3 = s1 +:+ (s2 +:+ s3).
Proof. induction s1 as [|c s1 IH]; [done|]. rewrite !append_cons. by rewrite IH. Qed.

Lemma append_nil_r (s : string) : s +:+ "" = s.
Proof. induction s as [|c s IH]; [done|]. rewrite append_cons. by rewrite IH. Qed.

Lemma append_eq_nil (s1 s2 : string) : s1 +:+ s2 = "" → s1 = "" ∧ s2 = "".
Proof. destruct s1; simpl; [done|discriminate]. Qed.

(** ** [answer_aggregation_question] *)

Lemma answer_fold_empty (items : list string) (acc : string) :
  fold_left (λ answer content,
               if decide (content = "") then answer
               else answer +:+ content +:+ newline +:+ newline) items acc = "" ↔
  acc = "" ∧ Forall (λ c, c = "") items.
Proof.
  revert acc. induction items as [|c items IH]; intros acc; simpl.
  - split; [by intros -> | by intros [-> _]].
  - rewrite IH. destruct (decide (c = "")) as [->|Hc].
    + split; intros [? ?]; [by split; [|constructor] | split; [done|]].
      by apply Forall_cons in H0 as [_ ?].
    + split.
      * intros [[_ [? _]%append_eq_nil]%append_eq_nil _]. done.
      * intros [_ [? _]%Forall_cons]. done.
Qed.

(** C3, as stated, fails: when the retriever raises, for a translation or
    an execution failure, the service and the tool raise the same
    exception; no text is returned. *)
Lemma aggregation_failure_propagates :
  let failing : string → graph → result (list string) :=
    λ _ _, Raise "Text2CypherRetrievalError" in
  let question := "How many contracts are there?" in
  (answer_aggregation_question failing question empty_graph).1
    = Raise "Text2CypherRetrievalError" ∧
  ContractTools.answer_aggregation_question failing question empty_graph
    = Raise "Text2CypherRetrievalError" ∧
  ¬ ∃ answer, (answer_aggregation_question failing question empty_graph).1 = Ok answer.
Proof. repeat split. by intros [answer ?]. Qed.

(** C3, amended. [answer_aggregation_question] returns a text whenever
    the retriever returns; then, when the query produced no result row (or
    only rows whose text is empty), the text is exactly "No results
    found.".  An exception raised by the retriever goes on to the caller
    unchanged, through the tool as well. *)
Theorem aggregation_answer (text2cypher : string → graph → result (list string))
    user_question g :
  ContractTools.answer_aggregation_question text2cypher user_question g
    = (answer_aggregation_question text2cypher user_question g).1 ∧
  match text2cypher user_question g with
  | Raise e => (answer_aggregation_question text2cypher user_question g).1 = Raise e
  | Ok items =>
      ∃ answer,
        (answer_aggregation_question text2cypher user_question g).1 = Ok answer ∧
        (items = [] → answer = "No results found.") ∧
        (Forall (λ content, content = "") items → answer = "No results found.")
  end.
Proof.
  split; [done|]. unfold answer_aggregation_question. simpl.
  destruct (text2cypher user_question g) as [items|e]; [|done].
  eexists. split; [done|].
  assert (Forall (λ content, content = "") items →
          (if decide (fold_left (λ answer content,
                                   if decide (content = "") then answer
                                   else answer +:+ content +:+ newline +:+ newline)
                                items "" = "")
           then "No results found."
           else fold_left (λ answer content,
                             if decide (content = "") then answer
                             else answer +:+ content +:+ newline +:+ newline) items "")
          = "No results found.") as Hall.
  { intros Hall. rewrite decide_True; [done|]. by apply answer_fold_empty. }
  split; [intros ->; by apply Hall | exact Hall].
Qed.

(** ** The encoder writes JSON texts *)

Lemma all_chars_app p s1 s2 :
  all_chars p (s1 +:+ s2) = all_chars p s1 && all_chars p s2.
Proof.
  induction s1 as [|c s1 IH]; [done|]. rewrite append_cons. simpl.
  by rewrite IH, andb_assoc.
Qed.

Lemma json_ws_nil : json_ws "".
Proof. done. Qed.

Lemma json_ws_app w1 w2 : json_ws w1 → json_ws w2 → json_ws (w1 +:+ w2).
Proof. unfold json_ws. intros H1 H2. by rewrite all_chars_app, H1, H2. Qed.

Lemma json_ws_spaces n : json_ws (spaces n).
Proof. induction n as [|n IH]; [done|]. unfold json_ws in *. simpl. exact IH. Qed.

Lemma json_ws_newline_indent level : json_ws (newline_indent level).
Proof. apply json_ws_app; [done | apply json_ws_spaces]. Qed.

Lemma json_chars_app s1 s2 : json_chars s1 → json_chars s2 → json_chars (s1 +:+ s2).
Proof.
  induction 1 as [|c s ??? _ IH|c s ? _ IH|h1 h2 h3 h4 s ???? _ IH]; intros Hs2;
    rewrite ?append_nil_l, ?append_cons.
  - done.
  - by apply json_chars_plain; [..|apply IH].
  - by apply json_chars_escape; [|apply IH].
  - by apply json_chars_unicode; [..|apply IH].
Qed.

Lemma is_hex_hex_digit n : is_hex (hex_digit n) = true.
Proof. do 16 (destruct n as [|n]; [reflexivity|]). reflexivity. Qed.

Lemma nat_of_ascii_of_N n : (n < 256)%N → nat_of_ascii (ascii_of_N n) = N.to_nat n.
Proof. intros Hn. unfold nat_of_ascii. by rewrite N_ascii_embedding. Qed.

Lemma json_chars_unicode_escape n : json_chars (unicode_escape n).
Proof.
  unfold unicode_escape, escape_with. rewrite !append_cons, append_nil_l.
  apply json_chars_unicode; try apply is_hex_hex_digit. constructor.
Qed.

Lemma json_chars_escape_char c : json_chars (escape_char c).
Proof.
  unfold escape_char. repeat case_decide.
  - apply json_chars_escape; [repeat constructor | constructor].
  - apply (json_chars_escape backslash); [repeat constructor | constructor].
  - apply (json_chars_escape "n"); [repeat constructor | constructor].
  - apply (json_chars_escape "r"); [repeat constructor | constructor].
  - apply (json_chars_escape "t"); [repeat constructor | constructor].
  - apply (json_chars_escape "b"); [repeat constructor | constructor].
  - apply (json_chars_escape "f"); [repeat constructor | constructor].
  - assert (nat_of_ascii (ascii_of_N c) = N.to_nat c) as Hc
      by (apply nat_of_ascii_of_N; lia).
    apply json_chars_plain; [lia| | |constructor].
    + intros Heq. assert (N.to_nat c = 34) by (by rewrite <- Hc, Heq). lia.
    + intros Heq. assert (N.to_nat c = 92) by (by rewrite <- Hc, Heq). lia.
  - apply json_chars_unicode_escape.
  - apply json_chars_app; apply json_chars_unicode_escape.
Qed.

Lemma json_chars_escape_chars s : json_chars (escape_chars s).
Proof.
  induction s as [|c s IH]; [constructor|]. simpl.
  by apply json_chars_app; [apply json_chars_escape_char|].
Qed.

Lemma json_string_encode_string s : json_string (encode_string s).
Proof. constructor. apply json_chars_escape_chars. Qed.

(** Decimal numerals *)

Lemma is_digit_pretty_N_char x : is_digit (pretty_N_char x) = true.
Proof.
  destruct x as [|p]; [reflexivity|].
  do 4 (destruct p as [p|p|]; try reflexivity).
Qed.

Lemma pretty_N_char_nonzero x : (0 < x)%N → pretty_N_char x ≠ "0"%char.
Proof.
  destruct x as [|p]; [lia|]. intros _.
  do 4 (destruct p as [p|p|]; try discriminate).
Qed.

Lemma pretty_N_go_digits x s :
  (0 < x)%N →
  ∃ c ds, pretty_N_go x s = String c (ds +:+ s) ∧
          is_digit c = true ∧ c ≠ "0"%char ∧ all_chars is_digit ds = true.
Proof.
  revert s. induction (N.lt_wf_0 x) as [x _ IH]; intros s Hx.
  rewrite pretty_N_go_step by done.
  destruct (decide (x < 10)%N) as [Hlt|Hge].
  - rewrite N.div_small, N.mod_small by done. rewrite pretty_N_go_0.
    exists (pretty_N_char x), "". split; [done|].
    split; [apply is_digit_pretty_N_char|]. split; [by apply pretty_N_char_nonzero | done].
  - destruct (IH (x `div` 10)%N) with (s := String (pretty_N_char (x `mod` 10)) s)
      as (c & ds & -> & Hc & Hc0 & Hds).
    { apply N.div_lt; lia. }
    { apply N.div_str_pos. lia. }
    exists c, (ds +:+ String (pretty_N_char (x `mod` 10)) "").
    split; [by rewrite append_assoc|]. split; [done|]. split; [done|].
    rewrite all_chars_app, Hds. simpl. by rewrite is_digit_pretty_N_char.
Qed.

Lemma json_int_pretty_positive (p : positive) : json_int (pretty p).
Proof.
  unfold pretty, pretty_positive, pretty, pretty_N. rewrite decide_False by done.
  destruct (pretty_N_go_digits (N.pos p) "") as (c & ds & -> & Hc & Hc0 & Hds); [lia|].
  rewrite append_nil_r. by constructor.
Qed.

Lemma json_number_pretty (z : Z) : json_number (pretty z).
Proof.
  destruct z as [|p|p]; unfold pretty, pretty_Z.
  - apply json_number_pos. constructor.
  - apply json_number_pos, json_int_pretty_positive.
  - apply json_number_neg, json_int_pretty_positive.
Qed.

Lemma dumps_at_arr level x items :
  dumps_at level (JArr (x :: items)) =
    "[" +:+ (newline_indent (S level)
             +:+ join_items ("," +:+ newline_indent (S level))
                   (map (dumps_at (S level)) (x :: items))
             +:+ newline_indent level) +:+ "]".
Proof.
  change (dumps_at level (JArr (x :: items)))
    with ("[" +:+ newline_indent (S level)
              +:+ join_items ("," +:+ newline_indent (S level))
                    (map (dumps_at (S level)) (x :: items))
              +:+ newline_indent level +:+ "]").
  by rewrite !append_assoc.
Qed.

Lemma dumps_at_obj level m members :
  dumps_at level (JObj (m :: members)) =
    "{" +:+ (newline_indent (S level)
             +:+ join_items ("," +:+ newline_indent (S level))
                   (map (λ member, encode_string (fst member) +:+ ": "
                                   +:+ dumps_at (S level) (snd member)) (m :: members))
             +:+ newline_indent level) +:+ "}".
Proof.
  change (dumps_at level (JObj (m :: members)))
    with ("{" +:+ newline_indent (S level)
              +:+ join_items ("," +:+ newline_indent (S level))
                    (map (λ member, encode_string (fst member) +:+ ": "
                                    +:+ dumps_at (S level) (snd member)) (m :: members))
              +:+ newline_indent level +:+ "}").
  by rewrite !append_assoc.
Qed.

Lemma join_items_cons2 separator x y rest :
  join_items separator (x :: y :: rest) = x +:+ separator +:+ join_items separator (y :: rest).
Proof. reflexivity. Qed.

Lemma json_elements_join w w' (strs : list string) :
  json_ws w → json_ws w' → strs ≠ [] → Forall json_value strs →
  json_elements (w +:+ join_items ("," +:+ w) strs +:+ w').
Proof.
  intros Hw Hw' Hne Hall. induction Hall as [|x rest Hx Hrest IH]; [done|].
  destruct rest as [|y rest].
  - by apply json_elements_one.
  - rewrite join_items_cons2, !append_assoc.
    apply (json_elements_more w x "" (w +:+ join_items ("," +:+ w) (y :: rest) +:+ w'));
      [done | done | done | by apply IH].
Qed.

Lemma json_members_join w w' (ms : list (string * string)) :
  json_ws w → json_ws w' → ms ≠ [] →
  Forall (λ m, json_string m.1 ∧ json_value m.2) ms →
  json_members (w +:+ join_items ("," +:+ w) (map (λ m, m.1 +:+ ": " +:+ m.2) ms) +:+ w').
Proof.
  intros Hw Hw' Hne Hall. induction Hall as [|[k v] rest [Hk Hv] Hrest IH]; [done|].
  destruct rest as [|m rest].
  - simpl. rewrite !append_assoc.
    by apply (json_members_one w k "" " " v w').
  - change (map (λ m, m.1 +:+ ": " +:+ m.2) ((k, v) :: m :: rest))
      with ((k +:+ ": " +:+ v) :: map (λ m, m.1 +:+ ": " +:+ m.2) (m :: rest)).
    destruct (map (λ m, m.1 +:+ ": " +:+ m.2) (m :: rest)) as [|y ys] eqn:E; [done|].
    rewrite join_items_cons2, !append_assoc.
    apply (json_members_more w k "" " " v ""
             (w +:+ join_items ("," +:+ w) (y :: ys) +:+ w')); try done.
    by apply IH.
Qed.

Lemma json_value_dumps_at j : ∀ level, json_value (dumps_at level j).
Proof.
  induction j as [|z|s|items IH|members IH] using json_ind; intros level.
  - constructor.
  - apply json_value_number, json_number_pretty.
  - apply json_value_string, json_string_encode_string.
  - destruct items as [|x items]; [by apply (json_value_array_empty "")|].
    rewrite dumps_at_arr. apply json_value_array.
    apply json_elements_join; [apply json_ws_newline_indent..|done|].
    apply Forall_map. eapply Forall_impl; [exact IH|]. by intros j Hj.
  - destruct members as [|m members]; [by apply (json_value_object_empty "")|].
    rewrite dumps_at_obj.
    replace (map (λ member, encode_string member.1 +:+ ": "
                            +:+ dumps_at (S level) member.2) (m :: members))
      with (map (λ m : string * string, m.1 +:+ ": " +:+ m.2)
              (map (λ member, (encode_string member.1, dumps_at (S level) member.2))
                   (m :: members)))
      by (by rewrite map_map).
    apply json_value_object.
    apply json_members_join; [apply json_ws_newline_indent..|done|].
    apply Forall_map. eapply Forall_impl; [exact IH|]. simpl. intros [k v] Hv. simpl.
    split; [apply json_string_encode_string | apply Hv].
Qed.

(** What [json.dumps] returns parses as JSON. *)
Lemma json_text_dumps j : json_text (dumps j).
Proof.
  exists "", (dumps j), "". rewrite append_nil_r. split; [done|].
  split; [done|]. split; [apply json_value_dumps_at | done].
Qed.

(** ** Texts that are not JSON *)

Lemma json_value_start v :
  json_value v → ∃ c s, v = String c s ∧ value_start c = true.
Proof.
  destruct 1 as [| | |s Hn|s Hs|w Hw|els Hels|w Hw|ms Hms];
    try (eexists _, _; split; [reflexivity|reflexivity]).
  - destruct Hn as [s [|c s' Hc _ _]|s Hi].
    + by exists "0"%char, "".
    + exists c, s'. split; [done|]. unfold value_start. by rewrite Hc.
    + by exists "-"%char, s.
  - destruct Hs as [s' _]. by eexists _, _.
Qed.

Lemma json_text_start s :
  json_text s → ∃ c s', s = String c s' ∧ (is_json_ws c = true ∨ value_start c = true).
Proof.
  intros (w1 & v & w2 & -> & Hw1 & Hv & _). destruct w1 as [|c w1].
  - apply json_value_start in Hv as (c & s' & -> & Hc).
    exists c, (s' +:+ w2). split; [done|]. by right.
  - exists c, (w1 +:+ v +:+ w2). split; [done|]. left.
    unfold json_ws in Hw1. simpl in Hw1. by apply andb_true_iff in Hw1 as [? _].
Qed.

Lemma no_results_found_not_json : ¬ json_text "No results found.".
Proof.
  intros (c & s' & Heq & Hc)%json_text_start. injection Heq as <- _.
  destruct Hc as [Hc|Hc]; vm_compute in Hc; discriminate.
Qed.

(** ** The seven tools *)

(** C9, as stated, fails for one tool: [answer_aggregation_question]
    returns the answer text as it is, and "No results found." does not
    parse as JSON. *)
Lemma aggregation_tool_returns_plain_text :
  let no_rows : string → graph → result (list string) := λ _ _, Ok [] in
  ContractTools.answer_aggregation_question no_rows "How many contracts are there?"
      empty_graph
    = Ok "No results found." ∧
  ¬ json_text "No results found.".
Proof. split; [reflexivity | apply no_results_found_not_json]. Qed.

Lemma json_text_dumps_result r s : dumps_result r = Ok s → json_text s.
Proof. destruct r as [j|e]; [|done]. intros [= <-]. apply json_text_dumps. Qed.

(** C9, amended. The tools take an integer or a string.  Six of them
    return [json.dumps] of the service result, a string that parses as
    JSON, whenever they return; [answer_aggregation_question] returns the
    answer text of the service unchanged, which is plain text. *)
Theorem six_tools_return_json
    (fulltext_query : string → string → graph → result (list nat))
    (vector_search : string → string → nat → graph → result (list nat))
    (text2cypher : string → graph → result (list string)) (g : graph) :
  (∀ store_failure (contract_id : Z) s,
     ContractTools.get_contract store_failure contract_id g = Ok s → json_text s) ∧
  (∀ (organization_name : string) s,
     ContractTools.get_contracts_by_organization fulltext_query organization_name g = Ok s →
     json_text s) ∧
  (∀ (clause_type : string) s,
     ContractTools.get_contracts_with_clause_type clause_type g = Ok s → json_text s) ∧
  (∀ (clause_type : string) s,
     ContractTools.get_contracts_without_clause clause_type g = Ok s → json_text s) ∧
  (∀ (clause_text : string) s,
     ContractTools.get_contracts_similar_text vector_search clause_text g = Ok s →
     json_text s) ∧
  (∀ store_failure (contract_id : Z) s,
     ContractTools.get_contract_excerpts store_failure contract_id g = Ok s → json_text s) ∧
  (∀ (user_question : string),
     ContractTools.answer_aggregation_question text2cypher user_question g
       = (answer_aggregation_question text2cypher user_question g).1).
Proof.
  split; [intros f id s; apply json_text_dumps_result|].
  split; [intros name s; apply json_text_dumps_result|].
  split; [intros t s [= <-]; apply json_text_dumps|].
  split; [intros t s [= <-]; apply json_text_dumps|].
  split; [intros t s; apply json_text_dumps_result|].
  split; [intros f id s; apply json_text_dumps_result | done].
Qed.

Lemma six_tools_return_json_witness :
  let g := build_graph [msa_001; msa_002] empty_graph in
  ∃ j, (get_contract None 1 g).1 = Ok j ∧
       ContractTools.get_contract None 1 g = Ok (dumps j) ∧
       json_text (dumps j).
Proof.
  intros g. eexists. split; [reflexivity|]. split; [reflexivity|].
  destruct (six_tools_return_json (λ _ _ _, Ok []) (λ _ _ _ _, Ok []) (λ _ _, Ok []) g)
    as [Hget _].
  apply (Hget None 1%Z). reflexivity.
Defined.

(** ** The ingestion loop: what every built graph satisfies *)

Lemma build_graph_cons data contracts g :
  build_graph (data :: contracts) g = build_graph contracts (CREATE_GRAPH_QUERY data g).
Proof. done. Qed.

Lemma build_graph_ext contracts g : ext g (build_graph contracts g).
Proof. apply (foreach_preorder ext). intros. apply CREATE_GRAPH_QUERY_ext. Qed.

Lemma match_nodes_adds_only Ls Ts L k v g g' :
  adds_only Ls Ts g g' → L ∉ Ls → match_nodes L k v g' = match_nodes L k v g.
Proof.
  intros (ns & ss & [Hn _] & HL & _) Hnot.
  eapply match_nodes_app_other; [exact Hn|].
  eapply Forall_impl; [exact HL|]. intros n Hin Heq. apply Hnot. by rewrite <- Heq.
Qed.

(** The Agreement nodes with a given [contract_id] after the statement. *)
Lemma CREATE_GRAPH_QUERY_agreements data g v :
  let id := VInt (Schema.contract_id (Schema.agreement data)) in
  match_nodes Agreement "contract_id" v (CREATE_GRAPH_QUERY data g) =
    if decide (v = id ∧ match_nodes Agreement "contract_id" id g = [])
    then [length (nodes g)] else match_nodes Agreement "contract_id" v g.
Proof.
  cbv zeta. set (id := VInt (Schema.contract_id (Schema.agreement data))).
  unfold CREATE_GRAPH_QUERY.
  pose proof (upsert_agreement_after_merge (Schema.agreement data) g) as Hh. fold id in Hh.
  destruct (upsert_agreement (Schema.agreement data) g) as [g1 t]. simpl in Hh.
  rewrite (match_nodes_adds_only [ContractClause; Excerpt; ClauseType]
             [HAS_CLAUSE; HAS_EXCERPT; HAS_TYPE] Agreement _ _ g1);
    [|apply create_clauses_adds; solve [repeat constructor]|not_in_list].
  rewrite (match_nodes_adds_only _ _ _ _ _ _ _ Hh) by not_in_list.
  destruct (merge_node Agreement "contract_id" id (agreement_on_create (Schema.agreement data)) g)
    as [g0 t0] eqn:E.
  apply merge_node_inv in E as [(Hnil & -> & _)|(Hne & -> & _)]; simpl.
  - unfold match_nodes at 1. simpl. rewrite find_all_snoc. fold (match_nodes Agreement "contract_id" v g).
    unfold node_matches at 1. simpl. rewrite lookup_insert_eq.
    destruct (decide (v = id)) as [->|Hv].
    + rewrite bool_decide_eq_true_2 by done. rewrite decide_True by done.
      by rewrite Hnil.
    + rewrite bool_decide_eq_false_2 by congruence.
      rewrite decide_False by tauto. by rewrite app_nil_r.
  - rewrite decide_False; [done|]. tauto.
Qed.

Lemma CREATE_GRAPH_QUERY_count_agreements data g :
  let id := VInt (Schema.contract_id (Schema.agreement data)) in
  count_nodes Agreement (CREATE_GRAPH_QUERY data g) =
    count_nodes Agreement g +
    (if decide (match_nodes Agreement "contract_id" id g = []) then 1 else 0).
Proof.
  cbv zeta. set (id := VInt (Schema.contract_id (Schema.agreement data))).
  unfold CREATE_GRAPH_QUERY.
  pose proof (upsert_agreement_after_merge (Schema.agreement data) g) as Hh. fold id in Hh.
  destruct (upsert_agreement (Schema.agreement data) g) as [g1 t]. simpl in Hh.
  rewrite (count_nodes_adds_only [ContractClause; Excerpt; ClauseType]
             [HAS_CLAUSE; HAS_EXCERPT; HAS_TYPE] Agreement g1);
    [|apply create_clauses_adds; solve [repeat constructor]|not_in_list].
  rewrite (count_nodes_adds_only _ _ _ _ _ Hh) by not_in_list.
  destruct (merge_node Agreement "contract_id" id (agreement_on_create (Schema.agreement data)) g)
    as [g0 t0] eqn:E.
  apply merge_node_inv in E as [(Hnil & -> & _)|(Hne & -> & _)]; simpl.
  - rewrite decide_True by done.
    unfold count_nodes. simpl. by rewrite filter_app, length_app.
  - rewrite decide_False by done. lia.
Qed.

(** X1. Every graph the ingestion loop builds from the empty store has at
    most one node per merge key (one Agreement per [contract_id], one
    Organization, Country and ClauseType per [name]), no two relationships
    of one type between the same two nodes, and no relationship with a
    missing end point. *)
Theorem built_graph_is_well_formed contracts :
  let g := build_graph contracts empty_graph in
  (∀ L k v, key_of L = Some k → length (match_nodes L k v g) ≤ 1) ∧
  NoDup (shapes g) ∧
  (∀ t s d, (t, s, d) ∈ shapes g → s < length (nodes g) ∧ d < length (nodes g)).
Proof.
  intros g. assert (wf g) as Hwf by apply wf_build_graph, wf_empty.
  split; [|split; [apply Hwf | apply Hwf]].
  intros L k v Hk. destruct (match_nodes L k v g) as [|i l] eqn:E; [simpl; lia|].
  rewrite <- E, (match_nodes_unique L k v g i Hwf Hk); [done|].
  rewrite E. by left.
Qed.

(** X2. The ingestion loop only adds: every node of the store stays at its
    element id with its label, its properties and its embedding, and every
    relationship stays at its position with its type and end points. *)
Theorem ingestion_only_adds contracts g :
  let g' := build_graph contracts g in
  nodes g `prefix_of` nodes g' ∧ shapes g `prefix_of` shapes g'.
Proof.
  intros g'. destruct (build_graph_ext contracts g) as (ns & ss & Hn & Hs).
  split; [by exists ns | by exists ss].
Qed.

Lemma build_graph_agreements_other contracts g v :
  v ∉ (λ data, VInt (Schema.contract_id (Schema.agreement data))) <$> contracts →
  match_nodes Agreement "contract_id" v (build_graph contracts g)
    = match_nodes Agreement "contract_id" v g.
Proof.
  revert g. induction contracts as [|d ds IH]; intros g Hv; [done|].
  rewrite fmap_cons, not_elem_of_cons in Hv. destruct Hv as [Hd Hds].
  rewrite build_graph_cons, IH by done.
  pose proof (CREATE_GRAPH_QUERY_agreements d g v) as E. cbv zeta in E.
  rewrite E, decide_False; [done|]. tauto.
Qed.

(** With pairwise distinct, new contract ids every record gets its own
    Agreement node. *)
Lemma build_graph_distinct_ids contracts g :
  let id data := VInt (Schema.contract_id (Schema.agreement data)) in
  NoDup (id <$> contracts) →
  (∀ data, data ∈ contracts → match_nodes Agreement "contract_id" (id data) g = []) →
  let g' := build_graph contracts g in
  count_nodes Agreement g' = count_nodes Agreement g + length contracts ∧
  ∀ data, data ∈ contracts →
    ∃ i, match_nodes Agreement "contract_id" (id data) g' = [i] ∧
         nodes g' !! i =
           Some (Node Agreement
                   (<["contract_id" := id data]> (agreement_on_create (Schema.agreement data)))
                   None).
Proof.
  intros id. revert g. induction contracts as [|d ds IH]; intros g Hnd Hnew g'.
  { subst g'. unfold build_graph. rewrite foreach_nil.
    split; [simpl; lia|]. intros data Hin. by apply elem_of_nil in Hin. }
  rewrite fmap_cons in Hnd. apply NoDup_cons in Hnd as [Hd Hnd].
  subst g'. rewrite build_graph_cons.
  pose proof (Hnew d ltac:(by left)) as Hnil.
  destruct (IH (CREATE_GRAPH_QUERY d g) Hnd) as [Hcount Hnodes].
  { intros data Hin.
    pose proof (CREATE_GRAPH_QUERY_agreements d g (id data)) as E. cbv zeta in E.
    rewrite E, decide_False; [apply Hnew; by right|].
    intros [Heq _]. apply Hd. fold (id d) in Heq. rewrite <- Heq.
    by apply (list_elem_of_fmap_2 id). }
  split.
  - rewrite Hcount.
    pose proof (CREATE_GRAPH_QUERY_count_agreements d g) as E. cbv zeta in E.
    rewrite E, decide_True by done. simpl. lia.
  - intros data [->|Hin]%elem_of_cons; [|by apply Hnodes].
    exists (length (nodes g)). split.
    + rewrite (build_graph_agreements_other ds _ (id d) Hd).
      pose proof (CREATE_GRAPH_QUERY_agreements d g (id d)) as E. cbv zeta in E.
      by rewrite E, decide_True.
    + eapply ext_nodes_lookup; [apply build_graph_ext|].
      by apply agreement_created.
Qed.


(** X3. When the loaded records carry pairwise distinct contract ids that
    the store does not hold yet, the ingestion loop creates exactly one
    Agreement node per record, and that node carries the record's fields
    ([name], [agreement_type], the dates, ...). *)
Theorem one_agreement_node_per_contract_id contracts g :
  let id data := VInt (Schema.contract_id (Schema.agreement data)) in
  NoDup (id <$> contracts) →
  (∀ data, data ∈ contracts → match_nodes Agreement "contract_id" (id data) g = []) →
  let g' := build_graph contracts g in
  count_nodes Agreement g' = count_nodes Agreement g + length contracts ∧
  ∀ data, data ∈ contracts →
    ∃ i, match_nodes Agreement "contract_id" (id data) g' = [i] ∧
         nodes g' !! i =
           Some (Node Agreement
                   (<["contract_id" := id data]> (agreement_on_create (Schema.agreement data)))
                   None).
Proof. apply build_graph_distinct_ids. Qed.

Lemma one_agreement_node_per_contract_id_witness :
  let g' := build_graph [msa_001; msa_002] empty_graph in
  count_nodes Agreement g' = 2 ∧
  ∃ i, match_nodes Agreement "contract_id" (VInt 2) g' = [i] ∧
       nodes g' !! i =
         Some (Node Agreement
                 (<["contract_id" := VInt 2]> (agreement_on_create (Schema.agreement msa_002)))
                 None).
Proof.
  destruct (one_agreement_node_per_contract_id [msa_001; msa_002] empty_graph)
    as [Hcount Hnodes].
  - vm_compute. repeat constructor; set_solver.
  - intros data Hin. repeat (apply elem_of_cons in Hin as [->|Hin]; [reflexivity|]).
    by apply elem_of_nil in Hin.
  - split; [exact Hcount|]. apply (Hnodes msa_002). right. left.
Defined.

Lemma build_graph_header_done contracts g data :
  wf g → data ∈ contracts → header_done (Schema.agreement data) (build_graph contracts g).
Proof.
  revert g. induction contracts as [|d ds IH]; intros g Hwf Hin.
  { by apply elem_of_nil in Hin. }
  rewrite build_graph_cons. apply elem_of_cons in Hin as [->|Hin].
  - eapply header_done_ext; [apply build_graph_ext|].
    by destruct (CREATE_GRAPH_QUERY_wf d g Hwf) as (_ & ? & _).
  - apply IH; [by apply wf_CREATE_GRAPH_QUERY | done].
Qed.

(** X4. After the ingestion loop, every ingested record has its one
    Agreement node, governed by the one Country node of its governing law,
    and each of its parties has the one Organization node of that name,
    party to the Agreement and incorporated in the one Country node of its
    country.  (So records that name the same organization or country share
    the node.) *)
Theorem ingested_contracts_are_linked contracts data :
  data ∈ contracts →
  let g := build_graph contracts empty_graph in
  let a := Schema.agreement data in
  ∃ ag gl,
    match_nodes Agreement "contract_id" (VInt (Schema.contract_id a)) g = [ag] ∧
    match_nodes Country "name" (VStr (Schema.country (Schema.governing_law a))) g = [gl] ∧
    (GOVERNED_BY_LAW, ag, gl) ∈ shapes g ∧
    ∀ party, party ∈ Schema.parties a →
      ∃ p c,
        match_nodes Organization "name" (VStr (Schema.name party)) g = [p] ∧
        (IS_PARTY_TO, p, ag) ∈ shapes g ∧
        match_nodes Country "name" (VStr (Schema.incorporation_country party)) g = [c] ∧
        (INCORPORATED_IN, p, c) ∈ shapes g.
Proof.
  intros Hin g a.
  assert (wf g) as Hwf by apply wf_build_graph, wf_empty.
  destruct (build_graph_header_done contracts empty_graph data wf_empty Hin)
    as (ag & gl & Hag & Hgl & Hgbl & Hps).
  exists ag, gl. split; [by apply match_nodes_unique|].
  split; [by apply match_nodes_unique|]. split; [done|].
  intros party Hparty. rewrite Forall_forall in Hps.
  destruct (Hps party Hparty) as (p & c & Hp & Hipt & Hc & Hinc).
  exists p, c. split; [by apply match_nodes_unique|]. split; [done|].
  split; [by apply match_nodes_unique|done].
Qed.

Lemma ingested_contracts_are_linked_witness :
  let g := build_graph [msa_001; msa_002] empty_graph in
  ∃ ag gl,
    match_nodes Agreement "contract_id" (VInt 2) g = [ag] ∧
    match_nodes Country "name" (VStr "USA") g = [gl] ∧
    (GOVERNED_BY_LAW, ag, gl) ∈ shapes g ∧
    ∀ party, party ∈ [acme] →
      ∃ p c,
        match_nodes Organization "name" (VStr (Schema.name party)) g = [p] ∧
        (IS_PARTY_TO, p, ag) ∈ shapes g ∧
        match_nodes Country "name" (VStr (Schema.incorporation_country party)) g = [c] ∧
        (INCORPORATED_IN, p, c) ∈ shapes g.
Proof.
  apply (ingested_contracts_are_linked [msa_001; msa_002] msa_002). right. left.
Defined.

(** What the service reads from a freshly created Agreement node. *)
Lemma agreement_node_get g i a :
  nodes g !! i =
    Some (Node Agreement
            (<["contract_id" := VInt (Schema.contract_id a)]> (agreement_on_create a)) None) →
  node_get g i "contract_id" = JInt (Schema.contract_id a) ∧
  node_get g i "name" = JStr (Schema.agreement_name a) ∧
  node_get g i "agreement_type" = JStr (Schema.agreement_type a) ∧
  node_get g i "effective_date" = JStr (Schema.effective_date a) ∧
  node_get g i "expiration_date" = JStr (Schema.expiration_date a) ∧
  node_get g i "renewal_term" = JStr (Schema.renewal_term a).
Proof.
  intros Hi. unfold node_get, node_prop. rewrite Hi. simpl. unfold agreement_on_create.
  repeat split;
    repeat (rewrite lookup_insert_ne by done); by rewrite lookup_insert_eq.
Qed.

Lemma build_graph_counts contracts : ∀ g,
  wf g →
  let g' := build_graph contracts g in
  let clauses := sum_list ((λ data, length (valid_clauses (Schema.agreement data))) <$> contracts) in
  let excerpts :=
    sum_list ((λ data, distinct_excerpts (valid_clauses (Schema.agreement data))) <$> contracts) in
  count_nodes ContractClause g' = count_nodes ContractClause g + clauses ∧
  count_nodes Excerpt g' = count_nodes Excerpt g + excerpts ∧
  count_rels HAS_CLAUSE g' = count_rels HAS_CLAUSE g + clauses ∧
  count_rels HAS_EXCERPT g' = count_rels HAS_EXCERPT g + excerpts ∧
  count_rels HAS_TYPE g' = count_rels HAS_TYPE g + clauses.
Proof.
  induction contracts as [|d ds IH]; intros g Hwf.
  { cbv zeta. unfold build_graph. rewrite foreach_nil. simpl. lia. }
  cbv zeta. rewrite build_graph_cons, !fmap_cons. cbn [sum_list sum_list_with].
  destruct (CREATE_GRAPH_QUERY_wf d g Hwf) as (Hwf1 & _ & _ & _ & Hc & He & Hrc & Hre & Hrt & _).
  destruct (IH (CREATE_GRAPH_QUERY d g) Hwf1) as (Hc' & He' & Hrc' & Hre' & Hrt').
  cbv zeta in *. rewrite Hc', He', Hrc', Hre', Hrt', Hc, He, Hrc, Hre, Hrt.
  unfold id. lia.
Qed.

(** X19. The statistics of a graph built from an empty store: it holds one
    ContractClause node, one HAS_CLAUSE and one HAS_TYPE relationship for
    every clause with [exists == true] of every ingested record (a record
    ingested twice counts twice), and one Excerpt node with its HAS_EXCERPT
    relationship for every distinct excerpt string of each such clause. *)
Theorem graph_statistics_after_ingestion contracts :
  let g := build_graph contracts empty_graph in
  let clauses := sum_list ((λ data, length (valid_clauses (Schema.agreement data))) <$> contracts) in
  let excerpts :=
    sum_list ((λ data, distinct_excerpts (valid_clauses (Schema.agreement data))) <$> contracts) in
  count_nodes ContractClause g = clauses ∧
  count_nodes Excerpt g = excerpts ∧
  count_rels HAS_CLAUSE g = clauses ∧
  count_rels HAS_EXCERPT g = excerpts ∧
  count_rels HAS_TYPE g = clauses.
Proof.
  intros g clauses excerpts.
  destruct (build_graph_counts contracts empty_graph wf_empty) as (Hc & He & Hrc & Hre & Hrt).
  fold g clauses excerpts in Hc, He, Hrc, Hre, Hrt.
  by rewrite Hc, He, Hrc, Hre, Hrt.
Qed.

(** ** Invariants of the statement with conditions on the rows *)

(** A clause keeps the invariant [I] when it does so on every row that
    satisfies [Q]; the rows it yields satisfy [Q'].  The conditions on rows
    must survive the growth of the graph. *)
Lemma per_row_inv {A B} (I : graph → Prop) (Q : graph → A → Prop) (Q' : graph → B → Prop)
    (f : A → graph → graph * list B) :
  (∀ g g' r, ext g g' → Q g r → Q g' r) →
  (∀ g g' b, ext g g' → Q' g b → Q' g' b) →
  (∀ r g, ext g (f r g).1) →
  (∀ r g, I g → Q g r → I (f r g).1 ∧ Forall (Q' (f r g).1) (f r g).2) →
  ∀ rows g, I g → Forall (Q g) rows →
    I (per_row f rows g).1 ∧ Forall (Q' (per_row f rows g).1) (per_row f rows g).2.
Proof.
  intros HQ HQ' Hext Hf rows. induction rows as [|r rows IH]; intros g HI Hrows.
  { simpl. by split. }
  apply Forall_cons in Hrows as [Hr Hrows]. simpl.
  pose proof (Hext r g) as He1. destruct (Hf r g HI Hr) as [HI1 Hout1].
  destruct (f r g) as [g1 out1]. simpl in *.
  pose proof (per_row_preorder ext f Hext rows g1) as He2.
  destruct (IH g1 HI1) as [HI2 Hout2].
  { eapply Forall_impl; [exact Hrows|]. intros x. by apply HQ. }
  destruct (per_row f rows g1) as [g2 out2]. simpl in *.
  split; [done|]. apply Forall_app. split; [|done].
  eapply Forall_impl; [exact Hout1|]. intros x. by apply HQ'.
Qed.

Lemma foreach_inv {A} (I : graph → Prop) (Q : graph → A → Prop) (body : A → graph → graph) :
  (∀ g g' x, ext g g' → Q g x → Q g' x) →
  (∀ x g, ext g (body x g)) →
  (∀ x g, I g → Q g x → I (body x g)) →
  ∀ xs g, I g → Forall (Q g) xs → I (foreach body xs g).
Proof.
  intros HQ Hext Hb xs. induction xs as [|x xs IH]; intros g HI Hxs; [done|].
  apply Forall_cons in Hxs as [Hx Hxs]. rewrite foreach_cons.
  apply IH; [by apply Hb|].
  eapply Forall_impl; [exact Hxs|]. intros y. apply HQ, Hext.
Qed.

(** ** The built graphs follow the schema *)

Lemma labelled_ext g g' i L : ext g g' → labelled g i L → labelled g' i L.
Proof. intros He (n & Hn & HL). exists n. split; [by eapply ext_nodes_lookup|done]. Qed.

Lemma labelled_match_nodes L k v g i : i ∈ match_nodes L k v g → labelled g i L.
Proof.
  intros (n & Hn & Hm)%elem_of_match_nodes. exists n. split; [done|].
  unfold node_matches in Hm. apply andb_true_iff in Hm as [Hm _].
  by apply bool_decide_eq_true in Hm.
Qed.

Lemma typed_skel g g' :
  nodes g `prefix_of` nodes g' → shapes g' = shapes g → typed g → typed g'.
Proof.
  intros [ns Hn] Hs Ht t s d Hin. rewrite Hs in Hin.
  destruct (Ht t s d Hin) as [(n & Hn1 & HL1) (m & Hm1 & HL2)].
  split; [exists n | exists m]; (split; [|done]); rewrite Hn; by apply lookup_app_l_Some.
Qed.

Lemma typed_set_rel_prop i k v g : typed g → typed (set_rel_prop i k v g).
Proof. apply typed_skel; [done | apply shapes_set_rel_prop]. Qed.

Lemma typed_create_node n g : typed g → typed (create_node n g).1.
Proof. apply typed_skel; [by exists [n] | done]. Qed.

Lemma typed_merge_node L k v oc g :
  typed g →
  typed (merge_node L k v oc g).1 ∧
  Forall (λ i, labelled (merge_node L k v oc g).1 i L) (merge_node L k v oc g).2.
Proof.
  intros Ht. destruct (merge_node L k v oc g) as [g' rows] eqn:E.
  pose proof E as E'.
  apply merge_node_inv in E as [(Hnil & -> & ->)|(Hne & -> & ->)]; simpl.
  - split; [by apply (typed_create_node (Node L (<[k:=v]> oc) None))|].
    apply Forall_singleton. eexists. split; [by apply list_lookup_middle|done].
  - split; [done|]. apply Forall_forall. intros i Hi. by eapply labelled_match_nodes.
Qed.

Lemma typed_add_rel t s d g :
  typed g → labelled g s (src_label t) → labelled g d (dst_label t) →
  typed (Graph (nodes g) (rels g ++ [Rel t s d ∅])).
Proof.
  intros Ht Hs Hd t' s' d' Hin. rewrite shapes_snoc in Hin.
  apply elem_of_app in Hin as [Hin|Hin].
  - by apply Ht.
  - apply list_elem_of_singleton in Hin. unfold rel_shape in Hin. simpl in Hin.
    by simplify_eq.
Qed.

Lemma typed_merge_rel t s d g :
  typed g → labelled g s (src_label t) → labelled g d (dst_label t) →
  typed (merge_rel t s d g).1.
Proof.
  intros Ht Hs Hd. destruct (merge_rel t s d g) as [g' rows] eqn:E.
  apply merge_rel_inv in E as [(Hnil & -> & ->)|(Hne & -> & ->)]; simpl; [|done].
  by apply typed_add_rel.
Qed.

Lemma typed_merge_path t s L k v g :
  typed g → labelled g s (src_label t) → L = dst_label t →
  typed (merge_path t s L k v g).1.
Proof.
  intros Ht Hs ->. destruct (merge_path t s (dst_label t) k v g) as [g' rows] eqn:E.
  apply merge_path_inv in E as [(Hnil & -> & ->)|(Hne & -> & ->)]; simpl; [|done].
  apply (typed_add_rel t s (length (nodes g))
           (Graph (nodes g ++ [Node (dst_label t) {[k:=v]} None]) (rels g))).
  - by apply (typed_create_node (Node (dst_label t) {[k:=v]} None)).
  - eapply labelled_ext; [|exact Hs]. exists [Node (dst_label t) {[k:=v]} None], []. split; simpl; [done|].
    by rewrite app_nil_r.
  - eexists. split; [by apply list_lookup_middle|done].
Qed.

Lemma merge_path_ext t s L k v g : ext g (merge_path t s L k v g).1.
Proof.
  apply (adds_only_ext [L] [t]). apply merge_path_adds; by left.
Qed.

Ltac ext_go :=
  intros; split_rows; simpl;
  apply (adds_only_ext [Agreement; Organization; Country; ContractClause; Excerpt; ClauseType]
           [GOVERNED_BY_LAW; IS_PARTY_TO; INCORPORATED_IN; HAS_CLAUSE; HAS_EXCERPT; HAS_TYPE]);
  adds_go;
  try (apply party_body_adds; solve [repeat constructor]);
  try (apply clause_body_adds; solve [repeat constructor]).

(** The next [per_row] clause of the goal: its invariant and its rows. *)
Ltac step_per_row I Q Q' :=
  match goal with
  | |- context [per_row ?f ?rows ?g] =>
      is_var g;
      let HI := fresh "HI" in
      let Hr := fresh "Hr" in
      let He := fresh "He" in
      assert (I (per_row f rows g).1 ∧ Forall (Q' (per_row f rows g).1) (per_row f rows g).2)
        as [HI Hr];
      [apply (per_row_inv I Q Q' f)
      |assert (ext g (per_row f rows g).1) as He;
       [apply (per_row_preorder ext); ext_go
       |destruct (per_row f rows g) as [? ?]; simpl in HI, Hr, He]]
  end.

Ltac step_foreach I Q :=
  match goal with
  | |- context [foreach ?f ?rows ?g] =>
      is_var g;
      let HI := fresh "HI" in
      let He := fresh "He" in
      assert (I (foreach f rows g)) as HI;
      [apply (foreach_inv I Q f)
      |assert (ext g (foreach f rows g)) as He;
       [apply (foreach_preorder ext); ext_go
       |generalize dependent (foreach f rows g); intros ? ? ?]]
  end.

(** The facts [Hr] on the rows, moved along the growth [He] of the graph. *)
Ltac rows_ext Hr He :=
  eapply Forall_impl in Hr;
  [|let H := fresh in
    intros ? H; simpl in H |- *; destruct_and?; repeat split;
    (eapply labelled_ext; [exact He|eassumption])].

Lemma typed_with_ext_skel ag g g' :
  ext g g' → typed g' → typed_with ag g → typed_with ag g'.
Proof. intros He Ht [_ Hag]. split; [done | by eapply labelled_ext]. Qed.

Lemma typed_with_set_rel_prop ag i k v g :
  typed_with ag g → typed_with ag (set_rel_prop i k v g).
Proof.
  intros HI. eapply typed_with_ext_skel; [apply set_rel_prop_ext| |exact HI].
  apply typed_set_rel_prop, HI.
Qed.

Lemma typed_party_body ag party g : typed_with ag g → typed_with ag (party_body ag party g).
Proof.
  intros HI. unfold party_body.
  (* MERGE (p:Organization {name: party.name}) *)
  destruct (typed_merge_node Organization "name" (VStr (Schema.name party)) ∅ g (proj1 HI))
    as [Ht1 Hr1].
  assert (ext g (merge_node Organization "name" (VStr (Schema.name party)) ∅ g).1) as He1
    by ext_go.
  destruct (merge_node Organization "name" (VStr (Schema.name party)) ∅ g) as [g1 t1].
  simpl in Ht1, Hr1, He1.
  pose proof (typed_with_ext_skel ag g g1 He1 Ht1 HI) as HI1.
  (* MERGE (p)-[ipt:IS_PARTY_TO]->(agreement) *)
  step_per_row (typed_with ag) (λ g p, labelled g p Organization)
               (λ g (row : nat * nat), labelled g row.1 Organization).
  { intros. by eapply labelled_ext. }
  { intros. by eapply labelled_ext. }
  { ext_go. }
  { intros p g0 HI0 Hp.
    pose proof (typed_merge_rel IS_PARTY_TO p ag g0 (proj1 HI0) Hp (proj2 HI0)) as Ht'.
    destruct (merge_rel IS_PARTY_TO p ag g0) as [g' rs] eqn:E. simpl in *.
    pose proof (merge_rel_ext _ _ _ _ _ _ E) as He'.
    split; [by eapply typed_with_ext_skel|].
    apply Forall_fmap, Forall_forall. intros ipt _. simpl. by eapply labelled_ext. }
  { done. }
  { done. }
  (* SET ipt.role = party.role *)
  step_foreach (typed_with ag) (λ (_ : graph) (_ : nat * nat), True).
  { done. }
  { ext_go. }
  { intros [p ipt] gx HIx _. by apply typed_with_set_rel_prop. }
  { done. }
  { by apply Forall_true. }
  rows_ext Hr He0.
  (* MERGE (country_of_incorporation:Country {name: party.incorporation_country}) *)
  step_per_row (typed_with ag) (λ g (row : nat * nat), labelled g row.1 Organization)
               (λ g (row : nat * nat), labelled g row.1 Organization ∧ labelled g row.2 Country).
  { intros. by eapply labelled_ext. }
  { intros ??? Hx [??]. split; by eapply labelled_ext. }
  { ext_go. }
  { intros [p ipt] gx HIx Hp. simpl in Hp.
    destruct (typed_merge_node Country "name" (VStr (Schema.incorporation_country party)) ∅ gx
                (proj1 HIx)) as [Ht' Hr'].
    assert (ext gx (merge_node Country "name" (VStr (Schema.incorporation_country party)) ∅ gx).1)
      as He' by ext_go.
    destruct (merge_node Country "name" (VStr (Schema.incorporation_country party)) ∅ gx)
      as [g' cs]. simpl in *.
    split; [by eapply typed_with_ext_skel|].
    apply Forall_fmap. eapply Forall_impl; [exact Hr'|]. intros c Hc. simpl.
    split; [by eapply labelled_ext | done]. }
  { done. }
  { done. }
  (* MERGE (p)-[incorporated:INCORPORATED_IN]->(country_of_incorporation) *)
  step_per_row (typed_with ag)
               (λ g (row : nat * nat), labelled g row.1 Organization ∧ labelled g row.2 Country)
               (λ (_ : graph) (_ : nat), True).
  { intros ??? Hx [??]. split; by eapply labelled_ext. }
  { done. }
  { ext_go. }
  { intros [p c] gx HIx [Hp Hc]. simpl in Hp, Hc.
    pose proof (typed_merge_rel INCORPORATED_IN p c gx (proj1 HIx) Hp Hc) as Ht'.
    assert (ext gx (merge_rel INCORPORATED_IN p c gx).1) as He' by ext_go.
    split; [by eapply typed_with_ext_skel | by apply Forall_true]. }
  { done. }
  { done. }
  (* SET incorporated.state = party.incorporation_state *)
  apply (foreach_inv (typed_with ag) (λ (_ : graph) (_ : nat), True)).
  { done. }
  { ext_go. }
  { intros i gx HIx _. by apply typed_with_set_rel_prop. }
  { done. }
  { by apply Forall_true. }
Qed.

Lemma typed_clause_body ag clause g :
  typed_with ag g → typed_with ag (clause_body ag clause g).
Proof.
  intros HI. cbv [clause_body create_node].
  set (cl := length (nodes g)).
  set (ty := VStr (Schema.clause_type clause)).
  set (g1 := Graph (nodes g ++ [Node ContractClause {["type" := ty]} None]) (rels g)).
  set (I := λ g', typed_with ag g' ∧ labelled g' cl ContractClause).
  assert (ext g g1) as He1.
  { exists [Node ContractClause {["type" := ty]} None], []. split; [done|]. simpl.
    by rewrite app_nil_r. }
  assert (I g1) as HI1.
  { split.
    - eapply typed_with_ext_skel; [exact He1| |exact HI].
      apply (typed_create_node (Node ContractClause {["type" := ty]} None)), HI.
    - eexists. split; [by apply list_lookup_middle|done]. }
  (* MERGE (agreement)-[clt:HAS_CLAUSE]->(cl) *)
  pose proof (typed_merge_rel HAS_CLAUSE ag cl g1 (proj1 (proj1 HI1)) (proj2 (proj1 HI1))
                (proj2 HI1)) as Ht2.
  assert (ext g1 (merge_rel HAS_CLAUSE ag cl g1).1) as He2 by ext_go.
  destruct (merge_rel HAS_CLAUSE ag cl g1) as [g2 t2]. simpl in Ht2, He2.
  assert (I g2) as HI2.
  { split; [eapply typed_with_ext_skel; [exact He2|done|apply HI1]|].
    eapply labelled_ext; [exact He2|apply HI1]. }
  (* SET clt.type = clause.clause_type *)
  step_foreach I (λ (_ : graph) (_ : nat), True).
  { done. }
  { ext_go. }
  { intros i gx [HIx Hcl] _. split; [by apply typed_with_set_rel_prop|].
    eapply labelled_ext; [apply set_rel_prop_ext|done]. }
  { done. }
  { by apply Forall_true. }
  (* FOREACH (excerpt IN clause.excerpts | MERGE (cl)-[:HAS_EXCERPT]->(e:Excerpt ...)) *)
  step_foreach I (λ (_ : graph) (_ : nat), True).
  { done. }
  { ext_go. }
  { intros _ gx HIx _.
    apply (foreach_inv I (λ (_ : graph) (_ : string), True)); [done|ext_go| |done|by apply Forall_true].
    intros x gy [HIy Hcl] _.
    pose proof (typed_merge_path HAS_EXCERPT cl Excerpt "text" (VStr x) gy (proj1 HIy) Hcl eq_refl)
      as Ht'.
    pose proof (merge_path_ext HAS_EXCERPT cl Excerpt "text" (VStr x) gy) as He'.
    split; [by eapply typed_with_ext_skel | by eapply labelled_ext]. }
  { done. }
  { by apply Forall_true. }
  (* MERGE (clType:ClauseType {name: clause.clause_type}) *)
  step_per_row I (λ (_ : graph) (_ : nat), True) (λ g (c : nat), labelled g c ClauseType).
  { done. }
  { intros. by eapply labelled_ext. }
  { ext_go. }
  { intros _ gx [HIx Hcl] _.
    destruct (typed_merge_node ClauseType "name" ty ∅ gx (proj1 HIx)) as [Ht' Hr'].
    assert (ext gx (merge_node ClauseType "name" ty ∅ gx).1) as He' by ext_go.
    split; [|done].
    split; [by eapply typed_with_ext_skel | by eapply labelled_ext]. }
  { done. }
  { by apply Forall_true. }
  (* MERGE (cl)-[:HAS_TYPE]->(clType) *)
  apply (per_row_inv I (λ g (c : nat), labelled g c ClauseType) (λ (_ : graph) (_ : nat), True)).
  { intros. by eapply labelled_ext. }
  { done. }
  { ext_go. }
  { intros c gx [HIx Hcl] Hc.
    pose proof (typed_merge_rel HAS_TYPE cl c gx (proj1 HIx) Hcl Hc) as Ht'.
    assert (ext gx (merge_rel HAS_TYPE cl c gx).1) as He' by ext_go.
    split; [|by apply Forall_true].
    split; [by eapply typed_with_ext_skel | by eapply labelled_ext]. }
  { done. }
  { done. }
Qed.

Lemma typed_upsert_agreement a g :
  typed g →
  typed (upsert_agreement a g).1 ∧
  Forall (λ ag, labelled (upsert_agreement a g).1 ag Agreement) (upsert_agreement a g).2.
Proof.
  intros Ht. unfold upsert_agreement.
  (* MERGE (agreement:Agreement {contract_id: a.contract_id}) *)
  destruct (typed_merge_node Agreement "contract_id" (VInt (Schema.contract_id a))
              (agreement_on_create a) g Ht) as [Ht1 Hr1].
  destruct (merge_node Agreement "contract_id" (VInt (Schema.contract_id a))
              (agreement_on_create a) g) as [g1 t1].
  simpl in Ht1, Hr1.
  (* MERGE (gl_country:Country {name: a.governing_law.country}) *)
  step_per_row typed (λ g (ag : nat), labelled g ag Agreement)
               (λ g (row : nat * nat), labelled g row.1 Agreement ∧ labelled g row.2 Country).
  { intros. by eapply labelled_ext. }
  { intros ??? Hx [??]. split; by eapply labelled_ext. }
  { ext_go. }
  { intros ag gx Htx Hag.
    destruct (typed_merge_node Country "name" (VStr (Schema.country (Schema.governing_law a))) ∅
                gx Htx) as [Ht' Hr'].
    assert (ext gx (merge_node Country "name"
                      (VStr (Schema.country (Schema.governing_law a))) ∅ gx).1) as He' by ext_go.
    destruct (merge_node Country "name" (VStr (Schema.country (Schema.governing_law a))) ∅ gx)
      as [g' cs]. simpl in *.
    split; [done|].
    apply Forall_fmap. eapply Forall_impl; [exact Hr'|]. intros c Hc. simpl.
    split; [by eapply labelled_ext | done]. }
  { done. }
  { done. }
  (* MERGE (agreement)-[gbl:GOVERNED_BY_LAW]->(gl_country) *)
  step_per_row typed
               (λ g (row : nat * nat), labelled g row.1 Agreement ∧ labelled g row.2 Country)
               (λ g (row : nat * nat), labelled g row.1 Agreement).
  { intros ??? Hx [??]. split; by eapply labelled_ext. }
  { intros. by eapply labelled_ext. }
  { ext_go. }
  { intros [ag gl] gx Htx [Hag Hgl]. simpl in Hag, Hgl.
    pose proof (typed_merge_rel GOVERNED_BY_LAW ag gl gx Htx Hag Hgl) as Ht'.
    destruct (merge_rel GOVERNED_BY_LAW ag gl gx) as [g' rs] eqn:E. simpl in *.
    pose proof (merge_rel_ext _ _ _ _ _ _ E) as He'.
    split; [done|].
    apply Forall_fmap, Forall_forall. intros gbl _. simpl. by eapply labelled_ext. }
  { done. }
  { done. }
  (* SET gbl.state = a.governing_law.state *)
  step_foreach typed (λ (_ : graph) (_ : nat * nat), True).
  { done. }
  { ext_go. }
  { intros [ag gbl] gx Htx _. by apply typed_set_rel_prop. }
  { done. }
  { by apply Forall_true. }
  rows_ext Hr0 He1.
  (* FOREACH (party IN a.parties | ...) *)
  step_foreach typed (λ g (row : nat * nat), labelled g row.1 Agreement).
  { intros. by eapply labelled_ext. }
  { ext_go. }
  { intros [ag gbl] gx Htx Hag. simpl in Hag.
    apply (foreach_inv (typed_with ag) (λ (_ : graph) (_ : Schema.Party), True));
      [done|intros; apply party_body_ext| |done|by apply Forall_true].
    intros party gy HIy _. by apply typed_party_body. }
  { done. }
  { done. }
  rows_ext Hr0 He2.
  simpl. split; [done|]. apply Forall_fmap. exact Hr0.
Qed.

Lemma typed_create_clauses a t g :
  typed g → Forall (λ ag, labelled g ag Agreement) t → typed (create_clauses a t g).
Proof.
  intros Ht Hr. unfold create_clauses.
  apply (foreach_inv typed (λ g (ag : nat), labelled g ag Agreement)); [|ext_go| |done|done].
  { intros. by eapply labelled_ext. }
  intros ag gx Htx Hag.
  apply (foreach_inv (typed_with ag) (λ (_ : graph) (_ : Schema.ContractClause), True));
    [done|intros; apply clause_body_ext| |done|by apply Forall_true].
  intros clause gy HIy _. by apply typed_clause_body.
Qed.

Lemma typed_CREATE_GRAPH_QUERY data g : typed g → typed (CREATE_GRAPH_QUERY data g).
Proof.
  intros Ht. unfold CREATE_GRAPH_QUERY.
  destruct (typed_upsert_agreement (Schema.agreement data) g Ht) as [Ht1 Hr1].
  destruct (upsert_agreement (Schema.agreement data) g) as [g1 t]. simpl in *.
  by apply typed_create_clauses.
Qed.

Lemma typed_build_graph contracts g : typed g → typed (build_graph contracts g).
Proof.
  revert g. induction contracts as [|d ds IH]; intros g Ht; [done|].
  rewrite build_graph_cons. by apply IH, typed_CREATE_GRAPH_QUERY.
Qed.

Lemma typed_empty : typed empty_graph.
Proof. intros t s d Hin. by apply elem_of_nil in Hin. Qed.

Lemma labelled_inj g i L L' : labelled g i L → labelled g i L' → L = L'.
Proof. intros (n & Hn & <-) (m & Hm & <-). congruence. Qed.

(** X5. Every graph the ingestion loop builds from the empty store follows
    the schema the service hands to the text-to-Cypher retriever: a
    relationship of a given type starts and ends at nodes of the labels the
    schema lists for it (HAS_CLAUSE from an Agreement to a ContractClause,
    IS_PARTY_TO from an Organization to an Agreement, and so on). *)
Theorem built_graph_follows_schema contracts t s d :
  let g := build_graph contracts empty_graph in
  (t, s, d) ∈ shapes g → labelled g s (src_label t) ∧ labelled g d (dst_label t).
Proof. intros g. by apply (typed_build_graph contracts empty_graph typed_empty). Qed.

Lemma built_graph_follows_schema_witness :
  let g := build_graph [msa_001] empty_graph in
  (IS_PARTY_TO, 2, 0) ∈ shapes g ∧ labelled g 2 Organization ∧ labelled g 0 Agreement.
Proof.
  split; [vm_compute; set_solver|].
  apply (built_graph_follows_schema [msa_001] IS_PARTY_TO 2 0). vm_compute. set_solver.
Defined.

(** X6. On a built graph the party pattern of the retrieval queries, which
    is written without arrows, matches in the direction of the schema only:
    an Agreement node has an incorporated party exactly when some node is
    IS_PARTY_TO it and INCORPORATED_IN some node. *)
Theorem party_pattern_matches_forward contracts a :
  let g := build_graph contracts empty_graph in
  labelled g a Agreement →
  (has_incorporated_party g a ↔
   ∃ p c, (IS_PARTY_TO, p, a) ∈ shapes g ∧ (INCORPORATED_IN, p, c) ∈ shapes g).
Proof.
  intros g Ha.
  pose proof (typed_build_graph contracts empty_graph typed_empty) as Ht. fold g in Ht.
  split.
  - intros (p & c & Hp & [Hipt|Hipt] & Hc & [Hinc|Hinc]).
    + by exists p, c.
    + destruct (Ht _ _ _ Hinc) as [Hc' _]. simpl in Hc'.
      by pose proof (labelled_inj _ _ _ _ Hc Hc').
    + destruct (Ht _ _ _ Hipt) as [Ha' _]. simpl in Ha'.
      by pose proof (labelled_inj _ _ _ _ Ha Ha').
    + destruct (Ht _ _ _ Hipt) as [Ha' _]. simpl in Ha'.
      by pose proof (labelled_inj _ _ _ _ Ha Ha').
  - intros (p & c & Hipt & Hinc). exists p, c.
    destruct (Ht _ _ _ Hipt) as [Hp _]. destruct (Ht _ _ _ Hinc) as [_ Hc].
    split; [done|]. split; [by left|]. split; [done | by left].
Qed.

Lemma party_pattern_matches_forward_witness :
  let g := build_graph [msa_001] empty_graph in
  labelled g 0 Agreement ∧
  (has_incorporated_party g 0 ↔
   ∃ p c, (IS_PARTY_TO, p, 0) ∈ shapes g ∧ (INCORPORATED_IN, p, c) ∈ shapes g).
Proof.
  assert (labelled (build_graph [msa_001] empty_graph) 0 Agreement) as Ha.
  { eexists. split; [reflexivity|reflexivity]. }
  split; [exact Ha|]. exact (party_pattern_matches_forward [msa_001] 0 Ha).
Defined.

(** ** Loading the extracted contracts *)

Lemma contract_id_set_contract_id id d :
  Schema.contract_id (Schema.agreement (set_contract_id id d)) = id.
Proof. done. Qed.

(** The loop adds to [contracts] the records of the readable files, each
    with the number of its file, and never touches what it holds. *)
Lemma load_loop_spec json_files : ∀ (i : Z) contracts out,
  ∃ new,
    (load_loop i json_files contracts out).1 = contracts ++ new ∧
    (∀ data, data ∈ new ↔
       ∃ (j : nat) name d, json_files !! j = Some (name, Extraction d) ∧
                           data = set_contract_id (i + Z.of_nat j)%Z d) ∧
    StronglySorted Z.lt ((λ data, Schema.contract_id (Schema.agreement data)) <$> new) ∧
    Forall (λ data, (i ≤ Schema.contract_id (Schema.agreement data)
                     < i + Z.of_nat (length json_files))%Z) new ∧
    length new = length (filter (λ f, readable f.2 = true) json_files).
Proof.
  induction json_files as [|[name content] rest IH]; intros i contracts out.
  { exists []. simpl. rewrite app_nil_r. split; [done|]. split.
    - intros data. split; [by intros ?%elem_of_nil|]. by intros (j & ? & ? & ? & _).
    - split; [constructor|]. split; [constructor|done]. }
  assert (∀ contracts' out',
    (∃ new, (load_loop (i + 1)%Z rest contracts' out').1 = contracts' ++ new ∧
       (∀ data, data ∈ new ↔
          ∃ (j : nat) name' d, ((name, content) :: rest) !! S j = Some (name', Extraction d) ∧
                               data = set_contract_id (i + Z.of_nat (S j))%Z d) ∧
       StronglySorted Z.lt ((λ data, Schema.contract_id (Schema.agreement data)) <$> new) ∧
       Forall (λ data, (i + 1 ≤ Schema.contract_id (Schema.agreement data)
                        < i + Z.of_nat (length ((name, content) :: rest)))%Z) new ∧
       length new = length (filter (λ f, readable f.2 = true) rest))) as Hrest.
  { intros contracts' out'. destruct (IH (i + 1)%Z contracts' out') as (new & E & Hin & Hs & Hb & Hl).
    exists new. split; [done|]. split; [|split; [done|split; [|done]]].
    - intros data. rewrite Hin. split; intros (j & name' & d & Hj & ->); exists j, name', d.
      + split; [done|]. f_equal. lia.
      + split; [done|]. f_equal. lia.
    - eapply Forall_impl; [exact Hb|]. intros data. simpl. lia. }
  assert (∀ new : list Schema.ContractExtraction,
    (∀ data, data ∈ new ↔
       ∃ (j : nat) name' d, ((name, content) :: rest) !! S j = Some (name', Extraction d) ∧
                            data = set_contract_id (i + Z.of_nat (S j))%Z d) →
    (∀ d, content ≠ Extraction d) →
    ∀ data, data ∈ new ↔
      ∃ (j : nat) name' d, ((name, content) :: rest) !! j = Some (name', Extraction d) ∧
                           data = set_contract_id (i + Z.of_nat j)%Z d) as Hskip.
  { intros new Hin Hc data. rewrite Hin. split.
    - intros (j & name' & d & Hj & ->). by exists (S j), name', d.
    - intros ([|j] & name' & d & Hj & ->); [simpl in Hj; simplify_eq; by destruct (Hc d)|].
      by exists j, name', d. }
  destruct content as [e| |e|d0]; simpl.
  - destruct (Hrest contracts (out ++ [SkippingInvalidJson name e]))
      as (new & E & Hin & Hs & Hb & Hl).
    exists new. split; [done|]. split; [by apply Hskip|]. split; [done|]. split.
    + eapply Forall_impl; [exact Hb|]. intros data. simpl. lia.
    + rewrite filter_cons, decide_False; [done|]. simpl. done.
  - destruct (Hrest contracts (out ++ [SkippingMissingKey name]))
      as (new & E & Hin & Hs & Hb & Hl).
    exists new. split; [done|]. split; [by apply Hskip|]. split; [done|]. split.
    + eapply Forall_impl; [exact Hb|]. intros data. simpl. lia.
    + rewrite filter_cons, decide_False; [done|]. simpl. done.
  - destruct (Hrest contracts (out ++ [SkippingError name e]))
      as (new & E & Hin & Hs & Hb & Hl).
    exists new. split; [done|]. split; [by apply Hskip|]. split; [done|]. split.
    + eapply Forall_impl; [exact Hb|]. intros data. simpl. lia.
    + rewrite filter_cons, decide_False; [done|]. simpl. done.
  - destruct (Hrest (contracts ++ [set_contract_id i d0]) out)
      as (new & E & Hin & Hs & Hb & Hl).
    exists (set_contract_id i d0 :: new). split; [by rewrite E, <- app_assoc|].
    split; [|split; [|split]].
    + intros data. rewrite elem_of_cons, Hin. split.
      * intros [->|(j & name' & d & Hj & ->)].
        -- exists 0%nat, name, d0. split; [done|]. f_equal. lia.
        -- by exists (S j), name', d.
      * intros ([|j] & name' & d & Hj & ->).
        -- left. simpl in Hj. simplify_eq. f_equal. lia.
        -- right. by exists j, name', d.
    + rewrite fmap_cons. constructor; [done|].
      apply Forall_fmap. eapply Forall_impl; [exact Hb|]. intros data. simpl. lia.
    + constructor; [simpl; lia|].
      eapply Forall_impl; [exact Hb|]. intros data. simpl. lia.
    + simpl. by rewrite Hl.
Qed.

Lemma load_contracts_from_json_spec json_files :
  let contracts := (load_contracts_from_json json_files).1 in
  (∀ data, data ∈ contracts ↔
     ∃ (j : nat) name d, json_files !! j = Some (name, Extraction d) ∧
                         data = set_contract_id (Z.of_nat j + 1)%Z d) ∧
  StronglySorted Z.lt ((λ data, Schema.contract_id (Schema.agreement data)) <$> contracts) ∧
  Forall (λ data, (1 ≤ Schema.contract_id (Schema.agreement data)
                   ≤ Z.of_nat (length json_files))%Z) contracts ∧
  length contracts = length (filter (λ f, readable f.2 = true) json_files).
Proof.
  destruct json_files as [|f rest].
  { simpl. split; [|split; [constructor|split; [constructor|done]]].
    intros data. split; [by intros ?%elem_of_nil|]. by intros (j & ? & ? & ? & _). }
  destruct (load_loop_spec (f :: rest) 1 [] []) as (new & E & Hin & Hs & Hb & Hl).
  unfold load_contracts_from_json. cbv zeta. rewrite E. simpl.
  split; [|split; [done|split; [|done]]].
  - intros data. rewrite Hin. split; intros (j & name & d & Hj & ->); exists j, name, d.
    + split; [done|]. f_equal. lia.
    + split; [done|]. f_equal. lia.
  - eapply Forall_impl; [exact Hb|]. intros data. simpl. lia.
Qed.

Lemma StronglySorted_lt_NoDup (l : list Z) : StronglySorted Z.lt l → NoDup l.
Proof.
  induction 1 as [|x l Hs IH Hx]; constructor; [|done].
  intros Hin. rewrite Forall_forall in Hx. specialize (Hx x Hin). lia.
Qed.

(** X7. The loader gives the record of the [j]-th file of the sorted
    listing (counting from 1, the skipped files included) the contract id
    [j].  So the ids are positive, strictly increasing and pairwise
    distinct, with a gap wherever a file was skipped; a file that cannot be
    read or has no ["agreement"] key never stops the loading, and every
    other file is loaded. *)
Theorem loaded_contract_ids_are_file_positions json_files :
  let contracts := (load_contracts_from_json json_files).1 in
  let ids := (λ data, Schema.contract_id (Schema.agreement data)) <$> contracts in
  (∀ data, data ∈ contracts ↔
     ∃ (j : nat) name d, json_files !! j = Some (name, Extraction d) ∧
                         data = set_contract_id (Z.of_nat j + 1)%Z d) ∧
  StronglySorted Z.lt ids ∧ NoDup ids ∧
  (∀ id, id ∈ ids → (1 ≤ id ≤ Z.of_nat (length json_files))%Z) ∧
  length contracts = length (filter (λ f, readable f.2 = true) json_files).
Proof.
  intros contracts ids.
  destruct (load_contracts_from_json_spec json_files) as (Hin & Hs & Hb & Hl).
  split; [done|]. split; [done|]. split; [by apply StronglySorted_lt_NoDup|].
  split; [|done].
  intros id (data & -> & Hdata)%list_elem_of_fmap.
  rewrite Forall_forall in Hb. by apply Hb.
Qed.

(** X8. Loading and ingesting into an empty store creates exactly one
    Agreement node per readable file: the file at position [j] of the
    sorted listing becomes the one Agreement node with contract id [j],
    carrying the name and the type of its record. *)
Theorem readable_files_become_agreements json_files :
  let contracts := (load_contracts_from_json json_files).1 in
  let g := build_graph contracts empty_graph in
  count_nodes Agreement g = length (filter (λ f, readable f.2 = true) json_files) ∧
  ∀ (j : nat) name d, json_files !! j = Some (name, Extraction d) →
    ∃ i, match_nodes Agreement "contract_id" (VInt (Z.of_nat j + 1)) g = [i] ∧
         node_get g i "contract_id" = JInt (Z.of_nat j + 1) ∧
         node_get g i "name" = JStr (Schema.agreement_name (Schema.agreement d)) ∧
         node_get g i "agreement_type" = JStr (Schema.agreement_type (Schema.agreement d)).
Proof.
  intros contracts g.
  destruct (load_contracts_from_json_spec json_files) as (Hin & Hs & Hb & Hl).
  fold contracts in Hin, Hs, Hb, Hl.
  destruct (build_graph_distinct_ids contracts empty_graph) as [Hcount Hnodes].
  { rewrite (list_fmap_compose (λ data, Schema.contract_id (Schema.agreement data)) VInt).
    apply NoDup_fmap_2; [by intros ?? [=]|]. by apply StronglySorted_lt_NoDup. }
  { done. }
  fold g in Hcount, Hnodes. split; [by rewrite Hcount, <- Hl|].
  intros j name d Hj.
  destruct (Hnodes (set_contract_id (Z.of_nat j + 1) d)) as (i & Hm & Hi).
  { apply Hin. by exists j, name, d. }
  simpl in Hm, Hi. exists i. split; [done|].
  destruct (agreement_node_get g i (Schema.agreement (set_contract_id (Z.of_nat j + 1) d)) Hi)
    as (? & ? & ? & _).
  done.
Qed.

Lemma readable_files_become_agreements_witness :
  let json_files := [("a.json", Extraction msa_001); ("b.json", InvalidJson "Expecting value");
                     ("c.json", Extraction msa_001)] in
  let g := build_graph (load_contracts_from_json json_files).1 empty_graph in
  count_nodes Agreement g = 2 ∧
  ∃ i, match_nodes Agreement "contract_id" (VInt 3) g = [i] ∧
       node_get g i "contract_id" = JInt 3 ∧
       node_get g i "name" = JStr "MSA-001" ∧
       node_get g i "agreement_type" = JStr "Service Agreement".
Proof.
  intros json_files g.
  destruct (readable_files_become_agreements json_files) as [Hcount Hnodes].
  split; [exact Hcount|].
  exact (Hnodes 2%nat "c.json" msa_001 eq_refl).
Defined.

(** ** Creating the indices *)

Lemma create_indices_loop_nil catalog out : create_indices_loop [] catalog out = (catalog, out).
Proof. done. Qed.

Lemma create_indices_loop_cons i indices catalog out :
  create_indices_loop (i :: indices) catalog out =
    match show_indexes (index_name i) catalog with
    | _ :: _ => create_indices_loop indices catalog (out ++ [IndexAlreadyExists (index_name i)])
    | [] => create_indices_loop indices (create_index_if_not_exists i catalog)
                                (out ++ [IndexCreated (index_name i)])
    end.
Proof. unfold create_indices_loop. simpl. by destruct (show_indexes _ _). Qed.

(** An index with the name or with the schema of [i] is in the catalog. *)
Lemma create_index_if_not_exists_inv i catalog :
  (create_index_if_not_exists i catalog = catalog ++ [i] ∧
   ∀ j, j ∈ catalog → index_name j ≠ index_name i ∧ ¬ same_schema i j)
  ∨ (create_index_if_not_exists i catalog = catalog ∧
     ∃ j, j ∈ catalog ∧ (index_name j = index_name i ∨ same_schema i j)).
Proof.
  unfold create_index_if_not_exists.
  destruct (filter _ catalog) as [|j l] eqn:E.
  - left. split; [done|]. intros j Hj.
    assert (j ∉ filter (λ j, index_name j = index_name i ∨ same_schema i j) catalog) as Hn
      by (rewrite E; apply not_elem_of_nil).
    rewrite list_elem_of_filter in Hn. tauto.
  - right. split; [done|]. exists j.
    assert (j ∈ filter (λ j, index_name j = index_name i ∨ same_schema i j) catalog) as Hj
      by (rewrite E; by left).
    apply list_elem_of_filter in Hj. tauto.
Qed.

Lemma show_indexes_ne name catalog :
  show_indexes name catalog ≠ [] ↔ ∃ j, j ∈ catalog ∧ index_name j = name.
Proof.
  unfold show_indexes. rewrite list_ne_nil_elem. split.
  - intros (j & Hj%list_elem_of_filter). exists j. tauto.
  - intros (j & Hj & Hn). exists j. by apply list_elem_of_filter.
Qed.

(** One round of the loop: the catalog keeps what it holds, gets at most
    the index [i], and holds an index with the name or schema of [i]
    afterwards. *)
Lemma create_indices_step i catalog :
  let catalog' := match show_indexes (index_name i) catalog with
                  | _ :: _ => catalog
                  | [] => create_index_if_not_exists i catalog
                  end in
  (catalog' = catalog ∨ catalog' = catalog ++ [i]) ∧
  (∃ j, j ∈ catalog' ∧ (index_name j = index_name i ∨ same_schema i j)) ∧
  ((∃ j, j ∈ catalog ∧ (index_name j = index_name i ∨ same_schema i j)) → catalog' = catalog).
Proof.
  destruct (show_indexes (index_name i) catalog) as [|j l] eqn:E; simpl.
  - destruct (create_index_if_not_exists_inv i catalog) as [[-> Hnone]|[-> Hj]].
    + split; [by right|]. split.
      * exists i. split; [apply elem_of_app; right; by left | by left].
      * intros (j & Hj & Hc). destruct (Hnone j Hj). tauto.
    + split; [by left|]. by split.
  - split; [by left|]. split; [|done].
    assert (show_indexes (index_name i) catalog ≠ []) as Hne by by rewrite E.
    apply show_indexes_ne in Hne as (j' & Hj' & Hn). exists j'. split; [done | by left].
Qed.

Lemma create_indices_loop_spec indices : ∀ catalog out,
  let catalog' := (create_indices_loop indices catalog out).1 in
  catalog `prefix_of` catalog' ∧
  (∀ j, j ∈ catalog' → j ∈ catalog ∨ j ∈ indices) ∧
  (∀ i, i ∈ indices →
        ∃ j, j ∈ catalog' ∧ (index_name j = index_name i ∨ same_schema i j)) ∧
  ((∀ i, i ∈ indices →
         ∃ j, j ∈ catalog ∧ (index_name j = index_name i ∨ same_schema i j)) →
   catalog' = catalog).
Proof.
  induction indices as [|i indices IH]; intros catalog out.
  { simpl. split; [done|]. split; [by left|]. split; [|done].
    intros i Hi. by apply elem_of_nil in Hi. }
  cbv zeta. rewrite create_indices_loop_cons.
  destruct (create_indices_step i catalog) as (Hstep & Hcov & Hsame).
  set (c1 := match show_indexes (index_name i) catalog with
             | [] => create_index_if_not_exists i catalog
             | _ :: _ => catalog
             end) in *.
  assert (∃ out1, (match show_indexes (index_name i) catalog with
                   | [] => create_indices_loop indices (create_index_if_not_exists i catalog)
                             (out ++ [IndexCreated (index_name i)])
                   | _ :: _ => create_indices_loop indices catalog
                                 (out ++ [IndexAlreadyExists (index_name i)])
                   end) = create_indices_loop indices c1 out1) as [out1 E1].
  { subst c1. destruct (show_indexes (index_name i) catalog); by eexists. }
  rewrite E1. clear E1.
  destruct (IH c1 out1) as (Hpre & Hfrom & Hall & Hfix).
  assert (catalog `prefix_of` c1) as Hpre1.
  { destruct Hstep as [->| ->]; [done | by exists [i]]. }
  split; [by etrans|]. split; [|split].
  - intros j Hj. destruct (Hfrom j Hj) as [Hj1|Hj1]; [|right; by right].
    destruct Hstep as [E|E]; rewrite E in Hj1; [by left|].
    apply elem_of_app in Hj1 as [?| ->%list_elem_of_singleton]; [by left | right; by left].
  - intros i' [-> |Hi']%elem_of_cons; [|by apply Hall].
    destruct Hcov as (j & Hj & Hc). exists j. split; [|done].
    destruct Hpre as [l ->]. apply elem_of_app. by left.
  - intros Hcat. rewrite Hfix.
    + apply Hsame, Hcat. by left.
    + intros i' Hi'. destruct (Hcat i' ltac:(by right)) as (j & Hj & Hc).
      exists j. split; [|done]. destruct Hpre1 as [l ->]. apply elem_of_app. by left.
Qed.

(** X9. [create_indices] keeps every index of the store, adds only
    indices of [INDICES], and leaves the store with an index of the name
    or of the schema of each of the six; a second call changes nothing in
    the store. *)
Theorem create_indices_is_idempotent catalog :
  let catalog' := (create_indices catalog).1 in
  catalog `prefix_of` catalog' ∧
  (∀ j, j ∈ catalog' → j ∈ catalog ∨ j ∈ INDICES) ∧
  (∀ i, i ∈ INDICES →
        ∃ j, j ∈ catalog' ∧ (index_name j = index_name i ∨ same_schema i j)) ∧
  (create_indices catalog').1 = catalog'.
Proof.
  intros catalog'.
  destruct (create_indices_loop_spec INDICES catalog [CreatingIndices])
    as (Hpre & Hfrom & Hall & _).
  split; [done|]. split; [done|]. split; [done|].
  destruct (create_indices_loop_spec INDICES catalog' [CreatingIndices])
    as (_ & _ & _ & Hfix).
  by apply Hfix.
Qed.

(** When every index of [indices] has its name in the catalog, the loop
    only reports them. *)
Lemma create_indices_loop_all_exist indices : ∀ catalog out,
  (∀ i, i ∈ indices → show_indexes (index_name i) catalog ≠ []) →
  create_indices_loop indices catalog out =
    (catalog, out ++ ((λ i, IndexAlreadyExists (index_name i)) <$> indices)).
Proof.
  induction indices as [|i indices IH]; intros catalog out Hall.
  { simpl. by rewrite app_nil_r. }
  rewrite create_indices_loop_cons.
  pose proof (Hall i ltac:(by left)) as Hi.
  destruct (show_indexes (index_name i) catalog) as [|j l]; [done|].
  rewrite IH by (intros i' Hi'; apply Hall; by right).
  by rewrite fmap_cons, <- app_assoc.
Qed.

(** No index of the catalog has the schema of an index of [all] under
    another name. *)
Lemma create_indices_loop_names (all : list index) indices : ∀ catalog out,
  (∀ i i', i ∈ all → i' ∈ all → same_schema i i' → index_name i' = index_name i) →
  (∀ i, i ∈ indices → i ∈ all) →
  (∀ i j, i ∈ all → j ∈ catalog → same_schema i j → index_name j = index_name i) →
  let catalog' := (create_indices_loop indices catalog out).1 in
  (∀ i j, i ∈ all → j ∈ catalog' → same_schema i j → index_name j = index_name i) ∧
  (∀ i, i ∈ indices → show_indexes (index_name i) catalog' ≠ []).
Proof.
  intros catalog out Hall. revert catalog out.
  induction indices as [|i indices IH]; intros catalog out Hsub Hcat.
  { simpl. split; [done|]. intros i Hi. by apply elem_of_nil in Hi. }
  cbv zeta. rewrite create_indices_loop_cons.
  assert (i ∈ all) as Hi by (apply Hsub; by left).
  assert (∀ i', i' ∈ indices → i' ∈ all) as Hsub' by (intros i' Hi'; apply Hsub; by right).
  destruct (show_indexes (index_name i) catalog) as [|j l] eqn:E.
  - destruct (create_index_if_not_exists_inv i catalog) as [[-> Hnone]|[-> (j & Hj & Hc)]].
    + destruct (IH (catalog ++ [i]) (out ++ [IndexCreated (index_name i)]) Hsub')
        as [Hcat' Hnames].
      { intros i' j Hi' [Hj| ->%list_elem_of_singleton]%elem_of_app; [by apply Hcat|].
        by apply Hall. }
      split; [done|].
      intros i' [-> |Hi']%elem_of_cons; [|by apply Hnames].
      apply show_indexes_ne. exists i. split; [|done].
      destruct (create_indices_loop_spec indices (catalog ++ [i])
                  (out ++ [IndexCreated (index_name i)])) as ([l ->] & _).
      rewrite <- app_assoc. apply elem_of_app. right. by left.
    + assert (show_indexes (index_name i) catalog ≠ []) as Hne.
      { apply show_indexes_ne. exists j. split; [done|].
        destruct Hc as [Hc|Hc]; [done|]. by apply Hcat. }
      by rewrite E in Hne.
  - destruct (IH catalog (out ++ [IndexAlreadyExists (index_name i)]) Hsub' Hcat)
      as [Hcat' Hnames].
    split; [done|].
    intros i' [-> |Hi']%elem_of_cons; [|by apply Hnames].
    apply show_indexes_ne.
    assert (show_indexes (index_name i) catalog ≠ []) as Hne by by rewrite E.
    apply show_indexes_ne in Hne as (j' & Hj' & Hn). exists j'. split; [|done].
    destruct (create_indices_loop_spec indices catalog
                (out ++ [IndexAlreadyExists (index_name i)])) as ([l' ->] & _).
    apply elem_of_app. by left.
Qed.

Lemma INDICES_schemas_distinct i i' :
  i ∈ INDICES → i' ∈ INDICES → same_schema i i' → index_name i' = index_name i.
Proof.
  intros Hi Hi'.
  repeat (apply elem_of_cons in Hi as [->|Hi]);
    [..|by apply elem_of_nil in Hi];
    (repeat (apply elem_of_cons in Hi' as [->|Hi']);
     [..|by apply elem_of_nil in Hi'];
     intros (H1 & H2 & H3); simpl in *; first [reflexivity | discriminate]).
Qed.

(** X10. When no index of the store has the schema of one of the six
    under another name (as in a fresh store), the store holds an index of
    each of the six names after [create_indices], and a second call finds
    them all: it changes nothing and prints "already exists" six times. *)
Theorem create_indices_second_call catalog :
  (∀ i j, i ∈ INDICES → j ∈ catalog → same_schema i j → index_name j = index_name i) →
  let catalog' := (create_indices catalog).1 in
  (∀ i, i ∈ INDICES → show_indexes (index_name i) catalog' ≠ []) ∧
  create_indices catalog' =
    (catalog', CreatingIndices :: ((λ i, IndexAlreadyExists (index_name i)) <$> INDICES)).
Proof.
  intros Hcat catalog'.
  destruct (create_indices_loop_names INDICES INDICES catalog [CreatingIndices]
              INDICES_schemas_distinct ltac:(done) Hcat) as [_ Hnames].
  split; [done|].
  unfold create_indices at 1. by rewrite create_indices_loop_all_exist.
Qed.

Lemma create_indices_second_call_witness :
  let catalog' := (create_indices []).1 in
  catalog' = INDICES ∧
  create_indices catalog' =
    (catalog', CreatingIndices :: ((λ i, IndexAlreadyExists (index_name i)) <$> INDICES)).
Proof.
  split; [reflexivity|].
  apply (create_indices_second_call []). intros i j _ Hj. by apply elem_of_nil in Hj.
Defined.

(** ** The embedding backfill: what a run leaves behind *)

Lemma embedded_data v n : nlabel (embedded v n) = nlabel n ∧ nprops (embedded v n) = nprops n.
Proof. unfold embedded. by destruct (decide _). Qed.

Section backfill_run.
Variable generate_embedding : nat → value → string + embedding.

(** A run, node by node. *)
Lemma backfill_run_spec g :
  let excerpts := pending_excerpts g in
  let g' := (generate_embeddings_for_excerpts generate_embedding g).1.1 in
  rels g' = rels g ∧
  (∀ id, id ∉ excerpts.*2 → nodes g' !! id = nodes g !! id) ∧
  (∀ j text id, excerpts !! j = Some (text, id) →
     match generate_embedding (S j) text with
     | inl e => nodes g' !! id = nodes g !! id
     | inr v => nodes g' !! id = embedded v <$> nodes g !! id
     end).
Proof.
  intros excerpts. unfold generate_embeddings_for_excerpts. fold excerpts.
  destruct excerpts as [|x xs] eqn:Hex.
  { simpl. split; [done|]. split; [done|]. intros j ?? Hj. by rewrite lookup_nil in Hj. }
  rewrite <- Hex.
  destruct (backfill_loop generate_embedding (length excerpts) 1 excerpts g
              [Generating (length excerpts)]) as [g' out] eqn:E.
  apply backfill_loop_spec in E as (Hr & Hframe & Hitems & _); [|apply NoDup_pending_from].
  simpl. split; [done|]. split; [done|].
  intros j text id Hj. specialize (Hitems j text id Hj). simpl in Hitems.
  destruct (generate_embedding (S j) text); [by destruct Hitems | done].
Qed.

Lemma backfill_run_node g id :
  let g' := (generate_embeddings_for_excerpts generate_embedding g).1.1 in
  nodes g' !! id = nodes g !! id ∨
  ∃ j text v, pending_excerpts g !! j = Some (text, id) ∧
              generate_embedding (S j) text = inr v ∧
              nodes g' !! id = embedded v <$> nodes g !! id.
Proof.
  intros g'. destruct (backfill_run_spec g) as (_ & Hframe & Hitems).
  destruct (decide (id ∈ (pending_excerpts g).*2)) as [Hin|Hnot]; [|left; by apply Hframe].
  apply list_elem_of_fmap in Hin as ([text id'] & -> & Hin).
  apply list_elem_of_lookup in Hin as [j Hj].
  specialize (Hitems j text id' Hj). simpl.
  destruct (generate_embedding (S j) text) as [e|v] eqn:Hg; [by left|].
  right. by exists j, text, v.
Qed.

Lemma backfill_same_data g :
  same_data g (generate_embeddings_for_excerpts generate_embedding g).1.1.
Proof.
  split; [by destruct (backfill_run_spec g) as (? & _)|].
  apply Forall2_lookup. intros id.
  destruct (backfill_run_node g id) as [->|(j & text & v & _ & _ & ->)].
  - destruct (nodes g !! id); by constructor.
  - destruct (nodes g !! id) as [n|]; constructor. apply embedded_data.
Qed.

(** X11. After a run of the backfill, the excerpts still waiting for an
    embedding are exactly the selected excerpts whose embedding call
    failed.  So when no call fails, nothing is left: the next run changes
    nothing and only prints that all excerpts have embeddings. *)
Theorem backfill_leaves_failures_pending g :
  let excerpts := pending_excerpts g in
  let g' := (generate_embeddings_for_excerpts generate_embedding g).1.1 in
  (∀ text id,
     (text, id) ∈ pending_excerpts g' ↔
     ∃ j e, excerpts !! j = Some (text, id) ∧ generate_embedding (S j) text = inl e) ∧
  ((∀ j text id, excerpts !! j = Some (text, id) →
                 ∃ v, generate_embedding (S j) text = inr v) →
   generate_embeddings_for_excerpts generate_embedding g' = (g', [AllHaveEmbeddings], tt)).
Proof.
  intros excerpts g'.
  assert (∀ text id,
     (text, id) ∈ pending_excerpts g' ↔
     ∃ j e, excerpts !! j = Some (text, id) ∧ generate_embedding (S j) text = inl e) as Hiff.
  { intros text id. destruct (backfill_run_spec g) as (_ & Hframe & Hitems).
    fold excerpts g' in Hframe, Hitems. split.
    - intros Hin. pose proof Hin as (n' & Hn' & HL & Ht & He)%elem_of_pending_excerpts.
      destruct (backfill_run_node g id) as [E|(j & text0 & v & Hj & Hg & E)];
        fold g' in E; rewrite Hn' in E.
      + assert ((text, id) ∈ excerpts) as Hold.
        { apply elem_of_pending_excerpts. by exists n'. }
        apply list_elem_of_lookup in Hold as [j Hj]. specialize (Hitems j text id Hj).
        destruct (generate_embedding (S j) text) as [e|v] eqn:Hg; [by exists j, e|].
        rewrite Hn', <- E in Hitems. simpl in Hitems. simplify_eq.
        unfold embedded in Hitems. rewrite decide_True in Hitems by done.
        rewrite Hitems in He. done.
      + destruct (nodes g !! id) as [n|]; [|done]. simpl in E. simplify_eq.
        unfold embedded in HL, He. destruct (decide (nlabel n = Excerpt)); [done|].
        done.
    - intros (j & e & Hj & Hg). specialize (Hitems j text id Hj). rewrite Hg in Hitems.
      assert ((text, id) ∈ excerpts) as Hold by by eapply list_elem_of_lookup_2.
      apply elem_of_pending_excerpts in Hold as (n & Hn & ?).
      apply elem_of_pending_excerpts. exists n. by rewrite Hitems. }
  split; [done|].
  intros Hok. unfold generate_embeddings_for_excerpts at 1.
  destruct (pending_excerpts g') as [|[text id] rest] eqn:E; [done|].
  assert ((text, id) ∈ (text, id) :: rest) as Hin by by left.
  apply Hiff in Hin as (j & e & Hj & Hg).
  destruct (Hok j text id Hj) as [v Hv]. congruence.
Qed.
End backfill_run.

Lemma backfill_leaves_failures_pending_witness :
  let g := build_graph [msa_001; msa_002] empty_graph in
  let embed : nat → value → string + embedding := λ _ _, inr [0%Z] in
  let g' := (generate_embeddings_for_excerpts embed g).1.1 in
  length (pending_excerpts g) = 2 ∧
  generate_embeddings_for_excerpts embed g' = (g', [AllHaveEmbeddings], tt).
Proof.
  intros g embed g'. split; [reflexivity|].
  destruct (backfill_leaves_failures_pending embed g) as [_ Hall].
  apply Hall. intros j text id _. by exists [0%Z].
Defined.

(** ** The structural queries do not see the embeddings *)

Section same_data.
Variables g g' : graph.
Hypothesis Hsame : same_data g g'.

Lemma same_data_lookup i n' :
  nodes g' !! i = Some n' →
  ∃ n, nodes g !! i = Some n ∧ nlabel n' = nlabel n ∧ nprops n' = nprops n.
Proof. intros Hi. destruct Hsame as [_ Hn]. by eapply Forall2_lookup_r in Hn. Qed.

Lemma same_data_node_sat P i : data_only P → node_sat g' P i = node_sat g P i.
Proof.
  intros HP. unfold node_sat. destruct Hsame as [_ Hn].
  rewrite Forall2_lookup in Hn. specialize (Hn i).
  destruct Hn as [n n' [HL Hp]|]; [by apply HP | done].
Qed.

Lemma same_data_node_prop i k : node_prop g' i k = node_prop g i k.
Proof.
  unfold node_prop. destruct Hsame as [_ Hn].
  rewrite Forall2_lookup in Hn. specialize (Hn i).
  destruct Hn as [n n' [HL Hp]|]; simpl; [by rewrite Hp | done].
Qed.

Lemma same_data_rel_prop i k : rel_prop g' i k = rel_prop g i k.
Proof. unfold rel_prop. by destruct Hsame as [-> _]. Qed.

Lemma same_data_node_get i k : node_get g' i k = node_get g i k.
Proof. unfold node_get. by rewrite same_data_node_prop. Qed.

Lemma same_data_rel_get i k : rel_get g' i k = rel_get g i k.
Proof. unfold rel_get. by rewrite same_data_rel_prop. Qed.

Lemma data_only_has_label L : data_only (has_label L).
Proof. intros n n' HL _. unfold has_label. by rewrite HL. Qed.

Lemma data_only_node_matches L k v : data_only (node_matches L k v).
Proof. intros n n' HL Hp. unfold node_matches. by rewrite HL, Hp. Qed.

Lemma same_data_find_all P : data_only P → find_all P (nodes g') = find_all P (nodes g).
Proof.
  intros HP. unfold find_all. destruct Hsame as [_ Hn]. generalize 0.
  induction Hn as [|n n' l l' [HL Hp] _ IH]; intros i; [done|].
  simpl. by rewrite (HP n n' HL Hp), IH.
Qed.

Lemma same_data_match_nodes L k v : match_nodes L k v g' = match_nodes L k v g.
Proof. apply same_data_find_all, data_only_node_matches. Qed.

Lemma same_data_expand_out t a P :
  data_only P → expand_out t a P g' = expand_out t a P g.
Proof.
  intros HP. unfold expand_out, collect_all. destruct Hsame as [-> _]. generalize 0.
  induction (rels g) as [|r l IH]; intros i; [done|].
  simpl. by rewrite same_data_node_sat, IH.
Qed.

Lemma same_data_expand_any t a P :
  data_only P → expand_any t a P g' = expand_any t a P g.
Proof.
  intros HP. unfold expand_any, collect_all. destruct Hsame as [-> _]. generalize 0.
  induction (rels g) as [|r l IH]; intros i; [done|].
  simpl. by rewrite !same_data_node_sat, IH.
Qed.

Lemma same_data_party_rows a : party_rows a g' = party_rows a g.
Proof.
  unfold party_rows.
  rewrite same_data_expand_any by apply data_only_has_label.
  apply list_bind_ext; [|done]. intros [r p].
  by rewrite same_data_expand_any by apply data_only_has_label.
Qed.

Lemma same_data_party_dict row : party_dict g' row = party_dict g row.
Proof.
  destruct row as [[[p r] c] i]. unfold party_dict.
  by rewrite !same_data_node_get, !same_data_rel_get.
Qed.

Lemma same_data_summary_records agreements :
  summary_records agreements g' = summary_records agreements g.
Proof.
  unfold summary_records. f_equal. apply list_bind_ext; [|done]. intros a.
  by rewrite same_data_party_rows.
Qed.

Lemma same_data_summary_dict record : summary_dict g' record = summary_dict g record.
Proof.
  destruct record as [a rows]. unfold summary_dict. rewrite !same_data_node_get.
  by rewrite (list_fmap_ext _ _ rows (λ _ row _, same_data_party_dict row)).
Qed.

Lemma same_data_get_contract f id : get_contract f id g' = get_contract f id g.
Proof.
  unfold get_contract. destruct (decide (id ≤ 0)%Z); [done|].
  assert (get_contract_query id g' = get_contract_query id g) as ->.
  { unfold get_contract_query. rewrite same_data_match_nodes. do 2 f_equal.
    apply list_bind_ext.
    - intros [a clauses]. by rewrite same_data_party_rows.
    - f_equal. apply list_bind_ext; [|done]. intros a.
      by rewrite same_data_expand_out by apply data_only_has_label. }
  destruct (execute_query f id (GET_CONTRACT id) (get_contract_query id g))
    as [[[|[[a clauses] rows] ?]|e] sent]; [done| |done].
  do 2 f_equal.
  unfold contract_detail. rewrite !same_data_node_get.
  rewrite (list_fmap_ext _ _ rows (λ _ row _, same_data_party_dict row)).
  do 11 f_equal. apply list_fmap_ext. intros ???. by rewrite same_data_node_get.
Qed.

Lemma same_data_with_clause_type t :
  get_contracts_with_clause_type t g' = get_contracts_with_clause_type t g.
Proof.
  unfold get_contracts_with_clause_type, with_clause_type_query. do 2 f_equal.
  rewrite same_data_summary_records.
  rewrite (same_data_find_all _ (data_only_has_label Agreement)).
  etrans; [apply list_fmap_ext; intros ???; apply same_data_summary_dict|].
  do 2 f_equal. apply list_bind_ext; [|done]. intros a.
  by rewrite same_data_expand_out by apply data_only_node_matches.
Qed.

Lemma same_data_without_clause t :
  get_contracts_without_clause t g' = get_contracts_without_clause t g.
Proof.
  unfold get_contracts_without_clause, without_clause_query. do 2 f_equal.
  rewrite same_data_summary_records.
  rewrite (same_data_find_all _ (data_only_has_label Agreement)).
  etrans; [apply list_fmap_ext; intros ???; apply same_data_summary_dict|].
  do 2 f_equal. apply list_bind_ext; [|done]. intros a.
  by rewrite same_data_expand_out by apply data_only_node_matches.
Qed.

Lemma same_data_contract_excerpts f id :
  get_contract_excerpts f id g' = get_contract_excerpts f id g.
Proof.
  unfold get_contract_excerpts. destruct (decide (id ≤ 0)%Z); [done|].
  assert (contract_excerpts_query id g' = contract_excerpts_query id g) as ->.
  { unfold contract_excerpts_query. rewrite same_data_match_nodes. do 2 f_equal.
    apply list_bind_ext; [|done]. intros a.
    rewrite same_data_expand_out by apply data_only_has_label.
    apply list_bind_ext; [|done]. intros cc.
    rewrite same_data_expand_out by apply data_only_has_label.
    apply list_bind_ext; [|done]. intros e.
    by rewrite !same_data_node_prop. }
  destruct (execute_query f id (CONTRACT_EXCERPTS id) (contract_excerpts_query id g))
    as [[[|[[a ?] ?] ?]|e] sent]; [done| |done].
  by rewrite !same_data_node_get.
Qed.
End same_data.

(** X12. The backfill changes nothing but missing embeddings: the
    relationships, the labels and the scalar properties of all nodes stay
    as they are, and a node that already has an embedding keeps it.  So the
    four retrieval functions that only run Cypher on the graph return after
    a run what they returned before it, whatever the embedding endpoint
    did. *)
Theorem backfill_touches_embeddings_only
    (generate_embedding : nat → value → string + embedding) (g : graph) :
  let g' := (generate_embeddings_for_excerpts generate_embedding g).1.1 in
  same_data g g' ∧
  (∀ id n, nodes g !! id = Some n → nembedding n ≠ None → nodes g' !! id = Some n) ∧
  (∀ store_failure contract_id,
     get_contract store_failure contract_id g' = get_contract store_failure contract_id g) ∧
  (∀ store_failure contract_id,
     get_contract_excerpts store_failure contract_id g'
       = get_contract_excerpts store_failure contract_id g) ∧
  (∀ clause_type,
     get_contracts_with_clause_type clause_type g'
       = get_contracts_with_clause_type clause_type g) ∧
  (∀ clause_type,
     get_contracts_without_clause clause_type g'
       = get_contracts_without_clause clause_type g).
Proof.
  intros g'. pose proof (backfill_same_data generate_embedding g) as Hsame. fold g' in Hsame.
  split; [done|]. split.
  - intros id n Hn He.
    destruct (backfill_run_spec generate_embedding g) as (_ & Hframe & _).
    fold g' in Hframe. rewrite Hframe; [done|].
    intros ([text id'] & -> & Hin)%list_elem_of_fmap.
    apply elem_of_pending_excerpts in Hin as (n' & Hn' & _ & _ & Hnone).
    simpl in *. by simplify_eq.
  - split; [intros; by apply same_data_get_contract|].
    split; [intros; by apply same_data_contract_excerpts|].
    split; [intros; by apply same_data_with_clause_type|].
    intros; by apply same_data_without_clause.
Qed.

(** ** Aggregation over rows that come key by key *)

Section group_by_bind.
Context {K V : Type} `{EqDecision K}.

Lemma group_insert_new (k : K) (v : V) acc :
  k ∉ acc.*1 → group_insert k v acc = acc ++ [(k, [v])].
Proof.
  induction acc as [|[k' vs] acc IH]; intros Hk; [done|].
  rewrite fmap_cons, not_elem_of_cons in Hk. destruct Hk as [Hne Hk]. simpl in Hne.
  cbn [group_insert]. rewrite decide_False by done. by rewrite IH.
Qed.

Lemma group_insert_last (k : K) (v : V) acc ws :
  k ∉ acc.*1 → group_insert k v (acc ++ [(k, ws)]) = acc ++ [(k, ws ++ [v])].
Proof.
  induction acc as [|[k' vs] acc IH]; intros Hk.
  - simpl. by rewrite decide_True.
  - rewrite fmap_cons, not_elem_of_cons in Hk. destruct Hk as [Hne Hk]. simpl in Hne.
    rewrite <- app_comm_cons. cbn [group_insert]. rewrite decide_False by done.
    by rewrite IH.
Qed.

Lemma fold_group_last (k : K) (vs : list V) acc ws :
  k ∉ acc.*1 →
  fold_left (λ acc row, group_insert row.1 row.2 acc) ((λ v, (k, v)) <$> vs)
            (acc ++ [(k, ws)])
    = acc ++ [(k, ws ++ vs)].
Proof.
  intros Hk. revert ws. induction vs as [|v vs IH]; intros ws.
  - simpl. by rewrite app_nil_r.
  - rewrite fmap_cons. cbn [fold_left fst snd]. rewrite group_insert_last by done.
    rewrite IH. by rewrite <- app_assoc.
Qed.

Lemma fold_group_rows (k : K) (vs : list V) acc :
  k ∉ acc.*1 →
  fold_left (λ acc row, group_insert row.1 row.2 acc) ((λ v, (k, v)) <$> vs) acc
    = match vs with [] => acc | _ :: _ => acc ++ [(k, vs)] end.
Proof.
  intros Hk. destruct vs as [|v vs]; [done|].
  rewrite fmap_cons. cbn [fold_left fst snd]. rewrite group_insert_new by done.
  by rewrite fold_group_last.
Qed.

(** Rows that come key by key, every key once: one group per key that
    has rows, with all its rows in order. *)
Lemma fold_group_bind (l : list K) (f : K → list V) acc :
  NoDup l → (∀ k, k ∈ l → k ∉ acc.*1) →
  fold_left (λ acc row, group_insert row.1 row.2 acc)
            (l ≫= λ k, (λ v, (k, v)) <$> f k) acc
    = acc ++ omap (λ k, match f k with [] => None | _ :: _ => Some (k, f k) end) l.
Proof.
  revert acc. induction l as [|k l IH]; intros acc Hnd Hacc.
  { simpl. by rewrite app_nil_r. }
  apply NoDup_cons in Hnd as [Hk Hnd].
  rewrite bind_cons, fold_left_app, fold_group_rows by (apply Hacc; by left).
  cbn [omap list_omap]. destruct (f k) as [|v vs] eqn:E.
  - apply IH; [done|]. intros k' Hk'. apply Hacc. by right.
  - rewrite IH; [by rewrite <- app_assoc|done|].
    intros k' Hk'. rewrite fmap_app, not_elem_of_app. split; [apply Hacc; by right|].
    simpl. intros ->%list_elem_of_singleton. done.
Qed.

Lemma group_by_bind (l : list K) (f : K → list V) :
  NoDup l →
  group_by (l ≫= λ k, (λ v, (k, v)) <$> f k)
    = omap (λ k, match f k with [] => None | _ :: _ => Some (k, f k) end) l.
Proof.
  intros Hnd. unfold group_by. rewrite fold_group_bind; [done|done|].
  intros k _. apply not_elem_of_nil.
Qed.
End group_by_bind.

Lemma bind_singleton_fmap {A B} (g : A → B) (l : list A) : (l ≫= λ x, [g x]) = g <$> l.
Proof. induction l as [|x l IH]; [done|]. rewrite bind_cons, fmap_cons, IH. done. Qed.

Lemma match_nodes_NoDup L k v g : NoDup (match_nodes L k v g).
Proof. apply NoDup_find_from. Qed.

(** The records of the query of [get_contract]: one for every Agreement
    node with the id that has a clause node and a party, with all its
    clause nodes and all its party rows. *)
Lemma get_contract_query_eq id g :
  get_contract_query id g =
    omap (λ a, match clauses_of g a, party_rows a g with
               | _ :: _, _ :: _ => Some (a, clauses_of g a, party_rows a g)
               | _, _ => None
               end)
         (match_nodes Agreement "contract_id" (VInt id) g).
Proof.
  unfold get_contract_query.
  set (l := match_nodes Agreement "contract_id" (VInt id) g).
  assert ((l ≫= λ a, (expand_out HAS_CLAUSE a (has_label ContractClause) g).*2
                     ≫= λ clause, [(a, clause)])
          = l ≫= λ a, (λ clause, (a, clause)) <$> clauses_of g a) as ->.
  { apply list_bind_ext; [|done]. intros a. apply bind_singleton_fmap. }
  rewrite group_by_bind by apply match_nodes_NoDup.
  set (t2 := omap _ l).
  assert ((t2 ≫= λ '(a, clauses), party_rows a g ≫= λ row, [((a, clauses), row)])
          = t2 ≫= λ k, (λ row, (k, row)) <$> party_rows k.1 g) as ->.
  { apply list_bind_ext; [|done]. intros [a clauses]. apply bind_singleton_fmap. }
  assert (NoDup t2.*1 ∧ ∀ k, k ∈ t2 → k.1 ∈ l ∧ k.2 = clauses_of g k.1 ∧ k.2 ≠ []) as [Hnd Ht2].
  { subst t2. pose proof (match_nodes_NoDup Agreement "contract_id" (VInt id) g) as Hl.
    fold l in Hl. induction Hl as [|a l' Ha Hl IH]; [split; [constructor|by intros ??%elem_of_nil]|].
    destruct IH as [IH1 IH2]. cbn [omap list_omap].
    destruct (clauses_of g a) as [|c cs] eqn:E.
    - split; [done|]. intros k Hk. destruct (IH2 k Hk) as (? & ? & ?). split; [by right|done].
    - rewrite fmap_cons. split.
      + constructor; [|done]. simpl. intros (k & Hk1 & Hk)%list_elem_of_fmap.
        destruct (IH2 k Hk) as (? & _). by rewrite <- Hk1 in *.
      + intros k [->|Hk]%elem_of_cons.
        * simpl. rewrite E. split; [by left|done].
        * destruct (IH2 k Hk) as (? & ? & ?). split; [by right|done]. }
  rewrite group_by_bind by by eapply NoDup_fmap_1.
  clear Hnd Ht2. subst t2. clearbody l. induction l as [|a l IH]; [done|].
  cbn [omap list_omap]. destruct (clauses_of g a) as [|c cs] eqn:E; [done|].
  cbn [omap list_omap fst].
  destruct (party_rows a g) as [|row rows] eqn:Er; [done|].
  cbn [fmap list_fmap]. by f_equal.
Qed.

Lemma match_nodes_prop L k v g i : i ∈ match_nodes L k v g → node_prop g i k = Some v.
Proof.
  intros (n & Hn & Hm)%elem_of_match_nodes. unfold node_prop. rewrite Hn. simpl.
  unfold node_matches in Hm. apply andb_true_iff in Hm as [_ Hm].
  by apply bool_decide_eq_true in Hm.
Qed.

(** [get_contract] when one Agreement node carries the id. *)
Lemma get_contract_unique contract_id g a :
  (0 < contract_id < 2 ^ 63)%Z →
  match_nodes Agreement "contract_id" (VInt contract_id) g = [a] →
  (get_contract None contract_id g).1 =
    Ok (if decide (clauses_of g a ≠ [] ∧ party_rows a g ≠ [])
        then JObj [("contract_id", JInt contract_id);
                   ("name", node_get g a "name");
                   ("agreement_type", node_get g a "agreement_type");
                   ("effective_date", node_get g a "effective_date");
                   ("expiration_date", node_get g a "expiration_date");
                   ("renewal_term", node_get g a "renewal_term");
                   ("parties", JArr (party_dict g <$> party_rows a g));
                   ("clauses",
                    JArr ((λ clause, JObj [("clause_type", node_get g clause "type")])
                            <$> clauses_of g a))]
        else error_dict ("Contract " +:+ pretty contract_id +:+ " not found")).
Proof.
  intros Hpos Ha. rewrite get_contract_answered by done. cbn [fst]. f_equal.
  rewrite get_contract_query_eq, Ha. cbn [omap list_omap].
  destruct (clauses_of g a) as [|c cs] eqn:Ec.
  { rewrite decide_False; [done|]. by intros [? _]. }
  destruct (party_rows a g) as [|row rows] eqn:Er.
  { rewrite decide_False; [done|]. by intros [_ ?]. }
  rewrite decide_True by done. unfold contract_detail.
  assert (node_get g a "contract_id" = JInt contract_id) as ->; [|done].
  unfold node_get. rewrite (match_nodes_prop Agreement "contract_id" (VInt contract_id)); [done|].
  rewrite Ha. by left.
Qed.


(** X13. For a positive id below 2^63 carried by exactly one Agreement
    node (as in every graph the ingestion builds) and a store that
    answers, [get_contract] returns the details
    when the node has a clause node and an incorporated party, and the
    not-found error otherwise.  The details echo the requested id, list
    every party row of the node and list every clause node of the node
    once, in the order of its HAS_CLAUSE relationships. *)
Theorem get_contract_detail contract_id g a :
  (0 < contract_id < 2 ^ 63)%Z →
  match_nodes Agreement "contract_id" (VInt contract_id) g = [a] →
  (get_contract None contract_id g).1 =
    Ok (if decide (clauses_of g a ≠ [] ∧ party_rows a g ≠ [])
        then JObj [("contract_id", JInt contract_id);
                   ("name", node_get g a "name");
                   ("agreement_type", node_get g a "agreement_type");
                   ("effective_date", node_get g a "effective_date");
                   ("expiration_date", node_get g a "expiration_date");
                   ("renewal_term", node_get g a "renewal_term");
                   ("parties", JArr (party_dict g <$> party_rows a g));
                   ("clauses",
                    JArr ((λ clause, JObj [("clause_type", node_get g clause "type")])
                            <$> clauses_of g a))]
        else error_dict ("Contract " +:+ pretty contract_id +:+ " not found")).
Proof. apply get_contract_unique. Qed.

Lemma get_contract_detail_witness :
  let g := build_graph [msa_001; msa_002] empty_graph in
  (get_contract None 2 g).1 =
    Ok (JObj [("contract_id", JInt 2); ("name", JStr "MSA-002");
              ("agreement_type", JStr "Service Agreement");
              ("effective_date", JStr "2024-01-01");
              ("expiration_date", JStr ""); ("renewal_term", JStr "");
              ("parties",
               JArr [JObj [("name", JStr "Acme Corp"); ("role", JStr "Vendor");
                           ("incorporation_country", JStr "USA");
                           ("incorporation_state", JStr "")]]);
              ("clauses", JArr [JObj [("clause_type", JStr "Insurance")]])]).
Proof.
  intros g.
  rewrite (get_contract_detail 2 g 6 ltac:(done) ltac:(reflexivity)).
  reflexivity.
Defined.

Lemma elem_of_expand_out_targets t a P g x :
  x ∈ (expand_out t a P g).*2 ↔ (t, a, x) ∈ shapes g ∧ node_sat g P x = true.
Proof.
  rewrite <- expand_out_exists. rewrite list_elem_of_fmap. split.
  - intros ([j x'] & -> & Hin). by exists j.
  - intros (j & Hin). by exists (j, x).
Qed.

Lemma elem_of_clauses_of g a c :
  c ∈ clauses_of g a ↔ (HAS_CLAUSE, a, c) ∈ shapes g ∧ labelled g c ContractClause.
Proof. unfold clauses_of. by rewrite elem_of_expand_out_targets, node_sat_has_label. Qed.

Section dict_set.
Context {K V : Type} `{EqDecision K}.

Lemma dict_set_keys (k : K) (v : V) d :
  (dict_set k v d).*1 = if decide (k ∈ d.*1) then d.*1 else d.*1 ++ [k].
Proof.
  induction d as [|[k' v'] d IH]; [done|]. cbn [dict_set].
  destruct (decide (k = k')) as [->|Hne]; rewrite !fmap_cons; cbn [fst].
  - by rewrite decide_True by left.
  - rewrite IH. destruct (decide (k ∈ d.*1)) as [Hin|Hnin].
    + by rewrite decide_True by by right.
    + rewrite decide_False; [done|]. by intros [?|?]%elem_of_cons.
Qed.

Lemma dict_set_NoDup (k : K) (v : V) d : NoDup d.*1 → NoDup (dict_set k v d).*1.
Proof.
  intros Hnd. rewrite dict_set_keys. destruct (decide (k ∈ d.*1)); [done|].
  apply NoDup_app. split; [done|]. split; [|apply NoDup_singleton].
  by intros k' Hk' ->%list_elem_of_singleton.
Qed.

Lemma dict_set_ne (k : K) (v : V) d : dict_set k v d ≠ [].
Proof. destruct d as [|[k' v'] d]; [done|]. simpl. by destruct (decide _). Qed.
End dict_set.

Lemma fold_dict_set_NoDup (records : list (nat * option value * list value)) d :
  NoDup d.*1 →
  NoDup (fold_left (λ d '((_, clause_type), excerpts), dict_set clause_type excerpts d)
                   records d).*1.
Proof.
  revert d. induction records as [|[[a ty] xs] records IH]; intros d Hd; [done|].
  cbn [fold_left]. apply IH. by apply dict_set_NoDup.
Qed.

Lemma fold_dict_set_ne (records : list (nat * option value * list value)) d :
  d ≠ [] →
  fold_left (λ d '((_, clause_type), excerpts), dict_set clause_type excerpts d)
            records d ≠ [].
Proof.
  revert d. induction records as [|[[a ty] xs] records IH]; intros d Hd; [done|].
  cbn [fold_left]. apply IH. apply dict_set_ne.
Qed.

Lemma contract_excerpts_query_ne cid g :
  contract_excerpts_query cid g ≠ [] ↔
  ∃ a, a ∈ match_nodes Agreement "contract_id" (VInt cid) g ∧ has_clause_with_excerpt g a.
Proof.
  unfold contract_excerpts_query.
  rewrite <- (fmap_nil (λ group : nat * option value * list (option value),
                          (group.1, omap id group.2))).
  split.
  - intros Hne.
    match type of Hne with _ <$> group_by ?t ≠ _ => assert (t ≠ []) as Ht end.
    { intros E. apply Hne. by rewrite E. }
    apply list_ne_nil_elem in Ht as [row Hrow].
    apply list_elem_of_bind in Hrow as (a & Hrow & Ha).
    apply list_elem_of_bind in Hrow as (cc & Hrow & Hcc).
    apply list_elem_of_bind in Hrow as (e & Hrow & He).
    apply elem_of_expand_out_targets in Hcc as [Hcc1 Hcc2%node_sat_has_label].
    apply elem_of_expand_out_targets in He as [He1 He2%node_sat_has_label].
    exists a. split; [done|]. by exists cc, e.
  - intros (a & Ha & cc & e & Hcc1 & Hcc2 & He1 & He2) E.
    apply fmap_nil_inv in E. apply (proj1 (group_by_nil _)) in E.
    match type of E with ?t = [] =>
      assert (((a, node_prop g cc "type"), node_prop g e "text") ∈ t) as Hin
    end.
    { apply list_elem_of_bind. exists a. split; [|done].
      apply list_elem_of_bind. exists cc. split.
      2:{ apply elem_of_expand_out_targets. by rewrite node_sat_has_label. }
      apply list_elem_of_bind. exists e. split; [by left|].
      apply elem_of_expand_out_targets. by rewrite node_sat_has_label. }
    rewrite E in Hin. by apply elem_of_nil in Hin.
Qed.

Lemma elem_of_contract_excerpts_query cid g a ty xs :
  (a, ty, xs) ∈ contract_excerpts_query cid g →
  a ∈ match_nodes Agreement "contract_id" (VInt cid) g ∧ has_clause_with_excerpt g a.
Proof.
  unfold contract_excerpts_query. intros ([[a' ty'] xs'] & Heq & Hin)%list_elem_of_fmap.
  simpl in Heq. simplify_eq.
  apply elem_of_group_by in Hin as [Hk _].
  apply list_elem_of_fmap in Hk as ([[a0 ty0] x0] & Heq & Hrow). simpl in Heq. simplify_eq.
  apply list_elem_of_bind in Hrow as (a' & Hrow & Ha).
  apply list_elem_of_bind in Hrow as (cc & Hrow & Hcc).
  apply list_elem_of_bind in Hrow as (e & Hrow & He).
  apply list_elem_of_singleton in Hrow. simplify_eq.
  apply elem_of_expand_out_targets in Hcc as [Hcc1 Hcc2%node_sat_has_label].
  apply elem_of_expand_out_targets in He as [He1 He2%node_sat_has_label].
  split; [done|]. by exists cc, e.
Qed.

(** X14. [get_contract_excerpts] finds a contract only through a clause
    that has an excerpt: for a positive id below 2^63 and a store that
    answers, it returns the not-found error
    exactly when no Agreement node with the id has a clause node with an
    Excerpt node (the parties do not matter here).  Otherwise the result
    lists every clause type once, with at least one clause. *)
Theorem get_contract_excerpts_needs_excerpt contract_id g :
  (0 < contract_id < 2 ^ 63)%Z →
  let eligible a :=
    a ∈ match_nodes Agreement "contract_id" (VInt contract_id) g ∧
    has_clause_with_excerpt g a in
  let not_found := error_dict ("Contract " +:+ pretty contract_id +:+ " not found") in
  ((get_contract_excerpts None contract_id g).1 = Ok not_found ↔ ¬ ∃ a, eligible a) ∧
  ((∃ a, eligible a) →
   ∃ a (clause_dict : list (option value * list value)),
     eligible a ∧ clause_dict ≠ [] ∧ NoDup clause_dict.*1 ∧
     (get_contract_excerpts None contract_id g).1 =
       Ok (JObj [("contract_id", JInt contract_id);
                 ("name", node_get g a "name");
                 ("agreement_type", node_get g a "agreement_type");
                 ("effective_date", node_get g a "effective_date");
                 ("expiration_date", node_get g a "expiration_date");
                 ("renewal_term", node_get g a "renewal_term");
                 ("clauses",
                  JArr ((λ '(clause_type, excerpts),
                           JObj [("clause_type", json_of_value clause_type);
                                 ("excerpts",
                                  JArr ((λ x, json_of_value (Some x)) <$> excerpts))])
                          <$> clause_dict))])).
Proof.
  intros Hpos eligible not_found.
  pose proof (contract_excerpts_query_ne contract_id g) as Hne. fold eligible in Hne.
  rewrite get_contract_excerpts_answered by done. cbn [fst].
  destruct (contract_excerpts_query contract_id g) as [|[[a ty] xs] records] eqn:E.
  { split; [|intros He; by apply Hne in He].
    split; [|done]. intros _ He. by apply Hne in He. }
  assert (eligible a) as Ha.
  { apply (elem_of_contract_excerpts_query contract_id g a ty xs). rewrite E. by left. }
  split.
  { split; [done|]. intros Hno. destruct Hno. by exists a. }
  intros _. clear E Hne. eexists a, _. split; [done|]. split; [|split]; [| |
    assert (node_get g a "contract_id" = JInt contract_id) as ->; [|reflexivity]].
  - cbn [fold_left]. apply fold_dict_set_ne, dict_set_ne.
  - apply fold_dict_set_NoDup. constructor.
  - unfold node_get.
    rewrite (match_nodes_prop Agreement "contract_id" (VInt contract_id)); [done|]. apply Ha.
Qed.

Lemma get_contract_excerpts_needs_excerpt_witness :
  let g := build_graph [sample_agreement 1 "Bare" [acme]
                          [{| Schema.clause_type := "Insurance"; Schema.exists_ := true;
                              Schema.excerpts := [] |}]] empty_graph in
  (0 < 1 < 2 ^ 63)%Z ∧
  (get_contract_excerpts None 1 g).1 = Ok (error_dict "Contract 1 not found") ∧
  ¬ ∃ a, a ∈ match_nodes Agreement "contract_id" (VInt 1) g ∧ has_clause_with_excerpt g a.
Proof.
  intros g. split; [lia|]. split; [reflexivity|].
  apply (get_contract_excerpts_needs_excerpt 1 g); [lia|reflexivity].
Defined.

Lemma group_by_keys_NoDup {K V} `{EqDecision K} (rows : list (K * V)) :
  NoDup (group_by rows).*1.
Proof.
  unfold group_by. generalize (NoDup_nil_2 (A := K)).
  change (@nil K) with ((@nil (K * list V)).*1). generalize (@nil (K * list V)).
  induction rows as [|[k v] rows IH]; intros acc Hacc; [done|].
  cbn [fold_left fst snd]. apply IH. rewrite group_insert_keys.
  destruct (decide (k ∈ acc.*1)); [done|].
  apply NoDup_app. split; [done|]. split; [|apply NoDup_singleton].
  by intros k' Hk' ->%list_elem_of_singleton.
Qed.

(** X15. [get_contracts_by_organization] does not query the store for an
    empty or blank name and returns the empty list.  Otherwise a failure
    of the full-text search is raised to the caller, and of the hits only
    the first (best) one is used: the result has one entry for every
    Agreement node that this organization node is IS_PARTY_TO and that has
    an incorporated party, each once. *)
Theorem contracts_by_organization
    (fulltext_query : string → string → graph → result (list nat))
    (organization_name : string) (g : graph) :
  let run := get_contracts_by_organization fulltext_query organization_name g in
  (is_blank organization_name = true → run = (Ok (JArr []), [])) ∧
  (is_blank organization_name = false →
   run.2 = [BY_ORGANIZATION organization_name] ∧
   match fulltext_query "organization_name_index" organization_name g with
   | Raise e => run.1 = Raise e
   | Ok hits =>
       ∃ records,
         run.1 = Ok (JArr (summary_dict g <$> records)) ∧ NoDup records.*1 ∧
         ∀ a, a ∈ records.*1 ↔
              ∃ o, head hits = Some o ∧ (IS_PARTY_TO, o, a) ∈ shapes g ∧
                   labelled g a Agreement ∧ has_incorporated_party g a
   end).
Proof.
  intros run. subst run. unfold get_contracts_by_organization.
  split; intros Hb; rewrite Hb; [done|]. split; [done|]. cbn [fst].
  destruct (fulltext_query "organization_name_index" organization_name g) as [hits|e]; [|done].
  eexists. split; [reflexivity|]. split; [apply group_by_keys_NoDup|].
  intros a. rewrite summary_records_keys. rewrite list_elem_of_bind.
  split.
  - intros [(o & Ha & Ho) Hp]. apply list_elem_of_bind in Ha as (a' & Ha' & Ha).
    apply list_elem_of_singleton in Ha' as ->.
    apply elem_of_expand_out_targets in Ha as [Hs Hl%node_sat_has_label].
    exists o. split; [|done]. destruct hits as [|o' hits]; [by apply elem_of_nil in Ho|].
    simpl in Ho. by apply list_elem_of_singleton in Ho as ->.
  - intros (o & Ho & Hs & Hl & Hp). split; [|done]. exists o. split.
    + apply list_elem_of_bind. exists a. split; [by left|].
      apply elem_of_expand_out_targets. by rewrite node_sat_has_label.
    + destruct hits as [|o' hits]; [done|]. simpl in Ho. simplify_eq. simpl. by left.
Qed.

Lemma contracts_by_organization_witness :
  let g := build_graph [msa_001; msa_002] empty_graph in
  let failing : string → string → graph → result (list nat) :=
    λ _ _ _, Raise "index missing" in
  let run := get_contracts_by_organization failing "Acme" g in
  (is_blank "Acme" = false ∧ run.2 = [BY_ORGANIZATION "Acme"] ∧ run.1 = Raise "index missing") ∧
  (is_blank "  " = true ∧
   get_contracts_by_organization failing "  " g = (Ok (JArr []), [])).
Proof.
  intros g failing run. split.
  - split; [reflexivity|].
    exact (proj2 (contracts_by_organization failing "Acme" g) eq_refl).
  - split; [reflexivity|].
    exact (proj1 (contracts_by_organization failing "  " g) eq_refl).
Defined.

(** ** The summary queries, record by record *)

Lemma list_bind_bind {A B C} (f : A → list B) (h : B → list C) (l : list A) :
  (l ≫= f) ≫= h = l ≫= λ x, f x ≫= h.
Proof.
  induction l as [|x l IH]; [done|]. by rewrite !bind_cons, bind_app, IH.
Qed.

Lemma bind_const_fmap {A B C} (h : B → C) (l : list A) (rows : list B) :
  (l ≫= λ _, h <$> rows) = h <$> (l ≫= λ _, rows).
Proof.
  induction l as [|x l IH]; [done|]. by rewrite !bind_cons, fmap_app, IH.
Qed.

Lemma bind_const_replicate {A B} (l : list A) (rows : list B) :
  (l ≫= λ _, rows) = concat (replicate (length l) rows).
Proof. induction l as [|x l IH]; [done|]. rewrite bind_cons, IH. done. Qed.

(** The records of a summary query whose first part yields the agreement
    [a] once for every element of [k a]: one record per agreement with a
    party, holding its party rows once for every element of [k a]. *)
Lemma summary_records_bind {X} (agreements : list nat) (k : nat → list X) g :
  NoDup agreements →
  summary_records (agreements ≫= λ a, k a ≫= λ _, [a]) g =
    omap (λ a, match concat (replicate (length (k a)) (party_rows a g)) with
               | [] => None
               | _ :: _ => Some (a, concat (replicate (length (k a)) (party_rows a g)))
               end) agreements.
Proof.
  intros Hnd. unfold summary_records. rewrite list_bind_bind.
  rewrite <- (group_by_bind agreements
                (λ a, concat (replicate (length (k a)) (party_rows a g))) Hnd).
  f_equal. apply list_bind_ext; [|done]. intros a.
  rewrite list_bind_bind, <- bind_const_replicate, <- bind_const_fmap.
  apply list_bind_ext; [|done]. intros _.
  rewrite bind_singleton. apply bind_singleton_fmap.
Qed.

Lemma find_all_NoDup {A} (p : A → bool) (l : list A) : NoDup (find_all p l).
Proof. apply NoDup_find_from. Qed.

(** X20. [get_contracts_with_clause_type] returns every agreement once,
    but with its party rows repeated once for every clause node of the
    type it has: a contract whose clause was ingested twice lists each
    party twice.  [get_contracts_without_clause] returns the party rows of
    an agreement once. *)
Theorem clause_type_query_parties clause_type g a rows :
  let matching :=
    expand_out HAS_CLAUSE a (node_matches ContractClause "type" (VStr clause_type)) g in
  NoDup (with_clause_type_query clause_type g).*1 ∧
  NoDup (without_clause_query clause_type g).*1 ∧
  ((a, rows) ∈ with_clause_type_query clause_type g →
   rows = concat (replicate (length matching) (party_rows a g))) ∧
  ((a, rows) ∈ without_clause_query clause_type g → rows = party_rows a g).
Proof.
  intros matching.
  split; [apply group_by_keys_NoDup|]. split; [apply group_by_keys_NoDup|]. split.
  - unfold with_clause_type_query. cbv zeta.
    rewrite summary_records_bind by apply find_all_NoDup.
    intros (a' & Ha' & Hin)%list_elem_of_omap.
    match type of Hin with
    | match ?c with _ => _ end = _ => destruct c as [|r rs] eqn:E
    end; [done|].
    injection Hin as <- <-. by rewrite <- E.
  - unfold without_clause_query. cbv zeta.
    assert (∀ l, (l ≫= λ a,
               match expand_out HAS_CLAUSE a
                       (node_matches ContractClause "type" (VStr clause_type)) g with
               | [] => [a]
               | _ :: _ => []
               end)
            = l ≫= λ a, (match expand_out HAS_CLAUSE a
                                 (node_matches ContractClause "type" (VStr clause_type)) g with
                         | [] => [()]
                         | _ :: _ => []
                         end) ≫= λ _, [a]) as ->.
    { intros l. apply list_bind_ext; [|done]. intros a'.
      destruct (expand_out _ a' _ _); reflexivity. }
    rewrite summary_records_bind by apply find_all_NoDup.
    intros (a' & Ha' & Hin)%list_elem_of_omap.
    match type of Hin with
    | match ?c with _ => _ end = _ => destruct c as [|r rs] eqn:E
    end; [done|].
    injection Hin as <- <-. rewrite <- E.
    destruct (expand_out _ _ _ _); [|done]. simpl. by rewrite app_nil_r.
Qed.

Lemma clause_type_query_parties_witness :
  let g := build_graph [msa_001; msa_001] empty_graph in
  (0, [(2, 1, 1, 2); (2, 1, 1, 2)]) ∈ with_clause_type_query "Insurance" g ∧
  party_rows 0 g = [(2, 1, 1, 2)] ∧
  [(2, 1, 1, 2); (2, 1, 1, 2)]
    = concat (replicate
                (length (expand_out HAS_CLAUSE 0
                           (node_matches ContractClause "type" (VStr "Insurance")) g))
                (party_rows 0 g)).
Proof.
  intros g.
  assert ((0, [(2, 1, 1, 2); (2, 1, 1, 2)]) ∈ with_clause_type_query "Insurance" g) as Hin
    by (vm_compute; left).
  split; [exact Hin|]. split; [reflexivity|].
  exact (proj1 (proj2 (proj2 (clause_type_query_parties "Insurance" g 0 _))) Hin).
Defined.

(** ** From ingestion to retrieval *)

(** The targets of an outgoing pattern, read off the relationship
    skeleton. *)
Lemma expand_out_targets t a P g :
  (expand_out t a P g).*2 =
    omap (λ s : rel_type * nat * nat,
            if bool_decide (s.1.1 = t) && bool_decide (s.1.2 = a) && node_sat g P s.2
            then Some s.2 else None) (shapes g).
Proof.
  unfold expand_out, collect_all, shapes. generalize 0.
  induction (rels g) as [|r l IH]; intros i; [done|].
  cbn [collect_from]. rewrite fmap_app, IH, fmap_cons. cbn [omap list_omap].
  unfold rel_shape. cbn [fst snd]. fold rel_shape.
  change (λ r0 : rel, (rtype r0, rsrc r0, rdst r0)) with rel_shape.
  by destruct (bool_decide (rtype r = t) && bool_decide (rsrc r = a) && node_sat g P (rdst r)).
Qed.

Lemma node_sat_ext g g' P i :
  ext g g' → i < length (nodes g) → node_sat g' P i = node_sat g P i.
Proof.
  intros He Hi. unfold node_sat.
  destruct (lookup_lt_is_Some_2 _ _ Hi) as [n Hn].
  by rewrite Hn, (ext_nodes_lookup _ _ _ _ He Hn).
Qed.

(** The targets after the graph has grown. *)
Lemma expand_out_targets_added t a P g g' ns ss :
  wf g → added g g' ns ss →
  (expand_out t a P g').*2 =
    (expand_out t a P g).*2 ++
    omap (λ s : rel_type * nat * nat,
            if bool_decide (s.1.1 = t) && bool_decide (s.1.2 = a) && node_sat g' P s.2
            then Some s.2 else None) ss.
Proof.
  intros Hwf Hadd. rewrite !expand_out_targets.
  assert (ext g g') as He by by exists ns, ss.
  destruct Hadd as [Hn Hs]. rewrite Hs, omap_app. f_equal. clear Hs.
  pose proof (wf_ends g Hwf) as Hends. revert Hends.
  induction (shapes g) as [|[[t' s'] d'] l IH]; intros Hends; [done|].
  cbn [omap list_omap fst snd].
  rewrite (node_sat_ext g g' P d' He) by (apply (Hends t' s' d'); by left).
  rewrite IH by (intros ??? Hin; eapply Hends; by right). done.
Qed.

Lemma omap_none {A B} (f : A → option B) (l : list A) :
  Forall (λ x, f x = None) l → omap f l = [].
Proof. induction 1 as [|x l Hx _ IH]; [done|]. cbn [omap list_omap]. by rewrite Hx. Qed.

(** The clause part of the statement, clause by clause: one more clause
    node of the agreement, with the type of the clause. *)
Lemma clause_body_clauses ag clause g :
  wf g → ag < length (nodes g) →
  let g' := clause_body ag clause g in
  clauses_of g' ag = clauses_of g ag ++ [length (nodes g)] ∧
  nodes g' !! length (nodes g) =
    Some (Node ContractClause {["type" := VStr (Schema.clause_type clause)]} None).
Proof.
  intros Hwf Hag g'.
  destruct (clause_body_wf ag clause g Hwf Hag)
    as (Hwf' & ns_e & ss_e & ns_t & Hadd & Hne & _ & Hse & _).
  fold g' in Hwf', Hadd.
  assert (nodes g' !! length (nodes g) =
            Some (Node ContractClause {["type" := VStr (Schema.clause_type clause)]} None))
    as Hcl.
  { destruct Hadd as [-> _]. by apply list_lookup_middle. }
  split; [|done].
  unfold clauses_of. rewrite (expand_out_targets_added _ _ _ g g' _ _ Hwf Hadd). f_equal.
  cbn [omap list_omap app fst snd].
  rewrite !bool_decide_eq_true_2 by done. unfold node_sat at 1. rewrite Hcl. cbn.
  rewrite omap_app. rewrite omap_none; [done|].
  eapply Forall_impl; [exact Hse|]. intros [[t s] d] Ht. simpl in Ht. subst t. done.
Qed.

Lemma clauses_loop_clauses ag cs : ∀ g,
  wf g → ag < length (nodes g) →
  let g' := foreach (clause_body ag) cs g in
  ∃ cls, clauses_of g' ag = clauses_of g ag ++ cls ∧
         Forall2 (λ cl c, nodes g' !! cl =
                            Some (Node ContractClause
                                    {["type" := VStr (Schema.clause_type c)]} None)) cls cs.
Proof.
  induction cs as [|c cs IH]; intros g Hwf Hag.
  { exists []. simpl. by rewrite app_nil_r. }
  cbv zeta. rewrite foreach_cons.
  destruct (clause_body_clauses ag c g Hwf Hag) as [Hcl Hnode].
  destruct (clause_body_wf ag c g Hwf Hag) as (Hwf1 & _).
  pose proof (clause_body_ext ag c g) as He1.
  destruct (IH (clause_body ag c g) Hwf1) as (cls & Hcls & Hall).
  { eapply Nat.lt_le_trans; [exact Hag|]. by apply ext_nodes_length. }
  exists (length (nodes g) :: cls). split.
  - rewrite Hcls, Hcl. by rewrite <- app_assoc.
  - constructor; [|done].
    eapply ext_nodes_lookup; [|exact Hnode].
    apply (foreach_preorder ext). intros. apply clause_body_ext.
Qed.

(** New relationships at a new node have one of the added types. *)
Lemma adds_only_new_node Ls Ts g g' t s d :
  wf g → adds_only Ls Ts g g' → (t, s, d) ∈ shapes g' →
  s = length (nodes g) ∨ d = length (nodes g) → t ∈ Ts.
Proof.
  intros Hwf (ns & ss & [_ Hs] & _ & HT) Hin Hnew. rewrite Hs in Hin.
  apply elem_of_app in Hin as [Hin|Hin].
  - apply (wf_ends g Hwf) in Hin. lia.
  - rewrite Forall_forall in HT. by apply (HT _ Hin).
Qed.

(** The statement for a record whose contract id is new to the store. *)
Lemma fresh_ingestion data g :
  let a := Schema.agreement data in
  let id := VInt (Schema.contract_id a) in
  wf g → match_nodes Agreement "contract_id" id g = [] →
  let ag := length (nodes g) in
  let g' := CREATE_GRAPH_QUERY data g in
  wf g' ∧
  match_nodes Agreement "contract_id" id g' = [ag] ∧
  nodes g' !! ag =
    Some (Node Agreement (<["contract_id" := id]> (agreement_on_create a)) None) ∧
  Forall (λ party, party_done ag party g') (Schema.parties a) ∧
  Forall2 (λ cl c, nodes g' !! cl =
                     Some (Node ContractClause {["type" := VStr (Schema.clause_type c)]} None))
          (clauses_of g' ag) (valid_clauses a).
Proof.
  intros a id Hwf Hnew ag g'.
  destruct (CREATE_GRAPH_QUERY_wf data g Hwf) as (Hwf' & Hdone & _). fold g' a in Hwf', Hdone.
  assert (match_nodes Agreement "contract_id" id g' = [ag]) as Hag.
  { pose proof (CREATE_GRAPH_QUERY_agreements data g id) as E. cbv zeta in E.
    subst g'. rewrite E. by rewrite decide_True. }
  split; [done|]. split; [done|]. split; [by apply agreement_created|]. split.
  { destruct Hdone as (ag0 & gl & Hag0 & _ & _ & Hps). fold id in Hag0.
    rewrite Hag in Hag0. by apply list_elem_of_singleton in Hag0 as ->. }
  subst g'. unfold CREATE_GRAPH_QUERY in *. fold a in Hag |- *.
  pose proof (upsert_agreement_adds [Agreement; Organization; Country]
                [GOVERNED_BY_LAW; IS_PARTY_TO; INCORPORATED_IN] a g
                ltac:(repeat constructor) ltac:(repeat constructor) ltac:(repeat constructor)
                ltac:(repeat constructor) ltac:(repeat constructor) ltac:(repeat constructor))
    as Hh.
  destruct (upsert_agreement a g) as [g1 t] eqn:E. simpl in Hh.
  destruct (upsert_agreement_wf a g g1 t Hwf E) as (Hwf1 & ag1 & -> & Hag1 & _).
  unfold create_clauses in *. rewrite foreach_cons, foreach_nil in *.
  assert (ag1 = ag) as ->.
  { assert (ag1 ∈ match_nodes Agreement "contract_id" id
                    (foreach (clause_body ag1) (valid_clauses a) g1)) as Hin.
    { eapply match_nodes_ext; [|exact Hag1].
      apply (foreach_preorder ext). intros. apply clause_body_ext. }
    rewrite Hag in Hin. by apply list_elem_of_singleton in Hin. }
  destruct (clauses_loop_clauses ag (valid_clauses a) g1 Hwf1 (match_nodes_lt _ _ _ _ _ Hag1))
    as (cls & Hcls & Hall).
  assert (clauses_of g1 ag = []) as Hnone.
  { apply elem_of_nil_inv. intros c [Hc _]%elem_of_clauses_of.
    pose proof (adds_only_new_node _ _ g g1 HAS_CLAUSE ag c Hwf Hh Hc ltac:(by left)) as HT.
    revert HT. not_in_list. }
  rewrite Hnone in Hcls. simpl in Hcls. by rewrite Hcls.
Qed.

Lemma party_done_incorporated ag party g :
  party_done ag party g → has_incorporated_party g ag.
Proof.
  intros (p & c & Hp & Hipt & Hc & Hinc). exists p, c.
  split; [by eapply labelled_match_nodes|]. split; [by left|].
  split; [by eapply labelled_match_nodes | by left].
Qed.

(** The party of the record shows in the [parties] list. *)
Lemma party_done_dict ag party g :
  party_done ag party g →
  ∃ role state,
    JObj [("name", JStr (Schema.name party)); ("role", role);
          ("incorporation_country", JStr (Schema.incorporation_country party));
          ("incorporation_state", state)] ∈ party_dict g <$> party_rows ag g.
Proof.
  intros (p & c & Hp & Hipt & Hc & Hinc).
  assert (∃ r, (r, p) ∈ expand_any IS_PARTY_TO ag (has_label Organization) g) as [r Hr].
  { apply expand_any_exists. split; [by left|].
    apply node_sat_has_label. by eapply labelled_match_nodes. }
  assert (∃ i, (i, c) ∈ expand_any INCORPORATED_IN p (has_label Country) g) as [i Hi].
  { apply expand_any_exists. split; [by right|].
    apply node_sat_has_label. by eapply labelled_match_nodes. }
  exists (rel_get g r "role"), (rel_get g i "state").
  apply list_elem_of_fmap. exists (p, r, c, i). split.
  - unfold party_dict, node_get.
    by rewrite (match_nodes_prop _ _ _ _ _ Hp), (match_nodes_prop _ _ _ _ _ Hc).
  - unfold party_rows. apply list_elem_of_bind. exists (r, p). split; [|done].
    apply list_elem_of_bind. exists (i, c). split; [by left|done].
Qed.

Lemma clause_types_of_new_clauses g cls (cs : list Schema.ContractClause) :
  Forall2 (λ cl c, nodes g !! cl =
                     Some (Node ContractClause {["type" := VStr (Schema.clause_type c)]} None))
          cls cs →
  (λ clause, JObj [("clause_type", node_get g clause "type")]) <$> cls =
  (λ c, JObj [("clause_type", JStr (Schema.clause_type c))]) <$> cs.
Proof.
  induction 1 as [|cl c cls cs Hcl _ IH]; [done|].
  rewrite !fmap_cons, IH. f_equal. unfold node_get, node_prop. rewrite Hcl. simpl.
  by rewrite lookup_singleton_eq.
Qed.

(** X16. A record with a new positive contract id below 2^63, at least
    one party and at least one clause with [exists == true] can be read
    back right after its ingestion, when the store answers: [get_contract]
    returns the id, the name, the type, the dates and the renewal term of
    the record, one clause entry for each of its clauses with
    [exists == true] (in an order the query does not fix), and a [parties]
    list that holds every party of the record with its name and
    country. *)
Theorem get_contract_after_ingestion data g :
  let a := Schema.agreement data in
  wf g →
  (0 < Schema.contract_id a < 2 ^ 63)%Z →
  match_nodes Agreement "contract_id" (VInt (Schema.contract_id a)) g = [] →
  Schema.parties a ≠ [] →
  valid_clauses a ≠ [] →
  ∃ parties clauses,
    (get_contract None (Schema.contract_id a) (CREATE_GRAPH_QUERY data g)).1 =
      Ok (JObj [("contract_id", JInt (Schema.contract_id a));
                ("name", JStr (Schema.agreement_name a));
                ("agreement_type", JStr (Schema.agreement_type a));
                ("effective_date", JStr (Schema.effective_date a));
                ("expiration_date", JStr (Schema.expiration_date a));
                ("renewal_term", JStr (Schema.renewal_term a));
                ("parties", JArr parties);
                ("clauses", JArr clauses)]) ∧
    clauses ≡ₚ (λ c, JObj [("clause_type", JStr (Schema.clause_type c))]) <$> valid_clauses a ∧
    ∀ party, party ∈ Schema.parties a →
      ∃ role state,
        JObj [("name", JStr (Schema.name party)); ("role", role);
              ("incorporation_country", JStr (Schema.incorporation_country party));
              ("incorporation_state", state)] ∈ parties.
Proof.
  intros a Hwf Hpos Hnew Hps Hvs.
  destruct (fresh_ingestion data g Hwf Hnew) as (Hwf' & Hag & Hnode & Hdone & Hcls).
  fold a in Hag, Hnode, Hdone, Hcls.
  set (g' := CREATE_GRAPH_QUERY data g) in *. set (ag := length (nodes g)) in *.
  exists (party_dict g' <$> party_rows ag g'),
         ((λ c, JObj [("clause_type", JStr (Schema.clause_type c))]) <$> valid_clauses a).
  split; [|split; [done|]].
  - rewrite get_contract_answered by done. cbn [fst]. f_equal.
    rewrite get_contract_query_eq, Hag. cbn [omap list_omap].
    destruct (clauses_of g' ag) as [|cl cls] eqn:Ec.
    { apply Forall2_nil_inv_l in Hcls. done. }
    destruct (party_rows ag g') as [|row rows] eqn:Er.
    { exfalso. destruct (Schema.parties a) as [|party ps]; [done|].
      apply Forall_cons in Hdone as [Hdone _].
      apply party_done_incorporated, party_rows_ne in Hdone. done. }
    unfold contract_detail.
    destruct (agreement_node_get g' ag a Hnode) as (-> & -> & -> & -> & -> & ->).
    by rewrite (clause_types_of_new_clauses g' _ _ Hcls).
  - intros party Hparty. rewrite Forall_forall in Hdone.
    by apply party_done_dict, Hdone.
Qed.

Lemma get_contract_after_ingestion_witness :
  let g := CREATE_GRAPH_QUERY msa_001 empty_graph in
  wf g ∧
  ∃ parties clauses,
    (get_contract None 2 (CREATE_GRAPH_QUERY msa_002 g)).1 =
      Ok (JObj [("contract_id", JInt 2); ("name", JStr "MSA-002");
                ("agreement_type", JStr "Service Agreement");
                ("effective_date", JStr "2024-01-01");
                ("expiration_date", JStr ""); ("renewal_term", JStr "");
                ("parties", JArr parties);
                ("clauses", JArr clauses)]) ∧
    clauses ≡ₚ [JObj [("clause_type", JStr "Insurance")]] ∧
    ∀ party, party ∈ [acme] →
      ∃ role state,
        JObj [("name", JStr (Schema.name party)); ("role", role);
              ("incorporation_country", JStr (Schema.incorporation_country party));
              ("incorporation_state", state)] ∈ parties.
Proof.
  intros g.
  assert (wf g) as Hwf by apply wf_CREATE_GRAPH_QUERY, wf_empty.
  split; [exact Hwf|].
  apply (get_contract_after_ingestion msa_002 g Hwf); [simpl; lia|reflexivity|done|done].
Defined.

Lemma upsert_agreement_no_parties a g :
  Schema.parties a = [] →
  adds_only [Agreement; Country] [GOVERNED_BY_LAW] g (upsert_agreement a g).1.
Proof.
  intros Hps. unfold upsert_agreement. rewrite Hps. adds_go.
Qed.

Lemma fresh_ingestion_no_parties data g :
  let a := Schema.agreement data in
  wf g → Schema.parties a = [] →
  ¬ has_incorporated_party (CREATE_GRAPH_QUERY data g) (length (nodes g)).
Proof.
  intros a Hwf Hps (p & c & _ & Hadj & _).
  assert (adds_only [Agreement; Country; ContractClause; Excerpt; ClauseType]
            [GOVERNED_BY_LAW; HAS_CLAUSE; HAS_EXCERPT; HAS_TYPE]
            g (CREATE_GRAPH_QUERY data g)) as Hadds.
  { unfold CREATE_GRAPH_QUERY. fold a.
    pose proof (upsert_agreement_no_parties a g Hps) as Hh.
    destruct (upsert_agreement a g) as [g1 t]. simpl in Hh.
    etrans.
    - eapply adds_only_mono; [| |exact Hh]; set_solver.
    - apply create_clauses_adds; solve [repeat constructor]. }
  assert (IS_PARTY_TO ∈ [GOVERNED_BY_LAW; HAS_CLAUSE; HAS_EXCERPT; HAS_TYPE]) as HT.
  { destruct Hadj as [Hin|Hin].
    - eapply (adds_only_new_node _ _ g _ _ _ _ Hwf Hadds Hin). by right.
    - eapply (adds_only_new_node _ _ g _ _ _ _ Hwf Hadds Hin). by left. }
  revert HT. not_in_list.
Qed.

(** X17. Right after the ingestion of a record with a new positive
    contract id below 2^63, [get_contract], when the store answers,
    reports the contract as not found exactly when the record has no party
    or no clause with [exists == true]: such a record is in the graph but
    cannot be read back. *)
Theorem fresh_contract_not_found_iff data g :
  let a := Schema.agreement data in
  wf g →
  (0 < Schema.contract_id a < 2 ^ 63)%Z →
  match_nodes Agreement "contract_id" (VInt (Schema.contract_id a)) g = [] →
  (get_contract None (Schema.contract_id a) (CREATE_GRAPH_QUERY data g)).1
     = Ok (error_dict ("Contract " +:+ pretty (Schema.contract_id a) +:+ " not found"))
  ↔ Schema.parties a = [] ∨ valid_clauses a = [].
Proof.
  intros a Hwf Hpos Hnew.
  destruct (fresh_ingestion data g Hwf Hnew) as (Hwf' & Hag & Hnode & Hdone & Hcls).
  fold a in Hag, Hnode, Hdone, Hcls.
  rewrite (get_contract_unique _ _ _ Hpos Hag).
  set (g' := CREATE_GRAPH_QUERY data g) in *. set (ag := length (nodes g)) in *.
  destruct (decide (clauses_of g' ag ≠ [] ∧ party_rows ag g' ≠ [])) as [[Hc Hr]|Hno].
  - split; [done|]. intros [Hps|Hvs]; exfalso.
    + apply party_rows_ne in Hr. by apply (fresh_ingestion_no_parties data g Hwf Hps).
    + rewrite Hvs in Hcls. by apply Forall2_nil_inv_r in Hcls.
  - split; [|done]. intros _.
    destruct (Schema.parties a) as [|party ps] eqn:Eps; [by left|]. right.
    destruct (valid_clauses a) as [|c cs] eqn:Ecs; [done|]. exfalso. apply Hno. split.
    + intros E. rewrite E in Hcls. by apply Forall2_nil_inv_l in Hcls.
    + apply party_rows_ne. apply Forall_cons in Hdone as [Hdone _].
      by eapply party_done_incorporated.
Qed.

Lemma fresh_contract_not_found_iff_witness :
  let solo := sample_agreement 1 "Solo" [] [insurance] in
  wf empty_graph ∧
  (get_contract None 1 (CREATE_GRAPH_QUERY solo empty_graph)).1
    = Ok (error_dict "Contract 1 not found").
Proof.
  intros solo. split; [exact wf_empty|].
  apply (fresh_contract_not_found_iff solo empty_graph wf_empty); [simpl; lia|done|by left].
Defined.

Lemma fresh_clause_types data g t :
  let a := Schema.agreement data in
  wf g → match_nodes Agreement "contract_id" (VInt (Schema.contract_id a)) g = [] →
  has_clause_of_type (CREATE_GRAPH_QUERY data g) (length (nodes g)) t ↔
  t ∈ Schema.clause_type <$> valid_clauses a.
Proof.
  intros a Hwf Hnew.
  destruct (fresh_ingestion data g Hwf Hnew) as (_ & _ & _ & _ & Hcls). fold a in Hcls.
  set (g' := CREATE_GRAPH_QUERY data g) in *. set (ag := length (nodes g)) in *.
  split.
  - intros (cl & n & Hs & Hn & Hm).
    assert (cl ∈ clauses_of g' ag) as Hin.
    { apply elem_of_clauses_of. split; [done|]. exists n. split; [done|].
      unfold node_matches in Hm. apply andb_true_iff in Hm as [Hm _].
      by apply bool_decide_eq_true in Hm. }
    apply list_elem_of_lookup in Hin as [j Hj].
    destruct (Forall2_lookup_l _ _ _ _ _ Hcls Hj) as (c & Hc & Hnode).
    rewrite Hn in Hnode. simplify_eq.
    unfold node_matches in Hm. apply andb_true_iff in Hm as [_ Hm].
    apply bool_decide_eq_true in Hm. simpl in Hm. rewrite lookup_singleton_eq in Hm.
    simplify_eq. apply list_elem_of_fmap. exists c. split; [done|].
    by eapply list_elem_of_lookup_2.
  - intros (c & -> & Hc)%list_elem_of_fmap.
    apply list_elem_of_lookup in Hc as [j Hj].
    destruct (Forall2_lookup_r _ _ _ _ _ Hcls Hj) as (cl & Hcl & Hnode).
    assert (cl ∈ clauses_of g' ag) as [Hs _]%elem_of_clauses_of
      by by eapply list_elem_of_lookup_2.
    eexists cl, _. split; [done|]. split; [exact Hnode|].
    unfold node_matches. simpl. rewrite lookup_singleton_eq.
    by rewrite !bool_decide_eq_true_2.
Qed.

(** X18. Right after the ingestion of a record with a new contract id and
    at least one party, its Agreement node is among the contracts with a
    clause type exactly when the record has a clause of that type with
    [exists == true], and among the contracts without the clause type
    exactly when it has none. *)
Theorem clause_type_queries_after_ingestion data g clause_type :
  let a := Schema.agreement data in
  wf g →
  match_nodes Agreement "contract_id" (VInt (Schema.contract_id a)) g = [] →
  Schema.parties a ≠ [] →
  let g' := CREATE_GRAPH_QUERY data g in
  let ag := length (nodes g) in
  match_nodes Agreement "contract_id" (VInt (Schema.contract_id a)) g' = [ag] ∧
  (ag ∈ (with_clause_type_query clause_type g').*1 ↔
   clause_type ∈ Schema.clause_type <$> valid_clauses a) ∧
  (ag ∈ (without_clause_query clause_type g').*1 ↔
   clause_type ∉ Schema.clause_type <$> valid_clauses a).
Proof.
  intros a Hwf Hnew Hps g' ag.
  destruct (fresh_ingestion data g Hwf Hnew) as (_ & Hag & Hnode & Hdone & _).
  fold a g' ag in Hag, Hnode, Hdone.
  pose proof (fresh_clause_types data g clause_type Hwf Hnew) as Hty. fold a g' ag in Hty.
  assert (labelled g' ag Agreement) as Hl by (eexists; split; [exact Hnode|done]).
  assert (has_incorporated_party g' ag) as Hp.
  { destruct (Schema.parties a) as [|party ps]; [done|].
    apply Forall_cons in Hdone as [Hdone _]. by eapply party_done_incorporated. }
  split; [done|].
  rewrite with_clause_type_query_keys, without_clause_query_keys, Hty. tauto.
Qed.

Lemma clause_type_queries_after_ingestion_witness :
  let g' := CREATE_GRAPH_QUERY msa_001 empty_graph in
  wf empty_graph ∧
  match_nodes Agreement "contract_id" (VInt 1) g' = [0] ∧
  (0 ∈ (with_clause_type_query "Audit Rights" g').*1 ↔
   "Audit Rights" ∈ Schema.clause_type <$> [insurance]) ∧
  (0 ∈ (without_clause_query "Audit Rights" g').*1 ↔
   "Audit Rights" ∉ Schema.clause_type <$> [insurance]).
Proof.
  intros g'. split; [exact wf_empty|].
  apply (clause_type_queries_after_ingestion msa_001 empty_graph "Audit Rights" wf_empty);
    [reflexivity|done].
Defined.

(** ** The answer text of the aggregation tool *)

Lemma answer_fold_append (items : list string) (acc : string) :
  fold_left (λ answer content,
               if decide (content = "") then answer
               else answer +:+ content +:+ newline +:+ newline) items acc
  = acc +:+ foldr (λ content rest,
                     if decide (content = "") then rest
                     else content +:+ newline +:+ newline +:+ rest) "" items.
Proof.
  revert acc. induction items as [|c items IH]; intros acc; simpl.
  - by rewrite append_nil_r.
  - rewrite IH. destruct (decide (c = "")); [done|]. by rewrite !append_assoc.
Qed.

(** X21. When the text-to-Cypher retriever returns items, the answer of
    [answer_aggregation_question] is the text of the items with a
    non-empty text, in their order, each followed by an empty line; the
    items with an empty text leave no trace, and when no text is left the
    answer is "No results found.". *)
Theorem aggregation_answer_text
    (text2cypher : string → graph → result (list string)) user_question g items :
  text2cypher user_question g = Ok items →
  let body := foldr (λ content rest,
                       if decide (content = "") then rest
                       else content +:+ newline +:+ newline +:+ rest) "" items in
  answer_aggregation_question text2cypher user_question g =
    (Ok (if decide (body = "") then "No results found." else body),
     [TEXT2CYPHER user_question]).
Proof.
  intros Hitems body. unfold answer_aggregation_question. rewrite Hitems.
  by rewrite answer_fold_append, append_nil_l.
Qed.

Lemma aggregation_answer_text_witness :
  let rows : string → graph → result (list string) := λ _ _, Ok ["3"; ""; "MSA-001"] in
  answer_aggregation_question rows "How many contracts?" empty_graph =
    (Ok ("3" +:+ newline +:+ newline +:+ "MSA-001" +:+ newline +:+ newline),
     [TEXT2CYPHER "How many contracts?"]).
Proof.
  intros rows.
  exact (aggregation_answer_text rows "How many contracts?" empty_graph
           ["3"; ""; "MSA-001"] eq_refl).
Defined.

(** ** The encoder writes ASCII only *)

Lemma is_ascii_text_hex_digit n : is_ascii_text (hex_digit n) = true.
Proof. do 16 (destruct n as [|n]; [reflexivity|]). reflexivity. Qed.

Lemma ascii_unicode_escape n : all_chars is_ascii_text (unicode_escape n) = true.
Proof.
  unfold unicode_escape, escape_with. rewrite !append_cons, append_nil_l. simpl.
  by rewrite !is_ascii_text_hex_digit.
Qed.

Lemma ascii_escape_char c : all_chars is_ascii_text (escape_char c) = true.
Proof.
  unfold escape_char. repeat case_decide; try reflexivity.
  - simpl. rewrite andb_true_r. unfold is_ascii_text.
    rewrite nat_of_ascii_of_N by lia.
    apply orb_true_iff. right. apply bool_decide_eq_true. lia.
  - apply ascii_unicode_escape.
  - by rewrite all_chars_app, !ascii_unicode_escape.
Qed.

Lemma ascii_escape_chars s : all_chars is_ascii_text (escape_chars s) = true.
Proof.
  induction s as [|c s IH]; [done|]. simpl. by rewrite all_chars_app, ascii_escape_char, IH.
Qed.

Lemma ascii_encode_string s : all_chars is_ascii_text (encode_string s) = true.
Proof.
  unfold encode_string. simpl. by rewrite all_chars_app, ascii_escape_chars.
Qed.

Lemma all_chars_impl (p q : ascii → bool) s :
  (∀ c, p c = true → q c = true) → all_chars p s = true → all_chars q s = true.
Proof.
  intros Hpq. induction s as [|c s IH]; [done|]. simpl.
  intros [Hc Hs]%andb_true_iff. by rewrite (Hpq c Hc), IH.
Qed.

Lemma is_digit_ascii c : is_digit c = true → is_ascii_text c = true.
Proof.
  unfold is_digit, is_ascii_text. intros H%bool_decide_eq_true.
  apply orb_true_iff. right. apply bool_decide_eq_true. lia.
Qed.

Lemma ascii_json_number s : json_number s → all_chars is_ascii_text s = true.
Proof.
  assert (∀ s, json_int s → all_chars is_ascii_text s = true) as Hint.
  { intros s' [|c ds Hc _ Hds]; [done|]. simpl.
    by rewrite (is_digit_ascii c Hc), (all_chars_impl _ _ ds is_digit_ascii Hds). }
  intros [s' Hs|s' Hs]; [by apply Hint|]. simpl. by apply Hint.
Qed.

Lemma ascii_spaces n : all_chars is_ascii_text (spaces n) = true.
Proof. induction n as [|n IH]; [done|]. simpl. exact IH. Qed.

Lemma ascii_newline_indent level : all_chars is_ascii_text (newline_indent level) = true.
Proof. unfold newline_indent. rewrite all_chars_app, ascii_spaces. done. Qed.

Lemma ascii_join_items separator (items : list string) :
  all_chars is_ascii_text separator = true →
  Forall (λ s, all_chars is_ascii_text s = true) items →
  all_chars is_ascii_text (join_items separator items) = true.
Proof.
  intros Hsep Hall. induction Hall as [|x rest Hx Hrest IH]; [done|].
  destruct rest as [|y rest]; [done|].
  rewrite join_items_cons2, !all_chars_app, Hx, Hsep. simpl. exact IH.
Qed.

Lemma ascii_dumps_at j : ∀ level, all_chars is_ascii_text (dumps_at level j) = true.
Proof.
  induction j as [|z|s|items IH|members IH] using json_ind; intros level.
  - done.
  - apply ascii_json_number, json_number_pretty.
  - apply ascii_encode_string.
  - destruct items as [|x items]; [done|].
    rewrite dumps_at_arr, !all_chars_app, !ascii_newline_indent.
    rewrite ascii_join_items; [reflexivity| |].
    + by rewrite all_chars_app, ascii_newline_indent.
    + apply Forall_map. eapply Forall_impl; [exact IH|]. by intros j Hj.
  - destruct members as [|m members]; [done|].
    rewrite dumps_at_obj, !all_chars_app, !ascii_newline_indent.
    rewrite ascii_join_items; [reflexivity| |].
    + by rewrite all_chars_app, ascii_newline_indent.
    + apply Forall_map. eapply Forall_impl; [exact IH|]. intros [k v] Hv. cbn [fst snd] in *.
      by rewrite !all_chars_app, ascii_encode_string, Hv.
Qed.

(** X22. The text a tool returns for a result is plain ASCII: every
    character of the [json.dumps] output is a printable ASCII character or
    a line feed, whatever characters the contract texts hold (quotes,
    backslashes, control and non-ASCII characters are written as escapes,
    a character above the basic plane as its surrogate pair). *)
Theorem dumps_writes_ascii (j : json) : all_chars is_ascii_text (dumps j) = true.
Proof. apply ascii_dumps_at. Qed.

Lemma dumps_writes_ascii_witness :
  let text := JStr "Buyer’s café 😀" in
  all_chars is_ascii_text (dumps text) = true ∧
  dumps text = String dquote ("Buyer\u2019s caf\u00e9 \ud83d\ude00" +:+ String dquote "").
Proof. intros text. split; [apply (dumps_writes_ascii text) | reflexivity]. Defined.

(** ** The clause part of the statement, node by node *)

(** [FOREACH (excerpt IN clause.excerpts | MERGE ...)]: an Excerpt node
    with its relationship for every text that [cl] does not have yet, in
    the order of the list. *)
Lemma excerpts_loop_exact cl xs : ∀ g seen,
  wf g → cl < length (nodes g) → (∀ y, linked g cl y ↔ y ∈ seen) →
  let g' := foreach (λ excerpt g,
                       (merge_path HAS_EXCERPT cl Excerpt "text" (VStr excerpt) g).1) xs g in
  wf g' ∧
  added g g' ((λ x, Node Excerpt {["text" := VStr x]} None) <$> first_new seen xs)
             (imap (λ i _, (HAS_EXCERPT, cl, length (nodes g) + i)) (first_new seen xs)).
Proof.
  induction xs as [|x xs IH]; intros g seen Hwf Hcl Hseen; cbv zeta.
  { rewrite foreach_nil. split; [done|]. apply added_refl. }
  rewrite foreach_cons. cbn [first_new].
  destruct (merge_excerpt_wf cl x g Hwf Hcl) as (Hwf1 & Hl1 & Hcase). cbv zeta in *.
  set (g1 := (merge_path HAS_EXCERPT cl Excerpt "text" (VStr x) g).1) in *.
  destruct Hcase as [[Hl Heq]|[Hnl Hadd]].
  - rewrite Heq. rewrite decide_True by by apply Hseen. by apply IH.
  - rewrite decide_False by (intros ?; by apply Hnl, Hseen).
    assert (length (nodes g1) = S (length (nodes g))) as Hlen1.
    { destruct Hadd as [-> _]. rewrite length_app. simpl. lia. }
    destruct (IH g1 (x :: seen) Hwf1) as [Hwf2 Hadd2]; [lia| |].
    { intros y. rewrite Hl1, Hseen, elem_of_cons. tauto. }
    split; [done|]. rewrite fmap_cons, imap_cons.
    rewrite Nat.add_0_r.
    assert (imap ((λ i _, (HAS_EXCERPT, cl, length (nodes g) + i)) ∘ S)
                 (first_new (x :: seen) xs)
            = imap (λ i _, (HAS_EXCERPT, cl, length (nodes g1) + i))
                   (first_new (x :: seen) xs)) as ->.
    { apply imap_ext. intros i y _. simpl. rewrite Hlen1. f_equal. lia. }
    exact (added_trans _ _ _ _ _ _ _ Hadd Hadd2).
Qed.

(** The body of the clause loop on a well-formed graph: the nodes and
    relationships it adds. *)
Lemma clause_body_exact ag clause g :
  wf g → ag < length (nodes g) →
  let g' := clause_body ag clause g in
  let cl := length (nodes g) in
  let ty := VStr (Schema.clause_type clause) in
  let xs := first_new [] (Schema.excerpts clause) in
  wf g' ∧
  ∃ ns_t ct,
    added g g'
          ([Node ContractClause {["type" := ty]} None]
             ++ ((λ x, Node Excerpt {["text" := VStr x]} None) <$> xs) ++ ns_t)
          ([(HAS_CLAUSE, ag, cl)]
             ++ imap (λ i _, (HAS_EXCERPT, cl, cl + 1 + i)) xs
             ++ [(HAS_TYPE, cl, ct)]) ∧
    Forall (λ n, nlabel n = ClauseType) ns_t.
Proof.
  intros Hwf Hag g' cl ty xs. subst g'. unfold clause_body. fold ty.
  set (clnode := Node ContractClause {["type" := ty]} None).
  unfold create_node. fold cl.
  set (g1 := Graph (nodes g ++ [clnode]) (rels g)).
  assert (wf g1) as Hwf1.
  { apply wf_add_node; [done|]. intros L k v HL Hm. unfold node_matches in Hm. simpl in Hm.
    apply andb_true_iff in Hm as [<-%bool_decide_eq_true _]. done. }
  assert (length (nodes g1) = S cl) as Hlen1.
  { simpl. rewrite length_app. simpl. unfold cl. lia. }
  assert (∀ t d, (t, cl, d) ∉ shapes g) as Hnoout.
  { intros t d Hin. apply (wf_ends g Hwf) in Hin. unfold cl in Hin. lia. }
  assert (∀ t s, (t, s, cl) ∉ shapes g) as Hnoin.
  { intros t s Hin. apply (wf_ends g Hwf) in Hin. unfold cl in Hin. lia. }
  destruct (merge_rel HAS_CLAUSE ag cl g1) as [g2 t2] eqn:E2.
  apply merge_rel_wf in E2 as (Hwf2 & [clt ->] & _ & Hn2 & _ & Hs2); [|done|lia|lia].
  specialize (Hs2 (Hnoin _ _)). change (shapes g1) with (shapes g) in Hs2.
  cbn [foreach fold_left].
  set (g3 := set_rel_prop clt "type" ty g2).
  assert (wf g3) as Hwf3 by by apply wf_set_rel_prop.
  assert (nodes g3 = nodes g ++ [clnode]) as Hn3 by done.
  assert (shapes g3 = shapes g ++ [(HAS_CLAUSE, ag, cl)]) as Hs3
    by (unfold g3; by rewrite shapes_set_rel_prop).
  assert (length (nodes g3) = cl + 1) as Hlen3.
  { rewrite Hn3, length_app. simpl. unfold cl. lia. }
  destruct (excerpts_loop_exact cl (Schema.excerpts clause) g3 [])
    as (Hwf4 & [Hn4 Hs4]).
  { done. }
  { lia. }
  { intros y. split; [|by intros ?%elem_of_nil].
    intros (d & x & Hin & _)%linked_iff. exfalso.
    rewrite Hs3 in Hin. apply elem_of_app in Hin as [Hin|Hin%list_elem_of_singleton].
    - by apply Hnoout in Hin.
    - done. }
  cbv zeta in *. fold xs in Hn4, Hs4. rewrite Hlen3 in Hs4.
  set (g4 := foreach _ (Schema.excerpts clause) g3) in *.
  rewrite per_row_singleton.
  destruct (merge_node ClauseType "name" ty ∅ g4) as [g5 t5] eqn:E5.
  pose proof E5 as E5'.
  apply merge_node_wf in E5 as (Hwf5 & clType & -> & HclType & _); [|done..].
  rewrite per_row_singleton.
  assert (∃ ns_t, added g4 g5 ns_t [] ∧ Forall (λ n, nlabel n = ClauseType) ns_t)
    as (ns_t & [Hn5 Hs5] & Hnt).
  { apply merge_node_inv in E5' as [(Hnil & -> & Ht)|(Hne' & -> & Ht)].
    - eexists [_]. split; [split; simpl; [done | by rewrite app_nil_r]|].
      by repeat constructor.
    - exists []. split; [apply added_refl|done]. }
  rewrite app_nil_r in Hs5.
  destruct (merge_rel HAS_TYPE cl clType g5) as [g6 t6] eqn:E6. simpl.
  apply merge_rel_wf in E6 as (Hwf6 & _ & _ & Hn6 & _ & Hs6); [|done| |].
  2:{ rewrite Hn5, Hn4, !length_app. lia. }
  2:{ by eapply match_nodes_lt. }
  split; [done|]. exists ns_t, clType. split; [|done].
  split.
  - by rewrite Hn6, Hn5, Hn4, Hn3, <-!app_assoc.
  - rewrite Hs6.
    + by rewrite Hs5, Hs4, Hs3, <-!app_assoc.
    + rewrite Hs5, Hs4, Hs3.
      intros [[Hin|Hin%list_elem_of_singleton]%elem_of_app|Hin]%elem_of_app.
      * by apply Hnoout in Hin.
      * done.
      * apply list_elem_of_lookup in Hin as [i Hi].
        rewrite list_lookup_imap in Hi. by destruct (xs !! i).
Qed.

Lemma elem_of_excerpts_of g cl e :
  e ∈ excerpts_of g cl ↔ (HAS_EXCERPT, cl, e) ∈ shapes g ∧ labelled g e Excerpt.
Proof. unfold excerpts_of. by rewrite elem_of_expand_out_targets, node_sat_has_label. Qed.

Lemma omap_imap_some {A B C} (f : nat → A → B) (h : B → option C) (k : nat → A → C)
    (l : list A) :
  (∀ i x, l !! i = Some x → h (f i x) = Some (k i x)) →
  omap h (imap f l) = imap k l.
Proof.
  revert f k. induction l as [|x l IH]; intros f k Hh; [done|].
  rewrite !imap_cons. cbn [omap list_omap]. rewrite (Hh 0 x eq_refl).
  f_equal. apply IH. intros i y Hi. by apply (Hh (S i)).
Qed.

(** The Excerpt nodes of the new clause node. *)
Lemma clause_body_excerpts ag clause g :
  wf g → ag < length (nodes g) →
  let g' := clause_body ag clause g in
  let cl := length (nodes g) in
  let xs := first_new [] (Schema.excerpts clause) in
  excerpts_of g' cl = imap (λ i _, cl + 1 + i) xs ∧
  ∀ i x, xs !! i = Some x →
         nodes g' !! (cl + 1 + i) = Some (Node Excerpt {["text" := VStr x]} None).
Proof.
  intros Hwf Hag g' cl xs.
  destruct (clause_body_exact ag clause g Hwf Hag) as (Hwf' & ns_t & ct & Hadd & Hnt).
  fold g' cl xs in Hwf', Hadd.
  assert (∀ i x, xs !! i = Some x →
                 nodes g' !! (cl + 1 + i) = Some (Node Excerpt {["text" := VStr x]} None))
    as Hnodes.
  { intros i x Hi. destruct Hadd as [-> _].
    rewrite lookup_app_r by (unfold cl; lia).
    replace (cl + 1 + i - length (nodes g)) with (S i) by (unfold cl; lia).
    change (([?n] ++ ?l) !! S i) with (l !! i). rewrite lookup_app_l.
    - by rewrite list_lookup_fmap, Hi.
    - rewrite length_fmap. by eapply lookup_lt_Some. }
  split; [|done].
  unfold excerpts_of. rewrite (expand_out_targets_added _ _ _ g g' _ _ Hwf Hadd).
  assert ((expand_out HAS_EXCERPT cl (has_label Excerpt) g).*2 = []) as ->.
  { apply elem_of_nil_inv. intros e [Hin _]%elem_of_expand_out_targets.
    apply (wf_ends g Hwf) in Hin. unfold cl in Hin. lia. }
  cbn [app omap list_omap fst snd]. rewrite omap_app. cbn [omap list_omap fst snd].
  rewrite app_nil_r. apply omap_imap_some.
  intros i x Hi. cbn [fst snd].
  rewrite !bool_decide_eq_true_2 by done. unfold node_sat. by rewrite (Hnodes i x Hi).
Qed.

(** The clause body leaves the excerpts of the other clause nodes alone. *)
Lemma clause_body_excerpts_other ag clause g cl0 :
  wf g → ag < length (nodes g) → cl0 < length (nodes g) →
  excerpts_of (clause_body ag clause g) cl0 = excerpts_of g cl0.
Proof.
  intros Hwf Hag Hcl0.
  destruct (clause_body_exact ag clause g Hwf Hag) as (Hwf' & ns_t & ct & Hadd & Hnt).
  unfold excerpts_of. rewrite (expand_out_targets_added _ _ _ g _ _ _ Hwf Hadd).
  rewrite omap_none; [by rewrite app_nil_r|].
  apply Forall_app. split; [by repeat constructor|]. apply Forall_app. split.
  - apply Forall_forall. intros s (i & Hi)%list_elem_of_lookup.
    rewrite list_lookup_imap in Hi. destruct (_ !! i); [|done]. simpl in Hi. simplify_eq.
    cbn [fst snd]. rewrite (bool_decide_eq_false_2 (length (nodes g) = cl0)) by lia.
    by rewrite andb_false_r.
  - by repeat constructor.
Qed.

Lemma clauses_loop_excerpts_other ag cs : ∀ g cl0,
  wf g → ag < length (nodes g) → cl0 < length (nodes g) →
  excerpts_of (foreach (clause_body ag) cs g) cl0 = excerpts_of g cl0.
Proof.
  induction cs as [|c cs IH]; intros g cl0 Hwf Hag Hcl0; [done|].
  rewrite foreach_cons.
  destruct (clause_body_wf ag c g Hwf Hag) as (Hwf1 & _).
  pose proof (ext_nodes_length _ _ (clause_body_ext ag c g)) as Hlen.
  rewrite IH by (done || lia). by apply clause_body_excerpts_other.
Qed.

(** The clause loop: every clause gets its clause node, and the clause
    node the Excerpt nodes of its distinct excerpts, in order. *)
Lemma clauses_loop_exact ag cs : ∀ g,
  wf g → ag < length (nodes g) →
  let g' := foreach (clause_body ag) cs g in
  ∃ cls, clauses_of g' ag = clauses_of g ag ++ cls ∧
         Forall2 (λ cl c,
                    node_prop g' cl "type" = Some (VStr (Schema.clause_type c)) ∧
                    Forall2 (λ e x, node_prop g' e "text" = Some (VStr x))
                            (excerpts_of g' cl) (first_new [] (Schema.excerpts c)))
                 cls cs.
Proof.
  induction cs as [|c cs IH]; intros g Hwf Hag.
  { exists []. simpl. by rewrite app_nil_r. }
  cbv zeta. rewrite foreach_cons.
  destruct (clause_body_clauses ag c g Hwf Hag) as [Hcl Hnode].
  destruct (clause_body_excerpts ag c g Hwf Hag) as [Hex Hnodes].
  destruct (clause_body_wf ag c g Hwf Hag) as (Hwf1 & _).
  pose proof (clause_body_ext ag c g) as He1.
  pose proof (ext_nodes_length _ _ He1) as Hlen1.
  set (g1 := clause_body ag c g) in *.
  destruct (IH g1 Hwf1) as (cls & Hcls & Hall); [lia|].
  assert (ext g1 (foreach (clause_body ag) cs g1)) as He2
    by (apply (foreach_preorder ext); intros; apply clause_body_ext).
  exists (length (nodes g) :: cls). split.
  - rewrite Hcls, Hcl. by rewrite <- app_assoc.
  - constructor; [|done]. split.
    + unfold node_prop. rewrite (ext_nodes_lookup _ _ _ _ He2 Hnode). simpl.
      by rewrite lookup_singleton_eq.
    + rewrite clauses_loop_excerpts_other; [|done|lia|].
      2:{ apply lookup_lt_is_Some. by eexists. }
      rewrite Hex. apply Forall2_same_length_lookup. split; [by rewrite length_imap|].
      intros i e x Hi Hx. rewrite list_lookup_imap, Hx in Hi. simpl in Hi. simplify_eq.
      unfold node_prop. rewrite (ext_nodes_lookup _ _ _ _ He2 (Hnodes i x Hx)). simpl.
      by rewrite lookup_singleton_eq.
Qed.

(** The clause nodes and the Excerpt nodes of a record with a new id. *)
Lemma fresh_ingestion_excerpts data g :
  let a := Schema.agreement data in
  let id := VInt (Schema.contract_id a) in
  wf g → match_nodes Agreement "contract_id" id g = [] →
  let ag := length (nodes g) in
  let g' := CREATE_GRAPH_QUERY data g in
  Forall2 (λ cl c,
             node_prop g' cl "type" = Some (VStr (Schema.clause_type c)) ∧
             Forall2 (λ e x, node_prop g' e "text" = Some (VStr x))
                     (excerpts_of g' cl) (first_new [] (Schema.excerpts c)))
          (clauses_of g' ag) (valid_clauses a).
Proof.
  intros a id Hwf Hnew ag g'.
  destruct (fresh_ingestion data g Hwf Hnew) as (_ & Hag & _). fold a id ag g' in Hag.
  subst g'. unfold CREATE_GRAPH_QUERY in *. fold a in Hag |- *.
  pose proof (upsert_agreement_adds [Agreement; Organization; Country]
                [GOVERNED_BY_LAW; IS_PARTY_TO; INCORPORATED_IN] a g
                ltac:(repeat constructor) ltac:(repeat constructor) ltac:(repeat constructor)
                ltac:(repeat constructor) ltac:(repeat constructor) ltac:(repeat constructor))
    as Hh.
  destruct (upsert_agreement a g) as [g1 t] eqn:E. simpl in Hh.
  destruct (upsert_agreement_wf a g g1 t Hwf E) as (Hwf1 & ag1 & -> & Hag1 & _).
  unfold create_clauses in *. rewrite foreach_cons, foreach_nil in *.
  assert (ag1 = ag) as ->.
  { assert (ag1 ∈ match_nodes Agreement "contract_id" id
                    (foreach (clause_body ag1) (valid_clauses a) g1)) as Hin.
    { eapply match_nodes_ext; [|exact Hag1].
      apply (foreach_preorder ext). intros. apply clause_body_ext. }
    rewrite Hag in Hin. by apply list_elem_of_singleton in Hin. }
  destruct (clauses_loop_exact ag (valid_clauses a) g1 Hwf1 (match_nodes_lt _ _ _ _ _ Hag1))
    as (cls & Hcls & Hall).
  assert (clauses_of g1 ag = []) as Hnone.
  { apply elem_of_nil_inv. intros c [Hc _]%elem_of_clauses_of.
    pose proof (adds_only_new_node _ _ g g1 HAS_CLAUSE ag c Hwf Hh Hc ltac:(by left)) as HT.
    revert HT. not_in_list. }
  rewrite Hnone in Hcls. simpl in Hcls. by rewrite Hcls.
Qed.

Lemma fold_group_pairs {K V} `{EqDecision K} (kvs : list (K * list V)) acc :
  NoDup kvs.*1 → (∀ k, k ∈ kvs.*1 → k ∉ acc.*1) →
  fold_left (λ acc row, group_insert row.1 row.2 acc)
            (kvs ≫= λ kv, (λ v, (kv.1, v)) <$> kv.2) acc
    = acc ++ omap (λ kv : K * list V, match kv.2 with [] => None | _ :: _ => Some kv end) kvs.
Proof.
  revert acc. induction kvs as [|[k vs] kvs IH]; intros acc Hnd Hacc.
  { simpl. by rewrite app_nil_r. }
  rewrite fmap_cons in Hnd, Hacc. cbn [fst] in Hnd, Hacc.
  apply NoDup_cons in Hnd as [Hk Hnd].
  rewrite bind_cons, fold_left_app. cbn [fst snd].
  rewrite fold_group_rows by (apply Hacc; by left).
  cbn [omap list_omap snd]. destruct vs as [|v vs].
  - apply IH; [done|]. intros k' Hk'. apply Hacc. by right.
  - rewrite IH; [by rewrite <- app_assoc|done|].
    intros k' Hk'. rewrite fmap_app, not_elem_of_app. split; [apply Hacc; by right|].
    simpl. intros ->%list_elem_of_singleton. done.
Qed.

(** Rows that come group by group, every key once: [group_by] gives the
    groups back, without the empty ones. *)
Lemma group_by_pairs {K V} `{EqDecision K} (kvs : list (K * list V)) :
  NoDup kvs.*1 →
  group_by (kvs ≫= λ kv, (λ v, (kv.1, v)) <$> kv.2)
    = omap (λ kv : K * list V, match kv.2 with [] => None | _ :: _ => Some kv end) kvs.
Proof.
  intros Hnd. unfold group_by. rewrite fold_group_pairs; [done|done|].
  intros k _. apply not_elem_of_nil.
Qed.

Lemma dict_set_new {K V} `{EqDecision K} (k : K) (v : V) d :
  k ∉ d.*1 → dict_set k v d = d ++ [(k, v)].
Proof.
  induction d as [|[k' v'] d IH]; intros Hk; [done|].
  rewrite fmap_cons, not_elem_of_cons in Hk. destruct Hk as [Hne Hk]. simpl in Hne.
  cbn [dict_set]. rewrite decide_False by done. by rewrite IH.
Qed.

Lemma fold_dict_set_new (records : list (nat * option value * list value)) d :
  NoDup (d.*1 ++ ((λ r, r.1.2) <$> records)) →
  fold_left (λ d '((_, clause_type), excerpts), dict_set clause_type excerpts d) records d
    = d ++ ((λ r, (r.1.2, r.2)) <$> records).
Proof.
  revert d. induction records as [|[[a ty] xs] records IH]; intros d Hnd.
  { simpl. by rewrite app_nil_r. }
  rewrite fmap_cons in *. cbn [fold_left fst snd] in *.
  apply NoDup_app in Hnd as (Hd & Hdisj & Hr).
  apply NoDup_cons in Hr as [Hty Hr].
  rewrite dict_set_new by (intros Hin; apply (Hdisj _ Hin); by left).
  rewrite IH; [by rewrite <- app_assoc|].
  rewrite fmap_app. cbn [fmap list_fmap fst]. rewrite <- app_assoc. simpl.
  apply NoDup_app. split; [done|]. split.
  - intros k Hk [-> |Hin]%elem_of_cons; [|by apply (Hdisj _ Hk); right].
    apply (Hdisj _ Hk). by left.
  - by apply NoDup_cons.
Qed.

Lemma first_new_nil seen xs : first_new seen xs = [] ↔ ∀ x, x ∈ xs → x ∈ seen.
Proof.
  revert seen. induction xs as [|x xs IH]; intros seen.
  { split; [by intros _ x ?%elem_of_nil|done]. }
  cbn [first_new]. destruct (decide (x ∈ seen)) as [Hin|Hnin].
  - rewrite IH. split.
    + intros H y [-> |Hy]%elem_of_cons; [done|by apply H].
    + intros H y Hy. apply H. by right.
  - split; [done|]. intros H. exfalso. apply Hnin, H. by left.
Qed.

Lemma first_new_nil_iff xs : first_new [] xs = [] ↔ xs = [].
Proof.
  rewrite first_new_nil. split.
  - destruct xs as [|x xs]; [done|]. intros H.
    assert (x ∈ @nil string) as Hx by (apply H; by left). by apply elem_of_nil in Hx.
  - intros -> x Hx. by apply elem_of_nil in Hx.
Qed.

Lemma excerpt_rows_texts {K} g (k : K) es xs :
  Forall2 (λ e x, node_prop g e "text" = Some (VStr x)) es xs →
  (es ≫= λ e, [(k, node_prop g e "text")])
    = (λ v, (k, v)) <$> ((λ x, Some (VStr x)) <$> xs).
Proof.
  induction 1 as [|e x es xs He _ IH]; [done|].
  rewrite bind_cons, !fmap_cons, IH, He. done.
Qed.

Lemma excerpt_rows_eq g (ag : nat) cls vs :
  Forall2 (λ cl c,
             node_prop g cl "type" = Some (VStr (Schema.clause_type c)) ∧
             Forall2 (λ e x, node_prop g e "text" = Some (VStr x))
                     (excerpts_of g cl) (first_new [] (Schema.excerpts c)))
          cls vs →
  (cls ≫= λ cc, excerpts_of g cc ≫= λ e, [((ag, node_prop g cc "type"), node_prop g e "text")])
    = ((λ c : Schema.ContractClause, ((ag, Some (VStr (Schema.clause_type c))),
              (λ x, Some (VStr x)) <$> first_new [] (Schema.excerpts c))) <$> vs)
        ≫= λ kv : nat * option value * list (option value), (λ v, (kv.1, v)) <$> kv.2.
Proof.
  induction 1 as [|cl c cls vs [Hty Hex] _ IH]; [done|].
  rewrite fmap_cons, !bind_cons, IH. f_equal. cbn [fst snd].
  rewrite Hty. by apply excerpt_rows_texts.
Qed.

Lemma omap_id_Some {A B} (f : A → B) (l : list A) : omap id ((λ x, Some (f x)) <$> l) = f <$> l.
Proof. induction l as [|x l IH]; [done|]. rewrite !fmap_cons. cbn [omap list_omap id]. by rewrite IH. Qed.

Lemma records_of_clauses ag (vs : list Schema.ContractClause) :
  (λ group : nat * option value * list (option value), (group.1, omap id group.2))
    <$> omap (λ kv : nat * option value * list (option value),
                match kv.2 with [] => None | _ :: _ => Some kv end)
             ((λ c, ((ag, Some (VStr (Schema.clause_type c))),
                     (λ x, Some (VStr x)) <$> first_new [] (Schema.excerpts c))) <$> vs)
  = (λ c, ((ag, Some (VStr (Schema.clause_type c))),
           VStr <$> first_new [] (Schema.excerpts c)))
      <$> filter (λ c, Schema.excerpts c ≠ []) vs.
Proof.
  induction vs as [|c vs IH]; [done|].
  rewrite fmap_cons, filter_cons. cbn [omap list_omap snd].
  destruct (decide (Schema.excerpts c ≠ [])) as [Hne|He].
  - destruct (first_new [] (Schema.excerpts c)) as [|x xs] eqn:E.
    { apply (proj1 (first_new_nil_iff _)) in E. done. }
    change ((λ x0 : string, Some (VStr x0)) <$> x :: xs)
      with (Some (VStr x) :: ((λ x0 : string, Some (VStr x0)) <$> xs)).
    cbv iota. rewrite !fmap_cons, IH. f_equal. cbn [fst snd]. f_equal.
    rewrite E. apply (omap_id_Some VStr (x :: xs)).
  - assert (first_new [] (Schema.excerpts c) = []) as ->.
    { apply (proj2 (first_new_nil_iff _)).
      destruct (Schema.excerpts c); [done|]. exfalso. by apply He. }
    done.
Qed.

(** The records of the query of [get_contract_excerpts] right after the
    ingestion of a record with a new id. *)
Lemma contract_excerpts_query_fresh data g :
  let a := Schema.agreement data in
  wf g → match_nodes Agreement "contract_id" (VInt (Schema.contract_id a)) g = [] →
  NoDup (Schema.clause_type <$> valid_clauses a) →
  contract_excerpts_query (Schema.contract_id a) (CREATE_GRAPH_QUERY data g) =
    (λ c, ((length (nodes g), Some (VStr (Schema.clause_type c))),
           VStr <$> first_new [] (Schema.excerpts c)))
      <$> filter (λ c, Schema.excerpts c ≠ []) (valid_clauses a).
Proof.
  intros a Hwf Hnew Hnd.
  destruct (fresh_ingestion data g Hwf Hnew) as (_ & Hag & _).
  pose proof (fresh_ingestion_excerpts data g Hwf Hnew) as Hall.
  fold a in Hag, Hall. cbv zeta in Hag, Hall.
  set (g' := CREATE_GRAPH_QUERY data g) in *. set (ag := length (nodes g)) in *.
  unfold contract_excerpts_query. rewrite Hag, bind_singleton.
  pose proof (excerpt_rows_eq g' ag _ _ Hall) as Ht. unfold clauses_of, excerpts_of in Ht.
  rewrite Ht. rewrite group_by_pairs; [apply records_of_clauses|].
  rewrite <- list_fmap_compose.
  rewrite (list_fmap_ext _ ((λ ty, (ag, Some (VStr ty))) ∘ Schema.clause_type) (valid_clauses a))
    by done.
  rewrite list_fmap_compose. apply NoDup_fmap_2; [|done].
  intros ty1 ty2 Heq. by simplify_eq.
Qed.

Lemma elem_of_first_new seen xs x : x ∈ first_new seen xs ↔ x ∈ xs ∧ x ∉ seen.
Proof.
  revert seen. induction xs as [|y xs IH]; intros seen.
  { simpl. split; [by intros ?%elem_of_nil | by intros [?%elem_of_nil _]]. }
  cbn [first_new]. destruct (decide (y ∈ seen)) as [Hin|Hnin].
  - rewrite IH, elem_of_cons. split; [intros [? ?]; by auto|].
    intros [[-> |?] ?]; [done|by auto].
  - rewrite !elem_of_cons, IH, elem_of_cons. split.
    + intros [-> |[? Hn]]; [by auto|]. split; [by right|]. intros ?. apply Hn. by right.
    + intros [[-> |?] Hn]; [by left|].
      destruct (decide (x = y)) as [-> |Hne]; [by left|]. right. split; [done|].
      by intros [?|?].
Qed.

Lemma NoDup_first_new seen xs : NoDup (first_new seen xs).
Proof.
  revert seen. induction xs as [|y xs IH]; intros seen; [constructor|].
  cbn [first_new]. destruct (decide (y ∈ seen)); [apply IH|].
  constructor; [|apply IH]. intros [_ Hn]%elem_of_first_new. apply Hn. by left.
Qed.

(** The excerpts stored for a clause are its distinct excerpts. *)
Lemma first_new_remove_dups xs : first_new [] xs ≡ₚ remove_dups xs.
Proof.
  apply NoDup_Permutation; [apply NoDup_first_new | apply NoDup_remove_dups|].
  intros x. rewrite elem_of_first_new, elem_of_remove_dups. split; [by intros [? _]|].
  intros ?. split; [done|]. by intros ?%elem_of_nil.
Qed.

(** X23. Right after the ingestion of a record with a new positive
    contract id below 2^63 whose clauses with [exists == true] have
    pairwise distinct types, [get_contract_excerpts], when the store
    answers, returns the header fields of the record and one entry for
    each of these clauses that has an excerpt, with the distinct excerpts
    of the clause: a repeated excerpt is stored once, and a clause without
    excerpts is not listed.  The query fixes neither the order of the
    entries nor the order of the excerpts of an entry.  When no such clause
    has an excerpt, the contract is reported as not found. *)
Theorem get_contract_excerpts_after_ingestion data g :
  let a := Schema.agreement data in
  let result :=
    (get_contract_excerpts None (Schema.contract_id a) (CREATE_GRAPH_QUERY data g)).1 in
  let with_excerpts := filter (λ c, Schema.excerpts c ≠ []) (valid_clauses a) in
  wf g →
  (0 < Schema.contract_id a < 2 ^ 63)%Z →
  match_nodes Agreement "contract_id" (VInt (Schema.contract_id a)) g = [] →
  NoDup (Schema.clause_type <$> valid_clauses a) →
  (with_excerpts = [] →
   result = Ok (JObj [("error",
                       JStr ("Contract " +:+ pretty (Schema.contract_id a) +:+ " not found"))])) ∧
  (with_excerpts ≠ [] →
   ∃ (entries : list (string * list string)) clauses,
     result =
       Ok (JObj [("contract_id", JInt (Schema.contract_id a));
                 ("name", JStr (Schema.agreement_name a));
                 ("agreement_type", JStr (Schema.agreement_type a));
                 ("effective_date", JStr (Schema.effective_date a));
                 ("expiration_date", JStr (Schema.expiration_date a));
                 ("renewal_term", JStr (Schema.renewal_term a));
                 ("clauses",
                  JArr ((λ entry, JObj [("clause_type", JStr entry.1);
                                        ("excerpts", JArr (JStr <$> entry.2))])
                          <$> entries))]) ∧
     clauses ≡ₚ with_excerpts ∧
     Forall2 (λ entry c, entry.1 = Schema.clause_type c ∧
                         entry.2 ≡ₚ remove_dups (Schema.excerpts c))
             entries clauses).
Proof.
  intros a result with_excerpts Hwf Hpos Hnew Hnd. subst result with_excerpts.
  destruct (fresh_ingestion data g Hwf Hnew) as (_ & _ & Hnode & _). fold a in Hnode.
  pose proof (contract_excerpts_query_fresh data g Hwf Hnew Hnd) as Hq. fold a in Hq.
  cbv zeta in Hnode, Hq.
  set (g' := CREATE_GRAPH_QUERY data g) in *. set (ag := length (nodes g)) in *.
  rewrite get_contract_excerpts_answered by done. cbn [fst]. rewrite Hq.
  assert (NoDup (Schema.clause_type
                   <$> filter (λ c, Schema.excerpts c ≠ []) (valid_clauses a))) as Hnd'.
  { eapply sublist_NoDup; [exact Hnd|]. apply fmap_sublist, sublist_filter. }
  destruct (filter (λ c, Schema.excerpts c ≠ []) (valid_clauses a)) as [|c cs];
    (split; [done|]); intros Hne; [done|].
  exists ((λ c, (Schema.clause_type c, first_new [] (Schema.excerpts c))) <$> c :: cs),
         (c :: cs).
  split; [|split; [done|]].
  - set (l := c :: cs) in *. rewrite (fmap_cons _ c cs). cbv iota beta. fold l.
    match goal with
    | |- context [fold_left _ (?x :: (?f <$> cs)) []] =>
        change (x :: (f <$> cs)) with (f <$> l)
    end.
    rewrite (fold_dict_set_new _ []).
    2:{ cbn [fmap list_fmap app]. rewrite <- list_fmap_compose.
        rewrite (list_fmap_ext _ ((λ ty, Some (VStr ty)) ∘ Schema.clause_type) l) by done.
        rewrite list_fmap_compose. apply NoDup_fmap_2; [|done].
        intros ty1 ty2 Heq. by simplify_eq. }
    destruct (agreement_node_get g' ag a Hnode) as (-> & -> & -> & -> & -> & ->).
    cbn [app]. rewrite <- !list_fmap_compose. do 10 f_equal. f_equal.
    apply list_fmap_ext. intros i x _. cbn. do 5 f_equal.
    by rewrite <- list_fmap_compose.
  - apply Forall2_fmap_l, Forall_Forall2_diag, Forall_forall. intros x _. cbn [fst snd].
    split; [done | apply first_new_remove_dups].
Qed.

Lemma get_contract_excerpts_after_ingestion_witness :
  let g := CREATE_GRAPH_QUERY msa_001 empty_graph in
  wf g ∧
  ∃ (entries : list (string * list string)) clauses,
    (get_contract_excerpts None 3 (CREATE_GRAPH_QUERY nda_003 g)).1 =
      Ok (JObj [("contract_id", JInt 3); ("name", JStr "NDA-003");
                ("agreement_type", JStr "Service Agreement");
                ("effective_date", JStr "2024-01-01");
                ("expiration_date", JStr ""); ("renewal_term", JStr "");
                ("clauses",
                 JArr ((λ entry, JObj [("clause_type", JStr entry.1);
                                       ("excerpts", JArr (JStr <$> entry.2))])
                         <$> entries))]) ∧
    clauses ≡ₚ [confidentiality; insurance] ∧
    Forall2 (λ entry c, entry.1 = Schema.clause_type c ∧
                        entry.2 ≡ₚ remove_dups (Schema.excerpts c))
            entries clauses.
Proof.
  intros g.
  assert (wf g) as Hwf by apply wf_CREATE_GRAPH_QUERY, wf_empty.
  split; [exact Hwf|].
  apply (get_contract_excerpts_after_ingestion nda_003 g Hwf); [simpl; lia|reflexivity| |done].
  vm_compute. repeat (constructor; [by rewrite ?elem_of_cons, elem_of_nil; intros H;
                                    repeat destruct H as [H|H]|]). constructor.
Defined.

(** * Every excerpt has one clause, every clause one agreement *)

Lemma expand_in_sources t a P g :
  (expand_in t a P g).*2 =
    omap (λ s : rel_type * nat * nat,
            if bool_decide (s.1.1 = t) && bool_decide (s.2 = a) && node_sat g P s.1.2
            then Some s.1.2 else None) (shapes g).
Proof.
  unfold expand_in, collect_all, shapes. generalize 0.
  induction (rels g) as [|r l IH]; intros i; [done|].
  cbn [collect_from]. rewrite fmap_app, IH, fmap_cons. cbn [omap list_omap].
  unfold rel_shape. cbn [fst snd]. fold rel_shape.
  change (λ r0 : rel, (rtype r0, rsrc r0, rdst r0)) with rel_shape.
  by destruct (bool_decide (rtype r = t) && bool_decide (rdst r = a) && node_sat g P (rsrc r)).
Qed.

Lemma expand_any_ends t a P g :
  (expand_any t a P g).*2 =
    shapes g ≫= λ s : rel_type * nat * nat,
      (if bool_decide (s.1.1 = t) && bool_decide (s.1.2 = a) && node_sat g P s.2
       then [s.2] else []) ++
      (if bool_decide (s.1.1 = t) && bool_decide (s.2 = a)
          && bool_decide (s.1.2 ≠ a) && node_sat g P s.1.2
       then [s.1.2] else []).
Proof.
  unfold expand_any, collect_all, shapes. generalize 0.
  induction (rels g) as [|r l IH]; intros i; [done|].
  cbn [collect_from]. rewrite fmap_app, IH, fmap_cons, bind_cons. f_equal.
  unfold rel_shape. cbn [fst snd].
  by destruct (bool_decide (rtype r = t) && bool_decide (rsrc r = a) && node_sat g P (rdst r)),
              (bool_decide (rtype r = t) && bool_decide (rdst r = a)
                 && bool_decide (rsrc r ≠ a) && node_sat g P (rsrc r)).
Qed.

Lemma bind_none {A B} (f : A → list B) (l : list A) :
  (∀ y, y ∈ l → f y = []) → l ≫= f = [].
Proof.
  induction l as [|y l IH]; intros Hf; [done|].
  rewrite bind_cons, (Hf y) by left. apply IH. intros z Hz. apply Hf. by right.
Qed.

(** In a list without duplicates, the rows of the one element that has
    rows. *)
Lemma bind_sole {A B} (f : A → list B) (l : list A) (x : A) :
  NoDup l → x ∈ l → (∀ y, y ∈ l → y ≠ x → f y = []) → l ≫= f = f x.
Proof.
  induction l as [|y l IH]; intros Hnd Hx Hf; [by apply elem_of_nil in Hx|].
  apply NoDup_cons in Hnd as [Hy Hnd]. rewrite bind_cons.
  apply elem_of_cons in Hx as [-> |Hx].
  - rewrite bind_none; [by rewrite app_nil_r|].
    intros z Hz. apply Hf; [by right|]. by intros ->.
  - rewrite (Hf y); [|by left|by intros ->]. apply IH; [done..|].
    intros z Hz. apply Hf. by right.
Qed.

Lemma omap_bind {A B} (f : A → option B) (l : list A) :
  omap f l = l ≫= λ x, match f x with Some v => [v] | None => [] end.
Proof.
  induction l as [|x l IH]; [done|]. rewrite bind_cons. cbn [omap list_omap].
  rewrite IH. by destruct (f x).
Qed.

Lemma sole_source_in g t d s : sole_source g t d s → (t, s, d) ∈ shapes g.
Proof. intros H. by apply H. Qed.

(** The clause node of an excerpt, as the pattern without an arrow finds
    it. *)
Lemma expand_any_excerpt g e cl :
  wf g → typed g → labelled g e Excerpt → sole_source g HAS_EXCERPT e cl →
  (expand_any HAS_EXCERPT e (has_label ContractClause) g).*2 = [cl].
Proof.
  intros Hwf Ht He Hsole. pose proof (sole_source_in _ _ _ _ Hsole) as Hin.
  destruct (Ht _ _ _ Hin) as [Hcl _]. cbn [src_label] in Hcl.
  assert (cl ≠ e) as Hne.
  { intros ->. by pose proof (labelled_inj _ _ _ _ Hcl He). }
  rewrite expand_any_ends.
  rewrite (bind_sole _ _ (HAS_EXCERPT, cl, e) (wf_rels g Hwf) Hin).
  - cbn [fst snd]. rewrite (bool_decide_eq_false_2 (cl = e)) by done.
    rewrite !bool_decide_eq_true_2 by done.
    rewrite andb_false_r. cbn [andb app].
    by rewrite (proj2 (node_sat_has_label _ _ _) Hcl).
  - intros [[t s] d] Hs Hneq. cbn [fst snd].
    destruct (decide (t = HAS_EXCERPT)) as [-> |Hnt].
    2:{ by rewrite (bool_decide_eq_false_2 (t = HAS_EXCERPT)) by done. }
    destruct (Ht _ _ _ Hs) as [Hsl Hdl]. cbn [src_label dst_label] in Hsl, Hdl.
    rewrite (bool_decide_eq_false_2 (s = e)).
    2:{ intros ->. by pose proof (labelled_inj _ _ _ _ Hsl He). }
    rewrite andb_false_r. cbn [app].
    destruct (decide (d = e)) as [-> |Hnd].
    + apply Hsole in Hs. by subst.
    + by rewrite (bool_decide_eq_false_2 (d = e)), andb_false_r by done.
Qed.

(** The agreement node of a clause node. *)
Lemma expand_in_clause g cl a :
  wf g → typed g → sole_source g HAS_CLAUSE cl a →
  (expand_in HAS_CLAUSE cl (has_label Agreement) g).*2 = [a].
Proof.
  intros Hwf Ht Hsole. pose proof (sole_source_in _ _ _ _ Hsole) as Hin.
  destruct (Ht _ _ _ Hin) as [Ha _]. cbn [src_label] in Ha.
  rewrite expand_in_sources, omap_bind.
  rewrite (bind_sole _ _ (HAS_CLAUSE, a, cl) (wf_rels g Hwf) Hin).
  - cbn [fst snd]. rewrite !bool_decide_eq_true_2 by done.
    by rewrite (proj2 (node_sat_has_label _ _ _) Ha).
  - intros [[t s] d] Hs Hneq. cbn [fst snd].
    destruct (decide (t = HAS_CLAUSE)) as [-> |Hnt].
    2:{ by rewrite (bool_decide_eq_false_2 (t = HAS_CLAUSE)) by done. }
    destruct (decide (d = cl)) as [-> |Hnd].
    + apply Hsole in Hs. by subst.
    + by rewrite (bool_decide_eq_false_2 (d = cl)), andb_false_r by done.
Qed.

Lemma owned_empty : owned empty_graph.
Proof. split; intros i (n & Hn & _); done. Qed.

(** A step that adds neither clause nor Excerpt nodes and none of their
    relationships keeps the owners. *)
Lemma owned_adds_only Ls Ts g g' :
  adds_only Ls Ts g g' → Excerpt ∉ Ls → ContractClause ∉ Ls →
  HAS_EXCERPT ∉ Ts → HAS_CLAUSE ∉ Ts →
  owned g → owned g'.
Proof.
  intros (ns & ss & [Hn Hs] & Hns & Hss) HE HC HtE HtC [Hex Hcl].
  assert (∀ i L, L ∉ Ls → labelled g' i L → labelled g i L) as Hlab.
  { intros i L HL (n & Hi & Hl). rewrite Hn in Hi.
    apply lookup_app_Some in Hi as [Hi|[_ Hi]]; [by exists n|].
    apply list_elem_of_lookup_2 in Hi. rewrite Forall_forall in Hns.
    apply Hns in Hi. by rewrite Hl in Hi. }
  assert (∀ t s d, t ∉ Ts → (t, s, d) ∈ shapes g' ↔ (t, s, d) ∈ shapes g) as Hsh.
  { intros t s d HT. rewrite Hs, elem_of_app. split; [|by left].
    intros [?|Hin]; [done|]. rewrite Forall_forall in Hss. by apply Hss in Hin. }
  split.
  - intros e He%(Hlab _ _ HE). destruct (Hex e He) as [cl Hsole]. exists cl.
    intros s'. by rewrite Hsh.
  - intros cl Hc%(Hlab _ _ HC). destruct (Hcl cl Hc) as [a Hsole]. exists a.
    intros s'. by rewrite Hsh.
Qed.

(** The clause body gives the new clause node the agreement and the new
    Excerpt nodes the new clause node. *)
Lemma owned_clause_body ag clause g :
  wf g → ag < length (nodes g) → owned g → owned (clause_body ag clause g).
Proof.
  intros Hwf Hag [Hex Hcl].
  destruct (clause_body_exact ag clause g Hwf Hag) as (Hwf' & ns_t & ct & [Hn Hs] & Hnt).
  set (g' := clause_body ag clause g) in *. set (cl := length (nodes g)) in *.
  set (xs := first_new [] (Schema.excerpts clause)) in *.
  pose proof (wf_ends g Hwf) as Hends.
  assert (∀ i n, nodes g' !! i = Some n → cl ≤ i →
                 (i = cl ∧ nlabel n = ContractClause) ∨
                 (∃ j, j < length xs ∧ i = cl + 1 + j ∧ nlabel n = Excerpt) ∨
                 nlabel n = ClauseType) as Hnew.
  { intros i n Hi Hle. rewrite Hn in Hi. rewrite lookup_app_r in Hi by (unfold cl in Hle; lia).
    fold cl in Hi. destruct (i - cl) as [|k] eqn:Ek.
    { left. simpl in Hi. simplify_eq. split; [lia|done]. }
    change (([?n0] ++ ?l) !! S k) with (l !! k) in Hi.
    apply lookup_app_Some in Hi as [Hi|[_ Hi]].
    - right. left. rewrite list_lookup_fmap in Hi.
      destruct (xs !! k) as [x|] eqn:Ex; [|done]. simpl in Hi. simplify_eq.
      exists k. split; [by eapply lookup_lt_Some|]. split; [lia|done].
    - right. right. apply list_elem_of_lookup_2 in Hi. rewrite Forall_forall in Hnt.
      by apply Hnt. }
  assert (∀ i L, labelled g' i L → i < cl → labelled g i L) as Hold.
  { intros i L (n & Hi & Hl) Hlt. rewrite Hn, lookup_app_l in Hi by done. by exists n. }
  assert (∀ s d, (HAS_EXCERPT, s, d) ∈ shapes g' ↔
                 (HAS_EXCERPT, s, d) ∈ shapes g ∨
                 (s = cl ∧ ∃ j, j < length xs ∧ d = cl + 1 + j)) as HshE.
  { intros s d. rewrite Hs, !elem_of_app. split.
    - intros [?|[Hin|[Hin|Hin]]]; [by left| | |].
      + by apply list_elem_of_singleton in Hin.
      + right. apply list_elem_of_lookup in Hin as [j Hj].
        rewrite list_lookup_imap in Hj. destruct (xs !! j) as [x|] eqn:Ex; [|done].
        simpl in Hj. simplify_eq. split; [done|]. exists j.
        split; [by eapply lookup_lt_Some|done].
      + by apply list_elem_of_singleton in Hin.
    - intros [?|[-> (j & Hj & ->)]]; [by left|]. right. right. left.
      apply list_elem_of_lookup. exists j. rewrite list_lookup_imap.
      destruct (lookup_lt_is_Some_2 _ _ Hj) as [x ->]. done. }
  assert (∀ s d, (HAS_CLAUSE, s, d) ∈ shapes g' ↔
                 (HAS_CLAUSE, s, d) ∈ shapes g ∨ (s = ag ∧ d = cl)) as HshC.
  { intros s d. rewrite Hs, !elem_of_app. split.
    - intros [?|[Hin|[Hin|Hin]]]; [by left| | |].
      + apply list_elem_of_singleton in Hin. right. by simplify_eq.
      + apply list_elem_of_lookup in Hin as [j Hj].
        rewrite list_lookup_imap in Hj. by destruct (xs !! j).
      + by apply list_elem_of_singleton in Hin.
    - intros [?|[-> ->]]; [by left|]. right. left. by apply list_elem_of_singleton. }
  split.
  - intros e He. destruct (decide (e < cl)) as [Hlt|Hge].
    + destruct (Hex e (Hold _ _ He Hlt)) as [c Hsole]. exists c. intros s'.
      rewrite HshE, (Hsole s'). split; [|by left].
      intros [?|[_ (j & _ & ->)]]; [done|lia].
    + destruct He as (n & Hi & Hl).
      destruct (Hnew e n Hi ltac:(lia)) as [[_ HL]|[(j & Hj & -> & _)|HL]];
        [by rewrite Hl in HL| |by rewrite Hl in HL].
      exists cl. intros s'. rewrite HshE. split.
      * intros [Hin|[-> _]]; [|done]. apply Hends in Hin. fold cl in Hin. lia.
      * intros ->. right. split; [done|]. by exists j.
  - intros c Hc. destruct (decide (c < cl)) as [Hlt|Hge].
    + destruct (Hcl c (Hold _ _ Hc Hlt)) as [a Hsole]. exists a. intros s'.
      rewrite HshC, (Hsole s'). split; [|by left].
      intros [?|[_ ->]]; [done|lia].
    + destruct Hc as (n & Hi & Hl).
      destruct (Hnew c n Hi ltac:(lia)) as [[-> _]|[(j & _ & _ & HL)|HL]];
        [|by rewrite Hl in HL|by rewrite Hl in HL].
      exists ag. intros s'. rewrite HshC. split.
      * intros [Hin|[-> _]]; [|done]. apply Hends in Hin. fold cl in Hin. lia.
      * intros ->. by right.
Qed.

Lemma owned_clauses_loop ag cs : ∀ g,
  wf g → ag < length (nodes g) → owned g → owned (foreach (clause_body ag) cs g).
Proof.
  induction cs as [|c cs IH]; intros g Hwf Hag Ho; [done|].
  rewrite foreach_cons.
  destruct (clause_body_wf ag c g Hwf Hag) as (Hwf1 & _).
  pose proof (ext_nodes_length _ _ (clause_body_ext ag c g)) as Hlen.
  apply IH; [done|lia|]. by apply owned_clause_body.
Qed.

Lemma owned_CREATE_GRAPH_QUERY data g : wf g → owned g → owned (CREATE_GRAPH_QUERY data g).
Proof.
  intros Hwf Ho. unfold CREATE_GRAPH_QUERY. set (a := Schema.agreement data).
  pose proof (upsert_agreement_adds [Agreement; Organization; Country]
                [GOVERNED_BY_LAW; IS_PARTY_TO; INCORPORATED_IN] a g
                ltac:(repeat constructor) ltac:(repeat constructor) ltac:(repeat constructor)
                ltac:(repeat constructor) ltac:(repeat constructor) ltac:(repeat constructor))
    as Hh.
  destruct (upsert_agreement a g) as [g1 t] eqn:E. simpl in Hh.
  destruct (upsert_agreement_wf a g g1 t Hwf E) as (Hwf1 & ag & -> & Hag & _).
  unfold create_clauses. rewrite foreach_cons, foreach_nil.
  apply owned_clauses_loop; [done|by eapply match_nodes_lt|].
  eapply owned_adds_only; [exact Hh|not_in_list..|done].
Qed.

Lemma owned_build_graph contracts : ∀ g, wf g → owned g → owned (build_graph contracts g).
Proof.
  induction contracts as [|d ds IH]; intros g Hwf Ho; [done|].
  rewrite build_graph_cons. apply IH; [by apply wf_CREATE_GRAPH_QUERY|].
  by apply owned_CREATE_GRAPH_QUERY.
Qed.

(** The entry of one hit. *)
Lemma similar_text_rows g e :
  wf g → typed g → owned g → labelled g e Excerpt →
  ∃ cl a,
    sole_source g HAS_EXCERPT e cl ∧ sole_source g HAS_CLAUSE cl a ∧
    labelled g a Agreement ∧
    (cc ← (expand_any HAS_EXCERPT e (has_label ContractClause) g).*2;
     a ← (expand_in HAS_CLAUSE cc (has_label Agreement) g).*2;
     [JObj [("contract_id", node_get g a "contract_id");
            ("agreement_name", node_get g a "name");
            ("clause_type", node_get g cc "type");
            ("excerpt", node_get g e "text")]])
    = [JObj [("contract_id", node_get g a "contract_id");
             ("agreement_name", node_get g a "name");
             ("clause_type", node_get g cl "type");
             ("excerpt", node_get g e "text")]].
Proof.
  intros Hwf Ht [Hex Hcl] He.
  destruct (Hex e He) as [cl Hsole].
  destruct (Ht _ _ _ (sole_source_in _ _ _ _ Hsole)) as [Hc _]. cbn [src_label] in Hc.
  destruct (Hcl cl Hc) as [a Hsole'].
  destruct (Ht _ _ _ (sole_source_in _ _ _ _ Hsole')) as [Ha _]. cbn [src_label] in Ha.
  exists cl, a. split; [done|]. split; [done|]. split; [done|].
  rewrite (expand_any_excerpt g e cl Hwf Ht He Hsole), bind_singleton.
  by rewrite (expand_in_clause g cl a Hwf Ht Hsole'), bind_singleton.
Qed.

(** X24. On a graph built by the ingestion loop, the similar-text search
    returns exactly one entry per Excerpt node the vector index returns, in
    the order of the hits: the entry of an excerpt names its one clause
    node and the one agreement node of that clause.  (The pattern is
    written without an arrow between clause and excerpt; it still matches
    once.) *)
Theorem similar_text_one_entry_per_hit
    (vector_search : string → string → nat → graph → result (list nat))
    (clause_text : string) (contracts : list Schema.ContractExtraction) (hits : list nat) :
  let g := build_graph contracts empty_graph in
  vector_search "excerpt_vector_index" clause_text 3 g = Ok hits →
  Forall (λ e, labelled g e Excerpt) hits →
  ∃ items,
    (get_contracts_similar_text vector_search clause_text g).1 = Ok (JArr items) ∧
    Forall2 (λ e item,
               ∃ cl a,
                 sole_source g HAS_EXCERPT e cl ∧ sole_source g HAS_CLAUSE cl a ∧
                 labelled g a Agreement ∧
                 item = JObj [("contract_id", node_get g a "contract_id");
                              ("agreement_name", node_get g a "name");
                              ("clause_type", node_get g cl "type");
                              ("excerpt", node_get g e "text")])
            hits items.
Proof.
  intros g Hvs Hhits.
  assert (wf g) as Hwf by apply wf_build_graph, wf_empty.
  assert (typed g) as Ht by apply typed_build_graph, typed_empty.
  assert (owned g) as Ho by (apply owned_build_graph; [apply wf_empty|apply owned_empty]).
  unfold get_contracts_similar_text. rewrite Hvs. cbn [fst].
  eexists. split; [reflexivity|].
  clear Hvs. induction Hhits as [|e hits He _ IH]; [constructor|].
  rewrite bind_cons.
  destruct (similar_text_rows g e Hwf Ht Ho He) as (cl & a & H1 & H2 & H3 & ->).
  constructor; [|exact IH]. by exists cl, a.
Qed.

Lemma similar_text_one_entry_per_hit_witness :
  let g := build_graph [msa_001; nda_003] empty_graph in
  let vector_search := λ (_ _ : string) (_ : nat) (_ : graph), Ok [9; 4; 9] in
  ∃ items,
    (get_contracts_similar_text vector_search "secret" g).1 = Ok (JArr items) ∧
    Forall2 (λ e item,
               ∃ cl a,
                 sole_source g HAS_EXCERPT e cl ∧ sole_source g HAS_CLAUSE cl a ∧
                 labelled g a Agreement ∧
                 item = JObj [("contract_id", node_get g a "contract_id");
                              ("agreement_name", node_get g a "name");
                              ("clause_type", node_get g cl "type");
                              ("excerpt", node_get g e "text")])
            [9; 4; 9] items.
Proof.
  intros g vector_search.
  apply (similar_text_one_entry_per_hit vector_search "secret" [msa_001; nda_003] [9; 4; 9]).
  - reflexivity.
  - repeat constructor; eexists; (split; [vm_compute; reflexivity|reflexivity]).
Defined.

(** * Relationship properties follow the latest ingestion *)

Lemma rel_at_ext g g' i t : ext g g' → rel_at g i t → rel_at g' i t.
Proof.
  intros (ns & ss & _ & Hs) (s & d & Hi). exists s, d. rewrite Hs.
  by apply lookup_app_l_Some.
Qed.

Lemma rel_at_lookup g i t R : rel_at g i t → rels g !! i = Some R → rtype R = t.
Proof.
  intros (s & d & Hi) HR. unfold shapes in Hi. rewrite list_lookup_fmap, HR in Hi.
  simpl in Hi. by injection Hi as -> _ _.
Qed.

(** The rows of a relationship [MERGE] are relationships of its shape. *)
Lemma merge_rel_rows t s d g :
  Forall (λ i, shapes (merge_rel t s d g).1 !! i = Some (t, s, d)) (merge_rel t s d g).2.
Proof.
  destruct (merge_rel t s d g) as [g' rows] eqn:E.
  apply merge_rel_inv in E as [(Hnil & -> & ->)|(Hne & -> & ->)]; simpl.
  - constructor; [|done]. rewrite shapes_snoc.
    replace (length (rels g)) with (length (shapes (Graph (nodes g) (rels g))))
      by (unfold shapes; simpl; by rewrite length_fmap).
    by rewrite list_lookup_middle.
  - apply Forall_forall. intros i Hi. rewrite match_rels_shapes in Hi.
    apply elem_of_find_all in Hi as (sh & Hsh & ->%bool_decide_eq_true). done.
Qed.

Section keeps_rel_frame.
Variables (r : nat) (R : rel).
Hypothesis HR : rtype R = GOVERNED_BY_LAW.

Lemma keeps_rel_nodes ns g : keeps_rel r R g → keeps_rel r R (Graph ns (rels g)).
Proof. done. Qed.

Lemma keeps_rel_merge_node L k v oc g :
  keeps_rel r R g → keeps_rel r R (merge_node L k v oc g).1.
Proof.
  intros HI. destruct (merge_node L k v oc g) as [g' t] eqn:E.
  by apply merge_node_inv in E as [(_ & -> & _)|(_ & -> & _)].
Qed.

Lemma keeps_rel_merge_rel t s d g :
  keeps_rel r R g → keeps_rel r R (merge_rel t s d g).1.
Proof.
  intros HI. destruct (merge_rel t s d g) as [g' rows] eqn:E.
  apply merge_rel_inv in E as [(_ & -> & _)|(_ & -> & _)]; [|done].
  by apply lookup_app_l_Some.
Qed.

Lemma keeps_rel_merge_path t s L k v g :
  keeps_rel r R g → keeps_rel r R (merge_path t s L k v g).1.
Proof.
  intros HI. destruct (merge_path t s L k v g) as [g' rows] eqn:E.
  apply merge_path_inv in E as [(_ & -> & _)|(_ & -> & _)]; [|done].
  by apply lookup_app_l_Some.
Qed.

(** [SET] on a relationship of another type. *)
Lemma keeps_rel_set_rel_prop i t k v g :
  t ≠ GOVERNED_BY_LAW → rel_at g i t →
  keeps_rel r R g → keeps_rel r R (set_rel_prop i k v g).
Proof.
  intros Ht Hi HI. unfold keeps_rel, set_rel_prop in *. simpl.
  rewrite list_lookup_alter_ne; [done|]. intros ->.
  apply Ht. rewrite <- HR. symmetry. by eapply rel_at_lookup.
Qed.

Lemma keeps_rel_party_body ag party g :
  keeps_rel r R g → keeps_rel r R (party_body ag party g).
Proof.
  intros HI. unfold party_body.
  (* MERGE (p:Organization {name: party.name}) *)
  pose proof (keeps_rel_merge_node Organization "name" (VStr (Schema.name party)) ∅ g HI)
    as HI1.
  destruct (merge_node Organization "name" (VStr (Schema.name party)) ∅ g) as [g1 t1].
  simpl in HI1.
  (* MERGE (p)-[ipt:IS_PARTY_TO]->(agreement) *)
  step_per_row (keeps_rel r R) (λ (_ : graph) (_ : nat), True)
               (λ g (row : nat * nat), rel_at g row.2 IS_PARTY_TO).
  { done. }
  { intros. by eapply rel_at_ext. }
  { ext_go. }
  { intros p gx HIx _.
    pose proof (keeps_rel_merge_rel IS_PARTY_TO p ag gx HIx) as HI'.
    pose proof (merge_rel_rows IS_PARTY_TO p ag gx) as Hrows.
    destruct (merge_rel IS_PARTY_TO p ag gx) as [g' rs]. simpl in *.
    split; [done|]. apply Forall_fmap. eapply Forall_impl; [exact Hrows|].
    intros i Hi. simpl. by exists p, ag. }
  { done. }
  { by apply Forall_true. }
  (* SET ipt.role = party.role *)
  step_foreach (keeps_rel r R) (λ g (row : nat * nat), rel_at g row.2 IS_PARTY_TO).
  { intros. by eapply rel_at_ext. }
  { ext_go. }
  { intros [p ipt] gx HIx Hx. by apply (keeps_rel_set_rel_prop ipt IS_PARTY_TO). }
  { done. }
  { done. }
  (* MERGE (country_of_incorporation:Country {name: party.incorporation_country}) *)
  step_per_row (keeps_rel r R) (λ (_ : graph) (_ : nat * nat), True)
               (λ (_ : graph) (_ : nat * nat), True).
  { done. }
  { done. }
  { ext_go. }
  { intros [p ipt] gx HIx _.
    pose proof (keeps_rel_merge_node Country "name"
                  (VStr (Schema.incorporation_country party)) ∅ gx HIx) as HI'.
    destruct (merge_node Country "name" (VStr (Schema.incorporation_country party)) ∅ gx)
      as [g' cs]. simpl in *.
    split; [done | by apply Forall_true]. }
  { done. }
  { by apply Forall_true. }
  (* MERGE (p)-[incorporated:INCORPORATED_IN]->(country_of_incorporation) *)
  step_per_row (keeps_rel r R) (λ (_ : graph) (_ : nat * nat), True)
               (λ g (i : nat), rel_at g i INCORPORATED_IN).
  { done. }
  { intros. by eapply rel_at_ext. }
  { ext_go. }
  { intros [p c] gx HIx _.
    pose proof (keeps_rel_merge_rel INCORPORATED_IN p c gx HIx) as HI'.
    pose proof (merge_rel_rows INCORPORATED_IN p c gx) as Hrows.
    split; [done|]. eapply Forall_impl; [exact Hrows|].
    intros i Hi. by exists p, c. }
  { done. }
  { by apply Forall_true. }
  (* SET incorporated.state = party.incorporation_state *)
  apply (foreach_inv (keeps_rel r R) (λ g (i : nat), rel_at g i INCORPORATED_IN)).
  { intros. by eapply rel_at_ext. }
  { ext_go. }
  { intros i gx HIx Hx. by apply (keeps_rel_set_rel_prop i INCORPORATED_IN). }
  { done. }
  { done. }
Qed.

Lemma keeps_rel_clause_body ag clause g :
  keeps_rel r R g → keeps_rel r R (clause_body ag clause g).
Proof.
  intros HI. cbv [clause_body create_node].
  set (cl := length (nodes g)).
  set (ty := VStr (Schema.clause_type clause)).
  set (g1 := Graph (nodes g ++ [Node ContractClause {["type" := ty]} None]) (rels g)).
  assert (keeps_rel r R g1) as HI1 by done.
  (* MERGE (agreement)-[clt:HAS_CLAUSE]->(cl) *)
  pose proof (keeps_rel_merge_rel HAS_CLAUSE ag cl g1 HI1) as HI2.
  pose proof (merge_rel_rows HAS_CLAUSE ag cl g1) as Hr2.
  destruct (merge_rel HAS_CLAUSE ag cl g1) as [g2 t2]. simpl in HI2, Hr2.
  assert (Forall (λ i, rel_at g2 i HAS_CLAUSE) t2) as Hr2'.
  { eapply Forall_impl; [exact Hr2|]. intros i Hi. by exists ag, cl. }
  (* SET clt.type = clause.clause_type *)
  step_foreach (keeps_rel r R) (λ g (i : nat), rel_at g i HAS_CLAUSE).
  { intros. by eapply rel_at_ext. }
  { ext_go. }
  { intros i gx HIx Hx. by apply (keeps_rel_set_rel_prop i HAS_CLAUSE). }
  { done. }
  { done. }
  (* FOREACH (excerpt IN clause.excerpts | MERGE (cl)-[:HAS_EXCERPT]->(e:Excerpt ...)) *)
  step_foreach (keeps_rel r R) (λ (_ : graph) (_ : nat), True).
  { done. }
  { ext_go. }
  { intros _ gx HIx _.
    apply (foreach_inv (keeps_rel r R) (λ (_ : graph) (_ : string), True));
      [done|ext_go| |done|by apply Forall_true].
    intros x gy HIy _. by apply keeps_rel_merge_path. }
  { done. }
  { by apply Forall_true. }
  (* MERGE (clType:ClauseType {name: clause.clause_type}) *)
  step_per_row (keeps_rel r R) (λ (_ : graph) (_ : nat), True) (λ (_ : graph) (_ : nat), True).
  { done. }
  { done. }
  { ext_go. }
  { intros _ gx HIx _. split; [by apply keeps_rel_merge_node | by apply Forall_true]. }
  { done. }
  { by apply Forall_true. }
  (* MERGE (cl)-[:HAS_TYPE]->(clType) *)
  apply (per_row_inv (keeps_rel r R) (λ (_ : graph) (_ : nat), True)
           (λ (_ : graph) (_ : nat), True)).
  { done. }
  { done. }
  { ext_go. }
  { intros c gx HIx _. split; [by apply keeps_rel_merge_rel | by apply Forall_true]. }
  { done. }
  { by apply Forall_true. }
Qed.
End keeps_rel_frame.

(** The first part of the statement leaves the governing-law relationship
    of the record with the state of the record. *)
Lemma upsert_agreement_state a g g' t :
  wf g → upsert_agreement a g = (g', t) →
  ∃ ag gl r R,
    t = [ag] ∧
    ag ∈ match_nodes Agreement "contract_id" (VInt (Schema.contract_id a)) g' ∧
    gl ∈ match_nodes Country "name" (VStr (Schema.country (Schema.governing_law a))) g' ∧
    rels g' !! r = Some R ∧ rel_shape R = (GOVERNED_BY_LAW, ag, gl) ∧
    rprops R !! "state" = Some (VStr (Schema.state (Schema.governing_law a))).
Proof.
  intros Hwf E. unfold upsert_agreement in E.
  destruct (merge_node Agreement _ _ _ g) as [g1 t1] eqn:E1.
  pose proof (merge_node_ext _ _ _ _ _ _ _ E1) as X1.
  apply merge_node_wf in E1 as (Hwf1 & ag & -> & Hag & _); [|done..].
  pose proof (match_nodes_lt _ _ _ _ _ Hag) as Haglt.
  simpl in E.
  destruct (merge_node Country _ _ _ g1) as [g2 t2] eqn:E2.
  pose proof (merge_node_ext _ _ _ _ _ _ _ E2) as X2.
  apply merge_node_wf in E2 as (Hwf2 & gl & -> & Hgl & _); [|done..].
  pose proof (ext_nodes_length _ _ X2) as Hlen2.
  pose proof (match_nodes_lt _ _ _ _ _ Hgl) as Hgllt.
  simpl in E.
  pose proof (merge_rel_rows GOVERNED_BY_LAW ag gl g2) as Hrows.
  destruct (merge_rel GOVERNED_BY_LAW ag gl g2) as [g3 t3] eqn:E3.
  pose proof (merge_rel_ext _ _ _ _ _ _ E3) as X3.
  apply merge_rel_wf in E3 as (Hwf3 & [gbl ->] & _); [|done|lia|done].
  simpl in E, Hrows. rewrite Forall_singleton in Hrows.
  apply list_lookup_fmap_Some in Hrows as (R0 & HR0 & ER0).
  unfold rel_shape in HR0. injection HR0 as Ht0 Hs0 Hd0.
  set (v := VStr (Schema.state (Schema.governing_law a))) in *.
  set (g4 := set_rel_prop gbl "state" v g3) in E.
  set (R := Rel (rtype R0) (rsrc R0) (rdst R0) (<["state" := v]> (rprops R0))).
  assert (keeps_rel gbl R g4) as HI4.
  { unfold keeps_rel, g4, set_rel_prop. simpl. by rewrite list_lookup_alter_eq, ER0. }
  assert (ext g3 g4) as X4 by apply set_rel_prop_ext.
  assert (keeps_rel gbl R (foreach (party_body ag) (Schema.parties a) g4)) as HI5.
  { apply (foreach_inv (keeps_rel gbl R) (λ (_ : graph) (_ : Schema.Party), True));
      [done|intros; apply party_body_ext| |done|by apply Forall_true].
    intros party gx HIx _. by apply keeps_rel_party_body. }
  pose proof (parties_loop_ext ag (Schema.parties a) g4) as X5.
  injection E as <- <-.
  exists ag, gl, gbl, R. split; [done|].
  split.
  { eapply match_nodes_ext; [|exact Hag]. do 4 (etrans; [eassumption|]). done. }
  split.
  { eapply match_nodes_ext; [|exact Hgl]. do 3 (etrans; [eassumption|]). done. }
  split; [exact HI5|]. split.
  - unfold rel_shape, R. simpl. by rewrite Ht0, Hs0, Hd0.
  - unfold R. simpl. by rewrite lookup_insert_eq.
Qed.

(** X25. The state of the governing law is a property of the
    GOVERNED_BY_LAW relationship and is written on every execution: after
    the ingestion of a record, the relationship from the Agreement node of
    its contract id to the Country node of its governing law carries the
    state of this record, whatever the store held before.  (The properties
    of the Agreement node itself are written on creation only.) *)
Theorem governing_law_state_is_latest data g :
  let a := Schema.agreement data in
  let g' := CREATE_GRAPH_QUERY data g in
  wf g →
  ∃ ag gl r R,
    match_nodes Agreement "contract_id" (VInt (Schema.contract_id a)) g' = [ag] ∧
    match_nodes Country "name" (VStr (Schema.country (Schema.governing_law a))) g' = [gl] ∧
    match_rels GOVERNED_BY_LAW ag gl g' = [r] ∧
    rels g' !! r = Some R ∧
    rprops R !! "state" = Some (VStr (Schema.state (Schema.governing_law a))).
Proof.
  intros a g' Hwf.
  pose proof (wf_CREATE_GRAPH_QUERY data g Hwf) as Hwf'. fold g' in Hwf'.
  subst g'. unfold CREATE_GRAPH_QUERY in *. fold a in Hwf' |- *.
  destruct (upsert_agreement a g) as [g1 t] eqn:E.
  destruct (upsert_agreement_state a g g1 t Hwf E)
    as (ag & gl & r & R & -> & Hag & Hgl & HR & Hsh & Hst).
  set (g' := create_clauses a [ag] g1) in *.
  assert (ext g1 g') as He by apply create_clauses_ext.
  assert (keeps_rel r R g') as HI.
  { unfold g', create_clauses. rewrite foreach_cons, foreach_nil.
    apply (foreach_inv (keeps_rel r R) (λ (_ : graph) (_ : Schema.ContractClause), True));
      [done|intros; apply clause_body_ext| |done|by apply Forall_true].
    intros c gx HIx _. apply keeps_rel_clause_body; [|done].
    by injection Hsh as -> _ _. }
  exists ag, gl, r, R.
  split.
  { apply (match_nodes_ext _ _ _ _ _ _ He) in Hag.
    by rewrite (match_nodes_unique Agreement _ _ _ _ Hwf' eq_refl Hag). }
  split.
  { apply (match_nodes_ext _ _ _ _ _ _ He) in Hgl.
    by rewrite (match_nodes_unique Country _ _ _ _ Hwf' eq_refl Hgl). }
  split; [|done].
  assert ((GOVERNED_BY_LAW, ag, gl) ∈ shapes g') as Hin.
  { rewrite <- Hsh. unfold shapes. apply list_elem_of_fmap. exists R. split; [done|].
    by eapply list_elem_of_lookup_2. }
  destruct (match_rels_unique _ _ _ _ (wf_rels g' Hwf') Hin) as [i Hi].
  rewrite Hi. f_equal.
  assert (r ∈ match_rels GOVERNED_BY_LAW ag gl g') as Hr.
  { rewrite match_rels_shapes. apply elem_of_find_all. exists (rel_shape R). split.
    - unfold shapes. by rewrite list_lookup_fmap, HI.
    - apply bool_decide_eq_true. done. }
  rewrite Hi in Hr. by apply list_elem_of_singleton in Hr.
Qed.

Lemma governing_law_state_is_latest_witness :
  let g := CREATE_GRAPH_QUERY msa_001 empty_graph in
  let g' := CREATE_GRAPH_QUERY msa_001_new_york g in
  rel_prop g 0 "state" = Some (VStr "Delaware") ∧
  node_prop g' 0 "name" = Some (VStr "MSA-001") ∧
  ∃ ag gl r R,
    match_nodes Agreement "contract_id" (VInt 1) g' = [ag] ∧
    match_nodes Country "name" (VStr "USA") g' = [gl] ∧
    match_rels GOVERNED_BY_LAW ag gl g' = [r] ∧
    rels g' !! r = Some R ∧
    rprops R !! "state" = Some (VStr "New York").
Proof.
  intros g g'. split; [reflexivity|]. split; [reflexivity|].
  apply (governing_law_state_is_latest msa_001_new_york g).
  apply wf_CREATE_GRAPH_QUERY, wf_empty.
Defined.
